(** * Infinite_Buffer: the ticket lock and the two producer/consumer buffers

    A shallow embedding of [InfiniteBuffer.cpp] and [FiniteBuffer.cpp].

    - [Int32]: the wrap-around arithmetic of the two [atomic<int>] counters.
    - [TicketLock]: [lock()] / [unlock()] and the protocol of the threads
      that contend for one lock instance.
    - [InfiniteBuffer]: the unbounded linked chain, one transition per
      statement of [produce] and [consume], threads interleaved.
    - [FiniteBuffer]: the circular chain of [BUFFER_SIZE] nodes, likewise.

    - The last part states the properties of the lock and of the buffers,
      each with an example and, where a property as first put does not
      hold, with an execution that shows it.

    Plain (non-atomic) fields are read and written under interleaving
    semantics: a state is shared by all threads and one thread executes one
    statement at a time.  A thread inside [wait()] may wake up at any time,
    so that [notify_one()] adds no behaviour; [logEvent] and the update of a
    total, each under a mutex of its own, are single steps; [new Node()]
    always returns a node; instants and durations are integer numbers of
    clock ticks. *)

From Stdlib Require Import ZArith Lia Sorted.
From Stdlib Require Ascii String.
From stdpp Require Import base list gmap.

(** ** 32-bit two's complement arithmetic ([atomic<int>::fetch_add] wraps) *)

Module Int32.

Local Open Scope Z_scope.

Definition modulus : Z := 2 ^ 32.
Definition min_int : Z := - 2 ^ 31.
Definition max_int : Z := 2 ^ 31 - 1.

Definition in_range (z : Z) : Prop := min_int <= z <= max_int.

(** The value an [int] holds after an operation whose exact result is [z]. *)
Definition wrap (z : Z) : Z := (z - min_int) mod modulus + min_int.

Lemma wrap_in_range z : in_range (wrap z).
Proof.
  unfold in_range, wrap, min_int, max_int, modulus.
  pose proof (Z.mod_pos_bound (z - - 2 ^ 31) (2 ^ 32) ltac:(lia)). lia.
Qed.

Lemma wrap_id z : in_range z -> wrap z = z.
Proof.
  unfold in_range, wrap, min_int, max_int, modulus. intros H.
  rewrite Z.mod_small by lia. lia.
Qed.

Lemma wrap_add_l a b : wrap (wrap a + b) = wrap (a + b).
Proof.
  unfold wrap. f_equal.
  replace ((a - min_int) mod modulus + min_int + b - min_int)
    with ((a - min_int) mod modulus + b) by lia.
  rewrite Z.add_mod_idemp_l by (unfold modulus; lia).
  f_equal. lia.
Qed.

Lemma wrap_succ_add a k : wrap (wrap (a + 1) + k) = wrap (a + (k + 1)).
Proof. rewrite wrap_add_l. f_equal. lia. Qed.

(** Two exact values less than one period apart wrap to different ints. *)
Lemma wrap_inj a b : wrap a = wrap b -> - modulus < a - b < modulus -> a = b.
Proof.
  unfold wrap, modulus, min_int. intros H Hd.
  pose proof (Z.div_mod (a - - 2 ^ 31) (2 ^ 32) ltac:(lia)) as Ha.
  pose proof (Z.div_mod (b - - 2 ^ 31) (2 ^ 32) ltac:(lia)) as Hb.
  assert ((a - - 2 ^ 31) mod 2 ^ 32 = (b - - 2 ^ 31) mod 2 ^ 32) as E by lia.
  lia.
Qed.

Lemma wrap_offset_zero a k :
  in_range a -> 0 <= k < modulus -> wrap (a + k) = a -> k = 0.
Proof.
  intros Ha Hk E. rewrite <- (wrap_id a Ha) in E at 2.
  apply wrap_inj in E; lia.
Qed.

End Int32.

(** ** The ticket lock ([class TicketLock]) *)

Module TicketLock.

Local Open Scope Z_scope.

(** [atomic<int> next_ticket{0}; atomic<int> now_serving{0};] *)
Record t := mk { next_ticket : Z; now_serving : Z }.

Definition init : t := mk 0 0.

(** [int my_ticket = next_ticket.fetch_add(1);] one atomic read-modify-write:
    the value read, and the lock after the increment. *)
Definition take_ticket (l : t) : Z * t :=
  (next_ticket l, mk (Int32.wrap (next_ticket l + 1)) (now_serving l)).

(** [now_serving.load() != my_ticket]: the condition of the [while] loop of
    [lock()]; the loop body only yields the processor. *)
Definition must_wait (l : t) (my_ticket : Z) : bool :=
  negb (now_serving l =? my_ticket).

(** [now_serving.fetch_add(1);] *)
Definition unlock (l : t) : t :=
  mk (next_ticket l) (Int32.wrap (now_serving l + 1)).

(** Where a thread stands with respect to one lock: outside, inside the loop
    of [lock()] with its ticket, or between [lock()] and [unlock()]. *)
Inductive phase := Out | Spin (my_ticket : Z) | Holding.

Global Instance phase_eq_dec : EqDecision phase.
Proof. solve_decision. Defined.

(** *** The waiting queue behind the two counters

    [q] lists the threads that hold a ticket, oldest first. *)
Record LockInvQ (l : t) (ph : list phase) (q : list nat) : Prop := {
  liq_range : Int32.in_range (now_serving l);
  liq_nodup : NoDup q;
  liq_elem : forall i, i ∈ q <-> exists p, ph !! i = Some p /\ p <> Out;
  liq_ticket : forall k i tk, q !! k = Some i -> ph !! i = Some (Spin tk) ->
               tk = Int32.wrap (now_serving l + Z.of_nat k);
  liq_holding : forall k i, q !! k = Some i -> ph !! i = Some Holding -> k = 0%nat;
  liq_next : next_ticket l = Int32.wrap (now_serving l + Z.of_nat (length q))
}.

Definition LockInv (l : t) (ph : list phase) : Prop := exists q, LockInvQ l ph q.

Lemma LockInvQ_init n : LockInvQ init (replicate n Out) [].
Proof.
  split; simpl.
  - unfold Int32.in_range, Int32.min_int, Int32.max_int. lia.
  - constructor.
  - intros i. split; [intros H; inversion H|].
    intros (p & Hp & Hne). apply lookup_replicate in Hp as [-> _]. done.
  - intros k i tk H. done.
  - intros k i H. done.
  - reflexivity.
Qed.

Lemma LockInvQ_length l ph q : LockInvQ l ph q -> (length q <= length ph)%nat.
Proof.
  intros I.
  assert (q ⊆+ seq 0 (length ph)) as Hs.
  { apply NoDup_submseteq; [apply I|].
    intros i Hi. apply (liq_elem _ _ _ I) in Hi as (p & Hp & _).
    apply lookup_lt_Some in Hp. apply elem_of_seq. lia. }
  apply submseteq_length in Hs. by rewrite length_seq in Hs.
Qed.

Lemma LockInvQ_request l ph q i :
  LockInvQ l ph q -> ph !! i = Some Out ->
  LockInvQ (snd (take_ticket l)) (<[i := Spin (fst (take_ticket l))]> ph) (q ++ [i]).
Proof.
  intros I Hi. pose proof (lookup_lt_Some _ _ _ Hi) as Hlt.
  assert (i ∉ q) as Hnq.
  { intros Hq. apply (liq_elem _ _ _ I) in Hq as (p & Hp & Hne). congruence. }
  split; simpl.
  - apply I.
  - apply NoDup_app. split; [apply I|]. split; [|apply NoDup_singleton].
    intros j Hj Hj'. apply list_elem_of_singleton in Hj'. by subst.
  - intros j. rewrite elem_of_app, list_elem_of_singleton.
    destruct (decide (j = i)) as [->|Hne].
    + rewrite list_lookup_insert_eq by done. split; [|tauto]. eauto.
    + rewrite list_lookup_insert_ne by done. rewrite (liq_elem _ _ _ I). tauto.
  - intros k j tk Hk Hj.
    destruct (decide (j = i)) as [->|Hne].
    + rewrite list_lookup_insert_eq in Hj by done. inversion Hj; subst tk.
      apply lookup_app_Some in Hk as [Hk | [Hge Hk]].
      * exfalso. apply Hnq. eapply list_elem_of_lookup_2; eauto.
      * apply list_lookup_singleton_Some in Hk as [Hk _].
        rewrite (liq_next _ _ _ I). f_equal. lia.
    + rewrite list_lookup_insert_ne in Hj by done.
      apply lookup_app_Some in Hk as [Hk | [Hge Hk]].
      * eapply (liq_ticket _ _ _ I); eauto.
      * apply list_lookup_singleton_Some in Hk as [_ Hk]. congruence.
  - intros k j Hk Hj.
    destruct (decide (j = i)) as [->|Hne].
    + rewrite list_lookup_insert_eq in Hj by done. discriminate.
    + rewrite list_lookup_insert_ne in Hj by done.
      apply lookup_app_Some in Hk as [Hk | [Hge Hk]].
      * eapply (liq_holding _ _ _ I); eauto.
      * apply list_lookup_singleton_Some in Hk as [_ Hk]. congruence.
  - rewrite (liq_next _ _ _ I), Int32.wrap_add_l, length_app. simpl.
    f_equal. lia.
Qed.

Lemma LockInvQ_enter l ph q i tk :
  Z.of_nat (length ph) <= Int32.modulus ->
  LockInvQ l ph q -> ph !! i = Some (Spin tk) -> must_wait l tk = false ->
  LockInvQ l (<[i := Holding]> ph) q.
Proof.
  intros Hn I Hi Hw. pose proof (lookup_lt_Some _ _ _ Hi) as Hlt.
  pose proof (LockInvQ_length _ _ _ I) as Hlen.
  unfold must_wait in Hw. apply negb_false_iff, Z.eqb_eq in Hw.
  split; try apply I.
  - intros j. rewrite (liq_elem _ _ _ I).
    destruct (decide (j = i)) as [->|Hne].
    + rewrite list_lookup_insert_eq by done. rewrite Hi.
      split; intros _; eexists; (split; [reflexivity|done]).
    + by rewrite list_lookup_insert_ne by done.
  - intros k j tk' Hk Hj.
    destruct (decide (j = i)) as [->|Hne].
    + rewrite list_lookup_insert_eq in Hj by done. discriminate.
    + rewrite list_lookup_insert_ne in Hj by done.
      eapply (liq_ticket _ _ _ I); eauto.
  - intros k j Hk Hj.
    destruct (decide (j = i)) as [->|Hne].
    + pose proof (liq_ticket _ _ _ I _ _ _ Hk Hi) as E.
      pose proof (lookup_lt_Some _ _ _ Hk) as Hkl.
      assert (Z.of_nat k = 0); [|lia].
      eapply (Int32.wrap_offset_zero (now_serving l)); [apply I|lia|congruence].
    + rewrite list_lookup_insert_ne in Hj by done.
      eapply (liq_holding _ _ _ I); eauto.
Qed.

Lemma LockInvQ_holder_head l ph q i :
  LockInvQ l ph q -> ph !! i = Some Holding -> exists q', q = i :: q'.
Proof.
  intros I Hi.
  assert (i ∈ q) as Hq by (apply (liq_elem _ _ _ I); eexists; split; [done|done]).
  apply list_elem_of_lookup in Hq as [k Hk].
  pose proof (liq_holding _ _ _ I _ _ Hk Hi) as ->.
  destruct q as [|j q']; simpl in Hk; [done|]. inversion Hk. eauto.
Qed.

Lemma LockInvQ_release l ph q i :
  LockInvQ l ph (i :: q) -> ph !! i = Some Holding ->
  LockInvQ (unlock l) (<[i := Out]> ph) q.
Proof.
  intros I Hi. pose proof (lookup_lt_Some _ _ _ Hi) as Hlt.
  pose proof (liq_nodup _ _ _ I) as Hnd. apply NoDup_cons in Hnd as [Hnq Hnd].
  split; simpl.
  - apply Int32.wrap_in_range.
  - done.
  - intros j. destruct (decide (j = i)) as [->|Hne].
    + rewrite list_lookup_insert_eq by done. split; [done|].
      intros (p & Hp & Hne). congruence.
    + rewrite list_lookup_insert_ne by done. rewrite <- (liq_elem _ _ _ I).
      rewrite elem_of_cons. tauto.
  - intros k j tk Hk Hj.
    destruct (decide (j = i)) as [->|Hne].
    + rewrite list_lookup_insert_eq in Hj by done. discriminate.
    + rewrite list_lookup_insert_ne in Hj by done.
      rewrite (liq_ticket _ _ _ I (S k) j tk Hk Hj), Int32.wrap_succ_add.
      f_equal. lia.
  - intros k j Hk Hj.
    destruct (decide (j = i)) as [->|Hne].
    + rewrite list_lookup_insert_eq in Hj by done. discriminate.
    + rewrite list_lookup_insert_ne in Hj by done.
      pose proof (liq_holding _ _ _ I (S k) j Hk Hj). lia.
  - rewrite (liq_next _ _ _ I), Int32.wrap_succ_add. simpl length. f_equal. lia.
Qed.

(** Mutual exclusion, as the queue gives it. *)
Lemma LockInv_exclusive l ph i j :
  LockInv l ph -> ph !! i = Some Holding -> ph !! j = Some Holding -> i = j.
Proof.
  intros [q I] Hi Hj.
  destruct (LockInvQ_holder_head _ _ _ _ I Hi) as [q1 E1].
  destruct (LockInvQ_holder_head _ _ _ _ I Hj) as [q2 E2]. congruence.
Qed.

End TicketLock.

(** ** Threads contending for one ticket lock

    Each thread repeats [lock(); ...; unlock();].  [requests] records, in
    order, which thread drew which ticket; [grants] records, in order, which
    thread left the loop of [lock()]. *)

Module LockClients.

Import TicketLock.
Local Open Scope Z_scope.

Record sys := Sys {
  lk : TicketLock.t;
  ph : list phase;
  requests : list (nat * Z);
  grants : list nat
}.

Definition init (n : nat) : sys := Sys TicketLock.init (replicate n Out) [] [].

Inductive action :=
| Request (i : nat)   (* thread i executes next_ticket.fetch_add(1) *)
| Enter (i : nat)     (* thread i finds now_serving == my_ticket *)
| Release (i : nat).  (* thread i executes unlock() *)

Definition step (a : action) (s : sys) : option sys :=
  match a with
  | Request i =>
      match ph s !! i with
      | Some Out =>
          let r := take_ticket (lk s) in
          Some (Sys (snd r) (<[i := Spin (fst r)]> (ph s))
                    (requests s ++ [(i, fst r)]) (grants s))
      | _ => None
      end
  | Enter i =>
      match ph s !! i with
      | Some (Spin tk) =>
          if must_wait (lk s) tk then None
          else Some (Sys (lk s) (<[i := Holding]> (ph s))
                         (requests s) (grants s ++ [i]))
      | _ => None
      end
  | Release i =>
      match ph s !! i with
      | Some Holding =>
          Some (Sys (unlock (lk s)) (<[i := Out]> (ph s)) (requests s) (grants s))
      | _ => None
      end
  end.

Fixpoint run (acts : list action) (s : sys) : option sys :=
  match acts with
  | [] => Some s
  | a :: acts' => match step a s with Some s' => run acts' s' | None => None end
  end.

Inductive reachable (n : nat) : sys -> Prop :=
| reach_init : reachable n (init n)
| reach_step s a s' : reachable n s -> step a s = Some s' -> reachable n s'.

(** The thread at the head of the queue, when it is past the loop. *)
Definition holder_part (p : list phase) (q : list nat) : list nat :=
  match q with
  | i :: _ => if decide (p !! i = Some Holding) then [i] else []
  | [] => []
  end.

Record SysInv (n : nat) (s : sys) (q served : list nat) : Prop := {
  si_len : length (ph s) = n;
  si_lock : LockInvQ (lk s) (ph s) q;
  si_requests : (requests s).*1 = served ++ q;
  si_grants : grants s = served ++ holder_part (ph s) q
}.

(** Tickets are the wrapped count of the draws before them. *)
Record TicketsInv (s : sys) : Prop := {
  ti_next : next_ticket (lk s) = Int32.wrap (Z.of_nat (length (requests s)));
  ti_nth : forall k i tk, requests s !! k = Some (i, tk) -> tk = Int32.wrap (Z.of_nat k)
}.

(** *** Long runs: where the 32-bit counters wrap *)

(** One thread, after [m] rounds of [lock(); unlock();]. *)
Definition after_rounds (m : nat) : sys :=
  Sys (mk (Int32.wrap (Z.of_nat m)) (Int32.wrap (Z.of_nat m))) [Out]
      ((fun k => (0%nat, Int32.wrap (Z.of_nat k))) <$> seq 0 m)
      (replicate m 0%nat).

(** [n] threads of which the first [k] have drawn a ticket, in order. *)
Definition after_requests (n k : nat) : sys :=
  Sys (mk (Int32.wrap (Z.of_nat k)) 0)
      (((fun i => Spin (Int32.wrap (Z.of_nat i))) <$> seq 0 k) ++ replicate (n - k) Out)
      ((fun i => (i, Int32.wrap (Z.of_nat i))) <$> seq 0 k)
      [].

(** *** Order of service *)

Lemma run_reachable n acts s s' :
  reachable n s -> run acts s = Some s' -> reachable n s'.
Proof.
  revert s. induction acts as [|a acts IH]; simpl; intros s Hs Hr.
  - by inversion Hr; subst.
  - destruct (step a s) as [s1|] eqn:E; [|done].
    eapply IH; [|exact Hr]. eapply reach_step; eauto.
Qed.

Lemma lc_tickets_inv n s : reachable n s -> TicketsInv s.
Proof.
  induction 1 as [|s a s' Hr IH Hstep].
  - split; simpl; [reflexivity|]. intros k i tk H. done.
  - destruct IH as [Hn Hk]. destruct a as [i|i|i]; simpl in Hstep.
    + destruct (ph s !! i) as [[| |]|]; try done. inversion Hstep; subst; clear Hstep.
      split; simpl.
      * rewrite Hn, Int32.wrap_add_l, length_app. simpl. f_equal. lia.
      * intros k j tk Hl. apply lookup_app_Some in Hl as [Hl|[Hge Hl]]; [eauto|].
        apply list_lookup_singleton_Some in Hl as [Hl E]. inversion E; subst.
        rewrite Hn. f_equal. lia.
    + destruct (ph s !! i) as [[|tk|]|]; try done.
      destruct (must_wait (lk s) tk); [done|]. inversion Hstep; subst. by split.
    + destruct (ph s !! i) as [[| |]|]; try done. inversion Hstep; subst. by split.
Qed.

Lemma holder_part_insert_other p q i x :
  (forall q', q <> i :: q') -> holder_part (<[i := x]> p) q = holder_part p q.
Proof.
  intros Hq. destruct q as [|j q']; [done|]. simpl.
  assert (j <> i) by (intros ->; by eapply Hq).
  by rewrite list_lookup_insert_ne by done.
Qed.

Lemma lc_sys_inv n s :
  Z.of_nat n <= Int32.modulus -> reachable n s -> exists q served, SysInv n s q served.
Proof.
  intros Hn. induction 1 as [|s a s' Hr IH Hstep].
  - exists [], []. split; simpl; try done.
    + apply length_replicate.
    + apply LockInvQ_init.
  - destruct IH as (q & served & [Hlen I Hreq Hgr]).
    destruct a as [i|i|i]; simpl in Hstep.
    + destruct (ph s !! i) as [[| |]|] eqn:Hi; try done.
      inversion Hstep; subst s'; clear Hstep.
      exists (q ++ [i]), served. split; simpl.
      * by rewrite length_insert.
      * by apply LockInvQ_request.
      * rewrite fmap_app, Hreq. simpl. by rewrite app_assoc.
      * rewrite Hgr. f_equal.
        destruct q as [|j q']; simpl.
        { rewrite list_lookup_insert_eq by (by eapply lookup_lt_Some).
          by rewrite decide_False by done. }
        assert (j <> i).
        { intros ->. assert (i ∈ i :: q') as Hq by left.
          apply (liq_elem _ _ _ I) in Hq as (p & Hp & Hne). congruence. }
        by rewrite list_lookup_insert_ne by done.
    + destruct (ph s !! i) as [[|tk|]|] eqn:Hi; try done.
      destruct (must_wait (lk s) tk) eqn:Hw; [done|].
      inversion Hstep; subst s'; clear Hstep.
      pose proof (LockInvQ_enter _ _ _ _ _ ltac:(rewrite Hlen; exact Hn) I Hi Hw) as I'.
      pose proof (lookup_lt_Some _ _ _ Hi) as Hlt.
      destruct (LockInvQ_holder_head _ _ _ i I') as [q' ->].
      { by rewrite list_lookup_insert_eq. }
      exists (i :: q'), served. split; simpl; try done.
      * by rewrite length_insert.
      * rewrite list_lookup_insert_eq by done. rewrite decide_True by done.
        rewrite Hgr. simpl. rewrite decide_False by congruence.
        by rewrite app_nil_r.
    + destruct (ph s !! i) as [[| |]|] eqn:Hi; try done.
      inversion Hstep; subst s'; clear Hstep.
      destruct (LockInvQ_holder_head _ _ _ i I Hi) as [q' ->].
      pose proof (LockInvQ_release _ _ _ _ I Hi) as I'.
      exists q', (served ++ [i]). split; simpl; try done.
      * by rewrite length_insert.
      * by rewrite Hreq, <- app_assoc.
      * rewrite Hgr. simpl. rewrite decide_True by done.
        destruct q' as [|j q'']; simpl; [by rewrite app_nil_r|].
        assert (j <> i).
        { intros ->. pose proof (liq_nodup _ _ _ I) as Hnd.
          apply NoDup_cons in Hnd as [Hnd _]. apply Hnd. left. }
        rewrite list_lookup_insert_ne by done.
        rewrite decide_False; [by rewrite app_nil_r|].
        intros Hj. pose proof (liq_holding _ _ _ I 1%nat j eq_refl Hj). lia.
Qed.

(** Grants follow requests: the threads that left the loop of [lock()], in
    order, are the first threads that drew a ticket, in order. *)
Lemma lc_fifo n s :
  Z.of_nat n <= Int32.modulus -> reachable n s ->
  grants s `prefix_of` (requests s).*1.
Proof.
  intros Hn Hr. destruct (lc_sys_inv _ _ Hn Hr) as (q & served & [_ I Hreq Hgr]).
  rewrite Hreq, Hgr. apply prefix_app. unfold holder_part.
  destruct q as [|i q]; [done|]. case_decide; [|apply prefix_nil].
  by exists q.
Qed.

(** At most one thread is between [lock()] and [unlock()]. *)
Lemma lc_exclusive n s i j :
  Z.of_nat n <= Int32.modulus -> reachable n s ->
  ph s !! i = Some Holding -> ph s !! j = Some Holding -> i = j.
Proof.
  intros Hn Hr. destruct (lc_sys_inv _ _ Hn Hr) as (q & served & [_ I _ _]).
  apply (LockInv_exclusive (lk s)). by exists q.
Qed.

(** A waiting thread leaves the loop exactly when every earlier request has
    been granted and the lock has been released by all of them. *)
Lemma lc_enter_iff n s i tk :
  Z.of_nat n <= Int32.modulus -> reachable n s -> ph s !! i = Some (Spin tk) ->
  (is_Some (step (Enter i) s) <->
   (exists rest, (requests s).*1 = grants s ++ i :: rest) /\
   (forall j, ph s !! j <> Some Holding)).
Proof.
  intros Hn Hr Hi. destruct (lc_sys_inv _ _ Hn Hr) as (q & served & [Hlen I Hreq Hgr]).
  pose proof (LockInvQ_length _ _ _ I) as Hql.
  assert (i ∈ q) as Hq by (apply (liq_elem _ _ _ I); eexists; split; [done|done]).
  apply list_elem_of_lookup in Hq as [k Hk].
  pose proof (liq_ticket _ _ _ I _ _ _ Hk Hi) as Htk.
  pose proof (lookup_lt_Some _ _ _ Hk) as Hkl.
  simpl. rewrite Hi. unfold must_wait.
  destruct (decide (k = 0%nat)) as [->|Hk0].
  - (* the oldest ticket *)
    destruct q as [|i' q']; [done|]. simpl in Hk. inversion Hk; subst i'.
    assert (tk = now_serving (lk s)) as ->.
    { rewrite Htk. simpl. rewrite Z.add_0_r. apply Int32.wrap_id, I. }
    rewrite Z.eqb_refl. simpl. split; [intros _|by eexists].
    simpl in Hgr. rewrite decide_False in Hgr by congruence.
    rewrite app_nil_r in Hgr. subst served. split; [by exists q'|].
    intros j Hj. destruct (LockInvQ_holder_head _ _ _ j I Hj) as [q'' E].
    inversion E; subst. congruence.
  - (* a younger ticket *)
    assert (now_serving (lk s) <> tk) as Hne.
    { intros E. assert (Z.of_nat k = 0); [|lia].
      eapply (Int32.wrap_offset_zero (now_serving (lk s))); [apply I| |congruence].
      rewrite Hlen in Hql. lia. }
    apply Z.eqb_neq in Hne. rewrite Hne. simpl. split; [by intros []|].
    intros [[rest Hrest] Hfree]. exfalso.
    rewrite Hreq, Hgr in Hrest.
    assert (holder_part (ph s) q = []) as Hhp.
    { unfold holder_part. destruct q as [|i' q']; [done|].
      rewrite decide_False; [done|]. apply Hfree. }
    rewrite Hhp, app_nil_r in Hrest. apply app_inv_head in Hrest. subst q.
    destruct k; [done|]. simpl in Hk.
    pose proof (liq_nodup _ _ _ I) as Hnd. apply NoDup_cons in Hnd as [Hnd _].
    apply Hnd. eapply list_elem_of_lookup_2; eauto.
Qed.

(** The [k]-th ticket drawn from a lock is [k], wrapped to an [int]. *)
Lemma lc_ticket_nth n s k i tk :
  reachable n s -> requests s !! k = Some (i, tk) -> tk = Int32.wrap (Z.of_nat k).
Proof. intros Hr. apply (ti_nth _ (lc_tickets_inv _ _ Hr)). Qed.

(** *** Long runs *)

Lemma after_rounds_step m :
  run [Request 0; Enter 0; Release 0] (after_rounds m) = Some (after_rounds (S m)).
Proof.
  unfold after_rounds, run, step. cbn [ph lk requests grants lookup list_lookup].
  unfold take_ticket, must_wait, unlock.
  cbn [fst snd next_ticket now_serving ph lk requests grants lookup list_lookup
       list_insert insert].
  rewrite Z.eqb_refl. cbn [negb ph lk requests grants lookup list_lookup list_insert insert
       next_ticket now_serving].
  rewrite Int32.wrap_add_l.
  replace (Z.of_nat m + 1) with (Z.of_nat (S m)) by lia.
  rewrite seq_S, fmap_app. cbn [fmap list_fmap Nat.add].
  do 2 f_equal. symmetry. apply replicate_S_end.
Qed.

Lemma after_rounds_reachable m : reachable 1 (after_rounds m).
Proof.
  induction m as [|m IH].
  - apply reach_init.
  - eapply run_reachable; [exact IH|apply after_rounds_step].
Qed.

(** One more [lock()] after [m] rounds: the thread draws ticket [m],
    wrapped; the first ticket it ever drew was [0]. *)
Lemma after_rounds_next_ticket m :
  exists s, reachable 1 s /\
    requests s !! m = Some (0%nat, Int32.wrap (Z.of_nat m)) /\
    requests s !! 0%nat = Some (0%nat, 0).
Proof.
  destruct (step (Request 0) (after_rounds m)) as [s|] eqn:E; [|done].
  exists s. split; [eapply reach_step; [apply after_rounds_reachable|exact E]|].
  unfold step, after_rounds in E. cbn [ph lookup list_lookup] in E.
  inversion E; subst s; clear E. cbn [requests take_ticket fst snd next_ticket lk].
  split.
  - rewrite lookup_app_r; rewrite length_fmap, length_seq; [|done].
    by rewrite Nat.sub_diag.
  - destruct m as [|m]; [done|]. rewrite lookup_app_l by (rewrite length_fmap, length_seq; lia).
    rewrite list_lookup_fmap, lookup_seq_lt by lia. done.
Qed.

Lemma after_requests_reachable n k : (k <= n)%nat -> reachable n (after_requests n k).
Proof.
  induction k as [|k IH]; intros Hk.
  - unfold after_requests. simpl. rewrite Nat.sub_0_r. apply reach_init.
  - eapply (reach_step _ _ (Request k)); [apply IH; lia|].
    unfold step, after_requests. cbn [ph lk requests grants].
    rewrite lookup_app_r; rewrite length_fmap, length_seq; [|done].
    rewrite Nat.sub_diag.
    replace (n - k)%nat with (S (n - S k)) by lia.
    cbn [replicate lookup list_lookup]. unfold take_ticket.
    cbn [fst snd next_ticket now_serving].
    rewrite Int32.wrap_add_l. replace (Z.of_nat k + 1) with (Z.of_nat (S k)) by lia.
    rewrite !seq_S, !fmap_app. cbn [fmap list_fmap Nat.add].
    f_equal. f_equal.
    rewrite <- app_assoc. cbn [app].
    rewrite (insert_app_r_alt _ _ k) by (rewrite length_fmap, length_seq; lia).
    rewrite length_fmap, length_seq, Nat.sub_diag. done.
Qed.

(** With more threads than the counters have values, two waiting threads
    hold the same ticket: the youngest can go first. *)
Lemma after_requests_overtake n :
  Z.of_nat n = Int32.modulus + 1 ->
  exists s, reachable n s /\ grants s = [(n - 1)%nat] /\
    (requests s).*1 !! 0%nat = Some 0%nat /\
    is_Some (step (Enter 0) s).
Proof.
  intros Hn.
  assert (2 <= n)%nat as Hn2 by (unfold Int32.modulus in Hn; lia).
  assert (n = S (n - 1)) as En by lia.
  assert (Int32.wrap (Z.of_nat (n - 1)) = 0) as Hw.
  { replace (Z.of_nat (n - 1)) with Int32.modulus by lia. reflexivity. }
  assert (step (Enter (n - 1)) (after_requests n n) =
          Some (Sys (lk (after_requests n n))
                    (<[(n - 1)%nat := Holding]> (ph (after_requests n n)))
                    (requests (after_requests n n)) [(n - 1)%nat])) as E.
  { unfold step. unfold after_requests at 1. cbn [ph].
    rewrite Nat.sub_diag. cbn [replicate]. rewrite app_nil_r.
    rewrite list_lookup_fmap, lookup_seq_lt by lia. cbn [fmap option_fmap option_map Nat.add].
    rewrite Hw. unfold must_wait, after_requests. cbn [now_serving lk grants].
    done. }
  eexists. split; [eapply reach_step; [apply (after_requests_reachable n n); lia|exact E]|].
  cbn [grants requests]. split; [done|]. split.
  - unfold after_requests. cbn [requests]. rewrite <- list_fmap_compose.
    rewrite list_lookup_fmap, lookup_seq_lt by lia. done.
  - unfold step. cbn [ph]. unfold after_requests. cbn [ph lk].
    rewrite Nat.sub_diag. cbn [replicate]. rewrite app_nil_r.
    rewrite list_lookup_insert_ne by lia.
    rewrite list_lookup_fmap, lookup_seq_lt by lia. cbn [fmap option_fmap option_map Nat.add].
    unfold must_wait. cbn [now_serving]. done.
Qed.

End LockClients.

(** ** Data shared by the two buffers *)

(** [struct Node { int data; bool filled; Node* next; }].  A pointer is an
    address; [nullptr] is address [0], which no node ever occupies. *)
Record Node := mkNode { data : Z; filled : bool; next : nat }.

Definition nullptr : nat := 0.

(** [Node() : data(0), filled(false), next(nullptr) {}] *)
Definition new_Node : Node := mkNode 0 false nullptr.

Definition set_data (v : Z) (n : Node) : Node := mkNode v (filled n) (next n).
Definition set_filled (b : bool) (n : Node) : Node := mkNode (data n) b (next n).
Definition set_next (a : nat) (n : Node) : Node := mkNode (data n) (filled n) a.

(** One line of the logger file: who did what, with the wait it reports. *)
Inductive role := Producer | Consumer.

Global Instance role_eq_dec : EqDecision role.
Proof. solve_decision. Defined.

Record Event := mkEvent {
  ev_timestamp : Z;
  ev_role : role;
  ev_id : nat;
  ev_value : Z;
  ev_waited : Z
}.

(** The values of the events of one role, in the order of the log. *)
Definition values_of (r : role) (l : list Event) : list Z :=
  ev_value <$> filter (fun e => ev_role e = r) l.

(** The wait durations reported by the events of one role, summed. *)
Definition waited_of (r : role) (l : list Event) : Z :=
  foldr Z.add 0%Z (ev_waited <$> filter (fun e => ev_role e = r) l).

(** What executing one statement does: the next state, nothing yet (the thread
    is blocked, or the environment's choice is not a possible one), or
    undefined behaviour (a null or dangling pointer is used). *)
Inductive outcome (S : Type) := Next (s : S) | Blocked | Fault.
Arguments Next {S} s.
Arguments Blocked {S}.
Arguments Fault {S}.

(** The sum of [f] over a list. *)
Definition sumZ {A} (f : A -> Z) (l : list A) : Z := foldr (fun x acc => (f x + acc)%Z) 0%Z l.

Section shared_lemmas.
Local Open Scope Z_scope.

Lemma fmap_insert_same {A B} (f : A -> B) (l : list A) i x y :
  l !! i = Some x -> f y = f x -> f <$> <[i := y]> l = f <$> l.
Proof.
  intros Hl Hf. rewrite list_fmap_insert. apply list_insert_id.
  by rewrite list_lookup_fmap, Hl, Hf.
Qed.

Lemma values_of_snoc r l e :
  values_of r (l ++ [e]) =
  values_of r l ++ (if decide (ev_role e = r) then [ev_value e] else []).
Proof.
  unfold values_of. rewrite filter_app, fmap_app. f_equal.
  rewrite filter_cons, filter_nil. by destruct (decide (ev_role e = r)).
Qed.

Lemma sumZ_app {A} (f : A -> Z) l1 l2 : sumZ f (l1 ++ l2) = sumZ f l1 + sumZ f l2.
Proof. induction l1 as [|x l1 IH]; simpl; [done|]. rewrite IH. lia. Qed.

Lemma sumZ_insert {A} (f : A -> Z) (l : list A) i x y :
  l !! i = Some x -> sumZ f (<[i := y]> l) = sumZ f l - f x + f y.
Proof.
  revert i. induction l as [|z l IH]; intros i Hi; [done|].
  destruct i as [|i]; simpl in *.
  - inversion Hi; subst. lia.
  - rewrite (IH i Hi). lia.
Qed.

Lemma sumZ_replicate_0 {A} (f : A -> Z) n x : f x = 0 -> sumZ f (replicate n x) = 0.
Proof. intros H. induction n as [|n IH]; simpl; [done|]. lia. Qed.

Lemma waited_of_snoc r l e :
  waited_of r (l ++ [e]) =
  waited_of r l + (if decide (ev_role e = r) then ev_waited e else 0).
Proof.
  unfold waited_of. rewrite filter_app, fmap_app, foldr_app.
  rewrite filter_cons, filter_nil.
  generalize (ev_waited <$> filter (fun e0 => ev_role e0 = r) l).
  intros ws. destruct (decide (ev_role e = r)); simpl.
  - induction ws as [|w ws IH]; simpl; lia.
  - lia.
Qed.

Lemma filter_ext_Forall {A} (P Q : A -> Prop) `{forall x, Decision (P x)}
    `{forall x, Decision (Q x)} (l : list A) :
  Forall (fun x => P x <-> Q x) l -> filter P l = filter Q l.
Proof.
  induction 1 as [|x l Hx Hl IH]; [done|].
  rewrite !filter_cons, IH. destruct (decide (P x)), (decide (Q x)); tauto.
Qed.

Lemma filter_none {A} (P : A -> Prop) `{forall x, Decision (P x)} (l : list A) :
  Forall (fun x => ~ P x) l -> filter P l = [].
Proof.
  induction 1 as [|x l Hx Hl IH]; [done|]. by rewrite filter_cons_False.
Qed.

Lemma sumZ_Forall_0 {A} (f : A -> Z) (l : list A) :
  Forall (fun x => f x = 0) l -> sumZ f l = 0.
Proof. induction 1 as [|x l Hx _ IH]; simpl; [done|]. lia. Qed.

End shared_lemmas.

(** ** The unbounded buffer ([InfiniteBuffer.cpp], [class LinkedListBuffer]) *)

Module InfiniteBuffer.

Local Open Scope Z_scope.

(** The statement a producer thread executes next, inside [produce]. *)
Inductive ppc :=
| PIdle      (* not in a call; next: request_lock_time = now() *)
| PTicket    (* my_ticket = next_ticket.fetch_add(1) *)
| PSpin      (* while (now_serving.load() != my_ticket) yield *)
| PAcquired  (* acquired_lock_time = now(); wait_duration = ... *)
| PWrite     (* head->data = item *)
| PAlloc     (* Node* new_node = new Node() *)
| PLink      (* head->next = new_node *)
| PFill      (* head->filled = true *)
| PAdvance   (* head = new_node *)
| PStamp     (* now = now(); timestamp = now - start_time *)
| PLog       (* logEvent(...) *)
| PUnlock    (* ticket_lock_producer.unlock() *)
| PNotify    (* cv_not_empty.notify_one() *)
| PEnd       (* end = now() *)
| PStats.    (* total_produce_time += end - request_lock_time; return *)

(** The locals of [produce]. *)
Record pthread := mkP {
  p_pc : ppc;
  p_item : Z;
  p_request : Z;
  p_ticket : Z;
  p_wait : Z;
  p_new : nat;
  p_timestamp : Z;
  p_end : Z
}.

Definition p_idle : pthread := mkP PIdle 0 0 0 0 nullptr 0 0.

(** The statement a consumer thread executes next, inside [consume]. *)
Inductive cpc :=
| CIdle      (* not in a call; next: request_lock_time = now() *)
| CLock      (* unique_lock<mutex> lock(mutex_consumer) *)
| CWait      (* cv_not_empty.wait: test tail->filled *)
| CSleep     (* inside wait(), mutex released; next: wake up and re-lock *)
| CAcquired  (* acquired_lock_time = now(); wait_duration = ... *)
| CRead      (* int item = tail->data *)
| CClear     (* tail->filled = false *)
| CStamp     (* now = now(); timestamp = now - start_time *)
| CLog       (* logEvent(...) *)
| CTemp      (* Node* temp = tail *)
| CAdv       (* tail = tail->next *)
| CDelete    (* delete temp *)
| CUnlock    (* lock.unlock() *)
| CEnd       (* end = now() *)
| CStats.    (* total_consume_time += end - request_lock_time; return item *)

(** The locals of [consume]. *)
Record cthread := mkC {
  c_pc : cpc;
  c_request : Z;
  c_wait : Z;
  c_item : Z;
  c_timestamp : Z;
  c_temp : nat;
  c_end : Z
}.

Definition c_idle : cthread := mkC CIdle 0 0 0 0 nullptr 0.

(** The buffer object, the clock, the log file and the threads.  The last
    three fields record what the callers observe: each value a [consume]
    returned with the thread it returned to, and the duration [end -
    request_lock_time] each completed call measured. *)
Record state := mkState {
  heap : gmap nat Node;
  head : nat;
  tail : nat;
  ticket_lock_producer : TicketLock.t;
  mutex_consumer : option nat;
  total_produce_time : Z;
  total_consume_time : Z;
  start_time : Z;
  clock : Z;
  log : list Event;
  producers : list pthread;
  consumers : list cthread;
  returned : list (nat * Z);
  produce_durations : list Z;
  consume_durations : list Z
}.

(** [LinkedListBuffer()]: one dummy node, [tail = head]; the node gets the
    first address. *)
Definition init (np nc : nat) : state :=
  mkState {[ 1%nat := new_Node ]} 1%nat 1%nat TicketLock.init None 0 0 0 0 []
          (replicate np p_idle) (replicate nc c_idle) [] [] [].

Definition with_heap (h : gmap nat Node) (s : state) : state :=
  mkState h (head s) (tail s) (ticket_lock_producer s) (mutex_consumer s)
    (total_produce_time s) (total_consume_time s) (start_time s) (clock s) (log s)
    (producers s) (consumers s) (returned s) (produce_durations s) (consume_durations s).

Definition with_head (a : nat) (s : state) : state :=
  mkState (heap s) a (tail s) (ticket_lock_producer s) (mutex_consumer s)
    (total_produce_time s) (total_consume_time s) (start_time s) (clock s) (log s)
    (producers s) (consumers s) (returned s) (produce_durations s) (consume_durations s).

Definition with_tail (a : nat) (s : state) : state :=
  mkState (heap s) (head s) a (ticket_lock_producer s) (mutex_consumer s)
    (total_produce_time s) (total_consume_time s) (start_time s) (clock s) (log s)
    (producers s) (consumers s) (returned s) (produce_durations s) (consume_durations s).

Definition with_lock (l : TicketLock.t) (s : state) : state :=
  mkState (heap s) (head s) (tail s) l (mutex_consumer s)
    (total_produce_time s) (total_consume_time s) (start_time s) (clock s) (log s)
    (producers s) (consumers s) (returned s) (produce_durations s) (consume_durations s).

Definition with_mutex (m : option nat) (s : state) : state :=
  mkState (heap s) (head s) (tail s) (ticket_lock_producer s) m
    (total_produce_time s) (total_consume_time s) (start_time s) (clock s) (log s)
    (producers s) (consumers s) (returned s) (produce_durations s) (consume_durations s).

Definition with_clock (c : Z) (s : state) : state :=
  mkState (heap s) (head s) (tail s) (ticket_lock_producer s) (mutex_consumer s)
    (total_produce_time s) (total_consume_time s) (start_time s) c (log s)
    (producers s) (consumers s) (returned s) (produce_durations s) (consume_durations s).

Definition with_log (l : list Event) (s : state) : state :=
  mkState (heap s) (head s) (tail s) (ticket_lock_producer s) (mutex_consumer s)
    (total_produce_time s) (total_consume_time s) (start_time s) (clock s) l
    (producers s) (consumers s) (returned s) (produce_durations s) (consume_durations s).

Definition with_producer (i : nat) (p : pthread) (s : state) : state :=
  mkState (heap s) (head s) (tail s) (ticket_lock_producer s) (mutex_consumer s)
    (total_produce_time s) (total_consume_time s) (start_time s) (clock s) (log s)
    (<[i := p]> (producers s)) (consumers s) (returned s)
    (produce_durations s) (consume_durations s).

Definition with_consumer (j : nat) (c : cthread) (s : state) : state :=
  mkState (heap s) (head s) (tail s) (ticket_lock_producer s) (mutex_consumer s)
    (total_produce_time s) (total_consume_time s) (start_time s) (clock s) (log s)
    (producers s) (<[j := c]> (consumers s)) (returned s)
    (produce_durations s) (consume_durations s).

(** [total_produce_time += d], a completed [produce]. *)
Definition add_produce_time (d : Z) (s : state) : state :=
  mkState (heap s) (head s) (tail s) (ticket_lock_producer s) (mutex_consumer s)
    (total_produce_time s + d) (total_consume_time s) (start_time s) (clock s) (log s)
    (producers s) (consumers s) (returned s)
    (produce_durations s ++ [d]) (consume_durations s).

(** [total_consume_time += d; return item], a completed [consume]. *)
Definition add_consume_time (j : nat) (item d : Z) (s : state) : state :=
  mkState (heap s) (head s) (tail s) (ticket_lock_producer s) (mutex_consumer s)
    (total_produce_time s) (total_consume_time s + d) (start_time s) (clock s) (log s)
    (producers s) (consumers s) (returned s ++ [(j, item)])
    (produce_durations s) (consume_durations s ++ [d]).

Definition p_at (pc : ppc) (p : pthread) : pthread :=
  mkP pc (p_item p) (p_request p) (p_ticket p) (p_wait p) (p_new p) (p_timestamp p) (p_end p).

Definition c_at (pc : cpc) (c : cthread) : cthread :=
  mkC pc (c_request c) (c_wait c) (c_item c) (c_timestamp c) (c_temp c) (c_end c).

(** One statement of [produce], executed by producer [i] whose locals are
    [p].  [item] is the argument of the call when the statement is the call
    itself; [a] is the address [new] returns when the statement allocates. *)
Definition produce_step (i : nat) (p : pthread) (item : Z) (a : nat) (s : state)
  : outcome state :=
  match p_pc p with
  | PIdle =>
      Next (with_producer i
        (mkP PTicket item (clock s) (p_ticket p) (p_wait p) (p_new p) (p_timestamp p) (p_end p)) s)
  | PTicket =>
      let r := TicketLock.take_ticket (ticket_lock_producer s) in
      Next (with_producer i
        (mkP PSpin (p_item p) (p_request p) (fst r) (p_wait p) (p_new p) (p_timestamp p) (p_end p))
        (with_lock (snd r) s))
  | PSpin =>
      if TicketLock.must_wait (ticket_lock_producer s) (p_ticket p) then Blocked
      else Next (with_producer i (p_at PAcquired p) s)
  | PAcquired =>
      Next (with_producer i
        (mkP PWrite (p_item p) (p_request p) (p_ticket p) (clock s - p_request p) (p_new p)
             (p_timestamp p) (p_end p)) s)
  | PWrite =>
      match heap s !! head s with
      | Some n => Next (with_producer i (p_at PAlloc p)
                          (with_heap (<[head s := set_data (p_item p) n]> (heap s)) s))
      | None => Fault
      end
  | PAlloc =>
      if decide (a <> nullptr /\ heap s !! a = None) then
        Next (with_producer i
          (mkP PLink (p_item p) (p_request p) (p_ticket p) (p_wait p) a (p_timestamp p) (p_end p))
          (with_heap (<[a := new_Node]> (heap s)) s))
      else Blocked
  | PLink =>
      match heap s !! head s with
      | Some n => Next (with_producer i (p_at PFill p)
                          (with_heap (<[head s := set_next (p_new p) n]> (heap s)) s))
      | None => Fault
      end
  | PFill =>
      match heap s !! head s with
      | Some n => Next (with_producer i (p_at PAdvance p)
                          (with_heap (<[head s := set_filled true n]> (heap s)) s))
      | None => Fault
      end
  | PAdvance =>
      Next (with_producer i (p_at PStamp p) (with_head (p_new p) s))
  | PStamp =>
      Next (with_producer i
        (mkP PLog (p_item p) (p_request p) (p_ticket p) (p_wait p) (p_new p)
             (clock s - start_time s) (p_end p)) s)
  | PLog =>
      Next (with_producer i (p_at PUnlock p)
        (with_log (log s ++ [mkEvent (p_timestamp p) Producer i (p_item p) (p_wait p)]) s))
  | PUnlock =>
      Next (with_producer i (p_at PNotify p)
        (with_lock (TicketLock.unlock (ticket_lock_producer s)) s))
  | PNotify =>
      Next (with_producer i (p_at PEnd p) s)
  | PEnd =>
      Next (with_producer i
        (mkP PStats (p_item p) (p_request p) (p_ticket p) (p_wait p) (p_new p)
             (p_timestamp p) (clock s)) s)
  | PStats =>
      Next (with_producer i (p_at PIdle p) (add_produce_time (p_end p - p_request p) s))
  end.

(** One statement of [consume], executed by consumer [j] whose locals are
    [c].  A thread inside [wait()] may wake up at any time (the C++ standard
    allows spurious wake-ups), so [notify_one] adds no behaviour. *)
Definition consume_step (j : nat) (c : cthread) (s : state) : outcome state :=
  match c_pc c with
  | CIdle =>
      Next (with_consumer j
        (mkC CLock (clock s) (c_wait c) (c_item c) (c_timestamp c) (c_temp c) (c_end c)) s)
  | CLock | CSleep =>
      match mutex_consumer s with
      | None => Next (with_consumer j (c_at CWait c) (with_mutex (Some j) s))
      | Some _ => Blocked
      end
  | CWait =>
      match heap s !! tail s with
      | Some n =>
          if filled n then Next (with_consumer j (c_at CAcquired c) s)
          else Next (with_consumer j (c_at CSleep c) (with_mutex None s))
      | None => Fault
      end
  | CAcquired =>
      Next (with_consumer j
        (mkC CRead (c_request c) (clock s - c_request c) (c_item c) (c_timestamp c)
             (c_temp c) (c_end c)) s)
  | CRead =>
      match heap s !! tail s with
      | Some n => Next (with_consumer j
          (mkC CClear (c_request c) (c_wait c) (data n) (c_timestamp c) (c_temp c) (c_end c)) s)
      | None => Fault
      end
  | CClear =>
      match heap s !! tail s with
      | Some n => Next (with_consumer j (c_at CStamp c)
                          (with_heap (<[tail s := set_filled false n]> (heap s)) s))
      | None => Fault
      end
  | CStamp =>
      Next (with_consumer j
        (mkC CLog (c_request c) (c_wait c) (c_item c) (clock s - start_time s)
             (c_temp c) (c_end c)) s)
  | CLog =>
      Next (with_consumer j (c_at CTemp c)
        (with_log (log s ++ [mkEvent (c_timestamp c) Consumer j (c_item c) (c_wait c)]) s))
  | CTemp =>
      Next (with_consumer j
        (mkC CAdv (c_request c) (c_wait c) (c_item c) (c_timestamp c) (tail s) (c_end c)) s)
  | CAdv =>
      match heap s !! tail s with
      | Some n => Next (with_consumer j (c_at CDelete c) (with_tail (next n) s))
      | None => Fault
      end
  | CDelete =>
      if decide (c_temp c = nullptr) then Next (with_consumer j (c_at CUnlock c) s)
      else match heap s !! c_temp c with
           | Some _ => Next (with_consumer j (c_at CUnlock c)
                               (with_heap (delete (c_temp c) (heap s)) s))
           | None => Fault
           end
  | CUnlock =>
      Next (with_consumer j (c_at CEnd c) (with_mutex None s))
  | CEnd =>
      Next (with_consumer j
        (mkC CStats (c_request c) (c_wait c) (c_item c) (c_timestamp c) (c_temp c) (clock s)) s)
  | CStats =>
      Next (with_consumer j (c_at CIdle c)
        (add_consume_time j (c_item c) (c_end c - c_request c) s))
  end.

(** The scheduler picks a thread, which executes its next statement; or time
    passes. *)
Inductive action :=
| Tick (d : Z)
| Prod (i : nat) (item : Z) (a : nat)
| Cons (j : nat).

Definition step (act : action) (s : state) : outcome state :=
  match act with
  | Tick d => if decide (0 <= d) then Next (with_clock (clock s + d) s) else Blocked
  | Prod i item a =>
      match producers s !! i with
      | Some p => produce_step i p item a s
      | None => Blocked
      end
  | Cons j =>
      match consumers s !! j with
      | Some c => consume_step j c s
      | None => Blocked
      end
  end.

Fixpoint run (acts : list action) (s : state) : outcome state :=
  match acts with
  | [] => Next s
  | a :: acts' =>
      match step a s with
      | Next s' => run acts' s'
      | Blocked => Blocked
      | Fault => Fault
      end
  end.

Inductive reachable (np nc : nat) : state -> Prop :=
| reach_init : reachable np nc (init np nc)
| reach_step s a s' : reachable np nc s -> step a s = Next s' -> reachable np nc s'.

(** *** Invariants *)

(** Where a producer stands with respect to [ticket_lock_producer]. *)
Definition pphase (p : pthread) : TicketLock.phase :=
  match p_pc p with
  | PSpin => TicketLock.Spin (p_ticket p)
  | PAcquired | PWrite | PAlloc | PLink | PFill | PAdvance | PStamp | PLog | PUnlock =>
      TicketLock.Holding
  | _ => TicketLock.Out
  end.

Definition LockOK (s : state) : Prop :=
  TicketLock.LockInv (ticket_lock_producer s) (pphase <$> producers s).

(** The statements of [consume] executed with [mutex_consumer] locked. *)
Definition holds_mutex (pc : cpc) : bool :=
  match pc with
  | CIdle | CLock | CSleep | CEnd | CStats => false
  | _ => true
  end.

Definition MutexOK (s : state) : Prop :=
  forall j c, consumers s !! j = Some c ->
    (holds_mutex (c_pc c) = true <-> mutex_consumer s = Some j).

(** *** The shape of the chain

    What the statements already executed inside the two critical sections
    have done to the chain: the view of the producer that holds the ticket
    lock, and the view of the consumer that holds [mutex_consumer]. *)
Inductive pview :=
| PvRest                          (* nothing written yet, or all done *)
| PvData (item : Z)               (* head->data written *)
| PvAlloc (item : Z) (nw : nat)   (* new_node allocated *)
| PvLinked (item : Z) (nw : nat)  (* head->next set *)
| PvFilled (item : Z) (nw : nat)  (* head->filled set, head not yet moved *)
| PvLogging (item : Z).           (* head moved, event not yet logged *)

Global Instance pview_eq_dec : EqDecision pview.
Proof. solve_decision. Defined.

Definition pview_of (p : pthread) : pview :=
  match p_pc p with
  | PAlloc => PvData (p_item p)
  | PLink => PvAlloc (p_item p) (p_new p)
  | PFill => PvLinked (p_item p) (p_new p)
  | PAdvance => PvFilled (p_item p) (p_new p)
  | PStamp | PLog => PvLogging (p_item p)
  | _ => PvRest
  end.

Definition the_pview (ps : list pthread) : pview :=
  match filter (fun v => v <> PvRest) (pview_of <$> ps) with
  | v :: _ => v
  | [] => PvRest
  end.

Inductive cview :=
| CvRest                  (* nothing known, or all done *)
| CvReady                 (* tail->filled was seen true *)
| CvRead (item : Z)       (* tail->data read *)
| CvCleared (item : Z)    (* tail->filled cleared, event not yet logged *)
| CvLogged                (* event logged, tail not yet moved *)
| CvTemp (temp : nat)     (* temp = tail taken *)
| CvAdvanced (temp : nat). (* tail moved, temp not yet deleted *)

Definition cview_of (c : cthread) : cview :=
  match c_pc c with
  | CAcquired | CRead => CvReady
  | CClear => CvRead (c_item c)
  | CStamp | CLog => CvCleared (c_item c)
  | CTemp => CvLogged
  | CAdv => CvTemp (c_temp c)
  | CDelete => CvAdvanced (c_temp c)
  | _ => CvRest
  end.

Definition cview_at (m : option nat) (cs : list cthread) : cview :=
  match m with
  | Some j => match cs !! j with Some c => cview_of c | None => CvRest end
  | None => CvRest
  end.

Global Arguments cview_at : simpl never.

Definition the_cview (s : state) : cview := cview_at (mutex_consumer s) (consumers s).

(** The node producers write into next. *)
Definition sentinel (hd : nat) (pv : pview) : nat :=
  match pv with PvFilled _ nw => nw | _ => hd end.

(** A node allocated and not yet the sentinel. *)
Definition spare (pv : pview) : list nat :=
  match pv with PvAlloc _ nw | PvLinked _ nw => [nw] | _ => [] end.

Definition sentinel_next (pv : pview) : nat :=
  match pv with PvLinked _ nw => nw | _ => nullptr end.

Definition sentinel_data (pv : pview) (n : Node) : Prop :=
  match pv with PvData it | PvAlloc it _ | PvLinked it _ => data n = it | _ => True end.

(** The item already in the chain whose producer event is not yet logged. *)
Definition in_flight_fill (pv : pview) : list Z :=
  match pv with PvFilled it _ | PvLogging it => [it] | _ => [] end.

(** The node already emptied and not yet deleted. *)
Definition dead (tl : nat) (cv : cview) : list nat :=
  match cv with
  | CvCleared _ | CvLogged | CvTemp _ => [tl]
  | CvAdvanced t => [t]
  | _ => []
  end.

Definition tail_dead (cv : cview) : bool :=
  match cv with CvCleared _ | CvLogged | CvTemp _ => true | _ => false end.

(** The item already taken whose consumer event is not yet logged. *)
Definition in_flight_take (cv : cview) : list Z :=
  match cv with CvCleared it => [it] | _ => [] end.

Definition first_of (chain : list (nat * Z)) (sent : nat) : nat :=
  match chain with (a, _) :: _ => a | [] => sent end.

(** [chain]: the filled nodes, oldest first, each with its value and linked
    to the next; the last is linked to the sentinel. *)
Fixpoint chain_ok (h : gmap nat Node) (chain : list (nat * Z)) (sent : nat) : Prop :=
  match chain with
  | [] => True
  | (a, v) :: rest =>
      h !! a = Some (mkNode v true (first_of rest sent)) /\ chain_ok h rest sent
  end.

Record Shape (h : gmap nat Node) (hd tl : nat) (pv : pview) (cv : cview)
    (plog clog : list Z) (chain : list (nat * Z)) : Prop := {
  sh_null : h !! nullptr = None;
  sh_dom : dom h = list_to_set (dead tl cv ++ chain.*1 ++ sentinel hd pv :: spare pv);
  sh_nodup : NoDup (dead tl cv ++ chain.*1 ++ sentinel hd pv :: spare pv);
  sh_sent : exists n, h !! sentinel hd pv = Some n /\ filled n = false /\
                      next n = sentinel_next pv /\ sentinel_data pv n;
  sh_spare : forall a, a ∈ spare pv -> h !! a = Some new_Node;
  sh_chain : chain_ok h chain (sentinel hd pv);
  sh_tail : if tail_dead cv
            then exists n, h !! tl = Some n /\ next n = first_of chain (sentinel hd pv)
            else tl = first_of chain (sentinel hd pv);
  sh_cv : match cv with
          | CvTemp t => t = tl
          | CvReady => chain <> []
          | CvRead it => exists a rest, chain = (a, it) :: rest
          | _ => True
          end;
  sh_fifo : plog ++ in_flight_fill pv = clog ++ in_flight_take cv ++ chain.*2
}.

Definition ChainOK (s : state) : Prop :=
  exists chain,
    Shape (heap s) (head s) (tail s) (the_pview (producers s)) (the_cview s)
          (values_of Producer (log s)) (values_of Consumer (log s)) chain.

(** *** Calls in progress and values in transit *)

Global Instance ppc_eq_dec : EqDecision ppc.
Proof. solve_decision. Defined.

Global Instance cpc_eq_dec : EqDecision cpc.
Proof. solve_decision. Defined.

(** No call of [produce] or [consume] is in progress. *)
Definition quiescent (s : state) : Prop :=
  Forall (fun p => p_pc p = PIdle) (producers s) /\
  Forall (fun c => c_pc c = CIdle) (consumers s).

(** The node producers write into next. *)
Definition sentinel_node (s : state) : nat :=
  sentinel (head s) (the_pview (producers s)).

(** The values in the chain and those about to be logged as produced. *)
Definition produced (s : state) : list Z :=
  values_of Producer (log s) ++ in_flight_fill (the_pview (producers s)).

(** The values each consumer got back from [consume], in order. *)
Definition returned_to (j : nat) (s : state) : list Z :=
  (filter (fun r => r.1 = j) (returned s)).*2.

(** The values of the events consumer [j] logged, in the order of the log. *)
Definition consumed_by (j : nat) (l : list Event) : list Z :=
  ev_value <$> filter (fun e => ev_role e = Consumer /\ ev_id e = j) l.

(** *** Durations: what the totals add up and what the events report *)

(** The wait a producer has logged and whose call is not yet added to
    [total_produce_time]. *)
Definition p_owed (p : pthread) : Z :=
  match p_pc p with
  | PUnlock | PNotify | PEnd | PStats => p_wait p
  | _ => 0
  end.

Definition c_owed (c : cthread) : Z :=
  match c_pc c with
  | CTemp | CAdv | CDelete | CUnlock | CEnd | CStats => c_wait c
  | _ => 0
  end.

(** The clock readings a thread holds are in the past, in order. *)
Definition ptime_ok (clk : Z) (p : pthread) : Prop :=
  match p_pc p with
  | PIdle => True
  | PTicket | PSpin | PAcquired => p_request p <= clk
  | PStats => p_request p + p_wait p <= p_end p
  | _ => p_request p + p_wait p <= clk
  end.

Definition ctime_ok (clk : Z) (c : cthread) : Prop :=
  match c_pc c with
  | CIdle => True
  | CLock | CWait | CSleep | CAcquired => c_request c <= clk
  | CStats => c_request c + c_wait c <= c_end c
  | _ => c_request c + c_wait c <= clk
  end.

Record TimeOK (s : state) : Prop := {
  t_prod : forall i p, producers s !! i = Some p -> ptime_ok (clock s) p;
  t_cons : forall j c, consumers s !! j = Some c -> ctime_ok (clock s) c;
  t_ptotal : total_produce_time s = sumZ id (produce_durations s);
  t_ctotal : total_consume_time s = sumZ id (consume_durations s);
  t_pwait : waited_of Producer (log s) <= total_produce_time s + sumZ p_owed (producers s);
  t_cwait : waited_of Consumer (log s) <= total_consume_time s + sumZ c_owed (consumers s)
}.

(** *** What [consume] returns *)

(** The event of the call in progress is logged, the call has not returned. *)
Definition c_logged (pc : cpc) : bool :=
  match pc with
  | CTemp | CAdv | CDelete | CUnlock | CEnd | CStats => true
  | _ => false
  end.

Record ReturnOK (nc : nat) (s : state) : Prop := {
  ro_len : length (consumers s) = nc;
  ro_thread : forall j c, consumers s !! j = Some c ->
    consumed_by j (log s) =
    returned_to j s ++ (if c_logged (c_pc c) then [c_item c] else []);
  ro_log_ids : Forall (fun e => ev_role e = Consumer -> (ev_id e < nc)%nat) (log s);
  ro_ret_ids : Forall (fun r => (r.1 < nc)%nat) (returned s)
}.

(** *** The statements of [produce], in order *)

Definition p_next (pc : ppc) : ppc :=
  match pc with
  | PIdle => PTicket | PTicket => PSpin | PSpin => PAcquired | PAcquired => PWrite
  | PWrite => PAlloc | PAlloc => PLink | PLink => PFill | PFill => PAdvance
  | PAdvance => PStamp | PStamp => PLog | PLog => PUnlock | PUnlock => PNotify
  | PNotify => PEnd | PEnd => PStats | PStats => PIdle
  end.

(** The statements left before [produce] returns. *)
Definition p_rank (pc : ppc) : nat :=
  match pc with
  | PIdle => 0 | PTicket => 14 | PSpin => 13 | PAcquired => 12
  | PWrite => 11 | PAlloc => 10 | PLink => 9 | PFill => 8
  | PAdvance => 7 | PStamp => 6 | PLog => 5 | PUnlock => 4
  | PNotify => 3 | PEnd => 2 | PStats => 1
  end.

(** Producer [i] is not behind another producer at the ticket lock: it is
    past the loop of [lock()], or its ticket is being served, or no other
    producer holds a ticket. *)
Definition p_can_run (i : nat) (s : state) (p : pthread) : Prop :=
  match p_pc p with
  | PIdle | PTicket =>
      forall j q, j <> i -> producers s !! j = Some q -> pphase q = TicketLock.Out
  | PSpin => TicketLock.must_wait (ticket_lock_producer s) (p_ticket p) = false
  | _ => True
  end.

Definition by_producer (i : nat) (act : action) : Prop :=
  match act with Prod i' _ _ => i' = i | _ => False end.

(** *** Schedules *)

(** The state a schedule leads to (the starting state when the schedule
    cannot be executed). *)
Definition run_to (acts : list action) (s : state) : state :=
  match run acts s with Next s' => s' | _ => s end.

(** [k] statements in a row of producer [i], whose call has argument [item]
    and whose allocation returns [a]. *)
Definition prod_steps (k i : nat) (item : Z) (a : nat) : list action :=
  replicate k (Prod i item a).

(** [k] statements in a row of consumer [j]. *)
Definition cons_steps (k j : nat) : list action := replicate k (Cons j).

(** *** Calls that have logged and not yet returned *)

Definition p_logged (pc : ppc) : bool :=
  match pc with PUnlock | PNotify | PEnd | PStats => true | _ => false end.

Definition p_pending (p : pthread) : Z := if p_logged (p_pc p) then 1 else 0.

Definition c_pending (c : cthread) : Z := if c_logged (c_pc c) then 1 else 0.

Record SamplesOK (s : state) : Prop := {
  so_prod : Z.of_nat (length (values_of Producer (log s))) =
            Z.of_nat (length (produce_durations s)) + sumZ p_pending (producers s);
  so_cons : Z.of_nat (length (values_of Consumer (log s))) =
            Z.of_nat (length (consume_durations s)) + sumZ c_pending (consumers s)
}.

(** *** The two locks are exclusive *)

Ltac ib_step_cases Hstep :=
  unfold step in Hstep;
  match type of Hstep with
  | context [producers ?s !! ?i] =>
      let p := fresh "p" in let Hp := fresh "Hp" in let Hpc := fresh "Hpc" in
      destruct (producers s !! i) as [p|] eqn:Hp; [|discriminate Hstep];
      unfold produce_step in Hstep;
      destruct (p_pc p) eqn:Hpc; simpl in Hstep
  | context [consumers ?s !! ?j] =>
      let c := fresh "c" in let Hc := fresh "Hc" in let Hpc := fresh "Hpc" in
      destruct (consumers s !! j) as [c|] eqn:Hc; [|discriminate Hstep];
      unfold consume_step in Hstep;
      destruct (c_pc c) eqn:Hpc; simpl in Hstep
  | _ => idtac
  end;
  repeat case_match; simplify_eq; simpl in *.

Lemma ib_lock_ok np nc s :
  Z.of_nat np <= Int32.modulus -> reachable np nc s ->
  LockOK s /\ length (producers s) = np.
Proof.
  intros Hn. induction 1 as [|s a s' Hr IH Hstep].
  - split; [|apply length_replicate]. exists []. unfold init, LockOK; simpl.
    rewrite fmap_replicate. apply TicketLock.LockInvQ_init.
  - unfold LockOK in *. destruct a as [d|i item a|j]; ib_step_cases Hstep;
      destruct IH as [IH Hlen];
      rewrite ?length_insert; (split; [|done]);
      try (erewrite fmap_insert_same; [exact IH|eassumption|unfold pphase; simpl; by rewrite ?Hpc]);
      try exact IH.
    + destruct IH as [q I]. exists (q ++ [i]). rewrite list_fmap_insert.
      apply (TicketLock.LockInvQ_request _ _ _ i I).
      rewrite list_lookup_fmap, Hp. simpl. unfold pphase. by rewrite Hpc.
    + destruct IH as [q I]. exists q. rewrite list_fmap_insert.
      eapply (TicketLock.LockInvQ_enter _ _ _ i (p_ticket p)); eauto.
      * by rewrite length_fmap, Hlen.
      * rewrite list_lookup_fmap, Hp. simpl. unfold pphase. by rewrite Hpc.
    + destruct IH as [q I].
      assert ((pphase <$> producers s) !! i = Some TicketLock.Holding) as Hi.
      { rewrite list_lookup_fmap, Hp. simpl. unfold pphase. by rewrite Hpc. }
      destruct (TicketLock.LockInvQ_holder_head _ _ _ i I Hi) as [q' ->].
      exists q'. rewrite list_fmap_insert.
      by apply (TicketLock.LockInvQ_release _ _ _ i I).
Qed.

Lemma ib_mutex_ok np nc s : reachable np nc s -> MutexOK s.
Proof.
  induction 1 as [|s a s' Hr IH Hstep].
  - intros j c Hl. apply lookup_replicate in Hl as [-> _]. simpl. split; done.
  - unfold MutexOK in *. destruct a as [d|i item a|j]; ib_step_cases Hstep; try exact IH;
      intros j' c' Hl; pose proof (IH _ _ Hc) as IHc; rewrite Hpc in IHc; simpl in IHc;
      (destruct (decide (j' = j)) as [->|Hne];
       [ rewrite list_lookup_insert_eq in Hl by (by eapply lookup_lt_Some);
         inversion Hl; subst c'; simpl; try tauto
       | rewrite list_lookup_insert_ne in Hl by done;
         pose proof (IH _ _ Hl) as IHl; try tauto ]);
      try (split; [done|]; intros; tauto);
      try (split; intros; congruence);
      try (split; [intros Hh; apply IHl in Hh; congruence | congruence]);
      try (destruct IHc as [IHc _]; specialize (IHc eq_refl);
           split; [intros Hh; apply IHl in Hh; congruence | congruence]).
Qed.

(** *** Every statement keeps the shape of the chain *)

Lemma first_of_snoc chain a v nw : first_of (chain ++ [(a, v)]) nw = first_of chain a.
Proof. by destruct chain as [|[b w] rest]. Qed.

Lemma chain_ok_frame h h' chain sent :
  (forall a, a ∈ chain.*1 -> h' !! a = h !! a) ->
  chain_ok h chain sent -> chain_ok h' chain sent.
Proof.
  induction chain as [|[a v] rest IH]; simpl; [done|].
  intros Hf [Ha Hrest]. split.
  - rewrite Hf; [done|left].
  - apply IH; [|done]. intros b Hb. apply Hf. by right.
Qed.

Lemma chain_ok_snoc h chain sent v nw :
  sent ∉ chain.*1 -> chain_ok h chain sent ->
  chain_ok (<[sent := mkNode v true nw]> h) (chain ++ [(sent, v)]) nw.
Proof.
  induction chain as [|[a w] rest IH]; simpl.
  - intros _ _. split; [apply lookup_insert_eq|done].
  - intros Hn [Ha Hrest]. apply not_elem_of_cons in Hn as [Hne Hn]. split.
    + rewrite lookup_insert_ne by done. by rewrite first_of_snoc.
    + by apply IH.
Qed.

(** The nodes of a shape are pairwise distinct: what that says piecewise. *)
Lemma NoDup_parts (A B : list nat) (s : nat) (C : list nat) :
  NoDup (A ++ B ++ s :: C) <->
  NoDup A /\ NoDup B /\ NoDup C /\ (s ∉ A) /\ (s ∉ B) /\ (s ∉ C) /\
  (forall x, x ∈ A -> x ∉ B) /\ (forall x, x ∈ A -> x ∉ C) /\ (forall x, x ∈ B -> x ∉ C).
Proof.
  rewrite !NoDup_app, NoDup_cons.
  setoid_rewrite elem_of_app. setoid_rewrite elem_of_cons.
  split.
  - intros (HA & HAB & HB & HBC & HsC & HC). repeat split; try done.
    + intros Hs. apply (HAB s Hs). right. by left.
    + intros Hs. apply (HBC s Hs). by left.
    + intros x Hx Hx'. apply (HAB x Hx). by left.
    + intros x Hx Hx'. apply (HAB x Hx). right. by right.
    + intros x Hx Hx'. apply (HBC x Hx). by right.
  - intros (HA & HB & HC & HsA & HsB & HsC & HAB & HAC & HBC). repeat split; try done.
    + intros x Hx [Hx'|[->|Hx']]; [by eapply HAB|done|by eapply HAC].
    + intros x Hx [->|Hx']; [done|by eapply HBC].
Qed.

Lemma list_to_set_parts (A B : list nat) (s : nat) (C : list nat) :
  list_to_set (A ++ B ++ s :: C) =@{gset nat}
  list_to_set A ∪ list_to_set B ∪ {[s]} ∪ list_to_set C.
Proof. rewrite !list_to_set_app_L. simpl. set_solver. Qed.

Lemma elem_of_parts (A B : list nat) (s : nat) (C : list nat) x :
  x ∈ A ++ B ++ s :: C <-> x ∈ A \/ x ∈ B \/ x = s \/ x ∈ C.
Proof. rewrite !elem_of_app, elem_of_cons. tauto. Qed.

Lemma shape_init : Shape {[ 1%nat := new_Node ]} 1%nat 1%nat PvRest CvRest [] [] [].
Proof.
  split; simpl; try done.
  - apply NoDup_singleton.
  - exists new_Node. by rewrite lookup_singleton_eq.
  - intros a Ha. inversion Ha.
Qed.

Lemma shape_live h hd tl pv cv pl cl ch a :
  Shape h hd tl pv cv pl cl ch ->
  (is_Some (h !! a) <-> a ∈ dead tl cv \/ a ∈ ch.*1 \/ a = sentinel hd pv \/ a ∈ spare pv).
Proof.
  intros S. rewrite <- elem_of_dom, (sh_dom _ _ _ _ _ _ _ _ S).
  rewrite elem_of_list_to_set. apply elem_of_parts.
Qed.

Lemma shape_not_null h hd tl pv cv pl cl ch a :
  Shape h hd tl pv cv pl cl ch -> is_Some (h !! a) -> a <> nullptr.
Proof. intros S [n Hn] ->. rewrite (sh_null _ _ _ _ _ _ _ _ S) in Hn. done. Qed.

Lemma tail_dead_elem tl cv : tail_dead cv = true -> tl ∈ dead tl cv.
Proof. destruct cv; simpl; try done; intros _; left. Qed.

(** A producer's step that leaves the heap alone. *)
Lemma shape_pview_change h hd hd' tl pv pv' cv pl pl' cl ch :
  sentinel hd' pv' = sentinel hd pv -> spare pv' = spare pv ->
  sentinel_next pv' = sentinel_next pv ->
  (forall n, sentinel_data pv n -> sentinel_data pv' n) ->
  pl' ++ in_flight_fill pv' = pl ++ in_flight_fill pv ->
  Shape h hd tl pv cv pl cl ch -> Shape h hd' tl pv' cv pl' cl ch.
Proof.
  intros E1 E2 E3 E4 E5 [Hnull Hdom Hnd Hsent Hspare Hchain Htail Hcv Hfifo].
  split; rewrite ?E1, ?E2, ?E3, ?E5; try done.
  destruct Hsent as (n & ? & ? & ? & ?). exists n. eauto.
Qed.

(** A producer's write into the sentinel node. *)
Lemma shape_update_sentinel h hd tl pv pv' cv pl cl ch n' :
  sentinel hd pv' = sentinel hd pv -> spare pv' = spare pv ->
  in_flight_fill pv' = in_flight_fill pv ->
  filled n' = false -> next n' = sentinel_next pv' -> sentinel_data pv' n' ->
  Shape h hd tl pv cv pl cl ch ->
  Shape (<[sentinel hd pv := n']> h) hd tl pv' cv pl cl ch.
Proof.
  intros E1 E2 E3 F1 F2 F3 S.
  pose proof (shape_not_null _ _ _ _ _ _ _ _ (sentinel hd pv) S) as Hnn.
  destruct S as [Hnull Hdom Hnd Hsent Hspare Hchain Htail Hcv Hfifo].
  destruct Hsent as (n & Hn & _).
  pose proof Hnd as Hnd'.
  apply NoDup_parts in Hnd' as (_ & _ & _ & HsA & HsB & HsC & _).
  split; rewrite ?E1, ?E2, ?E3; try done.
  - rewrite lookup_insert_ne; [done|]. intros E. apply Hnn; [by eexists|done].
  - rewrite dom_insert_lookup_L; [done|by eexists].
  - exists n'. by rewrite lookup_insert_eq.
  - intros a Ha. rewrite lookup_insert_ne; [by apply Hspare|]. by intros <-.
  - eapply chain_ok_frame; [|done]. intros a Ha. apply lookup_insert_ne. by intros <-.
  - destruct (tail_dead cv) eqn:Hd; [|done].
    rewrite lookup_insert_ne; [done|]. intros E. apply HsA. rewrite E.
    by apply tail_dead_elem.
Qed.

Lemma shape_alloc h hd tl cv pl cl ch it a :
  a <> nullptr -> h !! a = None ->
  Shape h hd tl (PvData it) cv pl cl ch ->
  Shape (<[a := new_Node]> h) hd tl (PvAlloc it a) cv pl cl ch.
Proof.
  intros Ha Hfresh S.
  pose proof (shape_live _ _ _ _ _ _ _ _ a S) as Hlive. simpl in Hlive.
  assert ((a ∉ dead tl cv) /\ (a ∉ ch.*1) /\ a <> hd) as (HaA & HaB & Has).
  { rewrite Hfresh in Hlive. repeat split; intros F; apply (is_Some_None (A:=Node));
      apply Hlive; tauto. }
  destruct S as [Hnull Hdom Hnd Hsent Hspare Hchain Htail Hcv Hfifo]. simpl in *.
  apply NoDup_parts in Hnd as (HA & HB & HC & HsA & HsB & HsC & HAB & HAC & HBC).
  split; simpl; try done.
  - by rewrite lookup_insert_ne.
  - rewrite dom_insert_L, Hdom, !list_to_set_parts. simpl. set_solver.
  - apply NoDup_parts. repeat split; try done.
    + apply NoDup_singleton.
    + intros F. apply list_elem_of_singleton in F. done.
    + intros x Hx F. apply list_elem_of_singleton in F. by subst.
    + intros x Hx F. apply list_elem_of_singleton in F. by subst.
  - destruct Hsent as (n & Hn & ? & ? & ?). exists n.
    by rewrite lookup_insert_ne.
  - intros b Hb. apply list_elem_of_singleton in Hb as ->. apply lookup_insert_eq.
  - eapply chain_ok_frame; [|done]. intros b Hb. apply lookup_insert_ne. by intros ->.
  - destruct (tail_dead cv) eqn:Hd; [|done]. destruct Htail as (n & Hn & ?).
    exists n. rewrite lookup_insert_ne; [done|]. intros ->. apply HaA.
    by apply tail_dead_elem.
Qed.

Lemma shape_fill h hd tl cv pl cl ch it nw :
  Shape h hd tl (PvLinked it nw) cv pl cl ch ->
  exists n, h !! hd = Some n /\
    Shape (<[hd := set_filled true n]> h) hd tl (PvFilled it nw) cv pl cl (ch ++ [(hd, it)]).
Proof.
  intros S. pose proof (shape_not_null _ _ _ _ _ _ _ _ hd S) as Hnn.
  destruct S as [Hnull Hdom Hnd Hsent Hspare Hchain Htail Hcv Hfifo]. simpl in *.
  destruct Hsent as (n & Hn & Hf & Hnx & Hd). exists n. split; [done|].
  apply NoDup_parts in Hnd as (HA & HB & HC & HsA & HsB & HsC & HAB & HAC & HBC).
  assert (hd <> nw) as Hne by (intros ->; apply HsC; left).
  assert (set_filled true n = mkNode it true nw) as ->.
  { destruct n; simpl in *. unfold set_filled; simpl. congruence. }
  split; simpl; try done.
  - rewrite lookup_insert_ne; [done|]. intros E. apply Hnn; [by eexists|done].
  - rewrite dom_insert_lookup_L by (by eexists). rewrite Hdom.
    rewrite fmap_app, !list_to_set_parts, list_to_set_app_L. simpl. set_solver.
  - rewrite fmap_app. simpl. apply NoDup_parts. repeat split; try done.
    + apply NoDup_app. split; [done|]. split; [|apply NoDup_singleton].
      intros x Hx F. apply list_elem_of_singleton in F. by subst.
    + constructor.
    + intros F. apply (HAC nw F). left.
    + rewrite elem_of_app, list_elem_of_singleton. intros [F|F]; [|done].
      apply (HBC nw F). left.
    + intros F. inversion F.
    + intros x Hx. rewrite elem_of_app, list_elem_of_singleton.
      intros [F| ->]; [by eapply HAB|done].
    + intros x Hx F. inversion F.
    + intros x Hx F. inversion F.
  - exists new_Node. rewrite lookup_insert_ne by done. split; [|done].
    apply Hspare. left.
  - intros a Ha. inversion Ha.
  - by apply chain_ok_snoc.
  - rewrite first_of_snoc. destruct (tail_dead cv) eqn:Hdead; [|done].
    destruct Htail as (m & Hm & ?). exists m. rewrite lookup_insert_ne; [done|].
    intros <-. apply HsA. by apply tail_dead_elem.
  - destruct cv; try done.
    + by destruct ch.
    + destruct Hcv as (a & rest & ->). simpl. eauto.
  - rewrite fmap_app. simpl. rewrite app_nil_r in Hfifo. rewrite Hfifo.
    by rewrite <- !app_assoc.
Qed.

(** The node [tail] should point to: the oldest filled node, or the
    sentinel when there is none. *)
Lemma shape_first h hd tl pv cv pl cl ch :
  Shape h hd tl pv cv pl cl ch ->
  exists n, h !! first_of ch (sentinel hd pv) = Some n /\
    match ch with
    | [] => filled n = false
    | (a, v) :: rest => n = mkNode v true (first_of rest (sentinel hd pv))
    end.
Proof.
  intros [Hnull Hdom Hnd Hsent Hspare Hchain Htail Hcv Hfifo].
  destruct ch as [|[a v] rest]; simpl in *.
  - destruct Hsent as (n & ? & ? & _). eauto.
  - destruct Hchain as [Ha _]. eauto.
Qed.

Lemma shape_tail_live h hd tl pv cv pl cl ch :
  Shape h hd tl pv cv pl cl ch -> is_Some (h !! tl).
Proof.
  intros S. destruct (shape_first _ _ _ _ _ _ _ _ S) as (n & Hn & _).
  pose proof (sh_tail _ _ _ _ _ _ _ _ S) as Htail.
  destruct (tail_dead cv).
  - destruct Htail as (m & Hm & _). by eexists.
  - rewrite Htail. by eexists.
Qed.

(** A consumer's step that leaves the heap and [tail] alone. *)
Lemma shape_cview_change h hd tl pv cv cv' pl cl cl' ch :
  dead tl cv' = dead tl cv -> tail_dead cv' = tail_dead cv ->
  match cv' with
  | CvTemp t => t = tl
  | CvReady => ch <> []
  | CvRead it => exists a rest, ch = (a, it) :: rest
  | _ => True
  end ->
  cl' ++ in_flight_take cv' = cl ++ in_flight_take cv ->
  Shape h hd tl pv cv pl cl ch -> Shape h hd tl pv cv' pl cl' ch.
Proof.
  intros E1 E2 E3 E4 [Hnull Hdom Hnd Hsent Hspare Hchain Htail Hcv Hfifo].
  split; rewrite ?E1, ?E2; try done.
  by rewrite app_assoc, E4, <- app_assoc.
Qed.

Lemma shape_clear h hd tl pv pl cl ch it :
  Shape h hd tl pv (CvRead it) pl cl ch ->
  exists n ch', h !! tl = Some n /\
    Shape (<[tl := set_filled false n]> h) hd tl pv (CvCleared it) pl cl ch'.
Proof.
  intros S. pose proof (shape_not_null _ _ _ _ _ _ _ _ tl S) as Hnn.
  destruct S as [Hnull Hdom Hnd Hsent Hspare Hchain Htail Hcv Hfifo]. simpl in *.
  destruct Hcv as (a & rest & ->). simpl in *. subst a.
  destruct Hchain as [Ha Hchain].
  exists (mkNode it true (first_of rest (sentinel hd pv))), rest. split; [done|].
  unfold set_filled; simpl.
  pose proof Hnd as Hnd'. apply NoDup_cons in Hnd' as [Hnotin _].
  rewrite elem_of_app, elem_of_cons in Hnotin.
  split; simpl; try done.
  - rewrite lookup_insert_ne; [done|]. intros E. apply Hnn; [by eexists|done].
  - rewrite dom_insert_lookup_L by (by eexists). done.
  - destruct Hsent as (n & Hn & ?). exists n. rewrite lookup_insert_ne; [done|].
    intros E. apply Hnotin. right. by left.
  - intros b Hb. rewrite lookup_insert_ne; [by apply Hspare|].
    intros E. apply Hnotin. right. right. by subst.
  - eapply chain_ok_frame; [|done]. intros b Hb. apply lookup_insert_ne.
    intros E. apply Hnotin. left. by subst.
  - eexists. rewrite lookup_insert_eq. done.
Qed.

Lemma shape_adv h hd tl pv pl cl ch t :
  Shape h hd tl pv (CvTemp t) pl cl ch ->
  exists n, h !! tl = Some n /\ Shape h hd (next n) pv (CvAdvanced t) pl cl ch.
Proof.
  intros [Hnull Hdom Hnd Hsent Hspare Hchain Htail Hcv Hfifo]. simpl in *. subst t.
  destruct Htail as (n & Hn & Hnx). exists n. split; [done|].
  split; simpl; done.
Qed.

Lemma shape_delete h hd tl pv pl cl ch t :
  Shape h hd tl pv (CvAdvanced t) pl cl ch ->
  t <> nullptr /\ is_Some (h !! t) /\ Shape (delete t h) hd tl pv CvRest pl cl ch.
Proof.
  intros S.
  assert (is_Some (h !! t)) as Ht.
  { apply (shape_live _ _ _ _ _ _ _ _ t S). left. left. }
  split; [by eapply shape_not_null|]. split; [done|].
  destruct S as [Hnull Hdom Hnd Hsent Hspare Hchain Htail Hcv Hfifo]. simpl in *.
  pose proof Hnd as Hnd'. apply NoDup_cons in Hnd' as [Hnotin Hnd'].
  rewrite elem_of_app, elem_of_cons in Hnotin.
  split; simpl; try done.
  - rewrite lookup_delete_ne; [done|]. intros E. rewrite E, Hnull in Ht. by destruct Ht.
  - rewrite dom_delete_L, Hdom.
    assert (t ∉ ch.*1 ++ sentinel hd pv :: spare pv) as Hn'.
    { rewrite elem_of_app, elem_of_cons. done. }
    apply (not_elem_of_list_to_set (C:=gset nat)) in Hn'. set_solver.
  - destruct Hsent as (n & Hn & ?). exists n. rewrite lookup_delete_ne; [done|].
    intros E. apply Hnotin. right. by left.
  - intros b Hb. rewrite lookup_delete_ne; [by apply Hspare|].
    intros E. apply Hnotin. right. right. by subst.
  - eapply chain_ok_frame; [|done]. intros b Hb. apply lookup_delete_ne.
    intros E. apply Hnotin. left. by subst.
Qed.

Lemma the_pview_unchanged ps i p p' :
  ps !! i = Some p -> pview_of p' = pview_of p ->
  the_pview (<[i := p']> ps) = the_pview ps.
Proof. intros Hp E. unfold the_pview. by erewrite fmap_insert_same. Qed.

Lemma pview_filter_rest ps :
  (forall j q, ps !! j = Some q -> pview_of q = PvRest) ->
  filter (fun v => v <> PvRest) (pview_of <$> ps) = [].
Proof.
  induction ps as [|q ps IH]; intros Ho; [done|]. simpl.
  rewrite filter_cons_False by (rewrite (Ho 0%nat q); [tauto|done]).
  apply IH. intros j q' Hj. by apply (Ho (S j)).
Qed.

Lemma the_pview_only ps i p :
  (forall j q, j <> i -> ps !! j = Some q -> pview_of q = PvRest) ->
  ps !! i = Some p -> the_pview ps = pview_of p.
Proof.
  unfold the_pview. revert i. induction ps as [|q ps IH]; intros i Ho Hp; [done|].
  destruct i as [|i]; simpl in *.
  - inversion Hp; subst q.
    rewrite filter_cons, pview_filter_rest.
    + destruct (decide (pview_of p <> PvRest)) as [Hne|He]; [done|].
      destruct (decide (pview_of p = PvRest)); [done|tauto].
    + intros j q Hq. by apply (Ho (S j)).
  - rewrite filter_cons_False by (rewrite (Ho 0%nat q); [tauto|done|done]).
    apply (IH i); [|done]. intros j q' Hj. apply (Ho (S j)). lia.
Qed.

Lemma pview_holding q : pview_of q <> PvRest -> pphase q = TicketLock.Holding.
Proof. unfold pview_of, pphase. destruct (p_pc q); done. Qed.

(** The holder of the ticket lock is the one producer with a view. *)
Lemma the_pview_holder l ps i p p' :
  TicketLock.LockInv l (pphase <$> ps) -> ps !! i = Some p ->
  pphase p = TicketLock.Holding ->
  the_pview ps = pview_of p /\ the_pview (<[i := p']> ps) = pview_of p'.
Proof.
  intros I Hp Hh.
  assert (forall j q, j <> i -> ps !! j = Some q -> pview_of q = PvRest) as Ho.
  { intros j q Hne Hq. destruct (decide (pview_of q = PvRest)) as [|Hv]; [done|].
    exfalso. apply Hne. eapply (TicketLock.LockInv_exclusive _ _ j i I).
    - by rewrite list_lookup_fmap, Hq; simpl; rewrite pview_holding.
    - by rewrite list_lookup_fmap, Hp; simpl; rewrite Hh. }
  split; [by apply (the_pview_only _ i)|].
  apply (the_pview_only _ i).
  - intros j q Hne. rewrite list_lookup_insert_ne by done. by apply Ho.
  - apply list_lookup_insert_eq. by eapply lookup_lt_Some.
Qed.

(** The owner of [mutex_consumer] is the one consumer with a view. *)
Lemma cview_at_owner cs j c : cs !! j = Some c -> cview_at (Some j) cs = cview_of c.
Proof. intros Hc. unfold cview_at. by rewrite Hc. Qed.

Lemma cview_at_insert cs j c c' :
  cs !! j = Some c -> cview_at (Some j) (<[j := c']> cs) = cview_of c'.
Proof.
  intros Hc. unfold cview_at. rewrite list_lookup_insert_eq; [done|].
  by eapply lookup_lt_Some.
Qed.

Lemma cview_at_other m cs j c' :
  m <> Some j -> cview_at m (<[j := c']> cs) = cview_at m cs.
Proof.
  intros Hm. unfold cview_at. destruct m as [j'|]; [|done].
  rewrite list_lookup_insert_ne; [done|]. congruence.
Qed.

Lemma the_pview_idle n : the_pview (replicate n p_idle) = PvRest.
Proof.
  unfold the_pview. rewrite pview_filter_rest; [done|].
  intros j q Hq. by apply lookup_replicate in Hq as [-> _].
Qed.

Ltac ib_pview_same S Hp Hpc :=
  unfold ChainOK, the_cview in S |- *; simpl;
  erewrite the_pview_unchanged;
  [ eexists; exact S | exact Hp | unfold pview_of; simpl; rewrite Hpc; reflexivity ].

Ltac ib_pview_holder HL S Hp Hpc :=
  unfold ChainOK, the_cview in S |- *; simpl;
  match goal with
  | |- context [the_pview (<[?i := ?p']> _)] =>
      let E1 := fresh "E1" in let E2 := fresh "E2" in
      destruct (the_pview_holder _ _ _ _ p' HL Hp) as [E1 E2];
      [ unfold pphase; rewrite Hpc; reflexivity | ];
      rewrite E2; rewrite E1 in S; clear E1 E2;
      unfold pview_of in S |- *; simpl in S |- *; rewrite Hpc in S
  end.

Ltac ib_sentinel_node S n :=
  let n0 := fresh "n0" in
  destruct (sh_sent _ _ _ _ _ _ _ _ S) as (n0 & ? & ? & ? & ?); simpl in *;
  assert (n = n0) by congruence; subst n0.

(** A consumer outside [mutex_consumer]: its statement changes no view. *)
Ltac ib_cview_other HM S Hc Hpc :=
  unfold ChainOK, the_cview in S |- *; simpl;
  rewrite cview_at_other;
  [ eexists; exact S
  | let E := fresh in intros E; apply (HM _ _ Hc) in E; rewrite Hpc in E; discriminate E ].

(** The consumer that owns [mutex_consumer]: the views before and after. *)
Ltac ib_cview_owner HM S Hc Hpc :=
  let Hown := fresh "Hown" in
  assert (Hown : mutex_consumer _ = Some _)
    by (apply (HM _ _ Hc); rewrite Hpc; reflexivity);
  unfold ChainOK, the_cview in S |- *; simpl;
  rewrite Hown in S; rewrite ?Hown; rewrite (cview_at_owner _ _ _ Hc) in S;
  rewrite ?(cview_at_insert _ _ _ _ Hc);
  unfold cview_of in S |- *; simpl in S |- *; rewrite Hpc in S.

Lemma ib_chain_ok np nc s :
  Z.of_nat np <= Int32.modulus -> reachable np nc s -> ChainOK s.
Proof.
  intros Hn. induction 1 as [|s a s' Hr IH Hstep].
  - exists []. unfold the_cview. simpl. rewrite the_pview_idle. apply shape_init.
  - pose proof (ib_lock_ok _ _ _ Hn Hr) as [HL _].
    pose proof (ib_mutex_ok _ _ _ Hr) as HM.
    destruct IH as [ch S]. unfold LockOK in HL.
    destruct a as [d|i item a|j]; ib_step_cases Hstep.
    + by exists ch.
    + ib_pview_same S Hp Hpc.
    + ib_pview_same S Hp Hpc.
    + ib_pview_same S Hp Hpc.
    + ib_pview_same S Hp Hpc.
    + (* head->data = item *)
      ib_pview_holder HL S Hp Hpc. exists ch. ib_sentinel_node S n.
      by apply (shape_update_sentinel _ _ _ PvRest (PvData (p_item p))).
    + (* new Node() *)
      ib_pview_holder HL S Hp Hpc. exists ch.
      match goal with H : _ /\ _ |- _ => destruct H as [Ha Hfresh] end.
      by apply shape_alloc.
    + (* head->next = new_node *)
      ib_pview_holder HL S Hp Hpc. exists ch. ib_sentinel_node S n.
      by apply (shape_update_sentinel _ _ _ (PvAlloc (p_item p) (p_new p))
               (PvLinked (p_item p) (p_new p))).
    + (* head->filled = true *)
      ib_pview_holder HL S Hp Hpc.
      destruct (shape_fill _ _ _ _ _ _ _ _ _ S) as (n0 & Hn0 & S').
      eexists. replace n with n0 by congruence. exact S'.
    + (* head = new_node *)
      ib_pview_holder HL S Hp Hpc. exists ch.
      eapply shape_pview_change; last exact S; done.
    + ib_pview_same S Hp Hpc.
    + (* logEvent *)
      ib_pview_holder HL S Hp Hpc. exists ch.
      rewrite !values_of_snoc. simpl. rewrite app_nil_r.
      eapply shape_pview_change; last exact S; simpl; try done.
      by rewrite app_nil_r.
    + ib_pview_same S Hp Hpc.
    + ib_pview_same S Hp Hpc.
    + ib_pview_same S Hp Hpc.
    + ib_pview_same S Hp Hpc.
    + (* CIdle *) ib_cview_other HM S Hc Hpc.
    + (* CLock *)
      unfold ChainOK, the_cview in S |- *; simpl.
      rewrite (cview_at_insert _ _ _ _ Hc). exists ch.
      match goal with H : mutex_consumer s = None |- _ => rewrite H in S end. exact S.
    + (* wait: tail->filled holds *)
      ib_cview_owner HM S Hc Hpc. exists ch.
      eapply shape_cview_change; last exact S; simpl; try done.
      destruct (shape_first _ _ _ _ _ _ _ _ S) as (n0 & Hn0 & Hch).
      rewrite <- (sh_tail _ _ _ _ _ _ _ _ S) in Hn0. simpl in Hn0.
      intros ->. congruence.
    + (* wait: tail->filled does not hold, the mutex is released *)
      ib_cview_owner HM S Hc Hpc. exists ch. exact S.
    + (* CSleep *)
      unfold ChainOK, the_cview in S |- *; simpl.
      rewrite (cview_at_insert _ _ _ _ Hc). exists ch.
      match goal with H : mutex_consumer s = None |- _ => rewrite H in S end. exact S.
    + (* CAcquired *)
      ib_cview_owner HM S Hc Hpc. exists ch. exact S.
    + (* item = tail->data *)
      ib_cview_owner HM S Hc Hpc. exists ch.
      eapply shape_cview_change; last exact S; simpl; try done.
      destruct (shape_first _ _ _ _ _ _ _ _ S) as (n0 & Hn0 & Hch).
      rewrite <- (sh_tail _ _ _ _ _ _ _ _ S) in Hn0. simpl in Hn0.
      pose proof (sh_cv _ _ _ _ _ _ _ _ S) as Hne. simpl in Hne.
      destruct ch as [|[b v] rest]; [done|]. exists b, rest.
      assert (n = n0) by congruence. subst. done.
    + (* tail->filled = false *)
      ib_cview_owner HM S Hc Hpc.
      destruct (shape_clear _ _ _ _ _ _ _ _ S) as (n0 & ch' & Hn0 & S').
      exists ch'. replace n with n0 by congruence. exact S'.
    + (* CStamp *)
      ib_cview_owner HM S Hc Hpc. exists ch. exact S.
    + (* logEvent *)
      ib_cview_owner HM S Hc Hpc. exists ch.
      rewrite !values_of_snoc. simpl. rewrite app_nil_r.
      eapply shape_cview_change; last exact S; simpl; try done.
      by rewrite app_nil_r.
    + (* temp = tail *)
      ib_cview_owner HM S Hc Hpc. exists ch.
      eapply shape_cview_change; last exact S; simpl; done.
    + (* tail = tail->next *)
      ib_cview_owner HM S Hc Hpc. exists ch.
      destruct (shape_adv _ _ _ _ _ _ _ _ S) as (n0 & Hn0 & S').
      replace n with n0 by congruence. exact S'.
    + (* delete nullptr *)
      ib_cview_owner HM S Hc Hpc. exfalso.
      destruct (shape_delete _ _ _ _ _ _ _ _ S) as (Hnn & _). done.
    + (* delete temp *)
      ib_cview_owner HM S Hc Hpc. exists ch.
      by destruct (shape_delete _ _ _ _ _ _ _ _ S) as (_ & _ & S').
    + (* lock.unlock() *)
      ib_cview_owner HM S Hc Hpc. exists ch. exact S.
    + (* CEnd *) ib_cview_other HM S Hc Hpc.
    + (* CStats *) ib_cview_other HM S Hc Hpc.
Qed.

(** *** Memory safety: no statement uses a null or deleted node *)

Lemma ib_no_fault np nc s a :
  Z.of_nat np <= Int32.modulus -> reachable np nc s -> step a s <> Fault.
Proof.
  intros Hn Hr.
  pose proof (ib_lock_ok _ _ _ Hn Hr) as [HL _].
  pose proof (ib_mutex_ok _ _ _ Hr) as HM.
  destruct (ib_chain_ok _ _ _ Hn Hr) as [ch S]. unfold LockOK in HL.
  destruct a as [d|i item a|j]; unfold step.
  - by case_decide.
  - destruct (producers s !! i) as [p|] eqn:Hp; [|done].
    unfold produce_step. destruct (p_pc p) eqn:Hpc; simpl; repeat case_match; try done;
      destruct (the_pview_holder _ _ i p p HL Hp) as [E1 _];
      try (unfold pphase; rewrite Hpc; reflexivity);
      rewrite E1 in S; unfold pview_of in S; rewrite Hpc in S;
      destruct (sh_sent _ _ _ _ _ _ _ _ S) as (n0 & Hn0 & _); simpl in Hn0; congruence.
  - destruct (consumers s !! j) as [c|] eqn:Hc; [|done].
    pose proof (shape_tail_live _ _ _ _ _ _ _ _ S) as [n0 Hn0].
    unfold consume_step. destruct (c_pc c) eqn:Hpc; simpl; repeat case_match; try done;
      try congruence.
    unfold the_cview in S.
    rewrite (proj1 (HM _ _ Hc)) in S by (by rewrite Hpc).
    rewrite (cview_at_owner _ _ _ Hc) in S. unfold cview_of in S. rewrite Hpc in S.
    destruct (shape_delete _ _ _ _ _ _ _ _ S) as (_ & [n1 Hn1] & _). congruence.
Qed.

(** *** FIFO order, and the chain when no call is in progress *)

Lemma the_pview_rest ps :
  (forall i p, ps !! i = Some p -> pview_of p = PvRest) -> the_pview ps = PvRest.
Proof. intros H. unfold the_pview. by rewrite pview_filter_rest. Qed.

Lemma the_pview_elem ps :
  the_pview ps = PvRest \/ exists i p, ps !! i = Some p /\ pview_of p = the_pview ps.
Proof.
  unfold the_pview.
  destruct (filter (fun v => v <> PvRest) (pview_of <$> ps)) as [|v l] eqn:E; [by left|].
  right. assert (v ∈ filter (fun v => v <> PvRest) (pview_of <$> ps)) as Hv
    by (rewrite E; left).
  apply list_elem_of_filter in Hv as [_ Hv].
  apply list_elem_of_fmap in Hv as (p & -> & Hp).
  apply list_elem_of_lookup in Hp as [i Hi]. eauto.
Qed.

Lemma the_cview_rest s :
  (forall j c, consumers s !! j = Some c -> cview_of c = CvRest) -> the_cview s = CvRest.
Proof.
  intros H. unfold the_cview, cview_at. destruct (mutex_consumer s) as [j|]; [|done].
  destruct (consumers s !! j) as [c|] eqn:Hc; [|done]. eauto.
Qed.

Lemma quiescent_views s :
  quiescent s -> the_pview (producers s) = PvRest /\ the_cview s = CvRest.
Proof.
  intros [HP HC]. split.
  - apply the_pview_rest. intros i p Hp.
    rewrite Forall_lookup in HP. unfold pview_of. by rewrite (HP _ _ Hp).
  - apply the_cview_rest. intros j c Hc.
    rewrite Forall_lookup in HC. unfold cview_of. by rewrite (HC _ _ Hc).
Qed.

Lemma shape_size h hd tl pv cv pl cl ch :
  Shape h hd tl pv cv pl cl ch ->
  size h = (length (dead tl cv) + length ch + 1 + length (spare pv))%nat.
Proof.
  intros S. rewrite <- size_dom, (sh_dom _ _ _ _ _ _ _ _ S).
  rewrite size_list_to_set by apply S.
  rewrite !length_app, length_fmap. simpl. lia.
Qed.

Lemma chain_ok_filled h ch sent a :
  chain_ok h ch sent -> a ∈ ch.*1 -> exists n, h !! a = Some n /\ filled n = true.
Proof.
  induction ch as [|[b v] rest IH]; simpl; [intros _ Ha; inversion Ha|].
  intros [Hb Hrest] Ha. apply elem_of_cons in Ha as [->|Ha]; eauto.
Qed.

(** FIFO: what was put in, in order, is what was taken out followed by what
    is still in the chain. *)
Lemma ib_fifo np nc s :
  Z.of_nat np <= Int32.modulus -> reachable np nc s ->
  exists pending, produced s =
    values_of Consumer (log s) ++ in_flight_take (the_cview s) ++ pending.
Proof.
  intros Hn Hr. destruct (ib_chain_ok _ _ _ Hn Hr) as [ch S].
  exists ch.*2. apply S.
Qed.

(** At rest: one unfilled node, the sentinel, at the end of the chain of
    the values produced and not yet consumed. *)
Lemma ib_at_rest np nc s :
  Z.of_nat np <= Int32.modulus -> reachable np nc s -> quiescent s ->
  exists chain,
    chain_ok (heap s) chain (head s) /\
    tail s = first_of chain (head s) /\
    dom (heap s) = list_to_set (chain.*1 ++ [head s]) /\
    NoDup (chain.*1 ++ [head s]) /\
    (exists n, heap s !! head s = Some n /\ filled n = false /\ next n = nullptr) /\
    values_of Producer (log s) = values_of Consumer (log s) ++ chain.*2.
Proof.
  intros Hn Hr Hq. destruct (ib_chain_ok _ _ _ Hn Hr) as [ch S].
  destruct (quiescent_views _ Hq) as [E1 E2]. rewrite E1, E2 in S.
  destruct S as [Hnull Hdom Hnd Hsent Hspare Hchain Htail Hcv Hfifo]. simpl in *.
  exists ch. repeat split; try done.
  - destruct Hsent as (n & ? & ? & ? & _). eauto.
  - by rewrite app_nil_r in Hfifo.
Qed.

(** *** Durations *)

Lemma ptime_ok_mono clk d p : 0 <= d -> ptime_ok clk p -> ptime_ok (clk + d) p.
Proof. unfold ptime_ok. destruct (p_pc p); lia. Qed.

Lemma ctime_ok_mono clk d c : 0 <= d -> ctime_ok clk c -> ctime_ok (clk + d) c.
Proof. unfold ctime_ok. destruct (c_pc c); lia. Qed.

Ltac ib_lookup_cases Hl i :=
  match type of Hl with
  | <[i := _]> _ !! ?i' = Some _ =>
      destruct (decide (i' = i)) as [->|];
      [ rewrite list_lookup_insert_eq in Hl by (by eapply lookup_lt_Some);
        inversion Hl; subst; clear Hl
      | rewrite list_lookup_insert_ne in Hl by done ]
  end.

Lemma ib_time_ok np nc s : reachable np nc s -> TimeOK s.
Proof.
  induction 1 as [|s a s' Hr IH Hstep].
  - split; simpl; try done.
    + intros i p Hp. by apply lookup_replicate in Hp as [-> _].
    + intros j c Hc. by apply lookup_replicate in Hc as [-> _].
    + rewrite sumZ_replicate_0; done.
    + rewrite sumZ_replicate_0; done.
  - destruct IH as [HP HC HPT HCT HPW HCW].
    destruct a as [d|i item a|j].
    + ib_step_cases Hstep. split; simpl; try done.
      * intros i p Hp. apply ptime_ok_mono; eauto.
      * intros j c Hc. apply ctime_ok_mono; eauto.
    + ib_step_cases Hstep.
      all: pose proof (HP _ _ Hp) as Hold; unfold ptime_ok in Hold; rewrite Hpc in Hold.
      all: split; simpl; rewrite ?waited_of_snoc, ?sumZ_app; simpl;
        try (rewrite (sumZ_insert _ _ _ _ _ Hp);
             set (X := sumZ p_owed (producers s)) in *; unfold p_owed; simpl; rewrite Hpc);
        try assumption; unfold id in *; try lia.
      all: intros i' p' Hl; ib_lookup_cases Hl i; [unfold ptime_ok; simpl; lia|eauto].
    + ib_step_cases Hstep.
      all: pose proof (HC _ _ Hc) as Hold; unfold ctime_ok in Hold; rewrite Hpc in Hold.
      all: split; simpl; rewrite ?waited_of_snoc, ?sumZ_app; simpl;
        try (rewrite (sumZ_insert _ _ _ _ _ Hc);
             set (X := sumZ c_owed (consumers s)) in *; unfold c_owed; simpl; rewrite Hpc);
        try assumption; unfold id in *; try lia.
      all: intros j' c' Hl; ib_lookup_cases Hl j; [unfold ctime_ok; simpl; lia|eauto].
Qed.

(** *** What each consumer has returned *)

Lemma consumed_by_snoc j l e :
  consumed_by j (l ++ [e]) =
  consumed_by j l ++
  (if decide (ev_role e = Consumer /\ ev_id e = j) then [ev_value e] else []).
Proof.
  unfold consumed_by. rewrite filter_app, fmap_app. f_equal.
  rewrite filter_cons, filter_nil. by case_decide.
Qed.

Lemma returned_to_snoc j s' s r :
  returned s' = returned s ++ [r] ->
  returned_to j s' = returned_to j s ++ (if decide (r.1 = j) then [r.2] else []).
Proof.
  intros E. unfold returned_to. rewrite E, filter_app, fmap_app. f_equal.
  rewrite filter_cons, filter_nil. by case_decide.
Qed.

Lemma returned_to_same j s' s : returned s' = returned s -> returned_to j s' = returned_to j s.
Proof. unfold returned_to. by intros ->. Qed.

Lemma ib_return_ok np nc s : reachable np nc s -> ReturnOK nc s.
Proof.
  induction 1 as [|s a s' Hr IH Hstep].
  - split; simpl; try done.
    + apply length_replicate.
    + intros j c Hc. apply lookup_replicate in Hc as [-> _]. done.
  - destruct IH as [Hlen IH Hlog Hret]. destruct a as [d|i item a|j].
    + ib_step_cases Hstep. by split.
    + ib_step_cases Hstep; (split; simpl; [done| |try done|done]);
        try (apply Forall_app; split; [done|]; by repeat constructor);
        intros j' c' Hl; rewrite ?consumed_by_snoc; simpl;
        rewrite ?(decide_False (P := Producer = Consumer /\ _)) by (intros [? _]; done);
        rewrite ?app_nil_r; erewrite returned_to_same by reflexivity; eauto.
    + pose proof (lookup_lt_Some (consumers s) j) as Hj. rewrite Hlen in Hj.
      ib_step_cases Hstep; specialize (Hj _ eq_refl);
        (split; simpl; [by rewrite length_insert| | |]);
        try done;
        try (apply Forall_app; split; [done|]; by repeat constructor);
        intros j' c' Hl; pose proof (IH _ _ Hc) as IHc; rewrite Hpc in IHc; simpl in IHc;
        rewrite ?consumed_by_snoc; simpl;
        first [ erewrite returned_to_snoc by reflexivity
              | erewrite returned_to_same by reflexivity ]; simpl;
        ib_lookup_cases Hl j; simpl;
        rewrite ?decide_True by done;
        rewrite ?(decide_False (P := _ /\ j = j')) by (intros [_ ?]; done);
        rewrite ?(decide_False (P := j = j')) by done;
        rewrite ?app_nil_r; try (rewrite IHc; rewrite ?app_nil_r; reflexivity); eauto.
Qed.

(** With one consumer thread, the values [consume] returned, in the order
    of the returns, are the values of the consumer events in the order of
    the log (but for the call that has logged and not yet returned). *)
Lemma ib_single_consumer np s :
  reachable np 1 s ->
  values_of Consumer (log s) =
  (returned s).*2 ++
  match consumers s !! 0%nat with
  | Some c => if c_logged (c_pc c) then [c_item c] else []
  | None => []
  end.
Proof.
  intros Hr. destruct (ib_return_ok _ _ _ Hr) as [Hlen IH Hlog Hret].
  assert (consumed_by 0 (log s) = values_of Consumer (log s)) as E1.
  { unfold values_of, consumed_by. f_equal. apply filter_ext_Forall.
    eapply Forall_impl; [exact Hlog|].
    simpl. intros e He. split; [tauto|]. intros Hrole. split; [done|].
    specialize (He Hrole). lia. }
  assert (returned_to 0 s = (returned s).*2) as E2.
  { unfold returned_to. f_equal. rewrite (filter_ext_Forall _ (fun _ => True)).
    - clear. induction (returned s) as [|r l IHl]; [done|].
      rewrite filter_cons_True by done. by rewrite IHl.
    - eapply Forall_impl; [exact Hret|]. simpl. intros r Hr'. split; [done|lia]. }
  destruct (consumers s !! 0%nat) as [c|] eqn:Hc.
  - rewrite <- E1, <- E2. by apply IH.
  - apply lookup_ge_None in Hc. lia.
Qed.

(** *** A call of [produce] runs to its end *)

Lemma lock_free_ticket l ph :
  TicketLock.LockInv l ph -> (forall j p, ph !! j = Some p -> p = TicketLock.Out) ->
  TicketLock.next_ticket l = TicketLock.now_serving l.
Proof.
  intros [q I] Hout.
  assert (q = []) as ->.
  { destruct q as [|j q]; [done|]. exfalso.
    assert (j ∈ j :: q) as Hj by left.
    apply (TicketLock.liq_elem _ _ _ I) in Hj as (p & Hp & Hne). eauto. }
  rewrite (TicketLock.liq_next _ _ _ I). simpl. rewrite Z.add_0_r.
  apply Int32.wrap_id, I.
Qed.

Lemma ib_produce_progress np nc s i p item :
  Z.of_nat np <= Int32.modulus -> reachable np nc s ->
  producers s !! i = Some p -> p_can_run i s p ->
  exists a s' p', step (Prod i item a) s = Next s' /\
    producers s' !! i = Some p' /\ p_pc p' = p_next (p_pc p) /\
    (p_pc p <> PStats -> p_can_run i s' p') /\
    (p_pc p <> PIdle -> p_item p' = p_item p) /\ (p_pc p = PIdle -> p_item p' = item) /\
    log s' = log s ++
      (if decide (p_pc p = PLog)
       then [mkEvent (p_timestamp p) Producer i (p_item p) (p_wait p)] else []).
Proof.
  intros Hn Hr Hp Hcan. pose proof (lookup_lt_Some _ _ _ Hp) as Hlt.
  pose proof (ib_lock_ok _ _ _ Hn Hr) as [HL _]. unfold LockOK in HL.
  set (a := fresh ({[nullptr]} ∪ dom (heap s))).
  assert (a <> nullptr /\ heap s !! a = None) as Hfresh.
  { pose proof (is_fresh ({[nullptr]} ∪ dom (heap s))) as Hf. fold a in Hf.
    split; [set_solver|]. apply not_elem_of_dom. set_solver. }
  pose proof (ib_no_fault _ _ _ (Prod i item a) Hn Hr) as Hnf.
  exists a. unfold step in *. rewrite Hp in *. unfold produce_step in *.
  unfold p_can_run in Hcan.
  destruct (p_pc p) eqn:Hpc; simpl in *;
    repeat (case_match; try done);
    (eexists; eexists; split; [reflexivity|]); simpl;
    (split; [by apply list_lookup_insert_eq|]); simpl;
    rewrite ?app_nil_r; unfold p_can_run; simpl; repeat split; try done; intros _.
  - intros j q Hne. rewrite list_lookup_insert_ne by done. eauto.
  - unfold TicketLock.must_wait. simpl.
    erewrite (lock_free_ticket _ _ HL); [by rewrite Z.eqb_refl|].
    intros j ph Hj. rewrite list_lookup_fmap in Hj.
    destruct (producers s !! j) as [q|] eqn:Hq; [|done]. inversion Hj; subst.
    destruct (decide (j = i)) as [->|Hne].
    + rewrite Hp in Hq. inversion Hq; subst. unfold pphase. by rewrite Hpc.
    + eauto.
Qed.

Lemma ib_run_app acts1 acts2 s s1 :
  run acts1 s = Next s1 -> run (acts1 ++ acts2) s = run acts2 s1.
Proof.
  revert s. induction acts1 as [|a acts1 IH]; simpl; intros s H.
  - by inversion H.
  - destruct (step a s); try done. by apply IH.
Qed.

Lemma ib_run_cons a acts s s1 : step a s = Next s1 -> run (a :: acts) s = run acts s1.
Proof. intros H. simpl. by rewrite H. Qed.

Lemma ib_run_reachable np nc acts s s' :
  reachable np nc s -> run acts s = Next s' -> reachable np nc s'.
Proof.
  revert s. induction acts as [|a acts IH]; simpl; intros s Hs Hr.
  - by inversion Hr; subst.
  - destruct (step a s) as [s1| |] eqn:E; try done.
    eapply IH; [|exact Hr]. eapply reach_step; eauto.
Qed.

(** A producer that is not behind another one at the ticket lock runs
    through the rest of [produce] on its own, whatever the consumers do
    or do not do and whatever the chain holds. *)
Lemma ib_produce_runs np nc i k :
  Z.of_nat np <= Int32.modulus ->
  forall s p, reachable np nc s -> producers s !! i = Some p -> p_can_run i s p ->
  p_rank (p_pc p) = S k ->
  exists acts s' p',
    Forall (by_producer i) acts /\ length acts = S k /\ run acts s = Next s' /\
    producers s' !! i = Some p' /\ p_pc p' = PIdle /\
    values_of Producer (log s') =
      values_of Producer (log s) ++ (if decide (5 <= S k)%nat then [p_item p] else []) /\
    values_of Consumer (log s') = values_of Consumer (log s).
Proof.
  intros Hn. induction k as [|k IH]; intros s p Hr Hp Hcan Hrank.
  - destruct (ib_produce_progress _ _ _ _ _ 0 Hn Hr Hp Hcan)
      as (a & s' & p' & Hstep & Hp' & Hpc' & _ & _ & _ & Hlog).
    exists [Prod i 0 a], s', p'. rewrite (ib_run_cons _ _ _ _ Hstep).
    assert (p_pc p = PStats) as E by (destruct (p_pc p); simpl in Hrank; congruence).
    rewrite E in *. simpl in *. rewrite app_nil_r in Hlog. rewrite Hlog.
    repeat split; try done.
    + by repeat constructor.
    + by rewrite app_nil_r.
  - destruct (ib_produce_progress _ _ _ _ _ 0 Hn Hr Hp Hcan)
      as (a & s1 & p1 & Hstep & Hp1 & Hpc1 & Hcan1 & Hitem & _ & Hlog).
    assert (p_pc p <> PIdle /\ p_pc p <> PStats /\ p_rank (p_pc p1) = S k) as (N1 & N2 & R1).
    { rewrite Hpc1. destruct (p_pc p); simpl in *; repeat split; done || lia. }
    destruct (IH s1 p1)
      as (acts & s' & p' & Hall & Hlen & Hrun & Hp' & Hpc' & Hlog' & Hclog');
      eauto using reach_step.
    exists (Prod i 0 a :: acts), s', p'. rewrite (ib_run_cons _ _ _ _ Hstep).
    repeat split; try done.
    + by constructor.
    + simpl. by rewrite Hlen.
    + rewrite Hlog', Hlog, Hitem by done.
      destruct (decide (p_pc p = PLog)) as [E|NE].
      * rewrite E in Hrank. simpl in Hrank. assert (k = 3%nat) as -> by lia. simpl.
        rewrite values_of_snoc. simpl. by rewrite app_nil_r.
      * rewrite app_nil_r. f_equal.
        destruct (decide (5 <= S k)%nat), (decide (5 <= S (S k))%nat); try done; try lia.
        exfalso. apply NE. destruct (p_pc p); simpl in *; done || lia.
    + rewrite Hclog', Hlog. destruct (decide (p_pc p = PLog)); [|by rewrite app_nil_r].
      rewrite values_of_snoc. simpl. apply app_nil_r.
Qed.

(** A whole call [produce(item)], alone, from a state where no other
    producer holds a ticket. *)
Lemma ib_produce_call np nc i s p item :
  Z.of_nat np <= Int32.modulus -> reachable np nc s ->
  producers s !! i = Some p -> p_pc p = PIdle ->
  (forall j q, j <> i -> producers s !! j = Some q -> pphase q = TicketLock.Out) ->
  exists acts s' p',
    Forall (by_producer i) acts /\ length acts = 15%nat /\ run acts s = Next s' /\
    producers s' !! i = Some p' /\ p_pc p' = PIdle /\
    values_of Producer (log s') = values_of Producer (log s) ++ [item] /\
    values_of Consumer (log s') = values_of Consumer (log s).
Proof.
  intros Hn Hr Hp Hpc Hout.
  assert (p_can_run i s p) as Hcan by (unfold p_can_run; by rewrite Hpc).
  destruct (ib_produce_progress _ _ _ _ _ item Hn Hr Hp Hcan)
    as (a & s1 & p1 & Hstep & Hp1 & Hpc1 & Hcan1 & _ & Hitem & Hlog).
  rewrite Hpc in Hpc1, Hcan1, Hitem, Hlog. simpl in Hpc1, Hlog.
  rewrite app_nil_r in Hlog.
  destruct (ib_produce_runs np nc i 13 Hn s1 p1)
    as (acts & s' & p' & Hall & Hlen & Hrun & Hp' & Hpc' & Hlog' & Hclog');
    eauto using reach_step.
  { by rewrite Hpc1. }
  exists (Prod i item a :: acts), s', p'. rewrite (ib_run_cons _ _ _ _ Hstep).
  repeat split; try done.
  - by constructor.
  - simpl. by rewrite Hlen.
  - rewrite Hlog', Hlog, Hitem by done. done.
  - by rewrite Hclog', Hlog.
Qed.

(** *** The sentinel and the node at [tail] *)

Lemma ib_sentinel_is_head s :
  Forall (fun p => p_pc p <> PAdvance) (producers s) -> sentinel_node s = head s.
Proof.
  intros Hall. unfold sentinel_node.
  destruct (the_pview_elem (producers s)) as [E|(i & p & Hp & E)].
  - by rewrite E.
  - rewrite <- E. rewrite Forall_lookup in Hall. specialize (Hall _ _ Hp).
    unfold pview_of. by destruct (p_pc p).
Qed.

(** The sentinel is a live, unfilled node. *)
Lemma ib_sentinel_unfilled np nc s :
  Z.of_nat np <= Int32.modulus -> reachable np nc s ->
  exists n, heap s !! sentinel_node s = Some n /\ filled n = false.
Proof.
  intros Hn Hr. destruct (ib_chain_ok _ _ _ Hn Hr) as [ch S].
  destruct (sh_sent _ _ _ _ _ _ _ _ S) as (n & ? & ? & _). eauto.
Qed.

(** The nodes a consumer reads, empties and deletes are not the sentinel. *)
Lemma ib_consumer_targets np nc s j c :
  Z.of_nat np <= Int32.modulus -> reachable np nc s -> consumers s !! j = Some c ->
  (c_pc c ∈ [CAcquired; CRead; CClear] ->
     tail s <> sentinel_node s /\ exists n, heap s !! tail s = Some n /\ filled n = true) /\
  (c_pc c = CDelete -> c_temp c <> sentinel_node s /\ c_temp c <> tail s).
Proof.
  intros Hn Hr Hc. destruct (ib_chain_ok _ _ _ Hn Hr) as [ch S].
  pose proof (ib_mutex_ok _ _ _ Hr) as HM. unfold sentinel_node.
  pose proof (sh_nodup _ _ _ _ _ _ _ _ S) as Hnd.
  apply NoDup_parts in Hnd as (HA & HB & HC & HsA & HsB & HsC & HAB & HAC & HBC).
  split.
  - intros Hpc.
    assert (holds_mutex (c_pc c) = true /\ (cview_of c = CvReady \/ exists it, cview_of c = CvRead it))
      as [Hh Hv].
    { unfold cview_of. set_unfold. destruct Hpc as [->|[->|[->|[]]]]; eauto. }
    unfold the_cview in S. rewrite (proj1 (HM _ _ Hc) Hh), (cview_at_owner _ _ _ Hc) in S.
    pose proof (sh_tail _ _ _ _ _ _ _ _ S) as Htl.
    pose proof (sh_cv _ _ _ _ _ _ _ _ S) as Hcv.
    pose proof (sh_chain _ _ _ _ _ _ _ _ S) as Hch.
    assert (exists a v rest, ch = (a, v) :: rest) as (a & v & rest & ->).
    { destruct Hv as [E|[it E]]; rewrite E in Hcv; simpl in Hcv.
      - destruct ch as [|[a v] rest]; [done|]. eauto.
      - destruct Hcv as (a & rest & ->). eauto. }
    assert (tail s = a) as ->.
    { destruct Hv as [E|[it E]]; rewrite E in Htl; simpl in Htl; done. }
    simpl in *. split.
    + intros E. apply HsB. rewrite <- E. left.
    + destruct Hch as [Ha _]. eauto.
  - intros Hpc.
    unfold the_cview in S.
    rewrite (proj1 (HM _ _ Hc)), (cview_at_owner _ _ _ Hc) in S by (by rewrite Hpc).
    unfold cview_of in S. rewrite Hpc in S.
    pose proof (sh_nodup _ _ _ _ _ _ _ _ S) as Hnd'. simpl in Hnd'.
    apply NoDup_cons in Hnd' as [Hnotin _].
    rewrite elem_of_app, elem_of_cons in Hnotin.
    pose proof (sh_tail _ _ _ _ _ _ _ _ S) as Htl. simpl in Htl.
    split; [intros E; apply Hnotin; right; by left|].
    intros E. apply Hnotin. rewrite E, Htl.
    destruct ch as [|[a v] rest]; simpl; [right; by left|left; left].
Qed.

Lemma ib_rest_size np nc s :
  Z.of_nat np <= Int32.modulus -> reachable np nc s -> quiescent s ->
  size (heap s) =
  (length (values_of Producer (log s)) - length (values_of Consumer (log s)) + 1)%nat.
Proof.
  intros Hn Hr Hq.
  destruct (ib_at_rest _ _ _ Hn Hr Hq) as (ch & _ & _ & Hdom & Hnd & _ & Hfifo).
  rewrite <- size_dom, Hdom, size_list_to_set by done.
  rewrite Hfifo, !length_app, !length_fmap. simpl. lia.
Qed.

(** At rest every node but the sentinel is filled. *)
Lemma ib_rest_filled np nc s a n :
  Z.of_nat np <= Int32.modulus -> reachable np nc s -> quiescent s ->
  heap s !! a = Some n -> a <> head s -> filled n = true.
Proof.
  intros Hn Hr Hq Ha Hne.
  destruct (ib_at_rest _ _ _ Hn Hr Hq) as (ch & Hch & _ & Hdom & _).
  assert (a ∈ dom (heap s)) as Hd by (apply elem_of_dom; by eexists).
  rewrite Hdom, elem_of_list_to_set, elem_of_app, list_elem_of_singleton in Hd.
  destruct Hd as [Hd|Hd]; [|done].
  destruct (chain_ok_filled _ _ _ _ Hch Hd) as (n' & Hn' & Hf). congruence.
Qed.

(** *** Any backlog, no consumer *)

Lemma ib_producer_only i acts s s' :
  Forall (by_producer i) acts -> run acts s = Next s' ->
  consumers s' = consumers s /\ length (producers s') = length (producers s).
Proof.
  revert s. induction acts as [|a acts IH]; intros s Hall Hrun.
  - simpl in Hrun. by inversion Hrun.
  - apply Forall_cons in Hall as [Ha Hall]. simpl in Hrun.
    destruct (step a s) as [s1| |] eqn:Hstep; try done.
    destruct (IH _ Hall Hrun) as [E1 E2]. rewrite E1, E2.
    destruct a as [d|i' item ad|j]; try done.
    ib_step_cases Hstep; rewrite ?length_insert; done.
Qed.

(** One producer thread, no consumer ever running: any sequence of items
    is produced, call after call, and the chain holds them all. *)
Lemma ib_backlog nc (items : list Z) :
  exists acts s,
    Forall (by_producer 0) acts /\ run acts (init 1 nc) = Next s /\
    quiescent s /\
    values_of Producer (log s) = items /\ values_of Consumer (log s) = [] /\
    size (heap s) = S (length items).
Proof.
  assert (Z.of_nat 1 <= Int32.modulus) as Hn by done.
  induction items as [|x items IH] using rev_ind.
  - exists [], (init 1 nc). simpl. repeat split; try done.
    + by repeat constructor.
    + apply Forall_replicate. done.
  - destruct IH as (acts & s & Hall & Hrun & [HqP HqC] & Hplog & Hclog & Hsize).
    assert (reachable 1 nc s) as Hr
      by (eapply ib_run_reachable; [apply reach_init|exact Hrun]).
    destruct (ib_lock_ok _ _ _ Hn Hr) as [_ Hlen].
    destruct (producers s) as [|p [|]] eqn:Hps; simpl in Hlen; try lia.
    assert (producers s !! 0%nat = Some p) as Hp by (by rewrite Hps).
    assert (p_pc p = PIdle) as Hpc by (by apply Forall_cons in HqP as [? _]).
    destruct (ib_produce_call 1 nc 0 s p x Hn Hr Hp Hpc)
      as (acts' & s' & p' & Hall' & _ & Hrun' & Hp' & Hpc' & Hplog' & Hclog').
    { intros j q Hne Hq. rewrite Hps in Hq. destruct j; [done|]. done. }
    destruct (ib_producer_only _ _ _ _ Hall' Hrun') as [Ecs Elen].
    assert (reachable 1 nc s') as Hr' by (eapply ib_run_reachable; eauto).
    assert (quiescent s') as Hq'.
    { split; [|by rewrite Ecs].
      rewrite Hps in Elen. simpl in Elen.
      destruct (producers s') as [|p0 [|]] eqn:Hps'; simpl in Elen; try lia.
      simpl in Hp'. inversion Hp'; subst. by repeat constructor. }
    exists (acts ++ acts'), s'. repeat split; try apply Hq'.
    + by apply Forall_app.
    + by rewrite (ib_run_app _ _ _ _ Hrun).
    + by rewrite Hplog', Hplog.
    + by rewrite Hclog', Hclog.
    + rewrite (ib_rest_size _ _ _ Hn Hr' Hq'), Hplog', Hclog', Hplog, Hclog.
      rewrite length_app. simpl. lia.
Qed.

Lemma ib_run_to_reachable np nc acts s :
  reachable np nc s -> reachable np nc (run_to acts s).
Proof.
  intros Hr. unfold run_to. destruct (run acts s) as [s'| |] eqn:E; try done.
  by eapply ib_run_reachable.
Qed.

(** *** No statement of [produce] waits, but the loop of the ticket lock *)

Lemma ib_produce_step_total np nc s i p item :
  Z.of_nat np <= Int32.modulus -> reachable np nc s -> producers s !! i = Some p ->
  (p_pc p = PSpin ->
     TicketLock.must_wait (ticket_lock_producer s) (p_ticket p) = false) ->
  exists a s', step (Prod i item a) s = Next s'.
Proof.
  intros Hn Hr Hp Hspin.
  set (a := fresh (dom (heap s) ∪ {[nullptr]})).
  assert (a <> nullptr /\ heap s !! a = None) as Ha.
  { pose proof (is_fresh (dom (heap s) ∪ {[nullptr]})) as Hf. fold a in Hf.
    split; [set_solver|]. apply not_elem_of_dom. set_solver. }
  exists a. pose proof (ib_no_fault _ _ _ (Prod i item a) Hn Hr) as Hnf.
  unfold step in *. rewrite Hp in *. unfold produce_step in *.
  destruct (p_pc p); try (rewrite Hspin by done); rewrite ?decide_True by done;
    repeat case_match; try done; eauto.
Qed.

(** *** One duration for each event *)

Lemma ib_samples_ok np nc s : reachable np nc s -> SamplesOK s.
Proof.
  induction 1 as [|s a s' Hr IH Hstep].
  - split; simpl; rewrite sumZ_replicate_0; done.
  - destruct IH as [HP HC]. destruct a as [d|i item a|j].
    + ib_step_cases Hstep. by split.
    + ib_step_cases Hstep.
      all: split; simpl; rewrite ?values_of_snoc, ?length_app; simpl;
        try (rewrite (sumZ_insert _ _ _ _ _ Hp);
             set (X := sumZ p_pending (producers s)) in *; unfold p_pending; simpl; rewrite Hpc);
        simpl; try assumption; lia.
    + ib_step_cases Hstep.
      all: split; simpl; rewrite ?values_of_snoc, ?length_app; simpl;
        try (rewrite (sumZ_insert _ _ _ _ _ Hc);
             set (X := sumZ c_pending (consumers s)) in *; unfold c_pending; simpl; rewrite Hpc);
        simpl; try assumption; lia.
Qed.

(** When no call is in progress: as many samples as events, and the waits
    of the events add up to no more than the totals. *)
Lemma ib_rest_samples np nc s :
  reachable np nc s -> quiescent s ->
  length (produce_durations s) = length (values_of Producer (log s)) /\
  length (consume_durations s) = length (values_of Consumer (log s)) /\
  waited_of Producer (log s) <= total_produce_time s /\
  waited_of Consumer (log s) <= total_consume_time s.
Proof.
  intros Hr [HqP HqC].
  destruct (ib_samples_ok _ _ _ Hr) as [HP HC].
  destruct (ib_time_ok _ _ _ Hr) as [_ _ _ _ HPW HCW].
  rewrite (sumZ_Forall_0 p_pending) in HP
    by (eapply Forall_impl; [exact HqP|]; intros p E; unfold p_pending; by rewrite E).
  rewrite (sumZ_Forall_0 p_owed) in HPW
    by (eapply Forall_impl; [exact HqP|]; intros p E; unfold p_owed; by rewrite E).
  rewrite (sumZ_Forall_0 c_pending) in HC
    by (eapply Forall_impl; [exact HqC|]; intros c E; unfold c_pending; by rewrite E).
  rewrite (sumZ_Forall_0 c_owed) in HCW
    by (eapply Forall_impl; [exact HqC|]; intros c E; unfold c_owed; by rewrite E).
  lia.
Qed.

(** *** Returns, thread by thread *)

Lemma consumed_by_sublist j l : consumed_by j l `sublist_of` values_of Consumer l.
Proof.
  unfold consumed_by, values_of. apply fmap_sublist.
  induction l as [|e l IH]; [done|].
  rewrite !filter_cons.
  destruct (decide (ev_role e = Consumer /\ ev_id e = j)) as [[? ?]|];
    destruct (decide (ev_role e = Consumer)); try done.
  - by apply sublist_skip.
  - by apply sublist_cons.
Qed.

Lemma ib_returns_fifo np nc s :
  Z.of_nat np <= Int32.modulus -> reachable np nc s ->
  values_of Consumer (log s) `prefix_of` produced s /\
  (forall j, (j < nc)%nat -> returned_to j s `prefix_of` consumed_by j (log s)) /\
  (forall j, consumed_by j (log s) `sublist_of` values_of Consumer (log s)) /\
  (nc = 1%nat -> (returned s).*2 `prefix_of` produced s) /\
  (quiescent s -> forall j, returned_to j s = consumed_by j (log s)).
Proof.
  intros Hn Hr. destruct (ib_fifo _ _ _ Hn Hr) as [pending Hf].
  destruct (ib_return_ok _ _ _ Hr) as [Hlen Hth _ _].
  assert (values_of Consumer (log s) `prefix_of` produced s) as Hpre.
  { rewrite Hf. by apply prefix_app_r. }
  split; [done|]. split; [|split; [|split]].
  - intros j Hj. rewrite <- Hlen in Hj.
    destruct (lookup_lt_is_Some_2 _ _ Hj) as [c Hc].
    rewrite (Hth _ _ Hc). by apply prefix_app_r.
  - intros j. apply consumed_by_sublist.
  - intros ->. etrans; [|exact Hpre].
    rewrite (ib_single_consumer _ _ Hr). by apply prefix_app_r.
  - intros [_ HqC] j. destruct (consumers s !! j) as [c|] eqn:Hc.
    + rewrite (Hth _ _ Hc). rewrite Forall_lookup in HqC.
      rewrite (HqC _ _ Hc). simpl. by rewrite app_nil_r.
    + apply lookup_ge_None in Hc. rewrite Hlen in Hc.
      destruct (ib_return_ok _ _ _ Hr) as [_ _ Hlog Hret].
      unfold returned_to, consumed_by.
      rewrite (filter_none _ (returned s)), (filter_none _ (log s)); [done| |].
      * eapply Forall_impl; [exact Hlog|]. simpl. intros e He [Hrole <-]. specialize (He Hrole). lia.
      * eapply Forall_impl; [exact Hret|]. simpl. intros r Hlt <-. lia.
Qed.

(** *** Any backlog, from any state *)

Lemma ib_producer_others i acts s s' :
  Forall (by_producer i) acts -> run acts s = Next s' ->
  forall j, j <> i -> producers s' !! j = producers s !! j.
Proof.
  revert s. induction acts as [|a acts IH]; intros s Hall Hrun j Hne.
  - simpl in Hrun. by inversion Hrun.
  - apply Forall_cons in Hall as [Ha Hall]. simpl in Hrun.
    destruct (step a s) as [s1| |] eqn:Hstep; try done.
    rewrite (IH _ Hall Hrun j Hne).
    destruct a as [d|i' item ad|j']; try done. simpl in Ha. subst i'.
    ib_step_cases Hstep; by rewrite list_lookup_insert_ne.
Qed.

(** With every producer between two calls, any one of them produces any
    sequence of items, call after call, whatever the chain holds already
    and without a step of any other thread. *)
Lemma ib_backlog_from np nc i (items : list Z) :
  Z.of_nat np <= Int32.modulus -> (i < np)%nat ->
  forall s, reachable np nc s -> Forall (fun p => p_pc p = PIdle) (producers s) ->
  exists acts s',
    Forall (by_producer i) acts /\ length acts = (15 * length items)%nat /\
    run acts s = Next s' /\
    Forall (fun p => p_pc p = PIdle) (producers s') /\ consumers s' = consumers s /\
    values_of Producer (log s') = values_of Producer (log s) ++ items /\
    values_of Consumer (log s') = values_of Consumer (log s).
Proof.
  intros Hn Hi. induction items as [|x items IH]; intros s Hr Hidle.
  - exists [], s. rewrite app_nil_r. repeat split; try done.
  - destruct (ib_lock_ok _ _ _ Hn Hr) as [_ Hlen].
    destruct (lookup_lt_is_Some_2 (producers s) i) as [p Hp]; [lia|].
    rewrite Forall_lookup in Hidle.
    destruct (ib_produce_call np nc i s p x Hn Hr Hp (Hidle _ _ Hp))
      as (acts1 & s1 & p1 & Hall1 & Hlen1 & Hrun1 & Hp1 & Hpc1 & Hplog1 & Hclog1).
    { intros j q _ Hq. unfold pphase. by rewrite (Hidle _ _ Hq). }
    pose proof (ib_producer_others _ _ _ _ Hall1 Hrun1) as Hoth.
    destruct (ib_producer_only _ _ _ _ Hall1 Hrun1) as [Ecs _].
    assert (reachable np nc s1) as Hr1 by (eapply ib_run_reachable; eauto).
    assert (Forall (fun p => p_pc p = PIdle) (producers s1)) as Hidle1.
    { apply Forall_lookup. intros j q Hq. destruct (decide (j = i)) as [->|Hne].
      - congruence.
      - rewrite (Hoth _ Hne) in Hq. eauto. }
    destruct (IH s1 Hr1 Hidle1)
      as (acts2 & s2 & Hall2 & Hlen2 & Hrun2 & Hidle2 & Ecs2 & Hplog2 & Hclog2).
    exists (acts1 ++ acts2), s2. repeat split.
    + by apply Forall_app.
    + rewrite length_app, Hlen1, Hlen2. simpl. lia.
    + by rewrite (ib_run_app _ _ _ _ Hrun1).
    + done.
    + congruence.
    + rewrite Hplog2, Hplog1, <- app_assoc. done.
    + congruence.
Qed.

End InfiniteBuffer.

(** ** The bounded buffer ([FiniteBuffer.cpp], [class LinkedListBuffer]) *)

Module FiniteBuffer.

Local Open Scope Z_scope.

(** The statement a producer thread executes next, inside [produce]. *)
Inductive ppc :=
| PIdle      (* not in a call; next: request_lock_time = now() *)
| PTicket    (* my_ticket = next_ticket.fetch_add(1) *)
| PSpin      (* while (now_serving.load() != my_ticket) yield *)
| PLockM     (* unique_lock<mutex> lock(mutex_producer) *)
| PWait      (* cv_not_full.wait: test !head->filled *)
| PSleep     (* inside wait(), mutex released; next: wake up and re-lock *)
| PAcquired  (* acquired_lock_time = now(); wait_duration = ... *)
| PWrite     (* head->data = item *)
| PTemp      (* Node* temp = head->next *)
| PFill      (* head->filled = true *)
| PAdvance   (* head = temp *)
| PStamp     (* now = now(); timestamp = now - start_time *)
| PLog       (* logEvent(...) *)
| PUnlockM   (* lock.unlock() *)
| PNotify    (* cv_not_empty.notify_one() *)
| PUnlock    (* ticket_lock_producer.unlock() *)
| PEnd       (* end = now() *)
| PStats.    (* total_produce_time += end - request_lock_time; return *)

Record pthread := mkP {
  p_pc : ppc;
  p_item : Z;
  p_request : Z;
  p_ticket : Z;
  p_wait : Z;
  p_temp : nat;
  p_timestamp : Z;
  p_end : Z
}.

Definition p_idle : pthread := mkP PIdle 0 0 0 0 nullptr 0 0.

(** The statement a consumer thread executes next, inside [consume]. *)
Inductive cpc :=
| CIdle      (* not in a call; next: request_lock_time = now() *)
| CLock      (* unique_lock<mutex> lock(mutex_consumer) *)
| CWait      (* cv_not_empty.wait: test tail->filled *)
| CSleep     (* inside wait(), mutex released; next: wake up and re-lock *)
| CAcquired  (* acquired_lock_time = now(); wait_duration = ... *)
| CRead      (* int item = tail->data *)
| CClear     (* tail->filled = false *)
| CStamp     (* now = now(); timestamp = now - start_time *)
| CLog       (* logEvent(...) *)
| CTemp      (* Node* temp = tail *)
| CAdv       (* tail = tail->next *)
| CUnlock    (* lock.unlock() *)
| CNotify    (* cv_not_full.notify_one() *)
| CEnd       (* end = now() *)
| CStats.    (* total_consume_time += end - request_lock_time; return item *)

Record cthread := mkC {
  c_pc : cpc;
  c_request : Z;
  c_wait : Z;
  c_item : Z;
  c_timestamp : Z;
  c_temp : nat;
  c_end : Z
}.

Definition c_idle : cthread := mkC CIdle 0 0 0 0 nullptr 0.

(** The buffer object, the clock, the log file and the threads; [returned]
    records each value a [consume] returned with the thread it returned
    to. *)
Record state := mkState {
  heap : gmap nat Node;
  head : nat;
  tail : nat;
  ticket_lock_producer : TicketLock.t;
  mutex_producer : option nat;
  mutex_consumer : option nat;
  total_produce_time : Z;
  total_consume_time : Z;
  start_time : Z;
  clock : Z;
  log : list Event;
  producers : list pthread;
  consumers : list cthread;
  returned : list (nat * Z)
}.

(** The loop of the constructor: [current->next = new Node(); current =
    current->next;], [count] times.  Nodes get consecutive addresses. *)
Fixpoint link_nodes (count : nat) (current : nat) (h : gmap nat Node)
  : nat * gmap nat Node :=
  match count with
  | O => (current, h)
  | S count' =>
      let node := S current in
      link_nodes count' node (<[node := new_Node]> (alter (set_next node) current h))
  end.

(** [LinkedListBuffer()]: a circular chain of [BUFFER_SIZE] nodes (one node
    when [BUFFER_SIZE] is less than two); the result is the heap and
    [first]. *)
Definition make_ring (BUFFER_SIZE : nat) : gmap nat Node * nat :=
  let first := 1%nat in
  let r := link_nodes (BUFFER_SIZE - 1) first {[ first := new_Node ]} in
  (alter (set_next first) (fst r) (snd r), first).

(** [const int BUFFER_SIZE = 10;] *)
Definition BUFFER_SIZE : nat := 10.

Definition init_sized (size np nc : nat) : state :=
  let r := make_ring size in
  mkState (fst r) (snd r) (snd r) TicketLock.init None None 0 0 0 0 []
          (replicate np p_idle) (replicate nc c_idle) [].

Definition init (np nc : nat) : state := init_sized BUFFER_SIZE np nc.

Definition with_heap (h : gmap nat Node) (s : state) : state :=
  mkState h (head s) (tail s) (ticket_lock_producer s) (mutex_producer s) (mutex_consumer s)
    (total_produce_time s) (total_consume_time s) (start_time s) (clock s) (log s)
    (producers s) (consumers s) (returned s).

Definition with_head (a : nat) (s : state) : state :=
  mkState (heap s) a (tail s) (ticket_lock_producer s) (mutex_producer s) (mutex_consumer s)
    (total_produce_time s) (total_consume_time s) (start_time s) (clock s) (log s)
    (producers s) (consumers s) (returned s).

Definition with_tail (a : nat) (s : state) : state :=
  mkState (heap s) (head s) a (ticket_lock_producer s) (mutex_producer s) (mutex_consumer s)
    (total_produce_time s) (total_consume_time s) (start_time s) (clock s) (log s)
    (producers s) (consumers s) (returned s).

Definition with_lock (l : TicketLock.t) (s : state) : state :=
  mkState (heap s) (head s) (tail s) l (mutex_producer s) (mutex_consumer s)
    (total_produce_time s) (total_consume_time s) (start_time s) (clock s) (log s)
    (producers s) (consumers s) (returned s).

Definition with_mutex_producer (m : option nat) (s : state) : state :=
  mkState (heap s) (head s) (tail s) (ticket_lock_producer s) m (mutex_consumer s)
    (total_produce_time s) (total_consume_time s) (start_time s) (clock s) (log s)
    (producers s) (consumers s) (returned s).

Definition with_mutex_consumer (m : option nat) (s : state) : state :=
  mkState (heap s) (head s) (tail s) (ticket_lock_producer s) (mutex_producer s) m
    (total_produce_time s) (total_consume_time s) (start_time s) (clock s) (log s)
    (producers s) (consumers s) (returned s).

Definition with_clock (c : Z) (s : state) : state :=
  mkState (heap s) (head s) (tail s) (ticket_lock_producer s) (mutex_producer s) (mutex_consumer s)
    (total_produce_time s) (total_consume_time s) (start_time s) c (log s)
    (producers s) (consumers s) (returned s).

Definition with_log (l : list Event) (s : state) : state :=
  mkState (heap s) (head s) (tail s) (ticket_lock_producer s) (mutex_producer s) (mutex_consumer s)
    (total_produce_time s) (total_consume_time s) (start_time s) (clock s) l
    (producers s) (consumers s) (returned s).

Definition with_producer (i : nat) (p : pthread) (s : state) : state :=
  mkState (heap s) (head s) (tail s) (ticket_lock_producer s) (mutex_producer s) (mutex_consumer s)
    (total_produce_time s) (total_consume_time s) (start_time s) (clock s) (log s)
    (<[i := p]> (producers s)) (consumers s) (returned s).

Definition with_consumer (j : nat) (c : cthread) (s : state) : state :=
  mkState (heap s) (head s) (tail s) (ticket_lock_producer s) (mutex_producer s) (mutex_consumer s)
    (total_produce_time s) (total_consume_time s) (start_time s) (clock s) (log s)
    (producers s) (<[j := c]> (consumers s)) (returned s).

(** [total_produce_time += d] *)
Definition add_produce_time (d : Z) (s : state) : state :=
  mkState (heap s) (head s) (tail s) (ticket_lock_producer s) (mutex_producer s) (mutex_consumer s)
    (total_produce_time s + d) (total_consume_time s) (start_time s) (clock s) (log s)
    (producers s) (consumers s) (returned s).

(** [total_consume_time += d; return item] *)
Definition add_consume_time (j : nat) (item d : Z) (s : state) : state :=
  mkState (heap s) (head s) (tail s) (ticket_lock_producer s) (mutex_producer s) (mutex_consumer s)
    (total_produce_time s) (total_consume_time s + d) (start_time s) (clock s) (log s)
    (producers s) (consumers s) (returned s ++ [(j, item)]).

Definition p_at (pc : ppc) (p : pthread) : pthread :=
  mkP pc (p_item p) (p_request p) (p_ticket p) (p_wait p) (p_temp p) (p_timestamp p) (p_end p).

Definition c_at (pc : cpc) (c : cthread) : cthread :=
  mkC pc (c_request c) (c_wait c) (c_item c) (c_timestamp c) (c_temp c) (c_end c).

(** One statement of [produce], executed by producer [i] whose locals are
    [p]; [item] is the argument of the call when the statement is the call
    itself. *)
Definition produce_step (i : nat) (p : pthread) (item : Z) (s : state) : outcome state :=
  match p_pc p with
  | PIdle =>
      Next (with_producer i
        (mkP PTicket item (clock s) (p_ticket p) (p_wait p) (p_temp p) (p_timestamp p) (p_end p)) s)
  | PTicket =>
      let r := TicketLock.take_ticket (ticket_lock_producer s) in
      Next (with_producer i
        (mkP PSpin (p_item p) (p_request p) (fst r) (p_wait p) (p_temp p) (p_timestamp p) (p_end p))
        (with_lock (snd r) s))
  | PSpin =>
      if TicketLock.must_wait (ticket_lock_producer s) (p_ticket p) then Blocked
      else Next (with_producer i (p_at PLockM p) s)
  | PLockM | PSleep =>
      match mutex_producer s with
      | None => Next (with_producer i (p_at PWait p) (with_mutex_producer (Some i) s))
      | Some _ => Blocked
      end
  | PWait =>
      match heap s !! head s with
      | Some n =>
          if negb (filled n) then Next (with_producer i (p_at PAcquired p) s)
          else Next (with_producer i (p_at PSleep p) (with_mutex_producer None s))
      | None => Fault
      end
  | PAcquired =>
      Next (with_producer i
        (mkP PWrite (p_item p) (p_request p) (p_ticket p) (clock s - p_request p) (p_temp p)
             (p_timestamp p) (p_end p)) s)
  | PWrite =>
      match heap s !! head s with
      | Some n => Next (with_producer i (p_at PTemp p)
                          (with_heap (<[head s := set_data (p_item p) n]> (heap s)) s))
      | None => Fault
      end
  | PTemp =>
      match heap s !! head s with
      | Some n => Next (with_producer i
          (mkP PFill (p_item p) (p_request p) (p_ticket p) (p_wait p) (next n)
               (p_timestamp p) (p_end p)) s)
      | None => Fault
      end
  | PFill =>
      match heap s !! head s with
      | Some n => Next (with_producer i (p_at PAdvance p)
                          (with_heap (<[head s := set_filled true n]> (heap s)) s))
      | None => Fault
      end
  | PAdvance =>
      Next (with_producer i (p_at PStamp p) (with_head (p_temp p) s))
  | PStamp =>
      Next (with_producer i
        (mkP PLog (p_item p) (p_request p) (p_ticket p) (p_wait p) (p_temp p)
             (clock s - start_time s) (p_end p)) s)
  | PLog =>
      Next (with_producer i (p_at PUnlockM p)
        (with_log (log s ++ [mkEvent (p_timestamp p) Producer i (p_item p) (p_wait p)]) s))
  | PUnlockM =>
      Next (with_producer i (p_at PNotify p) (with_mutex_producer None s))
  | PNotify =>
      Next (with_producer i (p_at PUnlock p) s)
  | PUnlock =>
      Next (with_producer i (p_at PEnd p)
        (with_lock (TicketLock.unlock (ticket_lock_producer s)) s))
  | PEnd =>
      Next (with_producer i
        (mkP PStats (p_item p) (p_request p) (p_ticket p) (p_wait p) (p_temp p)
             (p_timestamp p) (clock s)) s)
  | PStats =>
      Next (with_producer i (p_at PIdle p) (add_produce_time (p_end p - p_request p) s))
  end.

(** One statement of [consume], executed by consumer [j] whose locals are
    [c].  A thread inside [wait()] may wake up at any time (the C++ standard
    allows spurious wake-ups), so [notify_one] adds no behaviour. *)
Definition consume_step (j : nat) (c : cthread) (s : state) : outcome state :=
  match c_pc c with
  | CIdle =>
      Next (with_consumer j
        (mkC CLock (clock s) (c_wait c) (c_item c) (c_timestamp c) (c_temp c) (c_end c)) s)
  | CLock | CSleep =>
      match mutex_consumer s with
      | None => Next (with_consumer j (c_at CWait c) (with_mutex_consumer (Some j) s))
      | Some _ => Blocked
      end
  | CWait =>
      match heap s !! tail s with
      | Some n =>
          if filled n then Next (with_consumer j (c_at CAcquired c) s)
          else Next (with_consumer j (c_at CSleep c) (with_mutex_consumer None s))
      | None => Fault
      end
  | CAcquired =>
      Next (with_consumer j
        (mkC CRead (c_request c) (clock s - c_request c) (c_item c) (c_timestamp c)
             (c_temp c) (c_end c)) s)
  | CRead =>
      match heap s !! tail s with
      | Some n => Next (with_consumer j
          (mkC CClear (c_request c) (c_wait c) (data n) (c_timestamp c) (c_temp c) (c_end c)) s)
      | None => Fault
      end
  | CClear =>
      match heap s !! tail s with
      | Some n => Next (with_consumer j (c_at CStamp c)
                          (with_heap (<[tail s := set_filled false n]> (heap s)) s))
      | None => Fault
      end
  | CStamp =>
      Next (with_consumer j
        (mkC CLog (c_request c) (c_wait c) (c_item c) (clock s - start_time s)
             (c_temp c) (c_end c)) s)
  | CLog =>
      Next (with_consumer j (c_at CTemp c)
        (with_log (log s ++ [mkEvent (c_timestamp c) Consumer j (c_item c) (c_wait c)]) s))
  | CTemp =>
      Next (with_consumer j
        (mkC CAdv (c_request c) (c_wait c) (c_item c) (c_timestamp c) (tail s) (c_end c)) s)
  | CAdv =>
      match heap s !! tail s with
      | Some n => Next (with_consumer j (c_at CUnlock c) (with_tail (next n) s))
      | None => Fault
      end
  | CUnlock =>
      Next (with_consumer j (c_at CNotify c) (with_mutex_consumer None s))
  | CNotify =>
      Next (with_consumer j (c_at CEnd c) s)
  | CEnd =>
      Next (with_consumer j
        (mkC CStats (c_request c) (c_wait c) (c_item c) (c_timestamp c) (c_temp c) (clock s)) s)
  | CStats =>
      Next (with_consumer j (c_at CIdle c)
        (add_consume_time j (c_item c) (c_end c - c_request c) s))
  end.

Inductive action :=
| Tick (d : Z)
| Prod (i : nat) (item : Z)
| Cons (j : nat).

Definition step (act : action) (s : state) : outcome state :=
  match act with
  | Tick d => if decide (0 <= d) then Next (with_clock (clock s + d) s) else Blocked
  | Prod i item =>
      match producers s !! i with
      | Some p => produce_step i p item s
      | None => Blocked
      end
  | Cons j =>
      match consumers s !! j with
      | Some c => consume_step j c s
      | None => Blocked
      end
  end.

Fixpoint run (acts : list action) (s : state) : outcome state :=
  match acts with
  | [] => Next s
  | a :: acts' =>
      match step a s with
      | Next s' => run acts' s'
      | Blocked => Blocked
      | Fault => Fault
      end
  end.

(** The states a buffer of [size] nodes goes through. *)
Inductive reachable (size np nc : nat) : state -> Prop :=
| reach_init : reachable size np nc (init_sized size np nc)
| reach_step s a s' : reachable size np nc s -> step a s = Next s' -> reachable size np nc s'.

(** *** Positions in the ring *)

(** The address of the node used by the [m]-th item (counting from 0) in a
    ring of [N] nodes. *)
Definition addr (N m : nat) : nat := S (m mod N).

(** What the constructor builds: the nodes [1..N], each empty and linked
    to the next, the last one to the first. *)
Record RingBuilt (N : nat) (h : gmap nat Node) : Prop := {
  rb_dom : forall a, is_Some (h !! a) <-> (1 <= a <= N)%nat;
  rb_node : forall m, h !! addr N m = Some (mkNode 0 false (addr N (S m)))
}.

(** *** Invariants *)

Definition pphase (p : pthread) : TicketLock.phase :=
  match p_pc p with
  | PIdle | PTicket | PEnd | PStats => TicketLock.Out
  | PSpin => TicketLock.Spin (p_ticket p)
  | _ => TicketLock.Holding
  end.

Definition LockOK (s : state) : Prop :=
  TicketLock.LockInv (ticket_lock_producer s) (pphase <$> producers s).

(** The statements of [produce] executed with [mutex_producer] locked. *)
Definition holds_pmutex (pc : ppc) : bool :=
  match pc with
  | PWait | PAcquired | PWrite | PTemp | PFill | PAdvance | PStamp | PLog | PUnlockM => true
  | _ => false
  end.

(** The statements of [consume] executed with [mutex_consumer] locked. *)
Definition holds_mutex (pc : cpc) : bool :=
  match pc with
  | CIdle | CLock | CSleep | CNotify | CEnd | CStats => false
  | _ => true
  end.

Record MutexOK (s : state) : Prop := {
  mo_cons : forall j c, consumers s !! j = Some c ->
            (holds_mutex (c_pc c) = true <-> mutex_consumer s = Some j);
  mo_prod : forall i p, producers s !! i = Some p ->
            (holds_pmutex (p_pc p) = true <-> mutex_producer s = Some i);
  mo_prod_owner : forall i, mutex_producer s = Some i -> is_Some (producers s !! i)
}.

(** What the statements already executed inside the two critical sections
    have done to the ring. *)
Inductive pview :=
| PvRest                         (* nothing known, or all done *)
| PvReady                        (* !head->filled was seen true *)
| PvData (item : Z)              (* head->data written *)
| PvTemp (item : Z) (t : nat)    (* temp = head->next taken *)
| PvFilled (item : Z) (t : nat)  (* head->filled set, head not yet moved *)
| PvLogging (item : Z).          (* head moved, event not yet logged *)

Global Instance pview_eq_dec : EqDecision pview.
Proof. solve_decision. Defined.

Definition pview_of (p : pthread) : pview :=
  match p_pc p with
  | PAcquired | PWrite => PvReady
  | PTemp => PvData (p_item p)
  | PFill => PvTemp (p_item p) (p_temp p)
  | PAdvance => PvFilled (p_item p) (p_temp p)
  | PStamp | PLog => PvLogging (p_item p)
  | _ => PvRest
  end.

Definition the_pview (ps : list pthread) : pview :=
  match filter (fun v => v <> PvRest) (pview_of <$> ps) with
  | v :: _ => v
  | [] => PvRest
  end.

Inductive cview :=
| CvRest                  (* nothing known, or all done *)
| CvReady                 (* tail->filled was seen true *)
| CvRead (item : Z)       (* tail->data read *)
| CvCleared (item : Z)    (* tail->filled cleared, event not yet logged *)
| CvLogged                (* event logged *)
| CvTemp (temp : nat).    (* temp = tail taken, tail not yet moved *)

Definition cview_of (c : cthread) : cview :=
  match c_pc c with
  | CAcquired | CRead => CvReady
  | CClear => CvRead (c_item c)
  | CStamp | CLog => CvCleared (c_item c)
  | CTemp => CvLogged
  | CAdv => CvTemp (c_temp c)
  | _ => CvRest
  end.

Definition cview_at (m : option nat) (cs : list cthread) : cview :=
  match m with
  | Some j => match cs !! j with Some c => cview_of c | None => CvRest end
  | None => CvRest
  end.

Global Arguments cview_at : simpl never.

Definition the_cview (s : state) : cview := cview_at (mutex_consumer s) (consumers s).

(** The item already in its slot whose producer event is not yet logged. *)
Definition in_flight_fill (pv : pview) : list Z :=
  match pv with PvFilled it _ | PvLogging it => [it] | _ => [] end.

(** The item already taken whose consumer event is not yet logged. *)
Definition in_flight_take (cv : cview) : list Z :=
  match cv with CvCleared it => [it] | _ => [] end.

(** [head] is one slot behind between [head->filled = true] and [head = temp]. *)
Definition head_lag (pv : pview) : nat :=
  match pv with PvFilled _ _ => 1 | _ => 0 end.

(** [tail] is one slot behind between [tail->filled = false] and
    [tail = tail->next]. *)
Definition tail_lag (cv : cview) : nat :=
  match cv with CvCleared _ | CvLogged | CvTemp _ => 1 | _ => 0 end.

(** [put]: every value put into a slot so far, in order; [taken]: every
    value whose slot was emptied so far, in order.  The [m]-th value lives
    in slot [addr N m] from the moment it is put until it is taken. *)
Record Ring (N : nat) (h : gmap nat Node) (hd tl : nat) (pv : pview) (cv : cview)
    (put taken : list Z) : Prop := {
  rg_size : (1 <= N)%nat;
  rg_dom : forall a, is_Some (h !! a) <-> (1 <= a <= N)%nat;
  rg_next : forall m n, h !! addr N m = Some n -> next n = addr N (S m);
  rg_taken : taken = take (length taken) put;
  rg_bound : (length taken <= length put <= length taken + N)%nat;
  rg_filled : forall m v, (length taken <= m)%nat -> put !! m = Some v ->
              exists n, h !! addr N m = Some n /\ filled n = true /\ data n = v;
  rg_empty : forall m, (length put <= m < length taken + N)%nat ->
             exists n, h !! addr N m = Some n /\ filled n = false;
  rg_head : hd = addr N (length put - head_lag pv);
  rg_tail : tl = addr N (length taken - tail_lag cv);
  rg_pv : match pv with
          | PvReady => (length put < length taken + N)%nat
          | PvData it =>
              (length put < length taken + N)%nat /\
              exists n, h !! hd = Some n /\ data n = it
          | PvTemp it t =>
              (length put < length taken + N)%nat /\
              (exists n, h !! hd = Some n /\ data n = it) /\ t = addr N (S (length put))
          | PvFilled it t => t = addr N (length put) /\ (1 <= length put)%nat
          | _ => True
          end;
  rg_cv : match cv with
          | CvReady => (length taken < length put)%nat
          | CvRead it => put !! length taken = Some it
          | CvCleared _ | CvLogged => (1 <= length taken)%nat
          | CvTemp t => t = tl /\ (1 <= length taken)%nat
          | CvRest => True
          end
}.

Definition RingOK (N : nat) (s : state) : Prop :=
  Ring N (heap s) (head s) (tail s) (the_pview (producers s)) (the_cview s)
       (values_of Producer (log s) ++ in_flight_fill (the_pview (producers s)))
       (values_of Consumer (log s) ++ in_flight_take (the_cview s)).

(** *** Calls in progress and values in transit *)

Global Instance ppc_eq_dec : EqDecision ppc.
Proof. solve_decision. Defined.

Global Instance cpc_eq_dec : EqDecision cpc.
Proof. solve_decision. Defined.

(** No call of [produce] or [consume] is in progress. *)
Definition quiescent (s : state) : Prop :=
  Forall (fun p => p_pc p = PIdle) (producers s) /\
  Forall (fun c => c_pc c = CIdle) (consumers s).

(** Every value put into a slot so far, in order. *)
Definition put (s : state) : list Z :=
  values_of Producer (log s) ++ in_flight_fill (the_pview (producers s)).

(** Every value whose slot was emptied so far, in order. *)
Definition taken (s : state) : list Z :=
  values_of Consumer (log s) ++ in_flight_take (the_cview s).

(** The number of items in the ring. *)
Definition stored (s : state) : nat := (length (put s) - length (taken s))%nat.

Definition returned_to (j : nat) (s : state) : list Z :=
  (filter (fun r => r.1 = j) (returned s)).*2.

Definition consumed_by (j : nat) (l : list Event) : list Z :=
  ev_value <$> filter (fun e => ev_role e = Consumer /\ ev_id e = j) l.

(** *** What [consume] returns *)

(** The event of the call in progress is logged, the call has not returned. *)
Definition c_logged (pc : cpc) : bool :=
  match pc with
  | CTemp | CAdv | CUnlock | CNotify | CEnd | CStats => true
  | _ => false
  end.

Record ReturnOK (nc : nat) (s : state) : Prop := {
  ro_len : length (consumers s) = nc;
  ro_thread : forall j c, consumers s !! j = Some c ->
    consumed_by j (log s) =
    returned_to j s ++ (if c_logged (c_pc c) then [c_item c] else []);
  ro_log_ids : Forall (fun e => ev_role e = Consumer -> (ev_id e < nc)%nat) (log s);
  ro_ret_ids : Forall (fun r => (r.1 < nc)%nat) (returned s)
}.

(** *** Schedules *)

(** The state a schedule leads to (the starting state when the schedule
    cannot be executed). *)
Definition run_to (acts : list action) (s : state) : state :=
  match run acts s with Next s' => s' | _ => s end.

(** [k] statements in a row of producer [i], whose call has argument
    [item]. *)
Definition prod_steps (k i : nat) (item : Z) : list action := replicate k (Prod i item).

(** [k] statements in a row of consumer [j]. *)
Definition cons_steps (k j : nat) : list action := replicate k (Cons j).

(** *** The ring built by the constructor *)

Lemma addr_range N m : (1 <= N)%nat -> (1 <= addr N m <= N)%nat.
Proof. intros HN. unfold addr. pose proof (Nat.mod_upper_bound m N). lia. Qed.

Lemma addr_period N m : (1 <= N)%nat -> addr N (m + N) = addr N m.
Proof.
  intros HN. unfold addr. f_equal.
  rewrite <- (Nat.Div0.add_mod_idemp_r m N N), Nat.Div0.mod_same, Nat.add_0_r. done.
Qed.

Lemma addr_inj N C m m' :
  (C <= m < C + N)%nat -> (C <= m' < C + N)%nat -> addr N m = addr N m' -> m = m'.
Proof.
  intros Hm Hm' E. unfold addr in E. injection E as E.
  assert (1 <= N)%nat as HN by lia.
  pose proof (Nat.div_mod_eq m N) as D1. pose proof (Nat.div_mod_eq m' N) as D2.
  pose proof (Nat.mod_upper_bound m N ltac:(lia)) as B1.
  rewrite E in D1.
  assert (m / N = m' / N)%nat; [nia|]. nia.
Qed.

Lemma addr_ex N a : (1 <= a <= N)%nat -> exists m, (m < N)%nat /\ a = addr N m.
Proof.
  intros Ha. exists (a - 1)%nat. split; [lia|]. unfold addr.
  rewrite Nat.mod_small by lia. lia.
Qed.

Lemma addr_succ N m :
  (1 <= N)%nat -> addr N (S m) = if decide (addr N m = N) then 1%nat else S (addr N m).
Proof.
  intros HN. unfold addr.
  pose proof (Nat.div_mod_eq m N) as D. pose proof (Nat.mod_upper_bound m N ltac:(lia)) as B.
  case_decide as E.
  - f_equal. symmetry. apply (Nat.mod_unique (S m) N (S (m / N)) 0); lia.
  - f_equal. symmetry. apply (Nat.mod_unique (S m) N (m / N) (S (m mod N))); lia.
Qed.

Lemma link_nodes_spec count : forall current h,
  (1 <= current)%nat ->
  (forall a, is_Some (h !! a) <-> (1 <= a <= current)%nat) ->
  (forall a, (1 <= a < current)%nat -> h !! a = Some (mkNode 0 false (S a))) ->
  h !! current = Some new_Node ->
  let r := link_nodes count current h in
  fst r = (current + count)%nat /\
  (forall a, is_Some (snd r !! a) <-> (1 <= a <= current + count)%nat) /\
  (forall a, (1 <= a < current + count)%nat -> snd r !! a = Some (mkNode 0 false (S a))) /\
  snd r !! (current + count)%nat = Some new_Node.
Proof.
  induction count as [|count IH]; intros current h Hc Hdom Hlinked Hlast; simpl.
  - rewrite Nat.add_0_r. split; [done|]. split; [exact Hdom|]. by split.
  - destruct (IH (S current)
               (<[S current := new_Node]> (alter (set_next (S current)) current h)))
      as (E1 & E2 & E3 & E4).
    + lia.
    + intros a. destruct (decide (a = S current)) as [->|Hne].
      * rewrite lookup_insert_eq. split; [lia|by eexists].
      * rewrite lookup_insert_ne by done.
        destruct (decide (a = current)) as [->|Hne'].
        -- rewrite lookup_alter_eq, Hlast. simpl. split; [lia|by eexists].
        -- rewrite lookup_alter_ne by done. rewrite Hdom. lia.
    + intros a Ha. rewrite lookup_insert_ne by lia.
      destruct (decide (a = current)) as [->|Hne'].
      * rewrite lookup_alter_eq, Hlast. done.
      * rewrite lookup_alter_ne by done. apply Hlinked. lia.
    + apply lookup_insert_eq.
    + replace (current + S count)%nat with (S current + count)%nat by lia. done.
Qed.

Lemma make_ring_spec size :
  RingBuilt (Nat.max 1 size) (fst (make_ring size)) /\ snd (make_ring size) = 1%nat.
Proof.
  unfold make_ring. simpl.
  destruct (link_nodes_spec (size - 1) 1 {[ 1%nat := new_Node ]}) as (E1 & E2 & E3 & E4).
  - lia.
  - intros a. destruct (decide (a = 1%nat)) as [->|Hne].
    + rewrite lookup_singleton_eq. split; [lia|by eexists].
    + rewrite lookup_singleton_ne by done. split; [by intros []|lia].
  - intros a Ha. lia.
  - apply lookup_singleton_eq.
  - set (r := link_nodes (size - 1) 1 {[ 1%nat := new_Node ]}) in *.
    assert (fst r = Nat.max 1 size) as EN by lia.
    rewrite EN in *. replace (1 + (size - 1))%nat with (Nat.max 1 size) in * by lia.
    set (N := Nat.max 1 size) in *. assert (1 <= N)%nat as HN by lia.
    split; [|done]. split.
    + intros a. destruct (decide (a = N)) as [->|Hne].
      * rewrite lookup_alter_eq, E4. simpl. split; [lia|by eexists].
      * rewrite lookup_alter_ne by done. apply E2.
    + intros m. rewrite addr_succ by done. pose proof (addr_range N m HN) as Hr.
      case_decide as E.
      * rewrite E, lookup_alter_eq, E4. done.
      * rewrite lookup_alter_ne by done. apply E3. lia.
Qed.

(** *** Every statement keeps the ring *)

Lemma ring_init size :
  Ring (Nat.max 1 size) (fst (make_ring size)) (snd (make_ring size)) (snd (make_ring size))
       PvRest CvRest [] [].
Proof.
  destruct (make_ring_spec size) as [[Hdom Hnode] ->].
  split; simpl; try done; try lia.
  - intros m n Hn. rewrite Hnode in Hn. by inversion Hn.
  - intros m Hm. rewrite Hnode. eauto.
  - unfold addr. by rewrite Nat.Div0.mod_0_l.
  - unfold addr. by rewrite Nat.Div0.mod_0_l.
Qed.

(** A step that leaves the heap and the two pointers alone. *)
Lemma ring_views N h hd tl pv pv' cv cv' put taken :
  Ring N h hd tl pv cv put taken ->
  head_lag pv' = head_lag pv -> tail_lag cv' = tail_lag cv ->
  match pv' with
  | PvReady => (length put < length taken + N)%nat
  | PvData it =>
      (length put < length taken + N)%nat /\ exists n, h !! hd = Some n /\ data n = it
  | PvTemp it t =>
      (length put < length taken + N)%nat /\
      (exists n, h !! hd = Some n /\ data n = it) /\ t = addr N (S (length put))
  | PvFilled it t => t = addr N (length put) /\ (1 <= length put)%nat
  | _ => True
  end ->
  match cv' with
  | CvReady => (length taken < length put)%nat
  | CvRead it => put !! length taken = Some it
  | CvCleared _ | CvLogged => (1 <= length taken)%nat
  | CvTemp t => t = tl /\ (1 <= length taken)%nat
  | CvRest => True
  end ->
  Ring N h hd tl pv' cv' put taken.
Proof.
  intros [HN Hdom Hnext Htaken Hb Hf He Hhd Htl Hpv Hcv] E1 E2 Hpv' Hcv'.
  split; rewrite ?E1, ?E2; done.
Qed.

Lemma ring_head_node N h hd tl pv cv put taken :
  Ring N h hd tl pv cv put taken -> exists n, h !! hd = Some n.
Proof.
  intros R. apply (rg_dom _ _ _ _ _ _ _ _ R). rewrite (rg_head _ _ _ _ _ _ _ _ R).
  apply addr_range, R.
Qed.

Lemma ring_tail_node N h hd tl pv cv put taken :
  Ring N h hd tl pv cv put taken -> exists n, h !! tl = Some n.
Proof.
  intros R. apply (rg_dom _ _ _ _ _ _ _ _ R). rewrite (rg_tail _ _ _ _ _ _ _ _ R).
  apply addr_range, R.
Qed.

(** The slot at [head] is free exactly when fewer than [N] items are in the
    ring (outside the window in which [head] is one slot behind). *)
Lemma ring_head_free N h hd tl pv cv put taken n :
  Ring N h hd tl pv cv put taken -> head_lag pv = 0%nat -> h !! hd = Some n ->
  (filled n = false <-> (length put < length taken + N)%nat).
Proof.
  intros R Hlag Hn. pose proof (rg_bound _ _ _ _ _ _ _ _ R) as Hb.
  rewrite (rg_head _ _ _ _ _ _ _ _ R), Hlag, Nat.sub_0_r in Hn.
  split.
  - intros Hf. destruct (decide (length put < length taken + N)%nat) as [|Hge]; [done|].
    assert (length put = length taken + N)%nat as E by lia.
    destruct (lookup_lt_is_Some_2 put (length taken)) as [v Hv]; [pose proof (rg_size _ _ _ _ _ _ _ _ R); lia|].
    destruct (rg_filled _ _ _ _ _ _ _ _ R (length taken) v ltac:(lia) Hv) as (n' & Hn' & Hf' & _).
    rewrite E, addr_period in Hn by apply R. congruence.
  - intros Hlt. destruct (rg_empty _ _ _ _ _ _ _ _ R (length put) ltac:(lia)) as (n' & Hn' & Hf').
    congruence.
Qed.

(** The slot at [tail] is filled exactly when the ring holds an item
    (outside the window in which [tail] is one slot behind). *)
Lemma ring_tail_filled N h hd tl pv cv put taken n :
  Ring N h hd tl pv cv put taken -> tail_lag cv = 0%nat -> h !! tl = Some n ->
  (filled n = true <-> (length taken < length put)%nat).
Proof.
  intros R Hlag Hn. pose proof (rg_bound _ _ _ _ _ _ _ _ R) as Hb.
  pose proof (rg_size _ _ _ _ _ _ _ _ R) as HN.
  rewrite (rg_tail _ _ _ _ _ _ _ _ R), Hlag, Nat.sub_0_r in Hn.
  split.
  - intros Hf. destruct (decide (length taken < length put)%nat) as [|Hge]; [done|].
    destruct (rg_empty _ _ _ _ _ _ _ _ R (length taken) ltac:(lia)) as (n' & Hn' & Hf').
    congruence.
  - intros Hlt. destruct (lookup_lt_is_Some_2 put (length taken) Hlt) as [v Hv].
    destruct (rg_filled _ _ _ _ _ _ _ _ R (length taken) v ltac:(lia) Hv) as (n' & Hn' & Hf' & _).
    congruence.
Qed.

Lemma ring_update_dom (h : gmap nat Node) a n n' b :
  h !! a = Some n -> is_Some (<[a := n']> h !! b) <-> is_Some (h !! b).
Proof.
  intros Ha. destruct (decide (b = a)) as [->|Hne].
  - rewrite lookup_insert_eq, Ha. split; by eexists.
  - by rewrite lookup_insert_ne.
Qed.

Lemma ring_update_next N (h : gmap nat Node) a n n' :
  (forall m n0, h !! addr N m = Some n0 -> next n0 = addr N (S m)) ->
  h !! a = Some n -> next n' = next n ->
  forall m n0, <[a := n']> h !! addr N m = Some n0 -> next n0 = addr N (S m).
Proof.
  intros Hnext Ha En m n0. destruct (decide (addr N m = a)) as [E|Hne].
  - rewrite E, lookup_insert_eq. intros [= <-]. rewrite En. apply Hnext.
    by rewrite E.
  - rewrite lookup_insert_ne by done. apply Hnext.
Qed.

(** [head->data = item] *)
Lemma ring_write N h hd tl cv put taken n it :
  Ring N h hd tl PvReady cv put taken -> h !! hd = Some n ->
  Ring N (<[hd := set_data it n]> h) hd tl (PvData it) cv put taken.
Proof.
  intros [HN Hdom Hnext Htaken Hb Hf He Hhd Htl Hpv Hcv] Hn. simpl in *.
  rewrite Nat.sub_0_r in Hhd.
  split; simpl; try done.
  - intros a. rewrite ring_update_dom by done. apply Hdom.
  - by apply (ring_update_next N h hd n).
  - intros m v Hm Hv. destruct (Hf m v Hm Hv) as (n0 & Hn0 & ?).
    exists n0. rewrite lookup_insert_ne; [done|].
    rewrite Hhd. intros E. apply lookup_lt_Some in Hv.
    apply (addr_inj N (length taken)) in E; lia.
  - intros m Hm. destruct (He m Hm) as (n0 & Hn0 & Hf0).
    destruct (decide (addr N m = hd)) as [E|Hne].
    + rewrite E, lookup_insert_eq. eexists. split; [done|]. simpl.
      rewrite E in Hn0. congruence.
    + exists n0. by rewrite lookup_insert_ne.
  - by rewrite Nat.sub_0_r.
  - split; [done|]. rewrite lookup_insert_eq. eauto.
Qed.

(** [head->filled = true] *)
Lemma ring_fill N h hd tl cv put taken n it t :
  Ring N h hd tl (PvTemp it t) cv put taken -> h !! hd = Some n ->
  Ring N (<[hd := set_filled true n]> h) hd tl (PvFilled it t) cv (put ++ [it]) taken.
Proof.
  intros [HN Hdom Hnext Htaken Hb Hf He Hhd Htl Hpv Hcv] Hn. simpl in *.
  rewrite Nat.sub_0_r in Hhd. destruct Hpv as (Hlt & (n' & Hn' & Hd) & Ht).
  assert (n' = n) as -> by congruence.
  split; simpl; rewrite ?length_app; simpl; try done; try lia.
  - intros a. rewrite ring_update_dom by done. apply Hdom.
  - by apply (ring_update_next N h hd n).
  - rewrite take_app_le by lia. done.
  - intros m v Hm Hv. apply lookup_app_Some in Hv as [Hv|[Hge Hv]].
    + destruct (Hf m v Hm Hv) as (n0 & Hn0 & ?).
      exists n0. rewrite lookup_insert_ne; [done|].
      rewrite Hhd. intros E. apply lookup_lt_Some in Hv.
      apply (addr_inj N (length taken)) in E; lia.
    + apply list_lookup_singleton_Some in Hv as [Hv <-].
      assert (m = length put) as -> by lia.
      rewrite <- Hhd, lookup_insert_eq. eexists. split; [done|]. done.
  - intros m Hm. destruct (He m ltac:(lia)) as (n0 & Hn0 & Hf0).
    exists n0. rewrite lookup_insert_ne; [done|].
    rewrite Hhd. intros E. apply (addr_inj N (length taken)) in E; lia.
  - rewrite Hhd. f_equal. lia.
  - rewrite Ht. split; [f_equal|]; lia.
  - destruct cv; try done; try lia. by apply lookup_app_l_Some.
Qed.

(** [head = temp] *)
Lemma ring_advance N h hd tl cv put taken it t :
  Ring N h hd tl (PvFilled it t) cv put taken ->
  Ring N h t tl (PvLogging it) cv put taken.
Proof.
  intros [HN Hdom Hnext Htaken Hb Hf He Hhd Htl Hpv Hcv]. simpl in *.
  destruct Hpv as [-> Hlen]. split; simpl; try done. by rewrite Nat.sub_0_r.
Qed.

(** [Node* temp = head->next] *)
Lemma ring_temp N h hd tl cv put taken n it :
  Ring N h hd tl (PvData it) cv put taken -> h !! hd = Some n ->
  Ring N h hd tl (PvTemp it (next n)) cv put taken.
Proof.
  intros R Hn. eapply ring_views; [exact R|done|done| |exact (rg_cv _ _ _ _ _ _ _ _ R)].
  pose proof (rg_pv _ _ _ _ _ _ _ _ R) as [Hlt Hd]. simpl in *.
  split; [done|]. split; [done|].
  pose proof (rg_head _ _ _ _ _ _ _ _ R) as Hhd. simpl in Hhd.
  rewrite Nat.sub_0_r in Hhd. rewrite Hhd in Hn.
  apply (rg_next _ _ _ _ _ _ _ _ R _ _ Hn).
Qed.

(** [tail->filled = false] *)
Lemma ring_clear N h hd tl pv put taken n it :
  Ring N h hd tl pv (CvRead it) put taken -> h !! tl = Some n ->
  Ring N (<[tl := set_filled false n]> h) hd tl pv (CvCleared it) put (taken ++ [it]).
Proof.
  intros [HN Hdom Hnext Htaken Hb Hf He Hhd Htl Hpv Hcv] Hn. simpl in *.
  rewrite Nat.sub_0_r in Htl. pose proof (lookup_lt_Some _ _ _ Hcv) as Hlt.
  assert (forall m, (length taken < m < length taken + N)%nat -> addr N m <> tl) as Hother.
  { intros m Hm E. rewrite Htl in E. apply (addr_inj N (length taken)) in E; lia. }
  split; simpl; rewrite ?length_app; simpl; try done; try lia.
  - intros a. rewrite ring_update_dom by done. apply Hdom.
  - by apply (ring_update_next N h tl n).
  - replace (length taken + 1)%nat with (S (length taken)) by lia.
    rewrite (take_S_r _ _ _ Hcv). by rewrite <- Htaken.
  - intros m v Hm Hv. destruct (Hf m v ltac:(lia) Hv) as (n0 & Hn0 & ?).
    exists n0. rewrite lookup_insert_ne; [done|]. apply not_eq_sym, Hother.
    apply lookup_lt_Some in Hv. lia.
  - intros m Hm. destruct (decide (m = length taken + N)%nat) as [->|Hne].
    + rewrite addr_period, <- Htl, lookup_insert_eq by done. eauto.
    + destruct (He m ltac:(lia)) as (n0 & Hn0 & Hf0).
      exists n0. rewrite lookup_insert_ne; [done|]. apply not_eq_sym, Hother. lia.
  - rewrite Htl. f_equal. lia.
  - destruct pv; try done; try lia.
    + destruct Hpv as (? & (n0 & Hn0 & ?)). split; [lia|]. exists n0.
      rewrite lookup_insert_ne; [done|]. rewrite Hhd. simpl. rewrite Nat.sub_0_r.
      apply not_eq_sym, Hother. lia.
    + destruct Hpv as (? & (n0 & Hn0 & ?) & ?). split; [lia|]. split; [|done]. exists n0.
      rewrite lookup_insert_ne; [done|]. rewrite Hhd. simpl. rewrite Nat.sub_0_r.
      apply not_eq_sym, Hother. lia.
Qed.

(** [tail = tail->next] *)
Lemma ring_cadv N h hd tl pv put taken n t :
  Ring N h hd tl pv (CvTemp t) put taken -> h !! tl = Some n ->
  Ring N h hd (next n) pv CvRest put taken.
Proof.
  intros [HN Hdom Hnext Htaken Hb Hf He Hhd Htl Hpv Hcv] Hn. simpl in *.
  destruct Hcv as [-> Hlen].
  split; simpl; try done.
  rewrite Htl in Hn. rewrite (Hnext _ _ Hn). f_equal. lia.
Qed.

(** *** The locks are exclusive *)

Ltac fb_step_cases Hstep :=
  unfold step in Hstep;
  match type of Hstep with
  | context [producers ?s !! ?i] =>
      let p := fresh "p" in let Hp := fresh "Hp" in let Hpc := fresh "Hpc" in
      destruct (producers s !! i) as [p|] eqn:Hp; [|discriminate Hstep];
      unfold produce_step in Hstep;
      destruct (p_pc p) eqn:Hpc; simpl in Hstep
  | context [consumers ?s !! ?j] =>
      let c := fresh "c" in let Hc := fresh "Hc" in let Hpc := fresh "Hpc" in
      destruct (consumers s !! j) as [c|] eqn:Hc; [|discriminate Hstep];
      unfold consume_step in Hstep;
      destruct (c_pc c) eqn:Hpc; simpl in Hstep
  | _ => idtac
  end;
  repeat case_match; simplify_eq; simpl in *.

Lemma fb_lock_ok size np nc s :
  Z.of_nat np <= Int32.modulus -> reachable size np nc s ->
  LockOK s /\ length (producers s) = np.
Proof.
  intros Hn. induction 1 as [|s a s' Hr IH Hstep].
  - split; [|apply length_replicate]. exists []. unfold init_sized, LockOK; simpl.
    rewrite fmap_replicate. apply TicketLock.LockInvQ_init.
  - unfold LockOK in *. destruct a as [d|i item|j]; fb_step_cases Hstep;
      destruct IH as [IH Hlen];
      rewrite ?length_insert; (split; [|done]);
      try (erewrite fmap_insert_same; [exact IH|eassumption|unfold pphase; simpl; by rewrite ?Hpc]);
      try exact IH.
    + destruct IH as [q I]. exists (q ++ [i]). rewrite list_fmap_insert.
      apply (TicketLock.LockInvQ_request _ _ _ i I).
      rewrite list_lookup_fmap, Hp. simpl. unfold pphase. by rewrite Hpc.
    + destruct IH as [q I]. exists q. rewrite list_fmap_insert.
      eapply (TicketLock.LockInvQ_enter _ _ _ i (p_ticket p)); eauto.
      * by rewrite length_fmap, Hlen.
      * rewrite list_lookup_fmap, Hp. simpl. unfold pphase. by rewrite Hpc.
    + destruct IH as [q I].
      assert ((pphase <$> producers s) !! i = Some TicketLock.Holding) as Hi.
      { rewrite list_lookup_fmap, Hp. simpl. unfold pphase. by rewrite Hpc. }
      destruct (TicketLock.LockInvQ_holder_head _ _ _ i I Hi) as [q' ->].
      exists q'. rewrite list_fmap_insert.
      by apply (TicketLock.LockInvQ_release _ _ _ i I).
Qed.

Lemma fb_mutex_ok size np nc s : reachable size np nc s -> MutexOK s.
Proof.
  induction 1 as [|s a s' Hr IH Hstep].
  - split; simpl.
    + intros j c Hl. apply lookup_replicate in Hl as [-> _]. simpl. split; done.
    + intros i p Hl. apply lookup_replicate in Hl as [-> _]. simpl. split; done.
    + done.
  - destruct IH as [IHC IHP IHO]. destruct a as [d|i item|j].
    + fb_step_cases Hstep. by split.
    + fb_step_cases Hstep.
      all: pose proof (IHP _ _ Hp) as IHp; rewrite Hpc in IHp; simpl in IHp.
      all: split; simpl; try exact IHC.
      all: try (intros i' p' Hl; destruct (decide (i' = i)) as [->|Hne];
        [ rewrite list_lookup_insert_eq in Hl by (by eapply lookup_lt_Some);
          inversion Hl; subst p'; simpl
        | rewrite list_lookup_insert_ne in Hl by done; pose proof (IHP _ _ Hl) as IHl ]).
      all: try (intros i' Hi'; destruct (decide (i' = i)) as [->|Hne];
        [ rewrite list_lookup_insert_eq by (by eapply lookup_lt_Some); by eexists
        | rewrite list_lookup_insert_ne by done; eauto ]).
      all: try congruence.
      all: try tauto.
      all: try (split; intros; congruence).
      all: try (split; [intros Hh; apply IHl in Hh; congruence | congruence]).
      all: try (destruct IHp as [IHp _]; specialize (IHp eq_refl);
                split; [intros Hh; apply IHl in Hh; congruence | congruence]).
      all: try (intros i' Hi'; inversion Hi'; subst;
                rewrite list_lookup_insert_eq by (by eapply lookup_lt_Some); by eexists).
    + fb_step_cases Hstep.
      all: pose proof (IHC _ _ Hc) as IHc; rewrite Hpc in IHc; simpl in IHc.
      all: split; simpl; try exact IHP; try exact IHO.
      all: intros j' c' Hl; destruct (decide (j' = j)) as [->|Hne];
        [ rewrite list_lookup_insert_eq in Hl by (by eapply lookup_lt_Some);
          inversion Hl; subst c'; simpl
        | rewrite list_lookup_insert_ne in Hl by done; pose proof (IHC _ _ Hl) as IHl ].
      all: try tauto.
      all: try (split; intros; congruence).
      all: try (split; [intros Hh; apply IHl in Hh; congruence | congruence]).
      all: try (destruct IHc as [IHc _]; specialize (IHc eq_refl);
                split; [intros Hh; apply IHl in Hh; congruence | congruence]).
Qed.

Lemma fb_pview_unchanged ps i p p' :
  ps !! i = Some p -> pview_of p' = pview_of p ->
  the_pview (<[i := p']> ps) = the_pview ps.
Proof. intros Hp E. unfold the_pview. by erewrite fmap_insert_same. Qed.

Lemma fb_pview_filter_rest ps :
  (forall j q, ps !! j = Some q -> pview_of q = PvRest) ->
  filter (fun v => v <> PvRest) (pview_of <$> ps) = [].
Proof.
  induction ps as [|q ps IH]; intros Ho; [done|]. simpl.
  rewrite filter_cons_False by (rewrite (Ho 0%nat q); [tauto|done]).
  apply IH. intros j q' Hj. by apply (Ho (S j)).
Qed.

Lemma fb_pview_only ps i p :
  (forall j q, j <> i -> ps !! j = Some q -> pview_of q = PvRest) ->
  ps !! i = Some p -> the_pview ps = pview_of p.
Proof.
  unfold the_pview. revert i. induction ps as [|q ps IH]; intros i Ho Hp; [done|].
  destruct i as [|i]; simpl in *.
  - inversion Hp; subst q.
    rewrite filter_cons, fb_pview_filter_rest.
    + destruct (decide (pview_of p <> PvRest)) as [Hne|He]; [done|].
      destruct (decide (pview_of p = PvRest)); [done|tauto].
    + intros j q Hq. by apply (Ho (S j)).
  - rewrite filter_cons_False by (rewrite (Ho 0%nat q); [tauto|done|done]).
    apply (IH i); [|done]. intros j q' Hj. apply (Ho (S j)). lia.
Qed.

Lemma fb_pview_holding q : pview_of q <> PvRest -> pphase q = TicketLock.Holding.
Proof. unfold pview_of, pphase. destruct (p_pc q); done. Qed.

(** The holder of the ticket lock is the one producer with a view. *)
Lemma fb_pview_holder l ps i p p' :
  TicketLock.LockInv l (pphase <$> ps) -> ps !! i = Some p ->
  pphase p = TicketLock.Holding ->
  the_pview ps = pview_of p /\ the_pview (<[i := p']> ps) = pview_of p'.
Proof.
  intros I Hp Hh.
  assert (forall j q, j <> i -> ps !! j = Some q -> pview_of q = PvRest) as Ho.
  { intros j q Hne Hq. destruct (decide (pview_of q = PvRest)) as [|Hv]; [done|].
    exfalso. apply Hne. eapply (TicketLock.LockInv_exclusive _ _ j i I).
    - by rewrite list_lookup_fmap, Hq; simpl; rewrite fb_pview_holding.
    - by rewrite list_lookup_fmap, Hp; simpl; rewrite Hh. }
  split; [by apply (fb_pview_only _ i)|].
  apply (fb_pview_only _ i).
  - intros j q Hne. rewrite list_lookup_insert_ne by done. by apply Ho.
  - apply list_lookup_insert_eq. by eapply lookup_lt_Some.
Qed.

Lemma fb_pview_idle n : the_pview (replicate n p_idle) = PvRest.
Proof.
  unfold the_pview. rewrite fb_pview_filter_rest; [done|].
  intros j q Hq. by apply lookup_replicate in Hq as [-> _].
Qed.

Lemma fb_cview_at_owner cs j c : cs !! j = Some c -> cview_at (Some j) cs = cview_of c.
Proof. intros Hc. unfold cview_at. by rewrite Hc. Qed.

Lemma fb_cview_at_insert cs j c c' :
  cs !! j = Some c -> cview_at (Some j) (<[j := c']> cs) = cview_of c'.
Proof.
  intros Hc. unfold cview_at. rewrite list_lookup_insert_eq; [done|].
  by eapply lookup_lt_Some.
Qed.

Lemma fb_cview_at_other m cs j c' :
  m <> Some j -> cview_at m (<[j := c']> cs) = cview_at m cs.
Proof.
  intros Hm. unfold cview_at. destruct m as [j'|]; [|done].
  rewrite list_lookup_insert_ne; [done|]. congruence.
Qed.

Ltac fb_pview_same S Hp Hpc :=
  unfold RingOK, the_cview in S |- *; simpl;
  erewrite fb_pview_unchanged;
  [ exact S | exact Hp | unfold pview_of; simpl; rewrite Hpc; reflexivity ].

Ltac fb_pview_holder HL S Hp Hpc :=
  unfold RingOK, the_cview in S |- *; simpl;
  match goal with
  | |- context [the_pview (<[?i := ?p']> _)] =>
      let E1 := fresh "E1" in let E2 := fresh "E2" in
      destruct (fb_pview_holder _ _ _ _ p' HL Hp) as [E1 E2];
      [ unfold pphase; rewrite Hpc; reflexivity | ];
      rewrite E2; rewrite E1 in S; clear E1 E2;
      unfold pview_of in S |- *; simpl in S |- *; rewrite Hpc in S; simpl in S;
      rewrite ?(app_nil_r (A:=Z)) in S; rewrite ?(app_nil_r (A:=Z))
  end.

Ltac fb_cview_other HM S Hc Hpc :=
  unfold RingOK, the_cview in S |- *; simpl;
  rewrite fb_cview_at_other;
  [ exact S
  | let E := fresh in intros E; apply (mo_cons _ HM _ _ Hc) in E; rewrite Hpc in E;
    discriminate E ].

Ltac fb_cview_owner HM S Hc Hpc :=
  let Hown := fresh "Hown" in
  assert (Hown : mutex_consumer _ = Some _)
    by (apply (mo_cons _ HM _ _ Hc); rewrite Hpc; reflexivity);
  unfold RingOK, the_cview in S |- *; simpl;
  rewrite Hown in S; rewrite ?Hown; rewrite (fb_cview_at_owner _ _ _ Hc) in S;
  rewrite ?(fb_cview_at_insert _ _ _ _ Hc);
  unfold cview_of in S |- *; simpl in S |- *; rewrite Hpc in S; simpl in S;
  rewrite ?(app_nil_r (A:=Z)) in S; rewrite ?(app_nil_r (A:=Z)).

Lemma fb_ring_ok size np nc s :
  Z.of_nat np <= Int32.modulus -> reachable size np nc s -> RingOK (Nat.max 1 size) s.
Proof.
  intros Hn. induction 1 as [|s a s' Hr S Hstep].
  - unfold RingOK, the_cview. simpl. rewrite fb_pview_idle. apply ring_init.
  - pose proof (fb_lock_ok _ _ _ _ Hn Hr) as [HL _].
    pose proof (fb_mutex_ok _ _ _ _ Hr) as HM. unfold LockOK in HL.
    destruct a as [d|i item|j]; fb_step_cases Hstep.
    + exact S.
    + (* PIdle *) fb_pview_same S Hp Hpc.
    + (* PTicket *) fb_pview_same S Hp Hpc.
    + (* PSpin *) fb_pview_same S Hp Hpc.
    + (* PLockM *) fb_pview_same S Hp Hpc.
    + (* wait: !head->filled holds *)
      fb_pview_holder HL S Hp Hpc.
      eapply ring_views; [exact S|done|done| |exact (rg_cv _ _ _ _ _ _ _ _ S)]. simpl.
      match goal with H : negb _ = true |- _ => apply negb_true_iff in H end.
      by eapply (ring_head_free _ _ _ _ _ _ _ _ _ S).
    + (* wait: !head->filled does not hold *) fb_pview_same S Hp Hpc.
    + (* PSleep *) fb_pview_same S Hp Hpc.
    + (* PAcquired *) fb_pview_same S Hp Hpc.
    + (* head->data = item *)
      fb_pview_holder HL S Hp Hpc. by apply ring_write.
    + (* temp = head->next *)
      fb_pview_holder HL S Hp Hpc. by apply ring_temp.
    + (* head->filled = true *)
      fb_pview_holder HL S Hp Hpc. by apply ring_fill.
    + (* head = temp *)
      fb_pview_holder HL S Hp Hpc. by eapply ring_advance.
    + (* PStamp *) fb_pview_same S Hp Hpc.
    + (* logEvent *)
      fb_pview_holder HL S Hp Hpc. rewrite !values_of_snoc. simpl. rewrite !app_nil_r.
      eapply ring_views; [exact S|done|done|done|exact (rg_cv _ _ _ _ _ _ _ _ S)].
    + fb_pview_same S Hp Hpc.
    + fb_pview_same S Hp Hpc.
    + fb_pview_same S Hp Hpc.
    + fb_pview_same S Hp Hpc.
    + fb_pview_same S Hp Hpc.
    + (* CIdle *) fb_cview_other HM S Hc Hpc.
    + (* CLock *)
      unfold RingOK, the_cview in S |- *; simpl.
      rewrite (fb_cview_at_insert _ _ _ _ Hc).
      match goal with H : mutex_consumer s = None |- _ => rewrite H in S end. exact S.
    + (* wait: tail->filled holds *)
      fb_cview_owner HM S Hc Hpc.
      eapply ring_views; [exact S|done|done|exact (rg_pv _ _ _ _ _ _ _ _ S)|]. simpl.
      by eapply (ring_tail_filled _ _ _ _ _ _ _ _ _ S).
    + (* wait: tail->filled does not hold, the mutex is released *)
      fb_cview_owner HM S Hc Hpc. exact S.
    + (* CSleep *)
      unfold RingOK, the_cview in S |- *; simpl.
      rewrite (fb_cview_at_insert _ _ _ _ Hc).
      match goal with H : mutex_consumer s = None |- _ => rewrite H in S end. exact S.
    + (* CAcquired *) fb_cview_owner HM S Hc Hpc. exact S.
    + (* item = tail->data *)
      fb_cview_owner HM S Hc Hpc.
      eapply ring_views; [exact S|done|done|exact (rg_pv _ _ _ _ _ _ _ _ S)|]. simpl.
      pose proof (rg_cv _ _ _ _ _ _ _ _ S) as Hlt. simpl in Hlt.
      destruct (lookup_lt_is_Some_2 _ _ Hlt) as [v Hv]. rewrite Hv. f_equal.
      destruct (rg_filled _ _ _ _ _ _ _ _ S _ v ltac:(done) Hv) as (n0 & Hn0 & _ & Hd).
      pose proof (rg_tail _ _ _ _ _ _ _ _ S) as Htl. simpl in Htl.
      rewrite Nat.sub_0_r in Htl. rewrite <- Htl in Hn0. congruence.
    + (* tail->filled = false *)
      fb_cview_owner HM S Hc Hpc. by apply ring_clear.
    + (* CStamp *) fb_cview_owner HM S Hc Hpc. exact S.
    + (* logEvent *)
      fb_cview_owner HM S Hc Hpc. rewrite !values_of_snoc. simpl. rewrite !app_nil_r.
      eapply ring_views; [exact S|done|done|exact (rg_pv _ _ _ _ _ _ _ _ S)|exact (rg_cv _ _ _ _ _ _ _ _ S)].
    + (* temp = tail *)
      fb_cview_owner HM S Hc Hpc.
      eapply ring_views; [exact S|done|done|exact (rg_pv _ _ _ _ _ _ _ _ S)|]. simpl. split; [done|exact (rg_cv _ _ _ _ _ _ _ _ S)].
    + (* tail = tail->next *)
      fb_cview_owner HM S Hc Hpc. by eapply ring_cadv.
    + (* lock.unlock() *)
      fb_cview_owner HM S Hc Hpc. exact S.
    + (* CNotify *) fb_cview_other HM S Hc Hpc.
    + (* CEnd *) fb_cview_other HM S Hc Hpc.
    + (* CStats *) fb_cview_other HM S Hc Hpc.
Qed.

(** *** Memory safety, FIFO order and capacity *)

Lemma fb_no_fault size np nc s a :
  Z.of_nat np <= Int32.modulus -> reachable size np nc s -> step a s <> Fault.
Proof.
  intros Hn Hr. pose proof (fb_ring_ok _ _ _ _ Hn Hr) as R.
  destruct (ring_head_node _ _ _ _ _ _ _ _ R) as [nh Hh].
  destruct (ring_tail_node _ _ _ _ _ _ _ _ R) as [nt Ht].
  destruct a as [d|i item|j]; unfold step.
  - by case_decide.
  - destruct (producers s !! i) as [p|]; [|done].
    unfold produce_step. destruct (p_pc p); simpl; repeat case_match; done || congruence.
  - destruct (consumers s !! j) as [c|]; [|done].
    unfold consume_step. destruct (c_pc c); simpl; repeat case_match; done || congruence.
Qed.

Lemma fb_pview_rest ps :
  (forall i p, ps !! i = Some p -> pview_of p = PvRest) -> the_pview ps = PvRest.
Proof. intros H. unfold the_pview. by rewrite fb_pview_filter_rest. Qed.

Lemma fb_cview_rest s :
  (forall j c, consumers s !! j = Some c -> cview_of c = CvRest) -> the_cview s = CvRest.
Proof.
  intros H. unfold the_cview, cview_at. destruct (mutex_consumer s) as [j|]; [|done].
  destruct (consumers s !! j) as [c|] eqn:Hc; [|done]. eauto.
Qed.

Lemma fb_quiescent_views s :
  quiescent s -> the_pview (producers s) = PvRest /\ the_cview s = CvRest.
Proof.
  intros [HP HC]. split.
  - apply fb_pview_rest. intros i p Hp.
    rewrite Forall_lookup in HP. unfold pview_of. by rewrite (HP _ _ Hp).
  - apply fb_cview_rest. intros j c Hc.
    rewrite Forall_lookup in HC. unfold cview_of. by rewrite (HC _ _ Hc).
Qed.

(** FIFO and capacity: what was taken out is the beginning of what was put
    in, and at most [N] items are in between, each in a filled slot of its
    own. *)
Lemma fb_fifo size np nc s :
  Z.of_nat np <= Int32.modulus -> reachable size np nc s ->
  taken s `prefix_of` put s /\ (stored s <= Nat.max 1 size)%nat /\
  (forall m v, (length (taken s) <= m)%nat -> put s !! m = Some v ->
     exists n, heap s !! addr (Nat.max 1 size) m = Some n /\ filled n = true /\ data n = v) /\
  (forall m m', (length (taken s) <= m < length (put s))%nat ->
     (length (taken s) <= m' < length (put s))%nat ->
     addr (Nat.max 1 size) m = addr (Nat.max 1 size) m' -> m = m').
Proof.
  intros Hn Hr. pose proof (fb_ring_ok _ _ _ _ Hn Hr) as R. unfold RingOK in R.
  fold (put s) in R. fold (taken s) in R.
  pose proof (rg_bound _ _ _ _ _ _ _ _ R) as Hb.
  split; [|split; [|split]].
  - rewrite (rg_taken _ _ _ _ _ _ _ _ R). apply prefix_take.
  - unfold stored. lia.
  - apply R.
  - intros m m' Hm Hm'. apply (addr_inj _ (length (taken s))); lia.
Qed.

(** The wait of [produce]: the test [!head->filled] succeeds exactly when
    the ring is not full. *)
Lemma fb_produce_wait size np nc s i p item :
  Z.of_nat np <= Int32.modulus -> reachable size np nc s ->
  producers s !! i = Some p -> p_pc p = PWait ->
  (stored s < Nat.max 1 size)%nat /\
    step (Prod i item) s = Next (with_producer i (p_at PAcquired p) s) \/
  stored s = Nat.max 1 size /\
    step (Prod i item) s = Next (with_producer i (p_at PSleep p) (with_mutex_producer None s)).
Proof.
  intros Hn Hr Hp Hpc. pose proof (fb_ring_ok _ _ _ _ Hn Hr) as R.
  pose proof (fb_lock_ok _ _ _ _ Hn Hr) as [HL _]. unfold LockOK in HL.
  unfold RingOK in R. fold (put s) in R. fold (taken s) in R.
  destruct (fb_pview_holder _ _ i p p HL Hp) as [E _].
  { unfold pphase. by rewrite Hpc. }
  unfold pview_of in E. rewrite Hpc in E.
  destruct (ring_head_node _ _ _ _ _ _ _ _ R) as [n Hh].
  pose proof (ring_head_free _ _ _ _ _ _ _ _ n R) as Hfree. rewrite E in Hfree.
  specialize (Hfree eq_refl Hh).
  pose proof (rg_bound _ _ _ _ _ _ _ _ R) as Hb.
  unfold step. rewrite Hp. unfold produce_step. rewrite Hpc, Hh. unfold stored.
  destruct (filled n) eqn:Hf; simpl.
  - right. split; [|done].
    destruct (decide (length (put s) < length (taken s) + Nat.max 1 size)%nat) as [Hlt|]; [|lia].
    apply Hfree in Hlt. done.
  - left. split; [|done]. assert (length (put s) < length (taken s) + Nat.max 1 size)%nat; [|lia].
    by apply Hfree.
Qed.

(** The statements that write a slot run only while the ring is not full. *)
Lemma fb_write_room size np nc s i p :
  Z.of_nat np <= Int32.modulus -> reachable size np nc s ->
  producers s !! i = Some p -> p_pc p ∈ [PAcquired; PWrite; PTemp; PFill] ->
  (stored s < Nat.max 1 size)%nat /\
  exists n, heap s !! head s = Some n /\ filled n = false.
Proof.
  intros Hn Hr Hp Hpc. pose proof (fb_ring_ok _ _ _ _ Hn Hr) as R.
  pose proof (fb_lock_ok _ _ _ _ Hn Hr) as [HL _]. unfold LockOK in HL.
  unfold RingOK in R. fold (put s) in R. fold (taken s) in R.
  assert (p_pc p = PAcquired \/ p_pc p = PWrite \/ p_pc p = PTemp \/ p_pc p = PFill)
    as Hcases by (set_unfold; tauto).
  clear Hpc.
  destruct (fb_pview_holder _ _ i p p HL Hp) as [E _].
  { unfold pphase. destruct Hcases as [E0|[E0|[E0|E0]]]; by rewrite E0. }
  unfold pview_of in E.
  destruct (ring_head_node _ _ _ _ _ _ _ _ R) as [n Hh].
  pose proof (ring_head_free _ _ _ _ _ _ _ _ n R) as Hfree. rewrite E in Hfree.
  pose proof (rg_pv _ _ _ _ _ _ _ _ R) as Hpv. rewrite E in Hpv.
  pose proof (rg_bound _ _ _ _ _ _ _ _ R) as Hb.
  assert (length (put s) < length (taken s) + Nat.max 1 size)%nat as Hlt.
  { destruct Hcases as [E0|[E0|[E0|E0]]]; rewrite E0 in Hpv; simpl in Hpv; tauto. }
  split; [unfold stored; lia|]. exists n. split; [done|]. apply Hfree; [|done|done].
  destruct Hcases as [E0|[E0|[E0|E0]]]; by rewrite E0.
Qed.

(** *** What each consumer has returned *)

Lemma fb_consumed_by_snoc j l e :
  consumed_by j (l ++ [e]) =
  consumed_by j l ++
  (if decide (ev_role e = Consumer /\ ev_id e = j) then [ev_value e] else []).
Proof.
  unfold consumed_by. rewrite filter_app, fmap_app. f_equal.
  rewrite filter_cons, filter_nil. by case_decide.
Qed.

Lemma fb_returned_to_snoc j s' s r :
  returned s' = returned s ++ [r] ->
  returned_to j s' = returned_to j s ++ (if decide (r.1 = j) then [r.2] else []).
Proof.
  intros E. unfold returned_to. rewrite E, filter_app, fmap_app. f_equal.
  rewrite filter_cons, filter_nil. by case_decide.
Qed.

Lemma fb_returned_to_same j s' s :
  returned s' = returned s -> returned_to j s' = returned_to j s.
Proof. unfold returned_to. by intros ->. Qed.

Lemma fb_return_ok size np nc s : reachable size np nc s -> ReturnOK nc s.
Proof.
  induction 1 as [|s a s' Hr IH Hstep].
  - split; simpl; try done.
    + apply length_replicate.
    + intros j c Hc. apply lookup_replicate in Hc as [-> _]. done.
  - destruct IH as [Hlen IH Hlog Hret]. destruct a as [d|i item|j].
    + fb_step_cases Hstep. by split.
    + fb_step_cases Hstep; (split; simpl; [done| |try done|done]);
        try (apply Forall_app; split; [done|]; by repeat constructor);
        intros j' c' Hl; rewrite ?fb_consumed_by_snoc; simpl;
        rewrite ?(decide_False (P := Producer = Consumer /\ _)) by (intros [? _]; done);
        rewrite ?app_nil_r; erewrite fb_returned_to_same by reflexivity; eauto.
    + pose proof (lookup_lt_Some (consumers s) j) as Hj. rewrite Hlen in Hj.
      fb_step_cases Hstep; specialize (Hj _ eq_refl);
        (split; simpl; [by rewrite length_insert| | |]);
        try done;
        try (apply Forall_app; split; [done|]; by repeat constructor);
        intros j' c' Hl; pose proof (IH _ _ Hc) as IHc; rewrite Hpc in IHc; simpl in IHc;
        rewrite ?fb_consumed_by_snoc; simpl;
        first [ erewrite fb_returned_to_snoc by reflexivity
              | erewrite fb_returned_to_same by reflexivity ]; simpl;
        (destruct (decide (j' = j)) as [->|];
         [ rewrite list_lookup_insert_eq in Hl by (by eapply lookup_lt_Some);
           inversion Hl; subst; clear Hl
         | rewrite list_lookup_insert_ne in Hl by done ]); simpl;
        rewrite ?decide_True by done;
        rewrite ?(decide_False (P := _ /\ j = j')) by (intros [_ ?]; done);
        rewrite ?(decide_False (P := j = j')) by done;
        rewrite ?app_nil_r; try (rewrite IHc; rewrite ?app_nil_r; reflexivity); eauto.
Qed.

(** With one consumer thread, the values [consume] returned, in the order
    of the returns, are the values of the consumer events in the order of
    the log (but for the call that has logged and not yet returned). *)
Lemma fb_single_consumer size np s :
  reachable size np 1 s ->
  values_of Consumer (log s) =
  (returned s).*2 ++
  match consumers s !! 0%nat with
  | Some c => if c_logged (c_pc c) then [c_item c] else []
  | None => []
  end.
Proof.
  intros Hr. destruct (fb_return_ok _ _ _ _ Hr) as [Hlen IH Hlog Hret].
  assert (consumed_by 0 (log s) = values_of Consumer (log s)) as E1.
  { unfold values_of, consumed_by. f_equal. apply filter_ext_Forall.
    eapply Forall_impl; [exact Hlog|].
    simpl. intros e He. split; [tauto|]. intros Hrole. split; [done|].
    specialize (He Hrole). lia. }
  assert (returned_to 0 s = (returned s).*2) as E2.
  { unfold returned_to. f_equal. rewrite (filter_ext_Forall _ (fun _ => True)).
    - clear. induction (returned s) as [|r l IHl]; [done|].
      rewrite filter_cons_True by done. by rewrite IHl.
    - eapply Forall_impl; [exact Hret|]. simpl. intros r Hr'. split; [done|lia]. }
  destruct (consumers s !! 0%nat) as [c|] eqn:Hc.
  - rewrite <- E1, <- E2. by apply IH.
  - apply lookup_ge_None in Hc. lia.
Qed.

(** *** What [consume] changes *)

(** One statement of [consume]: [head] stays, [tail] moves only by
    [tail = tail->next], no node appears or disappears, every node keeps its
    [data] and [next], and only [tail->filled = false] changes a [filled]
    flag, that of the node at [tail]. *)
Lemma fb_consume_frame j s s' c :
  consumers s !! j = Some c -> step (Cons j) s = Next s' ->
  head s' = head s /\
  (tail s' = tail s \/
   (c_pc c = CAdv /\ exists n, heap s !! tail s = Some n /\ tail s' = next n)) /\
  forall a,
    match heap s !! a with
    | Some n =>
        exists n', heap s' !! a = Some n' /\ data n' = data n /\ next n' = next n /\
          (filled n' = filled n \/ (c_pc c = CClear /\ a = tail s /\ filled n' = false))
    | None => heap s' !! a = None
    end.
Proof.
  intros Hc Hstep. unfold step in Hstep. rewrite Hc in Hstep.
  unfold consume_step in Hstep.
  destruct (c_pc c) eqn:Hpc; simpl in Hstep; repeat case_match; simplify_eq; simpl;
    (split; [done|]); (split; [eauto|]); intros a;
    try (destruct (heap s !! a) as [n0|] eqn:Ha; [exists n0; tauto|done]).
  destruct (decide (a = tail s)) as [->|Hne].
  - rewrite lookup_insert_eq. match goal with H : heap s !! tail s = Some _ |- _ => rewrite H end.
    eexists. split; [done|]. simpl. tauto.
  - rewrite lookup_insert_ne by done.
    destruct (heap s !! a) as [n0|] eqn:Ha; [exists n0; tauto|done].
Qed.

(** The [data] of a node changes only by [head->data = item] of a
    producer, on the node at [head]. *)
Lemma fb_data_change a s s' x n n' :
  step a s = Next s' -> heap s !! x = Some n -> heap s' !! x = Some n' ->
  data n' <> data n ->
  exists i item p, a = Prod i item /\ producers s !! i = Some p /\
    p_pc p = PWrite /\ head s = x /\ data n' = p_item p.
Proof.
  intros Hstep Hx Hx' Hd.
  destruct a as [d|i item|j]; fb_step_cases Hstep; try congruence.
  - destruct (decide (x = head s)) as [->|Hne].
    + rewrite lookup_insert_eq in Hx'. inversion Hx'; subst. eauto 10.
    + rewrite lookup_insert_ne in Hx' by done. congruence.
  - destruct (decide (x = head s)) as [->|Hne].
    + rewrite lookup_insert_eq in Hx'. inversion Hx'; subst. simpl in Hd. congruence.
    + rewrite lookup_insert_ne in Hx' by done. congruence.
  - destruct (decide (x = tail s)) as [->|Hne].
    + rewrite lookup_insert_eq in Hx'. inversion Hx'; subst. simpl in Hd. congruence.
    + rewrite lookup_insert_ne in Hx' by done. congruence.
Qed.

Lemma fb_run_cons a acts s s1 : step a s = Next s1 -> run (a :: acts) s = run acts s1.
Proof. intros H. simpl. by rewrite H. Qed.

Lemma fb_run_reachable size np nc acts s s' :
  reachable size np nc s -> run acts s = Next s' -> reachable size np nc s'.
Proof.
  revert s. induction acts as [|a acts IH]; simpl; intros s Hs Hr.
  - by inversion Hr; subst.
  - destruct (step a s) as [s1| |] eqn:E; try done.
    eapply IH; [|exact Hr]. eapply reach_step; eauto.
Qed.

Lemma fb_run_to_reachable size np nc acts s :
  reachable size np nc s -> reachable size np nc (run_to acts s).
Proof.
  intros Hr. unfold run_to. destruct (run acts s) as [s'| |] eqn:E; try done.
  by eapply fb_run_reachable.
Qed.

(** *** Where [produce] can wait *)

(** The holder of the ticket lock finds [mutex_producer] free: the lock of
    the mutex never waits. *)
Lemma fb_pmutex_free size np nc s i p :
  Z.of_nat np <= Int32.modulus -> reachable size np nc s ->
  producers s !! i = Some p -> p_pc p = PLockM \/ p_pc p = PSleep ->
  mutex_producer s = None.
Proof.
  intros Hn Hr Hp Hpc.
  pose proof (fb_lock_ok _ _ _ _ Hn Hr) as [HL _]. unfold LockOK in HL.
  destruct (fb_mutex_ok _ _ _ _ Hr) as [_ HP HO].
  destruct (mutex_producer s) as [k|] eqn:Hm; [|done]. exfalso.
  destruct (HO _ eq_refl) as [q Hq].
  pose proof (proj2 (HP _ _ Hq) eq_refl) as Hh.
  assert (k = i) as ->.
  { eapply (TicketLock.LockInv_exclusive _ _ k i HL).
    - rewrite list_lookup_fmap, Hq. simpl. f_equal.
      unfold pphase. by destruct (p_pc q).
    - rewrite list_lookup_fmap, Hp. simpl. f_equal.
      unfold pphase. by destruct Hpc as [-> | ->]. }
  rewrite Hp in Hq. inversion Hq; subst. by destruct Hpc as [E|E]; rewrite E in Hh.
Qed.

(** Every statement of [produce] but the loop of the ticket lock is
    executed at once; the only wait is the one of [cv_not_full]. *)
Lemma fb_produce_step_total size np nc s i p item :
  Z.of_nat np <= Int32.modulus -> reachable size np nc s -> producers s !! i = Some p ->
  (p_pc p = PSpin ->
     TicketLock.must_wait (ticket_lock_producer s) (p_ticket p) = false) ->
  exists s', step (Prod i item) s = Next s'.
Proof.
  intros Hn Hr Hp Hspin.
  pose proof (fb_no_fault _ _ _ _ (Prod i item) Hn Hr) as Hnf.
  pose proof (fb_pmutex_free _ _ _ _ _ _ Hn Hr Hp) as Hfree.
  unfold step in *. rewrite Hp in *. unfold produce_step in *.
  destruct (p_pc p); try (rewrite Hspin by done); try (rewrite Hfree by eauto);
    repeat case_match; try done; eauto.
Qed.

(** A [filled] flag is set only by [head->filled = true] of a producer and
    cleared only by [tail->filled = false] of a consumer. *)
Lemma fb_filled_change a s s' x n n' :
  step a s = Next s' -> heap s !! x = Some n -> heap s' !! x = Some n' ->
  filled n' <> filled n ->
  (exists i item p, a = Prod i item /\ producers s !! i = Some p /\
     p_pc p = PFill /\ head s = x /\ filled n' = true) \/
  (exists j c, a = Cons j /\ consumers s !! j = Some c /\
     c_pc c = CClear /\ tail s = x /\ filled n' = false).
Proof.
  intros Hstep Hx Hx' Hd.
  destruct a as [d|i item|j]; fb_step_cases Hstep; try congruence.
  - destruct (decide (x = head s)) as [->|Hne].
    + rewrite lookup_insert_eq in Hx'. inversion Hx'; subst. simpl in Hd. congruence.
    + rewrite lookup_insert_ne in Hx' by done. congruence.
  - destruct (decide (x = head s)) as [->|Hne].
    + rewrite lookup_insert_eq in Hx'. inversion Hx'; subst. left. eauto 10.
    + rewrite lookup_insert_ne in Hx' by done. congruence.
  - destruct (decide (x = tail s)) as [->|Hne].
    + rewrite lookup_insert_eq in Hx'. inversion Hx'; subst. right. eauto 10.
    + rewrite lookup_insert_ne in Hx' by done. congruence.
Qed.

(** *** Returns, thread by thread *)

Lemma fb_consumed_by_sublist j l : consumed_by j l `sublist_of` values_of Consumer l.
Proof.
  unfold consumed_by, values_of. apply fmap_sublist.
  induction l as [|e l IH]; [done|].
  rewrite !filter_cons.
  destruct (decide (ev_role e = Consumer /\ ev_id e = j)) as [[? ?]|];
    destruct (decide (ev_role e = Consumer)); try done.
  - by apply sublist_skip.
  - by apply sublist_cons.
Qed.

Lemma fb_returns_fifo size np nc s :
  Z.of_nat np <= Int32.modulus -> reachable size np nc s ->
  values_of Consumer (log s) `prefix_of` put s /\
  (forall j, (j < nc)%nat -> returned_to j s `prefix_of` consumed_by j (log s)) /\
  (forall j, consumed_by j (log s) `sublist_of` values_of Consumer (log s)) /\
  (nc = 1%nat -> (returned s).*2 `prefix_of` put s) /\
  (quiescent s -> forall j, returned_to j s = consumed_by j (log s)).
Proof.
  intros Hn Hr. destruct (fb_fifo _ _ _ _ Hn Hr) as [Hf _].
  destruct (fb_return_ok _ _ _ _ Hr) as [Hlen Hth _ _].
  assert (values_of Consumer (log s) `prefix_of` put s) as Hpre.
  { etrans; [|exact Hf]. unfold taken. by apply prefix_app_r. }
  split; [done|]. split; [|split; [|split]].
  - intros j Hj. rewrite <- Hlen in Hj.
    destruct (lookup_lt_is_Some_2 _ _ Hj) as [c Hc].
    rewrite (Hth _ _ Hc). by apply prefix_app_r.
  - intros j. apply fb_consumed_by_sublist.
  - intros ->. etrans; [|exact Hpre].
    rewrite (fb_single_consumer _ _ _ Hr). by apply prefix_app_r.
  - intros [_ HqC] j. destruct (consumers s !! j) as [c|] eqn:Hc.
    + rewrite (Hth _ _ Hc). rewrite Forall_lookup in HqC.
      rewrite (HqC _ _ Hc). simpl. by rewrite app_nil_r.
    + apply lookup_ge_None in Hc. rewrite Hlen in Hc.
      destruct (fb_return_ok _ _ _ _ Hr) as [_ _ Hlog Hret].
      unfold returned_to, consumed_by.
      rewrite (filter_none _ (returned s)), (filter_none _ (log s)); [done| |].
      * eapply Forall_impl; [exact Hlog|]. simpl. intros e He [Hrole <-]. specialize (He Hrole). lia.
      * eapply Forall_impl; [exact Hret|]. simpl. intros r Hlt <-. lia.
Qed.

End FiniteBuffer.

(** * The properties of the lock and of the two buffers *)

(** ** The ticket lock *)

Section ticket_lock.
Import TicketLock LockClients.
Local Open Scope Z_scope.

(** Two threads: thread 0 holds the lock, thread 1 is in the loop with
    ticket 1. *)
Definition two_clients : sys :=
  Sys (TicketLock.mk 2 0) [Holding; Spin 1] [(0%nat, 0); (1%nat, 1)] [0%nat].

(** One thread, which took the lock, released it and asked for it again. *)
Definition second_round : sys :=
  Sys (TicketLock.mk 2 1) [Spin 1] [(0%nat, 0); (0%nat, 1)] [0%nat].

Lemma two_clients_reachable : reachable 2 two_clients.
Proof.
  apply (run_reachable 2 [Request 0; Request 1; Enter 0] (init 2)).
  - apply reach_init.
  - reflexivity.
Qed.

Lemma second_round_reachable : reachable 1 second_round.
Proof.
  apply (run_reachable 1 [Request 0; Enter 0; Release 0; Request 0] (init 1)).
  - apply reach_init.
  - reflexivity.
Qed.

(** C4.  [lock()] takes the value of [next_ticket] and adds one to it in one
    atomic step, then stays in its loop until [now_serving] is its ticket;
    [unlock()] adds one to [now_serving].  With at most [2^32] threads, the
    threads get the lock in the order in which they took their tickets, one
    at a time, and the thread whose turn it is gets it as soon as the lock
    is free: it is the only one that leaves the loop, and it does so exactly
    when no thread holds the lock. *)
Theorem ticket_lock_fifo n s :
  Z.of_nat n <= Int32.modulus -> reachable n s ->
  (forall l, take_ticket l =
     (next_ticket l, TicketLock.mk (Int32.wrap (next_ticket l + 1)) (now_serving l))) /\
  (forall l tk, must_wait l tk = false <-> now_serving l = tk) /\
  (forall l, unlock l = TicketLock.mk (next_ticket l) (Int32.wrap (now_serving l + 1))) /\
  grants s `prefix_of` (requests s).*1 /\
  (forall i j, ph s !! i = Some Holding -> ph s !! j = Some Holding -> i = j) /\
  (forall i tk, ph s !! i = Some (Spin tk) ->
     (is_Some (step (Enter i) s) <->
      (exists rest, (requests s).*1 = grants s ++ i :: rest) /\
      (forall j, ph s !! j <> Some Holding))).
Proof.
  intros Hn Hr. split; [done|]. split; [|split; [done|]].
  - intros l tk. unfold must_wait. rewrite negb_false_iff. apply Z.eqb_eq.
  - split; [by eapply lc_fifo|]. split.
    + intros i j. by eapply lc_exclusive.
    + intros i tk. by eapply lc_enter_iff.
Qed.

Lemma ticket_lock_fifo_witness :
  grants two_clients `prefix_of` (requests two_clients).*1 /\
  step (Enter 1) two_clients = None.
Proof.
  destruct (ticket_lock_fifo 2 two_clients) as (_ & _ & _ & Hfifo & _ & _).
  - done.
  - exact two_clients_reachable.
  - split; [exact Hfifo|reflexivity].
Defined.

(** With [2^32 + 1] threads the last ticket taken is ticket 0 again: the
    thread that asked last is served first, before thread 0, which asked
    first and can still enter after it. *)
Lemma ticket_lock_overtake :
  exists n s,
    reachable n s /\
    (requests s).*1 !! 0%nat = Some 0%nat /\
    grants s = [(n - 1)%nat] /\ (n - 1)%nat <> 0%nat /\
    is_Some (step (Enter 0) s) /\
    ~ grants s `prefix_of` (requests s).*1.
Proof.
  assert (0 <= Int32.modulus + 1) as Hpos by done.
  pose proof (Z2Nat.id _ Hpos) as Hn.
  assert (Int32.modulus = 4294967296) as Hm by reflexivity.
  revert Hn. generalize (Z.to_nat (Int32.modulus + 1)). intros n Hn.
  destruct (after_requests_overtake n Hn) as (s & Hr & Hg & Hq & He).
  exists n, s. split; [done|]. split; [done|]. split; [done|].
  assert ((n - 1)%nat <> 0%nat) as Hne by lia.
  split; [done|]. split; [done|].
  intros [k Hk]. rewrite Hk, Hg in Hq. simpl in Hq. congruence.
Qed.

(** C7.  The [k]-th ticket taken from a lock is [k], reduced to the range
    of [int].  Hence the first [2^31] tickets increase strictly, and no
    ticket comes again among any [2^32] tickets in a row. *)
Theorem tickets_in_order n s k k' i i' tk tk' :
  reachable n s ->
  requests s !! k = Some (i, tk) -> requests s !! k' = Some (i', tk') ->
  tk = Int32.wrap (Z.of_nat k) /\
  ((k < k')%nat -> Z.of_nat k' <= Int32.max_int -> tk < tk') /\
  ((k < k')%nat -> Z.of_nat k' - Z.of_nat k < Int32.modulus -> tk <> tk').
Proof.
  intros Hr Hk Hk'.
  pose proof (lc_ticket_nth _ _ _ _ _ Hr Hk) as E.
  pose proof (lc_ticket_nth _ _ _ _ _ Hr Hk') as E'.
  split; [done|]. subst. split.
  - intros Hlt Hmax. rewrite !Int32.wrap_id; [lia| |];
      unfold Int32.in_range, Int32.min_int, Int32.max_int in *; lia.
  - intros Hlt Hd Heq. apply Int32.wrap_inj in Heq; unfold Int32.modulus in *; lia.
Qed.

Lemma tickets_in_order_witness :
  requests second_round !! 1%nat = Some (0%nat, 1) /\ 0 < 1.
Proof.
  split; [reflexivity|].
  refine (proj1 (proj2 (tickets_in_order 1 second_round 0 1 0 0 0 1 _ _ _)) _ _).
  - exact second_round_reachable.
  - reflexivity.
  - reflexivity.
  - lia.
  - done.
Defined.

(** After [2^31] rounds of one thread the ticket taken is [-2^31], below
    every ticket taken before. *)
Lemma ticket_wraps :
  exists s k k' i i' tk tk',
    reachable 1 s /\ (k < k')%nat /\
    requests s !! k = Some (i, tk) /\ requests s !! k' = Some (i', tk') /\
    tk = 0 /\ tk' = -2147483648 /\ tk' < tk.
Proof.
  assert (0 <= 2147483648) as Hpos by done.
  pose proof (Z2Nat.id _ Hpos) as Hm.
  revert Hm. generalize (Z.to_nat 2147483648). intros m Hm.
  destruct (after_rounds_next_ticket m) as (s & Hr & Hlast & Hfirst).
  rewrite Hm in Hlast.
  exists s, 0%nat, m, 0%nat, 0%nat, 0, (Int32.wrap 2147483648).
  split; [done|]. split; [lia|]. split; [done|]. split; [done|].
  split; [done|]. split; reflexivity.
Qed.

End ticket_lock.

(** ** The unbounded buffer *)

Section unbounded_buffer.
Import InfiniteBuffer.
Local Open Scope Z_scope.

(** One producer and one consumer: [produce(10)], [produce(20)], then one
    [consume()], each call run to its end. *)
Definition ib_two_in_one_out : state :=
  run_to (prod_steps 15 0 10 2 ++ prod_steps 15 0 20 3 ++ cons_steps 14 0) (init 1 1).

(** One producer and no consumer: three calls of [produce]. *)
Definition ib_backlog_of_three : state :=
  run_to (prod_steps 15 0 10 2 ++ prod_steps 15 0 20 3 ++ prod_steps 15 0 30 4) (init 1 0).

(** One producer, in its first call, has executed [head->filled = true] and
    not yet [head = new_node]. *)
Definition ib_filled_not_advanced : state := run_to (prod_steps 8 0 10 2) (init 1 1).

(** One call of [produce] during which five units of time pass after the
    lock was taken. *)
Definition ib_slow_call : list action :=
  prod_steps 4 0 10 2 ++ [Tick 5] ++ prod_steps 11 0 10 2.


(** *** An observer of the clock

    Not part of the program: what someone who watches the threads notes,
    reading the clock whenever a thread executes one of the statements that
    read it.  The totals and the events of the program are compared with
    these notes. *)

(** The statements the observer takes note of. *)
Inductive noted :=
| Requested    (* request_lock_time = now() *)
| Acquired     (* acquired_lock_time = now() *)
| Logged       (* logEvent(...) *)
| Ended        (* end = now() *)
| Added        (* total_..._time += ... *)
| Unnoted.

Definition p_noted (pc : ppc) : noted :=
  match pc with
  | PIdle => Requested
  | PAcquired => Acquired
  | PLog => Logged
  | PEnd => Ended
  | PStats => Added
  | _ => Unnoted
  end.

Definition c_noted (pc : cpc) : noted :=
  match pc with
  | CIdle => Requested
  | CAcquired => Acquired
  | CLog => Logged
  | CEnd => Ended
  | CStats => Added
  | _ => Unnoted
  end.

(** His notes on the calls of one kind: for each thread the instants of
    the request, of the acquisition and of the end of its current call;
    the duration from the request to the end of each call, noted when the
    call adds to the total; and the duration from the request to the
    acquisition, noted when the call writes its event. *)
Record notes := mkNotes {
  n_request : nat -> Z;
  n_acquired : nat -> Z;
  n_end : nat -> Z;
  n_durations : list Z;
  n_waits : list Z
}.

Definition no_notes : notes := mkNotes (fun _ => 0) (fun _ => 0) (fun _ => 0) [] [].

Definition set_at (i : nat) (v : Z) (f : nat -> Z) : nat -> Z :=
  fun k => if decide (k = i) then v else f k.

(** Thread [i] executes a statement of the kind [what] at the instant [now]. *)
Definition take_note (what : noted) (i : nat) (now : Z) (w : notes) : notes :=
  match what with
  | Requested =>
      mkNotes (set_at i now (n_request w)) (n_acquired w) (n_end w) (n_durations w) (n_waits w)
  | Acquired =>
      mkNotes (n_request w) (set_at i now (n_acquired w)) (n_end w) (n_durations w) (n_waits w)
  | Logged =>
      mkNotes (n_request w) (n_acquired w) (n_end w) (n_durations w)
              (n_waits w ++ [n_acquired w i - n_request w i])
  | Ended =>
      mkNotes (n_request w) (n_acquired w) (set_at i now (n_end w)) (n_durations w) (n_waits w)
  | Added =>
      mkNotes (n_request w) (n_acquired w) (n_end w)
              (n_durations w ++ [n_end w i - n_request w i]) (n_waits w)
  | Unnoted => w
  end.

(** The notes on [produce] and on [consume], after the action [a] in the
    state [s]. *)
Definition observe (a : action) (s : state) (w : notes * notes) : notes * notes :=
  match a with
  | Tick _ => w
  | Prod i _ _ =>
      match producers s !! i with
      | Some p => (take_note (p_noted (p_pc p)) i (clock s) w.1, w.2)
      | None => w
      end
  | Cons j =>
      match consumers s !! j with
      | Some c => (w.1, take_note (c_noted (c_pc c)) j (clock s) w.2)
      | None => w
      end
  end.

(** The notes taken during the run of [acts] from [s]. *)
Fixpoint observed (acts : list action) (s : state) (w : notes * notes) : notes * notes :=
  match acts with
  | [] => w
  | a :: acts' =>
      match step a s with
      | Next s' => observed acts' s' (observe a s w)
      | _ => w
      end
  end.

(** The wait of the call of a producer is known to the program. *)
Definition p_wait_known (pc : ppc) : bool :=
  match pc with
  | PWrite | PAlloc | PLink | PFill | PAdvance | PStamp | PLog => true
  | _ => false
  end.

Definition c_wait_known (pc : cpc) : bool :=
  match pc with
  | CRead | CClear | CStamp | CLog => true
  | _ => false
  end.

(** The locals of the threads, the numbers added to the totals and the
    waits in the log are what the observer has noted. *)
Record Noted (s : state) (w : notes * notes) : Prop := {
  nt_prod : forall i p, producers s !! i = Some p ->
    (p_pc p <> PIdle -> n_request w.1 i = p_request p) /\
    (p_wait_known (p_pc p) = true -> n_acquired w.1 i - n_request w.1 i = p_wait p) /\
    (p_pc p = PStats -> n_end w.1 i = p_end p);
  nt_cons : forall j c, consumers s !! j = Some c ->
    (c_pc c <> CIdle -> n_request w.2 j = c_request c) /\
    (c_wait_known (c_pc c) = true -> n_acquired w.2 j - n_request w.2 j = c_wait c) /\
    (c_pc c = CStats -> n_end w.2 j = c_end c);
  nt_pdur : produce_durations s = n_durations w.1;
  nt_cdur : consume_durations s = n_durations w.2;
  nt_pwait : ev_waited <$> filter (fun e => ev_role e = Producer) (log s) = n_waits w.1;
  nt_cwait : ev_waited <$> filter (fun e => ev_role e = Consumer) (log s) = n_waits w.2
}.

(** C3.  When no call is in progress, the nodes are those of a chain from
    [tail] to [head], each but the last filled and holding a value produced
    and not yet consumed, in order; the last, at [head], is unfilled and has
    no successor.  There is one node more than values produced and not yet
    consumed, hence a single node, at [head] and [tail], when all have been
    consumed. *)
Theorem chain_at_rest np nc s :
  Z.of_nat np <= Int32.modulus -> reachable np nc s -> quiescent s ->
  (exists chain,
     chain_ok (heap s) chain (head s) /\ tail s = first_of chain (head s) /\
     dom (heap s) = list_to_set (chain.*1 ++ [head s]) /\
     NoDup (chain.*1 ++ [head s]) /\
     values_of Producer (log s) = values_of Consumer (log s) ++ chain.*2) /\
  (exists n, heap s !! head s = Some n /\ filled n = false /\ next n = nullptr) /\
  (forall a n, heap s !! a = Some n -> a <> head s -> filled n = true) /\
  size (heap s) =
    (length (values_of Producer (log s)) - length (values_of Consumer (log s)) + 1)%nat /\
  (length (values_of Consumer (log s)) = length (values_of Producer (log s)) ->
     size (heap s) = 1%nat /\ tail s = head s).
Proof.
  intros Hn Hr Hq.
  destruct (ib_at_rest _ _ _ Hn Hr Hq) as (ch & Hch & Htl & Hdom & Hnd & Hhd & Hfifo).
  pose proof (ib_rest_size _ _ _ Hn Hr Hq) as Hsize.
  split; [by exists ch|]. split; [done|]. split; [|split; [done|]].
  - intros a n Ha Hne. by eapply ib_rest_filled.
  - intros Hlen. split; [lia|].
    rewrite Hfifo, length_app, length_fmap in Hlen.
    destruct ch; [done|simpl in Hlen; lia].
Qed.

Lemma chain_at_rest_witness :
  size (heap ib_two_in_one_out) = 2%nat /\
  values_of Producer (log ib_two_in_one_out) = [10; 20] /\
  values_of Consumer (log ib_two_in_one_out) = [10].
Proof.
  destruct (chain_at_rest 1 1 ib_two_in_one_out) as (_ & _ & _ & Hsize & _).
  - done.
  - apply ib_run_to_reachable, reach_init.
  - split; vm_compute; repeat constructor.
  - split; [exact Hsize|]. split; reflexivity.
Defined.

(** C5.  No statement of [produce] waits for room, whatever the chain holds:
    each statement but the loop of the ticket lock is executed at once, and
    the loop is left as soon as [now_serving] is the ticket of the thread.
    A producer whose turn it is runs to the end of its call by its own
    statements alone.  In particular, when every producer is between two calls, any one of them
    produces any sequence of items, fifteen statements for each, without a
    step of a consumer.  (An allocation always succeeds here.) *)
Theorem produce_never_waits_for_room np nc s i p item :
  Z.of_nat np <= Int32.modulus -> reachable np nc s -> producers s !! i = Some p ->
  ((p_pc p = PSpin ->
      TicketLock.must_wait (ticket_lock_producer s) (p_ticket p) = false) ->
   exists a s', step (Prod i item a) s = Next s') /\
  (forall a, step (Prod i item a) s <> Fault) /\
  (p_pc p <> PIdle -> p_can_run i s p ->
   exists acts s' p',
     Forall (by_producer i) acts /\ length acts = p_rank (p_pc p) /\
     run acts s = Next s' /\ producers s' !! i = Some p' /\ p_pc p' = PIdle) /\
  (Forall (fun q => p_pc q = PIdle) (producers s) ->
   forall items, exists acts s',
     Forall (by_producer i) acts /\ length acts = (15 * length items)%nat /\
     run acts s = Next s' /\
     Forall (fun q => p_pc q = PIdle) (producers s') /\ consumers s' = consumers s /\
     values_of Producer (log s') = values_of Producer (log s) ++ items /\
     values_of Consumer (log s') = values_of Consumer (log s)).
Proof.
  intros Hn Hr Hp. split; [|split; [|split]].
  - by eapply ib_produce_step_total.
  - intros a. by eapply ib_no_fault.
  - intros Hpc Hcan.
    assert (exists k, p_rank (p_pc p) = S k) as [k Hk]
      by (destruct (p_pc p); simpl; eauto; congruence).
    destruct (ib_produce_runs np nc i k Hn s p Hr Hp Hcan Hk)
      as (acts & s' & p' & Hall & Hlen & Hrun & Hp' & Hpc' & _).
    exists acts, s', p'. rewrite Hk. eauto.
  - intros Hidle items. eapply ib_backlog_from; eauto.
    destruct (ib_lock_ok _ _ _ Hn Hr) as [_ <-]. by eapply lookup_lt_Some.
Qed.

Lemma produce_never_waits_for_room_witness :
  values_of Producer (log ib_backlog_of_three) = [10; 20; 30] /\
  exists a s', step (Prod 0 40 a) ib_backlog_of_three = Next s'.
Proof.
  split; [reflexivity|].
  refine (proj1 (produce_never_waits_for_room 1 0 ib_backlog_of_three 0
                   (mkP PIdle 30 0 2 0 4 0 0) 40 _ _ _) _).
  - done.
  - apply ib_run_to_reachable, reach_init.
  - reflexivity.
  - discriminate.
Defined.

Lemma set_at_same i v f : set_at i v f i = v.
Proof. unfold set_at. by rewrite decide_True. Qed.

Lemma set_at_other i k v f : k <> i -> set_at i v f k = f k.
Proof. intros H. unfold set_at. by rewrite decide_False. Qed.

Lemma filter_snoc_role r (l : list Event) e :
  ev_waited <$> filter (fun e => ev_role e = r) (l ++ [e]) =
  (ev_waited <$> filter (fun e => ev_role e = r) l) ++
  (if decide (ev_role e = r) then [ev_waited e] else []).
Proof.
  rewrite filter_app, fmap_app. f_equal.
  rewrite filter_cons, filter_nil. by destruct (decide (ev_role e = r)).
Qed.

Lemma noted_init np nc : Noted (init np nc) (no_notes, no_notes).
Proof.
  split; simpl; try done.
  - intros i p Hp. apply lookup_replicate in Hp as [-> _]. done.
  - intros j c Hc. apply lookup_replicate in Hc as [-> _]. done.
Qed.

Lemma noted_step a s s' w :
  Noted s w -> step a s = Next s' -> Noted s' (observe a s w).
Proof.
  intros [IP IC Dp Dc Wp Wc] Hstep. destruct w as [wp wc]. cbn [fst snd] in *.
  destruct a as [d|i item a|j].
  - ib_step_cases Hstep. case_decide; [|done]. simplify_eq. by split.
  - ib_step_cases Hstep.
    all: unfold observe; rewrite ?Hp, ?Hpc; cbn [p_noted take_note fst snd].
    all: destruct (IP _ _ Hp) as (Hrq & Hwt & Hen); rewrite Hpc in Hrq, Hwt, Hen;
      cbn [p_wait_known] in Hwt.
    all: split; cbn -[set_at]; try done.
    all: try (intros i' p' Hl'; destruct (decide (i' = i)) as [->|Hne];
      [ rewrite list_lookup_insert_eq in Hl' by (by eapply lookup_lt_Some);
        inversion Hl'; subst p'; cbn -[set_at]; rewrite ?set_at_same;
        repeat split; try done; intros _;
        first [ by apply Hrq | by apply Hwt | by apply Hen
              | (rewrite (Hrq ltac:(done)); done) | idtac ]
      | rewrite list_lookup_insert_ne in Hl' by done;
        rewrite ?set_at_other by done; by apply IP ]).
    all: try (rewrite filter_snoc_role; cbn [ev_role ev_waited];
              first [ rewrite decide_True by done | rewrite decide_False by done ];
              rewrite ?app_nil_r; try done).
    all: try (rewrite Dp, (Hrq ltac:(done)), (Hen eq_refl); done).
    all: try (rewrite Wp, (Hwt eq_refl); done).
  - ib_step_cases Hstep.
    all: unfold observe; rewrite ?Hc, ?Hpc; cbn [c_noted take_note fst snd].
    all: destruct (IC _ _ Hc) as (Hrq & Hwt & Hen); rewrite Hpc in Hrq, Hwt, Hen;
      cbn [c_wait_known] in Hwt.
    all: split; cbn -[set_at]; try done.
    all: try (intros j' c' Hl'; destruct (decide (j' = j)) as [->|Hne];
      [ rewrite list_lookup_insert_eq in Hl' by (by eapply lookup_lt_Some);
        inversion Hl'; subst c'; cbn -[set_at]; rewrite ?set_at_same;
        repeat split; try done; intros _;
        first [ by apply Hrq | by apply Hwt | by apply Hen
              | (rewrite (Hrq ltac:(done)); done) | idtac ]
      | rewrite list_lookup_insert_ne in Hl' by done;
        rewrite ?set_at_other by done; by apply IC ]).
    all: try (rewrite filter_snoc_role; cbn [ev_role ev_waited];
              first [ rewrite decide_True by done | rewrite decide_False by done ];
              rewrite ?app_nil_r; try done).
    all: try (rewrite Dc, (Hrq ltac:(done)), (Hen eq_refl); done).
    all: try (rewrite Wc, (Hwt eq_refl); done).
Qed.

Lemma noted_run acts : forall s w s',
  Noted s w -> run acts s = Next s' -> Noted s' (observed acts s w).
Proof.
  induction acts as [|a acts IH]; intros s w s' Hw Hrun; simpl in *.
  - by inversion Hrun; subst.
  - destruct (step a s) as [s1| |] eqn:Hs; try done.
    eapply IH; [|exact Hrun]. by eapply noted_step.
Qed.

(** C6.  Each total is the sum of the durations of the completed calls of
    its kind, a duration being measured from the request of the lock to the
    end of the call: the numbers added to a total, one after the other, are
    the differences that an observer notes between the instant at which a
    call executes [end = now()] and the instant at which it executed
    [request_lock_time = now()].  An event carries the wait of its call,
    which is the difference noted between [acquired_lock_time = now()]
    and the request: when no call is in progress there is one duration for
    each event, and the waits of the events add up to at most the total.
    (Instants are whole ticks of the clock; the program keeps the totals in
    a [double], whose rounding is left out.) *)
Theorem stats_totals np nc acts s :
  run acts (init np nc) = Next s ->
  (produce_durations s = n_durations (observed acts (init np nc) (no_notes, no_notes)).1 /\
   consume_durations s = n_durations (observed acts (init np nc) (no_notes, no_notes)).2 /\
   total_produce_time s =
     sumZ id (n_durations (observed acts (init np nc) (no_notes, no_notes)).1) /\
   total_consume_time s =
     sumZ id (n_durations (observed acts (init np nc) (no_notes, no_notes)).2)) /\
  (ev_waited <$> filter (fun e => ev_role e = Producer) (log s) =
     n_waits (observed acts (init np nc) (no_notes, no_notes)).1 /\
   ev_waited <$> filter (fun e => ev_role e = Consumer) (log s) =
     n_waits (observed acts (init np nc) (no_notes, no_notes)).2 /\
   waited_of Producer (log s) =
     sumZ id (n_waits (observed acts (init np nc) (no_notes, no_notes)).1) /\
   waited_of Consumer (log s) =
     sumZ id (n_waits (observed acts (init np nc) (no_notes, no_notes)).2)) /\
  total_produce_time s = sumZ id (produce_durations s) /\
  total_consume_time s = sumZ id (consume_durations s) /\
  (quiescent s ->
     length (produce_durations s) = length (values_of Producer (log s)) /\
     length (consume_durations s) = length (values_of Consumer (log s)) /\
     waited_of Producer (log s) <= total_produce_time s /\
     waited_of Consumer (log s) <= total_consume_time s).
Proof.
  intros Hrun.
  assert (reachable np nc s) as Hr by (eapply ib_run_reachable; [apply reach_init|done]).
  destruct (ib_time_ok _ _ _ Hr) as [_ _ HP HC _ _].
  destruct (noted_run acts _ _ _ (noted_init np nc) Hrun) as [_ _ Dp Dc Wp Wc].
  split; [|split].
  - split; [done|]. split; [done|]. by rewrite HP, HC, Dp, Dc.
  - split; [done|]. split; [done|]. unfold waited_of. rewrite Wp, Wc. done.
  - split; [done|]. split; [done|]. by apply (ib_rest_samples np nc).
Qed.

Lemma stats_totals_witness :
  n_durations (observed ib_slow_call (init 1 0) (no_notes, no_notes)).1 = [5] /\
  n_waits (observed ib_slow_call (init 1 0) (no_notes, no_notes)).1 = [0] /\
  total_produce_time (run_to ib_slow_call (init 1 0)) =
    sumZ id (n_durations (observed ib_slow_call (init 1 0) (no_notes, no_notes)).1).
Proof.
  split; [reflexivity|]. split; [reflexivity|].
  refine (proj1 (proj2 (proj2 (proj1
            (stats_totals 1 0 ib_slow_call (run_to ib_slow_call (init 1 0)) _))))).
  by vm_compute.
Defined.

(** A call that takes five units of time and did not wait for the lock: the
    total is 5, the one event says 0. *)
Lemma stats_total_is_not_sum_of_waits :
  exists s,
    run ib_slow_call (init 1 0) = Next s /\ quiescent s /\
    ev_waited <$> log s = [0] /\ waited_of Producer (log s) = 0 /\
    total_produce_time s = 5.
Proof.
  exists (run_to ib_slow_call (init 1 0)).
  split; [by vm_compute|]. split; [split; vm_compute; repeat constructor|].
  split; [|split]; reflexivity.
Qed.

(** C9.  The node at [tail], when filled, is not the sentinel: the last
    node of the chain, which is the node at [head] but between
    [head->filled = true] and [head = new_node] of a producer, when it is
    the node just allocated.  The sentinel is unfilled; a consumer reads and
    empties the node at [tail] only when that node is filled, and deletes a
    node that is neither the sentinel nor at [tail]; so whenever no producer
    is between those two statements, the node at [head] is unfilled and no
    consumer touches it.  No statement uses a node that does not exist. *)
Theorem tail_is_never_the_sentinel np nc s :
  Z.of_nat np <= Int32.modulus -> reachable np nc s ->
  (exists n, heap s !! sentinel_node s = Some n /\ filled n = false) /\
  (forall n, heap s !! tail s = Some n -> filled n = true -> tail s <> sentinel_node s) /\
  (forall j c, consumers s !! j = Some c ->
     (c_pc c ∈ [CAcquired; CRead; CClear] ->
        tail s <> sentinel_node s /\
        exists n, heap s !! tail s = Some n /\ filled n = true) /\
     (c_pc c = CDelete -> c_temp c <> sentinel_node s /\ c_temp c <> tail s)) /\
  (Forall (fun p => p_pc p <> PAdvance) (producers s) ->
     sentinel_node s = head s /\
     exists n, heap s !! head s = Some n /\ filled n = false) /\
  (forall a, step a s <> Fault).
Proof.
  intros Hn Hr.
  destruct (ib_sentinel_unfilled _ _ _ Hn Hr) as (n & Hs & Hf).
  split; [by eauto|]. split; [|split; [|split]].
  - intros m Hm Hfm E. rewrite E in Hm. congruence.
  - intros j c Hc. by eapply ib_consumer_targets.
  - intros Hall. rewrite <- (ib_sentinel_is_head s Hall). eauto.
  - intros a. by eapply ib_no_fault.
Qed.

Lemma tail_is_never_the_sentinel_witness :
  sentinel_node ib_filled_not_advanced = 2%nat /\
  tail ib_filled_not_advanced = 1%nat /\
  exists n, heap ib_filled_not_advanced !! 2%nat = Some n /\ filled n = false.
Proof.
  split; [reflexivity|]. split; [reflexivity|].
  refine (proj1 (tail_is_never_the_sentinel 1 1 ib_filled_not_advanced _ _)).
  - done.
  - apply ib_run_to_reachable, reach_init.
Defined.

(** A producer has executed [head->filled = true] and not yet
    [head = new_node]: the node at [tail] is filled and is the node at
    [head].  A consumer then reads, empties and deletes that node, and
    [head] is left pointing to a deleted node until the producer goes on. *)
Lemma tail_filled_at_head :
  exists s s',
    run (prod_steps 8 0 10 2) (init 1 1) = Next s /\
    tail s = head s /\
    (exists n, heap s !! tail s = Some n /\ filled n = true) /\
    run (cons_steps 11 0) s = Next s' /\
    head s' = head s /\ heap s' !! head s' = None /\
    returned s' = [] /\ c_item <$> consumers s' = [10].
Proof.
  exists ib_filled_not_advanced, (run_to (cons_steps 11 0) ib_filled_not_advanced).
  split; [by vm_compute|]. split; [reflexivity|].
  split; [exists (mkNode 10 true 2); split; reflexivity|].
  split; [by vm_compute|]. split; [reflexivity|]. split; [by vm_compute|].
  split; reflexivity.
Qed.

End unbounded_buffer.

(** ** The bounded buffer *)

Section bounded_buffer.
Import FiniteBuffer.
Local Open Scope Z_scope.

(** The ring of [BUFFER_SIZE] nodes filled by ten calls of one producer,
    which is now in an eleventh call, about to test [!head->filled]. *)
Definition fb_full : state :=
  run_to (prod_steps 17 0 1 ++ prod_steps 17 0 2 ++ prod_steps 17 0 3 ++ prod_steps 17 0 4 ++
          prod_steps 17 0 5 ++ prod_steps 17 0 6 ++ prod_steps 17 0 7 ++ prod_steps 17 0 8 ++
          prod_steps 17 0 9 ++ prod_steps 17 0 10 ++ prod_steps 4 0 11) (init 1 1).

(** A ring of two nodes: [produce(10)] ran to its end, the consumer has
    entered [consume()] and asked for its mutex, [produce(20)] ran to its
    end, and [produce(30)] has found the node at [head] filled. *)
Definition two_slots_third_waits : list action :=
  prod_steps 17 0 10 ++ cons_steps 2 0 ++ prod_steps 17 0 20 ++ prod_steps 5 0 30.

(** Then the consumer empties the first node and goes on up to
    [cv_not_full.notify_one()] included, and the producer runs to the end
    of [produce(30)]. *)
Definition two_slots_third_returns : list action :=
  two_slots_third_waits ++ cons_steps 10 0 ++ prod_steps 14 0 30.

(** A ring of [BUFFER_SIZE] nodes after [produce(10)], with the consumer
    about to execute [tail->filled = false]. *)
Definition fb_before_clear : state :=
  run_to (prod_steps 17 0 10 ++ cons_steps 5 0) (init 1 1).

(** The same ring with the consumer about to execute [tail = tail->next]. *)
Definition fb_before_advance : state :=
  run_to (prod_steps 17 0 10 ++ cons_steps 9 0) (init 1 1).

(** C2.  A ring of [N] nodes ([N] is [BUFFER_SIZE], 10, in the code) never
    holds more than [N] items, each in a filled node of its own.  The test
    of the wait in [produce] succeeds exactly when fewer than [N] items are
    held; otherwise the producer sleeps.  The statements that write the node
    at [head] are executed only when that node is unfilled and fewer than
    [N] items are held, and a node is emptied only by [tail->filled = false]
    of a consumer.  Apart from that wait and the loop of the ticket lock, no
    statement of [produce] waits. *)
Theorem bounded_capacity size np nc s :
  Z.of_nat np <= Int32.modulus -> reachable size np nc s ->
  (stored s <= Nat.max 1 size)%nat /\
  (forall m v, (length (taken s) <= m)%nat -> put s !! m = Some v ->
     exists n, heap s !! addr (Nat.max 1 size) m = Some n /\
       filled n = true /\ data n = v) /\
  (forall m m', (length (taken s) <= m < length (put s))%nat ->
     (length (taken s) <= m' < length (put s))%nat ->
     addr (Nat.max 1 size) m = addr (Nat.max 1 size) m' -> m = m') /\
  (forall i p item, producers s !! i = Some p -> p_pc p = PWait ->
     (stored s < Nat.max 1 size)%nat /\
       step (Prod i item) s = Next (with_producer i (p_at PAcquired p) s) \/
     stored s = Nat.max 1 size /\
       step (Prod i item) s =
       Next (with_producer i (p_at PSleep p) (with_mutex_producer None s))) /\
  (forall i p, producers s !! i = Some p -> p_pc p ∈ [PAcquired; PWrite; PTemp; PFill] ->
     (stored s < Nat.max 1 size)%nat /\
     exists n, heap s !! head s = Some n /\ filled n = false) /\
  (forall a s' x n n', step a s = Next s' ->
     heap s !! x = Some n -> heap s' !! x = Some n' -> filled n = true -> filled n' = false ->
     exists j c, a = Cons j /\ consumers s !! j = Some c /\ c_pc c = CClear /\ tail s = x) /\
  (forall i p item, producers s !! i = Some p ->
     (p_pc p = PSpin ->
        TicketLock.must_wait (ticket_lock_producer s) (p_ticket p) = false) ->
     exists s', step (Prod i item) s = Next s').
Proof.
  intros Hn Hr. destruct (fb_fifo _ _ _ _ Hn Hr) as (_ & Hcap & Hslots & Hinj).
  split; [done|]. split; [done|]. split; [done|]. split; [|split; [|split]].
  - intros i p item Hp Hpc. by eapply fb_produce_wait.
  - intros i p Hp Hpc. by eapply fb_write_room.
  - intros a s' x n n' Hstep Hx Hx' Hf Hf'.
    destruct (fb_filled_change _ _ _ _ _ _ Hstep Hx Hx') as [(i & item & p & _ & _ & _ & _ & E)|H].
    + congruence.
    + congruence.
    + destruct H as (j & c & ? & ? & ? & ? & _). eauto 10.
  - intros i p item Hp Hspin. by eapply fb_produce_step_total.
Qed.

Lemma bounded_capacity_witness :
  stored fb_full = 10%nat /\
  p_pc <$> producers (run_to [Prod 0 11] fb_full) = [PSleep].
Proof.
  split; [reflexivity|].
  destruct (bounded_capacity BUFFER_SIZE 1 1 fb_full) as (_ & _ & _ & Hwait & _).
  - done.
  - apply fb_run_to_reachable, reach_init.
  - destruct (Hwait 0%nat (mkP PWait 11 0 10 0 1 0 0) 11) as [[Hlt _]|[_ Hstep]].
    + reflexivity.
    + reflexivity.
    + vm_compute in Hlt. lia.
    + unfold run_to, run. rewrite Hstep. reflexivity.
Defined.

(** C8.  A ring of two nodes, one producer and one consumer.  The values
    returned by [consume], in the order of the returns, are the first of
    the values put into the ring, in order: [10; 20; 30] when these were
    produced and three calls have returned.  The ring never holds more than
    two items: a producer that finds two sleeps, and it is about to write
    a third value, or has written it, only when the consumer has emptied the
    node of the first. *)
Theorem two_slots_three_items s :
  reachable 2 1 1 s ->
  (returned s).*2 `prefix_of` put s /\
  (put s `prefix_of` [10; 20; 30] -> length (returned s) = 3%nat ->
     (returned s).*2 = [10; 20; 30]) /\
  (stored s <= 2)%nat /\
  (forall p item, producers s !! 0%nat = Some p -> p_pc p = PWait -> stored s = 2%nat ->
     step (Prod 0 item) s =
     Next (with_producer 0 (p_at PSleep p) (with_mutex_producer None s))) /\
  (forall p, producers s !! 0%nat = Some p ->
     p_pc p ∈ [PAcquired; PWrite; PTemp; PFill] -> length (put s) = 2%nat ->
     (1 <= length (taken s))%nat) /\
  ((3 <= length (put s))%nat -> (1 <= length (taken s))%nat).
Proof.
  intros Hr. assert (Z.of_nat 1 <= Int32.modulus) as Hn by done.
  destruct (fb_returns_fifo _ _ _ _ Hn Hr) as (_ & _ & _ & Hret & _).
  specialize (Hret eq_refl).
  destruct (fb_fifo _ _ _ _ Hn Hr) as (_ & Hcap & _). simpl in Hcap.
  split; [done|]. split; [|split; [done|split; [|split]]].
  - intros Hput Hlen. assert ((returned s).*2 `prefix_of` [10; 20; 30]) as Hpre by (by etrans).
    apply prefix_length_eq; [done|]. rewrite length_fmap, Hlen. done.
  - intros p item Hp Hpc Hfull.
    destruct (fb_produce_wait _ _ _ _ _ _ item Hn Hr Hp Hpc) as [[Hlt _]|[_ Hs]]; [|done].
    simpl in Hlt. lia.
  - intros p Hp Hpc Hlen.
    destruct (fb_write_room _ _ _ _ _ _ Hn Hr Hp Hpc) as [Hlt _].
    simpl in Hlt. unfold stored in Hlt. lia.
  - unfold stored in Hcap. lia.
Qed.

Lemma two_slots_three_items_witness :
  stored (run_to two_slots_third_waits (init_sized 2 1 1)) = 2%nat /\
  p_pc <$> producers (run_to two_slots_third_waits (init_sized 2 1 1)) = [PSleep] /\
  (returned (run_to two_slots_third_returns (init_sized 2 1 1))).*2 `prefix_of`
    put (run_to two_slots_third_returns (init_sized 2 1 1)).
Proof.
  split; [reflexivity|]. split; [reflexivity|].
  refine (proj1 (two_slots_three_items (run_to two_slots_third_returns (init_sized 2 1 1)) _)).
  apply fb_run_to_reachable, reach_init.
Defined.

(** [produce(30)] finds the two nodes filled and sleeps; the consumer, in
    its first call, empties the first node and goes on up to
    [cv_not_full.notify_one()] included; the producer then writes 30 and
    returns.  All three calls of [produce] have returned, and the first
    [consume()] has not. *)
Lemma third_produce_returns_before_first_consume :
  exists s1 s,
    run two_slots_third_waits (init_sized 2 1 1) = Next s1 /\
    p_pc <$> producers s1 = [PSleep] /\
    run (cons_steps 10 0 ++ prod_steps 14 0 30) s1 = Next s /\
    values_of Producer (log s) = [10; 20; 30] /\
    p_pc <$> producers s = [PIdle] /\
    c_pc <$> consumers s = [CEnd] /\
    returned s = [].
Proof.
  exists (run_to two_slots_third_waits (init_sized 2 1 1)),
         (run_to two_slots_third_returns (init_sized 2 1 1)).
  split; [by vm_compute|]. split; [reflexivity|]. split; [by vm_compute|].
  repeat split; reflexivity.
Qed.

(** What a statement of [consume] does to the ring: [tail->filled = false]
    rewrites the flag of the node at [tail], [tail = tail->next] moves
    [tail] to the node that the node at [tail] is linked to, and no other
    statement touches the ring. *)
Lemma fb_consume_effect j s s' c :
  consumers s !! j = Some c -> step (Cons j) s = Next s' ->
  match c_pc c with
  | CClear =>
      tail s' = tail s /\
      exists n, heap s !! tail s = Some n /\
        heap s' = <[tail s := mkNode (data n) false (next n)]> (heap s)
  | CAdv =>
      heap s' = heap s /\ exists n, heap s !! tail s = Some n /\ tail s' = next n
  | _ => heap s' = heap s /\ tail s' = tail s
  end.
Proof.
  intros Hc Hstep. unfold step in Hstep. rewrite Hc in Hstep.
  unfold consume_step in Hstep.
  destruct (c_pc c) eqn:Hpc; simpl in Hstep; repeat case_match; simplify_eq; simpl;
    try done; (split; [done|]); eauto.
Qed.

(** The consumer that executes one of these two statements, in a ring of
    [N] nodes in which [k] Consumer events are logged: at
    [tail->filled = false] the node at [tail] is the [k]-th of the ring,
    counted round it from the first, filled, and holds the item just read;
    at [tail = tail->next] the node at [tail] is the one before the [k]-th
    and is linked to the [k]-th. *)
Lemma fb_consume_slot size np nc s j c :
  Z.of_nat np <= Int32.modulus -> reachable size np nc s -> consumers s !! j = Some c ->
  (c_pc c = CClear ->
     tail s = addr (Nat.max 1 size) (length (values_of Consumer (log s))) /\
     exists n, heap s !! tail s = Some n /\ filled n = true /\ data n = c_item c) /\
  (c_pc c = CAdv ->
     (1 <= length (values_of Consumer (log s)))%nat /\
     tail s = addr (Nat.max 1 size) (length (values_of Consumer (log s)) - 1) /\
     exists n, heap s !! tail s = Some n /\
       next n = addr (Nat.max 1 size) (length (values_of Consumer (log s)))).
Proof.
  intros Hn Hr Hc.
  pose proof (fb_ring_ok _ _ _ _ Hn Hr) as R. unfold RingOK in R.
  destruct (fb_mutex_ok _ _ _ _ Hr) as [HC _ _].
  destruct (HC _ _ Hc) as [Hown _].
  split; intros Hpc.
  - assert (the_cview s = CvRead (c_item c)) as Hcv.
    { unfold the_cview. rewrite Hown by (by rewrite Hpc).
      rewrite (fb_cview_at_owner _ _ _ Hc). unfold cview_of. by rewrite Hpc. }
    rewrite Hcv in R. cbn [in_flight_take] in R. rewrite app_nil_r in R.
    pose proof (rg_tail _ _ _ _ _ _ _ _ R) as Htl. cbn [tail_lag] in Htl.
    rewrite Nat.sub_0_r in Htl. split; [done|].
    pose proof (rg_cv _ _ _ _ _ _ _ _ R) as Hit. cbn in Hit.
    destruct (rg_filled _ _ _ _ _ _ _ _ R _ _ ltac:(reflexivity) Hit) as (n & Hn' & Hf & Hd).
    exists n. by rewrite Htl.
  - assert (the_cview s = CvTemp (c_temp c)) as Hcv.
    { unfold the_cview. rewrite Hown by (by rewrite Hpc).
      rewrite (fb_cview_at_owner _ _ _ Hc). unfold cview_of. by rewrite Hpc. }
    rewrite Hcv in R. cbn [in_flight_take] in R. rewrite app_nil_r in R.
    pose proof (rg_tail _ _ _ _ _ _ _ _ R) as Htl. cbn [tail_lag] in Htl.
    pose proof (rg_cv _ _ _ _ _ _ _ _ R) as [_ Hlen]. cbn in Hlen.
    split; [done|]. split; [done|].
    destruct (ring_tail_node _ _ _ _ _ _ _ _ R) as [n Hn'].
    exists n. split; [done|]. rewrite Htl in Hn'.
    rewrite (rg_next _ _ _ _ _ _ _ _ R _ _ Hn'). f_equal. lia.
Qed.

(** C10.  A statement of [consume] leaves [head] where it is, moves [tail]
    only by [tail = tail->next], adds and removes no node, and changes no
    [data] and no [next]; the one flag it changes is that of the node at
    [tail], by [tail->filled = false].  The [data] of a node changes only by
    [head->data = item] of a producer whose [head] is that node.  And these
    two statements do what they say: [tail->filled = false] leaves the node
    at [tail] unfilled with its [data] and its [next], and nothing else
    changed; [tail = tail->next] sets [tail] to the [next] of the node at
    [tail], and nothing else of the ring changes; the other statements of
    [consume] leave the ring and [tail] as they are.  In a ring of [N]
    nodes, the node emptied was filled and held the item that [consume]
    returns, and [tail] moves from the slot of the last Consumer event to
    the following slot, round the ring. *)
Theorem consume_changes_one_flag a s s' :
  step a s = Next s' ->
  (forall j c, a = Cons j -> consumers s !! j = Some c ->
     head s' = head s /\
     (tail s' = tail s \/
      (c_pc c = CAdv /\ exists n, heap s !! tail s = Some n /\ tail s' = next n)) /\
     forall x,
       match heap s !! x with
       | Some n =>
           exists n', heap s' !! x = Some n' /\ data n' = data n /\ next n' = next n /\
             (filled n' = filled n \/ (c_pc c = CClear /\ x = tail s /\ filled n' = false))
       | None => heap s' !! x = None
       end) /\
  (forall x n n', heap s !! x = Some n -> heap s' !! x = Some n' -> data n' <> data n ->
     exists i item p, a = Prod i item /\ producers s !! i = Some p /\
       p_pc p = PWrite /\ head s = x /\ data n' = p_item p) /\
  (forall j c, a = Cons j -> consumers s !! j = Some c ->
     match c_pc c with
     | CClear =>
         tail s' = tail s /\
         exists n, heap s !! tail s = Some n /\
           heap s' = <[tail s := mkNode (data n) false (next n)]> (heap s)
     | CAdv =>
         heap s' = heap s /\ exists n, heap s !! tail s = Some n /\ tail s' = next n
     | _ => heap s' = heap s /\ tail s' = tail s
     end) /\
  (forall size np nc j c,
     Z.of_nat np <= Int32.modulus -> reachable size np nc s ->
     a = Cons j -> consumers s !! j = Some c ->
     (c_pc c = CClear ->
        exists n, heap s !! tail s = Some n /\ filled n = true /\ data n = c_item c /\
          heap s' !! tail s = Some (mkNode (c_item c) false (next n))) /\
     (c_pc c = CAdv ->
        (1 <= length (values_of Consumer (log s)))%nat /\
        tail s = addr (Nat.max 1 size) (length (values_of Consumer (log s)) - 1) /\
        tail s' = addr (Nat.max 1 size) (length (values_of Consumer (log s))))).
Proof.
  intros Hstep. split; [|split; [|split]].
  - intros j c -> Hc. by eapply fb_consume_frame.
  - intros x n n'. by eapply fb_data_change.
  - intros j c -> Hc. by eapply fb_consume_effect.
  - intros size np nc j c Hn Hr -> Hc.
    pose proof (fb_consume_effect _ _ _ _ Hc Hstep) as He.
    destruct (fb_consume_slot _ _ _ _ _ _ Hn Hr Hc) as [H1 H2].
    split; intros Hpc; rewrite Hpc in He.
    + destruct (H1 Hpc) as (_ & n & Hn' & Hf & Hd).
      destruct He as (_ & n0 & Hn0 & ->). rewrite Hn' in Hn0. inversion Hn0; subst n0.
      exists n. rewrite lookup_insert_eq, Hd. done.
    + destruct (H2 Hpc) as (Hlen & Htl & n & Hn' & Hnext).
      destruct He as (_ & n0 & Hn0 & ->). rewrite Hn' in Hn0. inversion Hn0; subst n0.
      done.
Qed.

Lemma consume_changes_one_flag_witness :
  heap fb_before_clear !! 1%nat = Some (mkNode 10 true 2) /\
  heap (run_to [Cons 0] fb_before_clear) !! 1%nat = Some (mkNode 10 false 2) /\
  head (run_to [Cons 0] fb_before_clear) = head fb_before_clear /\
  tail fb_before_advance = 1%nat /\
  tail (run_to [Cons 0] fb_before_advance) = 2%nat.
Proof.
  split; [reflexivity|]. split; [reflexivity|]. split.
  - refine (proj1 (proj1 (consume_changes_one_flag (Cons 0) fb_before_clear
                            (run_to [Cons 0] fb_before_clear) _)
                     0%nat (mkC CClear 0 0 10 0 0 0) eq_refl _)).
    + by vm_compute.
    + reflexivity.
  - split; [reflexivity|].
    refine (proj2 (proj2 (proj2 (proj2 (proj2 (proj2 (consume_changes_one_flag (Cons 0)
              fb_before_advance (run_to [Cons 0] fb_before_advance) _)))
              BUFFER_SIZE 1%nat 1%nat 0%nat (mkC CAdv 0 0 10 0 1 0) _ _ eq_refl _) eq_refl))).
    + by vm_compute.
    + done.
    + apply fb_run_to_reachable, reach_init.
    + reflexivity.
Defined.

End bounded_buffer.

(** ** Both buffers *)

Section both_buffers.
Local Open Scope Z_scope.

(** The unbounded buffer, one producer and one consumer: [produce(10)] has
    filled the first node and moved [head]; before it logs, the consumer
    takes 10 out and logs. *)
Definition ib_consumed_before_logged : InfiniteBuffer.state :=
  InfiniteBuffer.run_to
    (InfiniteBuffer.prod_steps 10 0 10 2 ++ InfiniteBuffer.cons_steps 8 0)
    (InfiniteBuffer.init 1 1).

Lemma fb_pview_elem ps :
  FiniteBuffer.the_pview ps = FiniteBuffer.PvRest \/
  exists i p, ps !! i = Some p /\ FiniteBuffer.pview_of p = FiniteBuffer.the_pview ps.
Proof.
  unfold FiniteBuffer.the_pview.
  destruct (filter (fun v => v <> FiniteBuffer.PvRest) (FiniteBuffer.pview_of <$> ps))
    as [|v l] eqn:E; [by left|].
  right.
  assert (v ∈ filter (fun v => v <> FiniteBuffer.PvRest) (FiniteBuffer.pview_of <$> ps)) as Hv
    by (rewrite E; left).
  apply list_elem_of_filter in Hv as [_ Hv].
  apply list_elem_of_fmap in Hv as (p & -> & Hp).
  apply list_elem_of_lookup in Hp as [i Hi]. eauto.
Qed.

(** The values put into the unbounded buffer are those of the Producer
    events and, after them, the item of the producer that has executed
    [head->filled = true] and not yet [logEvent], if there is one. *)
Lemma ib_produced_log s :
  InfiniteBuffer.produced s = values_of Producer (InfiniteBuffer.log s) \/
  exists i p, InfiniteBuffer.producers s !! i = Some p /\
    InfiniteBuffer.p_pc p ∈
      [InfiniteBuffer.PAdvance; InfiniteBuffer.PStamp; InfiniteBuffer.PLog] /\
    InfiniteBuffer.produced s =
      values_of Producer (InfiniteBuffer.log s) ++ [InfiniteBuffer.p_item p].
Proof.
  unfold InfiniteBuffer.produced.
  destruct (InfiniteBuffer.the_pview_elem (InfiniteBuffer.producers s))
    as [->|(i & p & Hp & <-)]; [left; simpl; by rewrite app_nil_r|].
  unfold InfiniteBuffer.pview_of.
  destruct (InfiniteBuffer.p_pc p) eqn:Hpc; simpl;
    first [left; by rewrite app_nil_r | right; exists i, p; rewrite Hpc; set_solver].
Qed.

Lemma fb_put_log t :
  FiniteBuffer.put t = values_of Producer (FiniteBuffer.log t) \/
  exists i p, FiniteBuffer.producers t !! i = Some p /\
    FiniteBuffer.p_pc p ∈ [FiniteBuffer.PAdvance; FiniteBuffer.PStamp; FiniteBuffer.PLog] /\
    FiniteBuffer.put t = values_of Producer (FiniteBuffer.log t) ++ [FiniteBuffer.p_item p].
Proof.
  unfold FiniteBuffer.put.
  destruct (fb_pview_elem (FiniteBuffer.producers t))
    as [->|(i & p & Hp & <-)]; [left; simpl; by rewrite app_nil_r|].
  unfold FiniteBuffer.pview_of.
  destruct (FiniteBuffer.p_pc p) eqn:Hpc; simpl;
    first [left; by rewrite app_nil_r | right; exists i, p; rewrite Hpc; set_solver].
Qed.

(** C1.  The values leave either buffer in the order in which they
    entered it: the values of the Consumer events, in the order of the log,
    are the first of the values put in.  The values put in are those of the
    Producer events, in the order of the log, followed by the value of the
    producer that has filled its node and not yet logged, if there is one:
    so the values of the Consumer events are the first of the values of the
    Producer events and at most one more value, and the first of the values
    of the Producer events alone when no producer is between
    [head->filled = true] and [logEvent].  Each consumer thread has
    returned, in order, the first of the values of its own events, all of
    them when no call is in progress, and these are among the values of the
    Consumer events in the same order; with a single consumer thread, the
    values returned, in the order of the returns, are the first of the
    values that entered, and all of them when as many calls have returned
    as values were produced. *)
Theorem buffers_fifo np nc size s t :
  Z.of_nat np <= Int32.modulus ->
  InfiniteBuffer.reachable np nc s -> FiniteBuffer.reachable size np nc t ->
  (values_of Consumer (InfiniteBuffer.log s) `prefix_of` InfiniteBuffer.produced s /\
   (forall j, (j < nc)%nat ->
      InfiniteBuffer.returned_to j s `prefix_of`
      InfiniteBuffer.consumed_by j (InfiniteBuffer.log s)) /\
   (forall j, InfiniteBuffer.consumed_by j (InfiniteBuffer.log s) `sublist_of`
      values_of Consumer (InfiniteBuffer.log s)) /\
   (nc = 1%nat -> (InfiniteBuffer.returned s).*2 `prefix_of` InfiniteBuffer.produced s) /\
   (InfiniteBuffer.quiescent s -> forall j,
      InfiniteBuffer.returned_to j s = InfiniteBuffer.consumed_by j (InfiniteBuffer.log s)) /\
   (nc = 1%nat -> InfiniteBuffer.quiescent s ->
      length (InfiniteBuffer.returned s) = length (values_of Producer (InfiniteBuffer.log s)) ->
      (InfiniteBuffer.returned s).*2 = values_of Producer (InfiniteBuffer.log s)) /\
   (InfiniteBuffer.produced s = values_of Producer (InfiniteBuffer.log s) \/
    exists i p, InfiniteBuffer.producers s !! i = Some p /\
      InfiniteBuffer.p_pc p ∈
        [InfiniteBuffer.PAdvance; InfiniteBuffer.PStamp; InfiniteBuffer.PLog] /\
      InfiniteBuffer.produced s =
        values_of Producer (InfiniteBuffer.log s) ++ [InfiniteBuffer.p_item p]) /\
   (exists x, values_of Consumer (InfiniteBuffer.log s) `prefix_of`
                values_of Producer (InfiniteBuffer.log s) ++ x /\ (length x <= 1)%nat) /\
   ((forall i p, InfiniteBuffer.producers s !! i = Some p ->
       InfiniteBuffer.p_pc p ∉
         [InfiniteBuffer.PAdvance; InfiniteBuffer.PStamp; InfiniteBuffer.PLog]) ->
    values_of Consumer (InfiniteBuffer.log s) `prefix_of`
      values_of Producer (InfiniteBuffer.log s))) /\
  (values_of Consumer (FiniteBuffer.log t) `prefix_of` FiniteBuffer.put t /\
   (forall j, (j < nc)%nat ->
      FiniteBuffer.returned_to j t `prefix_of`
      FiniteBuffer.consumed_by j (FiniteBuffer.log t)) /\
   (forall j, FiniteBuffer.consumed_by j (FiniteBuffer.log t) `sublist_of`
      values_of Consumer (FiniteBuffer.log t)) /\
   (nc = 1%nat -> (FiniteBuffer.returned t).*2 `prefix_of` FiniteBuffer.put t) /\
   (FiniteBuffer.quiescent t -> forall j,
      FiniteBuffer.returned_to j t = FiniteBuffer.consumed_by j (FiniteBuffer.log t)) /\
   (nc = 1%nat -> FiniteBuffer.quiescent t ->
      length (FiniteBuffer.returned t) = length (values_of Producer (FiniteBuffer.log t)) ->
      (FiniteBuffer.returned t).*2 = values_of Producer (FiniteBuffer.log t)) /\
   (FiniteBuffer.put t = values_of Producer (FiniteBuffer.log t) \/
    exists i p, FiniteBuffer.producers t !! i = Some p /\
      FiniteBuffer.p_pc p ∈ [FiniteBuffer.PAdvance; FiniteBuffer.PStamp; FiniteBuffer.PLog] /\
      FiniteBuffer.put t = values_of Producer (FiniteBuffer.log t) ++ [FiniteBuffer.p_item p]) /\
   (exists x, values_of Consumer (FiniteBuffer.log t) `prefix_of`
                values_of Producer (FiniteBuffer.log t) ++ x /\ (length x <= 1)%nat) /\
   ((forall i p, FiniteBuffer.producers t !! i = Some p ->
       FiniteBuffer.p_pc p ∉ [FiniteBuffer.PAdvance; FiniteBuffer.PStamp; FiniteBuffer.PLog]) ->
    values_of Consumer (FiniteBuffer.log t) `prefix_of`
      values_of Producer (FiniteBuffer.log t))).
Proof.
  intros Hn Hs Ht. split.
  - destruct (InfiniteBuffer.ib_returns_fifo np nc s Hn Hs) as (H1 & H2 & H3 & H4 & H5).
    repeat (split; [done|]). split; [|split; [apply ib_produced_log|split]].
    + intros Hnc Hq Hlen. specialize (H4 Hnc).
      unfold InfiniteBuffer.produced in H4.
      rewrite (proj1 (InfiniteBuffer.quiescent_views s Hq)) in H4. simpl in H4.
      rewrite app_nil_r in H4. apply prefix_length_eq; [done|]. rewrite length_fmap. lia.
    + destruct (ib_produced_log s) as [E|(i & p & _ & _ & E)]; rewrite E in H1.
      * exists []. rewrite app_nil_r. split; [done|simpl; lia].
      * exists [InfiniteBuffer.p_item p]. split; [done|simpl; lia].
    + intros Hno. destruct (ib_produced_log s) as [E|(i & p & Hp & Hpc & _)].
      * by rewrite <- E.
      * by destruct (Hno i p Hp).
  - destruct (FiniteBuffer.fb_returns_fifo size np nc t Hn Ht) as (H1 & H2 & H3 & H4 & H5).
    repeat (split; [done|]). split; [|split; [apply fb_put_log|split]].
    + intros Hnc Hq Hlen. specialize (H4 Hnc).
      unfold FiniteBuffer.put in H4.
      rewrite (proj1 (FiniteBuffer.fb_quiescent_views t Hq)) in H4. simpl in H4.
      rewrite app_nil_r in H4. apply prefix_length_eq; [done|]. rewrite length_fmap. lia.
    + destruct (fb_put_log t) as [E|(i & p & _ & _ & E)]; rewrite E in H1.
      * exists []. rewrite app_nil_r. split; [done|simpl; lia].
      * exists [FiniteBuffer.p_item p]. split; [done|simpl; lia].
    + intros Hno. destruct (fb_put_log t) as [E|(i & p & Hp & Hpc & _)].
      * by rewrite <- E.
      * by destruct (Hno i p Hp).
Qed.

Lemma buffers_fifo_witness :
  (InfiniteBuffer.returned ib_two_in_one_out).*2 `prefix_of`
    InfiniteBuffer.produced ib_two_in_one_out /\
  (FiniteBuffer.returned fb_before_clear).*2 `prefix_of` FiniteBuffer.put fb_before_clear /\
  (InfiniteBuffer.returned ib_two_in_one_out).*2 = [10] /\
  InfiniteBuffer.produced ib_two_in_one_out = [10; 20] /\
  values_of Consumer (InfiniteBuffer.log ib_consumed_before_logged) = [10] /\
  values_of Producer (InfiniteBuffer.log ib_consumed_before_logged) = [] /\
  InfiniteBuffer.produced ib_consumed_before_logged = [10] /\
  values_of Consumer (InfiniteBuffer.log ib_consumed_before_logged) `prefix_of`
    InfiniteBuffer.produced ib_consumed_before_logged.
Proof.
  destruct (buffers_fifo 1 1 FiniteBuffer.BUFFER_SIZE ib_two_in_one_out fb_before_clear)
    as [(_ & _ & _ & H1 & _) (_ & _ & _ & H2 & _)].
  - done.
  - apply InfiniteBuffer.ib_run_to_reachable, InfiniteBuffer.reach_init.
  - apply FiniteBuffer.fb_run_to_reachable, FiniteBuffer.reach_init.
  - split; [by apply H1|]. split; [by apply H2|]. do 5 (split; [reflexivity|]).
    refine (proj1 (proj1 (buffers_fifo 1 1 FiniteBuffer.BUFFER_SIZE
              ib_consumed_before_logged fb_before_clear _ _ _))).
    + done.
    + apply InfiniteBuffer.ib_run_to_reachable, InfiniteBuffer.reach_init.
    + apply FiniteBuffer.fb_run_to_reachable, FiniteBuffer.reach_init.
Defined.


(** Two consumer threads.  After [produce(10)] and [produce(20)], consumer 0
    takes 10 out and is about to execute [end = now()]; consumer 1 takes 20
    out and returns; then consumer 0 returns.  The values returned, in the
    order of the returns, are 20 and 10. *)
Lemma returns_out_of_order :
  exists s,
    InfiniteBuffer.run
      (InfiniteBuffer.prod_steps 15 0 10 2 ++ InfiniteBuffer.prod_steps 15 0 20 3 ++
       InfiniteBuffer.cons_steps 12 0 ++ InfiniteBuffer.cons_steps 14 1 ++
       InfiniteBuffer.cons_steps 2 0) (InfiniteBuffer.init 1 2) = Next s /\
    InfiniteBuffer.quiescent s /\
    values_of Producer (InfiniteBuffer.log s) = [10; 20] /\
    values_of Consumer (InfiniteBuffer.log s) = [10; 20] /\
    InfiniteBuffer.returned s = [(1%nat, 20); (0%nat, 10)].
Proof.
  exists (InfiniteBuffer.run_to
      (InfiniteBuffer.prod_steps 15 0 10 2 ++ InfiniteBuffer.prod_steps 15 0 20 3 ++
       InfiniteBuffer.cons_steps 12 0 ++ InfiniteBuffer.cons_steps 14 1 ++
       InfiniteBuffer.cons_steps 2 0) (InfiniteBuffer.init 1 2)).
  split; [by vm_compute|]. split; [split; vm_compute; repeat constructor|].
  split; [|split]; reflexivity.
Qed.

End both_buffers.

(** * More about the code *)

(** The number of Producer events less the number of Consumer events: what
    a reader of the log takes for the number of items in the buffer. *)
Definition log_balance (l : list Event) : Z :=
  (Z.of_nat (length (values_of Producer l)) - Z.of_nat (length (values_of Consumer l)))%Z.

(** ** The ring of the bounded buffer *)

Section ring_of_the_bounded_buffer.
Import FiniteBuffer.
Local Open Scope Z_scope.

(** A ring of two nodes: [produce(10)] and [produce(20)] ran to their
    ends, [produce(30)] found the node at [head] filled, the consumer went
    as far as [tail->filled = false] included, and [produce(30)] went on as
    far as [logEvent] included. *)
Definition two_slots_three_logged : list action :=
  prod_steps 17 0 10 ++ prod_steps 17 0 20 ++ prod_steps 5 0 30 ++
  cons_steps 6 0 ++ prod_steps 9 0 30.

(** The node reached from [a] by following [next] [k] times. *)
Fixpoint walk (h : gmap nat Node) (k : nat) (a : nat) : option nat :=
  match k with
  | O => Some a
  | S k' =>
      match h !! a with
      | Some n => walk h k' (next n)
      | None => None
      end
  end.

Lemma walk_ring N h k m :
  (1 <= N)%nat -> (forall m n, h !! addr N m = Some n -> next n = addr N (S m)) ->
  (forall a, is_Some (h !! a) <-> (1 <= a <= N)%nat) ->
  walk h k (addr N m) = Some (addr N (m + k)).
Proof.
  intros HN Hnext Hdom. revert m. induction k as [|k IH]; intros m; simpl.
  - by rewrite Nat.add_0_r.
  - destruct (proj2 (Hdom (addr N m)) (addr_range N m HN)) as [n Hn].
    rewrite Hn, (Hnext _ _ Hn), IH. do 2 f_equal. lia.
Qed.

Lemma addr_0 N : addr N 0 = 1%nat.
Proof. unfold addr. destruct N; [done|]. by rewrite Nat.Div0.mod_0_l. Qed.

Lemma addr_back N k : (1 <= N)%nat -> addr N k = 1%nat -> (k mod N = 0)%nat.
Proof. unfold addr. lia. Qed.

Lemma fb_log_step a s s' :
  step a s = Next s' -> log s' = log s \/ exists e, log s' = log s ++ [e].
Proof.
  intros Hstep. destruct a as [d|i item|j]; fb_step_cases Hstep; eauto.
Qed.

(** Every beginning of the log is the log of an earlier state. *)
Lemma fb_log_prefix size np nc s l :
  reachable size np nc s -> l `prefix_of` log s ->
  exists s0, reachable size np nc s0 /\ log s0 = l.
Proof.
  induction 1 as [|s a s' Hr IH Hstep]; intros Hl.
  - exists (init_sized size np nc). split; [apply reach_init|].
    simpl in Hl. by apply prefix_nil_inv in Hl.
  - destruct (fb_log_step _ _ _ Hstep) as [E|[e E]]; rewrite E in Hl.
    + by apply IH.
    + destruct Hl as [k Hk]. destruct (decide (k = [])) as [->|Hne].
      * exists s'. split; [by eapply reach_step|]. by rewrite E, Hk, app_nil_r.
      * apply IH. destruct (exists_last Hne) as (k' & x & ->).
        rewrite app_assoc in Hk. apply app_inj_tail in Hk as [-> _].
        by apply prefix_app_r.
Qed.

(** The constructor: [max 1 BUFFER_SIZE] nodes, each unfilled and with data
    0, linked in a circle; [head] and [tail] at the first one.  Following
    [next] from [head] comes back to [head] after [k] steps exactly when
    [k] is a multiple of the number of nodes.  With [BUFFER_SIZE] 0 or 1
    the one node is its own successor. *)
Theorem constructor_builds_a_ring cap np nc k :
  head (init_sized cap np nc) = 1%nat /\
  tail (init_sized cap np nc) = 1%nat /\
  (forall a, is_Some (heap (init_sized cap np nc) !! a) <-> (1 <= a <= Nat.max 1 cap)%nat) /\
  (forall a, (1 <= a <= Nat.max 1 cap)%nat ->
     heap (init_sized cap np nc) !! a =
     Some (mkNode 0 false (if decide (a = Nat.max 1 cap) then 1%nat else S a))) /\
  size (heap (init_sized cap np nc)) = Nat.max 1 cap /\
  (exists b, walk (heap (init_sized cap np nc)) k (head (init_sized cap np nc)) = Some b /\
     (b = head (init_sized cap np nc) <-> (k mod Nat.max 1 cap = 0)%nat)).
Proof.
  destruct (make_ring_spec cap) as [[Hdom Hnode] Hfirst].
  assert (1 <= Nat.max 1 cap)%nat as HN by lia.
  change (head (init_sized cap np nc)) with (snd (make_ring cap)).
  change (tail (init_sized cap np nc)) with (snd (make_ring cap)).
  change (heap (init_sized cap np nc)) with (fst (make_ring cap)).
  rewrite Hfirst.
  split; [done|]. split; [done|]. split; [done|]. split; [|split].
  - intros a Ha. destruct (addr_ex _ a Ha) as (m & Hm & ->).
    rewrite Hnode. by rewrite (addr_succ _ _ HN).
  - rewrite <- size_dom.
    assert (dom (fst (make_ring cap)) = list_to_set (seq 1 (Nat.max 1 cap))) as ->.
    { apply set_eq. intros a. rewrite elem_of_dom, Hdom, elem_of_list_to_set, elem_of_seq. lia. }
    rewrite size_list_to_set by apply NoDup_seq. apply length_seq.
  - exists (addr (Nat.max 1 cap) k). split; [|unfold addr; lia].
    pose proof (walk_ring (Nat.max 1 cap) (fst (make_ring cap)) k 0 HN) as Hw.
    rewrite addr_0 in Hw. apply Hw; [|done].
    intros m n Hn. rewrite Hnode in Hn. by inversion Hn.
Qed.

(** The ring stays as the constructor built it: no node is added or
    removed and no [next] changes; [head] and [tail] are nodes of the ring,
    so no statement uses a null pointer.  Counting from the first node,
    [head] is as many nodes ahead as items were put in, and [tail] as many
    as were taken out. *)
Theorem ring_never_changes size np nc s :
  Z.of_nat np <= Int32.modulus -> reachable size np nc s ->
  (forall a, is_Some (heap s !! a) <-> (1 <= a <= Nat.max 1 size)%nat) /\
  (forall a n, heap s !! a = Some n ->
     next n = if decide (a = Nat.max 1 size) then 1%nat else S a) /\
  (quiescent s ->
     walk (heap s) (length (values_of Producer (log s))) 1 = Some (head s) /\
     walk (heap s) (length (values_of Consumer (log s))) 1 = Some (tail s)) /\
  (forall a, step a s <> Fault).
Proof.
  intros Hn Hr. pose proof (fb_ring_ok _ _ _ _ Hn Hr) as R.
  unfold RingOK in R. fold (put s) in R. fold (taken s) in R.
  destruct R as [HN Hdom Hnext _ _ _ _ Hhd Htl _ _].
  assert (forall k, walk (heap s) k 1 = Some (addr (Nat.max 1 size) k)) as Hwalk.
  { intros k. pose proof (walk_ring (Nat.max 1 size) (heap s) k 0 HN Hnext Hdom) as Hw.
    by rewrite addr_0 in Hw. }
  split; [done|]. split; [|split].
  - intros a n Ha.
    destruct (addr_ex (Nat.max 1 size) a) as (m & Hm & ->); [apply Hdom; eauto|].
    rewrite (Hnext _ _ Ha). by apply addr_succ.
  - intros Hq. destruct (fb_quiescent_views s Hq) as [Epv Ecv].
    rewrite !Hwalk, Hhd, Htl. unfold put, taken. rewrite Epv, Ecv. simpl.
    rewrite !app_nil_r, !Nat.sub_0_r. done.
  - intros a. by eapply fb_no_fault.
Qed.

Lemma ring_never_changes_witness :
  walk (heap fb_full) 10 1 = Some (head fb_full) /\
  forall a, step a fb_full <> Fault.
Proof.
  split; [reflexivity|].
  refine (proj2 (proj2 (proj2 (ring_never_changes BUFFER_SIZE 1 1 fb_full _ _)))).
  - done.
  - apply fb_run_to_reachable, reach_init.
Defined.

(** In the bounded buffer one producer at a time is between
    [ticket_lock_producer.lock()] and [ticket_lock_producer.unlock()], and
    one consumer at a time holds [mutex_consumer].  [mutex_producer] is held
    by the producer that executes the statements from the wait to
    [lock.unlock()], and it is free whenever a producer asks for it: no
    producer ever waits for it. *)
Theorem bounded_buffer_sections_exclusive size np nc s :
  Z.of_nat np <= Int32.modulus -> reachable size np nc s ->
  (forall i j p q, producers s !! i = Some p -> producers s !! j = Some q ->
     pphase p = TicketLock.Holding -> pphase q = TicketLock.Holding -> i = j) /\
  (forall i j c d, consumers s !! i = Some c -> consumers s !! j = Some d ->
     holds_mutex (c_pc c) = true -> holds_mutex (c_pc d) = true -> i = j) /\
  (forall i p, producers s !! i = Some p ->
     (holds_pmutex (p_pc p) = true <-> mutex_producer s = Some i)) /\
  (forall j c, consumers s !! j = Some c ->
     (holds_mutex (c_pc c) = true <-> mutex_consumer s = Some j)) /\
  (forall i p, producers s !! i = Some p -> p_pc p = PLockM \/ p_pc p = PSleep ->
     mutex_producer s = None).
Proof.
  intros Hn Hr. pose proof (fb_lock_ok _ _ _ _ Hn Hr) as [HL _]. unfold LockOK in HL.
  destruct (fb_mutex_ok _ _ _ _ Hr) as [HC HP HO].
  split; [|split; [|split; [done|split; [done|]]]].
  - intros i j p q Hp Hq Hhp Hhq.
    apply (TicketLock.LockInv_exclusive _ _ i j HL); rewrite list_lookup_fmap.
    + by rewrite Hp; simpl; f_equal.
    + by rewrite Hq; simpl; f_equal.
  - intros i j c d Hc Hd Hhc Hhd.
    pose proof (proj1 (HC _ _ Hc) Hhc) as E1. pose proof (proj1 (HC _ _ Hd) Hhd) as E2.
    congruence.
  - intros i p Hp Hpc. by eapply fb_pmutex_free.
Qed.

Lemma bounded_buffer_sections_exclusive_witness :
  p_pc <$> producers (run_to two_slots_third_waits (init_sized 2 1 1)) = [PSleep] /\
  mutex_producer (run_to two_slots_third_waits (init_sized 2 1 1)) = None.
Proof.
  split; [reflexivity|].
  refine (proj2 (proj2 (proj2 (proj2
    (bounded_buffer_sections_exclusive 2 1 1
       (run_to two_slots_third_waits (init_sized 2 1 1)) _ _)))) 0%nat
       (mkP PSleep 30 0 2 0 1 0 0) _ _).
  - done.
  - apply fb_run_to_reachable, reach_init.
  - reflexivity.
  - by right.
Defined.

(** Reading the log of the bounded buffer from its beginning, the number of
    Producer events less the number of Consumer events stays between -1 and
    the number of nodes plus one: an item is logged as produced after its
    node was filled, and as consumed after its node was emptied, so the log
    can be one event late on either side. *)
Theorem bounded_log_balance size np nc s l :
  Z.of_nat np <= Int32.modulus -> reachable size np nc s -> l `prefix_of` log s ->
  -1 <= log_balance l <= Z.of_nat (Nat.max 1 size) + 1.
Proof.
  intros Hn Hr Hl. destruct (fb_log_prefix _ _ _ _ _ Hr Hl) as (s0 & Hr0 & <-).
  pose proof (fb_ring_ok _ _ _ _ Hn Hr0) as R. unfold RingOK in R.
  pose proof (rg_bound _ _ _ _ _ _ _ _ R) as Hb.
  rewrite !length_app in Hb. unfold log_balance.
  assert (length (in_flight_fill (the_pview (producers s0))) <= 1)%nat
    by (destruct (the_pview (producers s0)); simpl; lia).
  assert (length (in_flight_take (the_cview s0)) <= 1)%nat
    by (destruct (the_cview s0); simpl; lia).
  lia.
Qed.

Lemma bounded_log_balance_witness :
  log_balance (log (run_to two_slots_three_logged (init_sized 2 1 1))) = 2 + 1 /\
  -1 <= log_balance (log (run_to two_slots_three_logged (init_sized 2 1 1))) <= 2 + 1.
Proof.
  split; [reflexivity|].
  apply (bounded_log_balance 2 1 1 (run_to two_slots_three_logged (init_sized 2 1 1))).
  - done.
  - apply fb_run_to_reachable, reach_init.
  - done.
Defined.

End ring_of_the_bounded_buffer.

(** ** The chain of the unbounded buffer *)

Section chain_of_the_unbounded_buffer.
Import InfiniteBuffer.
Local Open Scope Z_scope.

(** One producer, one consumer.  [produce(10)] has filled the first node
    and moved [head]; before it logs, the consumer takes 10 out and logs. *)
Definition ib_consumer_logs_first : list action :=
  prod_steps 10 0 10 2 ++ cons_steps 8 0.

Lemma ib_log_step a s s' :
  step a s = Next s' -> log s' = log s \/ exists e, log s' = log s ++ [e].
Proof.
  intros Hstep. destruct a as [d|i item ad|j]; ib_step_cases Hstep; eauto.
Qed.

(** Every beginning of the log is the log of an earlier state. *)
Lemma ib_log_prefix np nc s l :
  reachable np nc s -> l `prefix_of` log s ->
  exists s0, reachable np nc s0 /\ log s0 = l.
Proof.
  induction 1 as [|s a s' Hr IH Hstep]; intros Hl.
  - exists (init np nc). split; [apply reach_init|].
    simpl in Hl. by apply prefix_nil_inv in Hl.
  - destruct (ib_log_step _ _ _ Hstep) as [E|[e E]]; rewrite E in Hl.
    + by apply IH.
    + destruct Hl as [k Hk]. destruct (decide (k = [])) as [->|Hne].
      * exists s'. split; [by eapply reach_step|]. by rewrite E, Hk, app_nil_r.
      * apply IH. destruct (exists_last Hne) as (k' & x & ->).
        rewrite app_assoc in Hk. apply app_inj_tail in Hk as [-> _].
        by apply prefix_app_r.
Qed.

(** In the unbounded buffer one producer at a time is between
    [ticket_lock_producer.lock()] and [ticket_lock_producer.unlock()], and
    one consumer at a time holds [mutex_consumer]: the consumer that
    executes the statements from the wait to [lock.unlock()]. *)
Theorem unbounded_buffer_sections_exclusive np nc s :
  Z.of_nat np <= Int32.modulus -> reachable np nc s ->
  (forall i j p q, producers s !! i = Some p -> producers s !! j = Some q ->
     pphase p = TicketLock.Holding -> pphase q = TicketLock.Holding -> i = j) /\
  (forall i j c d, consumers s !! i = Some c -> consumers s !! j = Some d ->
     holds_mutex (c_pc c) = true -> holds_mutex (c_pc d) = true -> i = j) /\
  (forall j c, consumers s !! j = Some c ->
     (holds_mutex (c_pc c) = true <-> mutex_consumer s = Some j)).
Proof.
  intros Hn Hr. pose proof (ib_lock_ok _ _ _ Hn Hr) as [HL _]. unfold LockOK in HL.
  pose proof (ib_mutex_ok _ _ _ Hr) as HC.
  split; [|split; [|done]].
  - intros i j p q Hp Hq Hhp Hhq.
    apply (TicketLock.LockInv_exclusive _ _ i j HL); rewrite list_lookup_fmap.
    + by rewrite Hp; simpl; f_equal.
    + by rewrite Hq; simpl; f_equal.
  - intros i j c d Hc Hd Hhc Hhd.
    pose proof (proj1 (HC _ _ Hc) Hhc) as E1. pose proof (proj1 (HC _ _ Hd) Hhd) as E2.
    congruence.
Qed.

Lemma unbounded_buffer_sections_exclusive_witness :
  mutex_consumer (run_to (cons_steps 11 0) ib_filled_not_advanced) = Some 0%nat /\
  c_pc <$> consumers (run_to (cons_steps 11 0) ib_filled_not_advanced) = [CUnlock].
Proof.
  split; [|reflexivity].
  refine (proj1 (proj2 (proj2
    (unbounded_buffer_sections_exclusive 1 1
       (run_to (cons_steps 11 0) ib_filled_not_advanced) _ _)) 0%nat
       (mkC CUnlock 0 0 10 0 1 0) _) _).
  - done.
  - apply ib_run_to_reachable, ib_run_to_reachable, reach_init.
  - reflexivity.
  - reflexivity.
Defined.

(** The number of nodes allocated and not deleted is, at every instant,
    between one and three more than the number of Producer events less the
    number of Consumer events in the log; null is never the address of a
    node. *)
Theorem unbounded_nodes_in_use np nc s :
  Z.of_nat np <= Int32.modulus -> reachable np nc s ->
  heap s !! nullptr = None /\
  log_balance (log s) + 1 <= Z.of_nat (size (heap s)) <= log_balance (log s) + 3.
Proof.
  intros Hn Hr. destruct (ib_chain_ok _ _ _ Hn Hr) as [ch S].
  split; [apply S|].
  pose proof (shape_size _ _ _ _ _ _ _ _ S) as Hsize.
  pose proof (sh_fifo _ _ _ _ _ _ _ _ S) as Hfifo.
  apply (f_equal length) in Hfifo. rewrite !length_app, length_fmap in Hfifo.
  unfold log_balance. rewrite Hsize.
  destruct (the_pview (producers s)), (the_cview s); simpl in *; lia.
Qed.

Lemma unbounded_nodes_in_use_witness :
  log_balance (log ib_backlog_of_three) = 3 /\
  3 + 1 <= Z.of_nat (size (heap ib_backlog_of_three)) <= 3 + 3.
Proof.
  split; [reflexivity|].
  refine (proj2 (unbounded_nodes_in_use 1 0 ib_backlog_of_three _ _)).
  - done.
  - apply ib_run_to_reachable, reach_init.
Defined.

(** Reading the log of the unbounded buffer from its beginning, the Consumer
    events are never more than one ahead of the Producer events: an item is
    logged as produced after its node was filled, so it can be consumed and
    logged as consumed first. *)
Theorem unbounded_log_balance np nc s l :
  Z.of_nat np <= Int32.modulus -> reachable np nc s -> l `prefix_of` log s ->
  -1 <= log_balance l /\
  exists x, values_of Consumer l `prefix_of` values_of Producer l ++ x /\ (length x <= 1)%nat.
Proof.
  intros Hn Hr Hl. destruct (ib_log_prefix _ _ _ _ Hr Hl) as (s0 & Hr0 & <-).
  destruct (ib_fifo _ _ _ Hn Hr0) as [pending Hf]. unfold produced in Hf.
  assert (length (in_flight_fill (the_pview (producers s0))) <= 1)%nat
    by (destruct (the_pview (producers s0)); simpl; lia).
  split.
  - apply (f_equal length) in Hf. rewrite !length_app in Hf. unfold log_balance. lia.
  - exists (in_flight_fill (the_pview (producers s0))). split; [|done].
    rewrite Hf. by apply prefix_app_r.
Qed.

Lemma unbounded_log_balance_witness :
  ev_role <$> log (run_to ib_consumer_logs_first (init 1 1)) = [Consumer] /\
  -1 <= log_balance (log (run_to ib_consumer_logs_first (init 1 1))).
Proof.
  split; [reflexivity|].
  refine (proj1 (unbounded_log_balance 1 1 (run_to ib_consumer_logs_first (init 1 1)) _ _ _ _)).
  - done.
  - apply ib_run_to_reachable, reach_init.
  - done.
Defined.

End chain_of_the_unbounded_buffer.

(** ** Instants and waits in the log *)

(** The instants of the events of one role, in the order of the log. *)
Definition stamps (r : role) (l : list Event) : list Z :=
  ev_timestamp <$> filter (fun e => ev_role e = r) l.

Section stamps_lemmas.
Local Open Scope Z_scope.

Lemma stamps_snoc r l e :
  stamps r (l ++ [e]) = stamps r l ++ (if decide (ev_role e = r) then [ev_timestamp e] else []).
Proof.
  unfold stamps. rewrite filter_app, fmap_app. f_equal.
  rewrite filter_cons, filter_nil. by destruct (decide (ev_role e = r)).
Qed.

Lemma StronglySorted_snoc (l : list Z) x :
  StronglySorted Z.le l -> Forall (fun y => y <= x) l -> StronglySorted Z.le (l ++ [x]).
Proof.
  induction 1 as [|y l Hl IH Hy]; intros Hall; simpl.
  - repeat constructor.
  - apply Forall_cons in Hall as [Hyx Hall]. constructor; [by apply IH|].
    apply Forall_app. split; [done|]. by repeat constructor.
Qed.

Lemma stamps_bound r l b :
  Forall (fun e => ev_role e = r -> ev_timestamp e <= b) l -> Forall (fun y => y <= b) (stamps r l).
Proof.
  unfold stamps. induction 1 as [|e l He Hl IH]; [constructor|].
  rewrite filter_cons. destruct (decide (ev_role e = r)); [|done].
  simpl. constructor; auto.
Qed.

End stamps_lemmas.

Section instants_of_the_unbounded_buffer.
Import InfiniteBuffer.
Local Open Scope Z_scope.

(** [produce(10)] of the one producer: two units of time pass before it
    takes its ticket, three more before it has the lock, and four more
    before it reads the clock for its event. *)
Definition ib_timed_call : list action :=
  [Tick 2] ++ prod_steps 2 0 10 2 ++ [Tick 3] ++ prod_steps 7 0 10 2 ++ [Tick 4] ++
  prod_steps 6 0 10 2.

(** What a thread that has read the clock for its event, and not yet
    written the event, knows about the log. *)
Definition p_stamped (s : state) (p : pthread) : Prop :=
  match p_pc p with
  | PLog =>
      Forall (fun e => ev_role e = Producer -> ev_timestamp e <= p_timestamp p) (log s) /\
      0 <= p_timestamp p <= clock s - start_time s
  | _ => True
  end.

Definition c_stamped (s : state) (c : cthread) : Prop :=
  match c_pc c with
  | CLog =>
      Forall (fun e => ev_role e = Consumer -> ev_timestamp e <= c_timestamp c) (log s) /\
      0 <= c_timestamp c <= clock s - start_time s
  | _ => True
  end.

(** The wait of a call is known, and not negative, once the lock is taken
    and the clock read. *)
Definition p_waited (p : pthread) : Prop :=
  match p_pc p with
  | PIdle | PTicket | PSpin | PAcquired => True
  | _ => 0 <= p_wait p
  end.

Definition c_waited (c : cthread) : Prop :=
  match c_pc c with
  | CIdle | CLock | CWait | CSleep | CAcquired => True
  | _ => 0 <= c_wait c
  end.

Record StampsOK (s : state) : Prop := {
  sk_start : start_time s <= clock s;
  sk_log : Forall (fun e => 0 <= ev_waited e /\
                            0 <= ev_timestamp e <= clock s - start_time s) (log s);
  sk_prod : StronglySorted Z.le (stamps Producer (log s));
  sk_cons : StronglySorted Z.le (stamps Consumer (log s));
  sk_p : forall i p, producers s !! i = Some p -> p_stamped s p /\ p_waited p;
  sk_c : forall j c, consumers s !! j = Some c -> c_stamped s c /\ c_waited c;
  sk_durations : Forall (fun d => 0 <= d) (produce_durations s) /\
                 Forall (fun d => 0 <= d) (consume_durations s)
}.

Lemma p_stamped_weaken s s' p :
  p_stamped s p ->
  clock s - start_time s <= clock s' - start_time s' ->
  (log s' = log s \/ exists e, log s' = log s ++ [e] /\ ev_role e = Consumer) ->
  p_stamped s' p.
Proof.
  unfold p_stamped. destruct (p_pc p); try done. intros [Hall Hb] Hclk Hlog.
  split; [|lia]. destruct Hlog as [->|(e & -> & He)]; [done|].
  apply Forall_app. split; [done|]. constructor; [|constructor]. congruence.
Qed.

Lemma c_stamped_weaken s s' c :
  c_stamped s c ->
  clock s - start_time s <= clock s' - start_time s' ->
  (log s' = log s \/ exists e, log s' = log s ++ [e] /\ ev_role e = Producer) ->
  c_stamped s' c.
Proof.
  unfold c_stamped. destruct (c_pc c); try done. intros [Hall Hb] Hclk Hlog.
  split; [|lia]. destruct Hlog as [->|(e & -> & He)]; [done|].
  apply Forall_app. split; [done|]. constructor; [|constructor]. congruence.
Qed.

Lemma ib_stamps_ok np nc s :
  Z.of_nat np <= Int32.modulus -> reachable np nc s -> StampsOK s.
Proof.
  intros Hn. induction 1 as [|s a s' Hr IH Hstep].
  - split; simpl.
    + done.
    + constructor.
    + constructor.
    + constructor.
    + intros i p Hp. apply lookup_replicate in Hp as [-> _]. done.
    + intros j c Hc. apply lookup_replicate in Hc as [-> _]. done.
    + split; constructor.
  - destruct IH as [Hst Hlog HsP HsC HP HC [HdP HdC]].
    pose proof (ib_lock_ok _ _ _ Hn Hr) as [HL _]. unfold LockOK in HL.
    pose proof (ib_mutex_ok _ _ _ Hr) as HM.
    destruct (ib_time_ok _ _ _ Hr) as [HTP HTC _ _ _ _].
    destruct a as [d|i item a|j].
    + ib_step_cases Hstep. split; simpl; try done; try lia.
      * eapply Forall_impl; [exact Hlog|]. simpl. intros e. lia.
      * intros i0 p0 Hp0. destruct (HP _ _ Hp0) as [H1 H2]. split; [|done].
        eapply p_stamped_weaken; [exact H1|simpl; lia|by left].
      * intros j0 c0 Hc0. destruct (HC _ _ Hc0) as [H1 H2]. split; [|done].
        eapply c_stamped_weaken; [exact H1|simpl; lia|by left].
    + ib_step_cases Hstep.
      all: destruct (HP _ _ Hp) as [HpS HpW]; unfold p_stamped, p_waited in HpS, HpW;
        rewrite Hpc in HpS, HpW.
      all: pose proof (HTP _ _ Hp) as HpT; unfold ptime_ok in HpT; rewrite Hpc in HpT.
      all: split; simpl; try done.
      all: try (intros i0 p0 Hl; ib_lookup_cases Hl i;
        [ unfold p_stamped, p_waited; simpl; split; try done; try lia
        | destruct (HP _ _ Hl) as [H1 H2]; split; [|done];
          first [ eapply p_stamped_weaken; [exact H1|simpl; lia|by left]
                | unfold p_stamped in *; simpl; destruct (p_pc p0) eqn:E; try done;
                  exfalso; match goal with Hne : _ <> _ |- _ => apply Hne end;
                  apply (TicketLock.LockInv_exclusive _ _ i0 i HL);
                  rewrite list_lookup_fmap; [rewrite Hl|rewrite Hp]; simpl; unfold pphase;
                  [by rewrite E|by rewrite Hpc] ] ]).
      * split; [|lia]. eapply Forall_impl; [exact Hlog|]. simpl. intros e ? _. lia.
      * apply Forall_app. split; [done|]. constructor; [|constructor]. simpl.
        destruct HpS as [_ ?]. lia.
      * rewrite stamps_snoc. simpl. apply StronglySorted_snoc; [done|].
        apply stamps_bound, HpS.
      * rewrite stamps_snoc. simpl. by rewrite app_nil_r.
      * intros j c Hc. destruct (HC _ _ Hc) as [H1 H2]. split; [|done].
        eapply c_stamped_weaken; [exact H1|simpl; lia|].
        right. eexists. split; [reflexivity|done].
      * split; [|done]. apply Forall_app. split; [done|]. constructor; [|constructor]. lia.
    + ib_step_cases Hstep.
      all: destruct (HC _ _ Hc) as [HcS HcW]; unfold c_stamped, c_waited in HcS, HcW;
        rewrite Hpc in HcS, HcW.
      all: pose proof (HTC _ _ Hc) as HcT; unfold ctime_ok in HcT; rewrite Hpc in HcT.
      all: split; simpl; try done.
      all: try (intros j0 c0 Hl; ib_lookup_cases Hl j;
        [ unfold c_stamped, c_waited; simpl; split; try done; try lia
        | destruct (HC _ _ Hl) as [H1 H2]; split; [|done];
          first [ eapply c_stamped_weaken; [exact H1|simpl; lia|by left]
                | unfold c_stamped in *; simpl; destruct (c_pc c0) eqn:E; try done;
                  exfalso; match goal with Hne : _ <> _ |- _ => apply Hne end;
                  pose proof (proj1 (HM _ _ Hl)) as M1; pose proof (proj1 (HM _ _ Hc)) as M2;
                  rewrite E in M1; rewrite Hpc in M2;
                  specialize (M1 eq_refl); specialize (M2 eq_refl); congruence ] ]).
      * split; [|lia]. eapply Forall_impl; [exact Hlog|]. simpl. intros e ? _. lia.
      * apply Forall_app. split; [done|]. constructor; [|constructor]. simpl.
        destruct HcS as [_ ?]. lia.
      * rewrite stamps_snoc. simpl. by rewrite app_nil_r.
      * rewrite stamps_snoc. simpl. apply StronglySorted_snoc; [done|].
        apply stamps_bound, HcS.
      * intros i p Hp. destruct (HP _ _ Hp) as [H1 H2]. split; [|done].
        eapply p_stamped_weaken; [exact H1|simpl; lia|].
        right. eexists. split; [reflexivity|done].
      * split; [done|]. apply Forall_app. split; [done|]. constructor; [|constructor]. lia.
Qed.

(** In the log of the unbounded buffer the events of the producers come in
    the order of their instants, and so do the events of the consumers (the
    clock is read and the event written inside the critical section).  No
    instant and no wait is negative, no instant is in the future, and no
    call has a negative duration. *)
Theorem unbounded_log_in_time_order np nc s :
  Z.of_nat np <= Int32.modulus -> reachable np nc s ->
  StronglySorted Z.le (stamps Producer (log s)) /\
  StronglySorted Z.le (stamps Consumer (log s)) /\
  Forall (fun e => 0 <= ev_waited e /\ 0 <= ev_timestamp e <= clock s - start_time s) (log s) /\
  Forall (fun d => 0 <= d) (produce_durations s) /\
  Forall (fun d => 0 <= d) (consume_durations s) /\
  0 <= total_produce_time s /\ 0 <= total_consume_time s.
Proof.
  intros Hn Hr. destruct (ib_stamps_ok _ _ _ Hn Hr) as [_ Hlog HsP HsC _ _ [HdP HdC]].
  destruct (ib_time_ok _ _ _ Hr) as [_ _ HtP HtC _ _].
  repeat (split; [done|]). rewrite HtP, HtC.
  split; [clear -HdP; induction HdP|clear -HdC; induction HdC]; simpl; unfold id in *; lia.
Qed.

Lemma unbounded_log_in_time_order_witness :
  ev_timestamp <$> log (run_to ib_timed_call (init 1 0)) = [9] /\
  ev_waited <$> log (run_to ib_timed_call (init 1 0)) = [3] /\
  StronglySorted Z.le (stamps Producer (log (run_to ib_timed_call (init 1 0)))).
Proof.
  split; [reflexivity|]. split; [reflexivity|].
  refine (proj1 (unbounded_log_in_time_order 1 0 (run_to ib_timed_call (init 1 0)) _ _)).
  - done.
  - apply ib_run_to_reachable, reach_init.
Defined.

End instants_of_the_unbounded_buffer.

Section instants_of_the_bounded_buffer.
Import FiniteBuffer.
Local Open Scope Z_scope.

(** A ring of two nodes, one producer, one consumer.  [produce(10)] waits
    three units of time for nothing but the clock; the consumer asks for an
    item at time 0 and gets it at time 9. *)
Definition fb_timed_calls : list action :=
  cons_steps 1 0 ++ [Tick 2] ++ prod_steps 2 0 10 ++ [Tick 3] ++ prod_steps 8 0 10 ++
  [Tick 4] ++ prod_steps 7 0 10 ++ cons_steps 13 0.

Definition fb_p_stamped (s : state) (p : pthread) : Prop :=
  match p_pc p with
  | PLog =>
      Forall (fun e => ev_role e = Producer -> ev_timestamp e <= p_timestamp p) (log s) /\
      0 <= p_timestamp p <= clock s - start_time s
  | _ => True
  end.

Definition fb_c_stamped (s : state) (c : cthread) : Prop :=
  match c_pc c with
  | CLog =>
      Forall (fun e => ev_role e = Consumer -> ev_timestamp e <= c_timestamp c) (log s) /\
      0 <= c_timestamp c <= clock s - start_time s
  | _ => True
  end.

(** What is known of the instants a call has read. *)
Definition fb_p_timed (clk : Z) (p : pthread) : Prop :=
  match p_pc p with
  | PIdle => True
  | PTicket | PSpin | PLockM | PWait | PSleep | PAcquired => p_request p <= clk
  | PStats => 0 <= p_wait p /\ p_request p <= p_end p
  | _ => 0 <= p_wait p /\ p_request p <= clk
  end.

Definition fb_c_timed (clk : Z) (c : cthread) : Prop :=
  match c_pc c with
  | CIdle => True
  | CLock | CWait | CSleep | CAcquired => c_request c <= clk
  | CStats => 0 <= c_wait c /\ c_request c <= c_end c
  | _ => 0 <= c_wait c /\ c_request c <= clk
  end.

Record FbStampsOK (s : state) : Prop := {
  fk_start : start_time s <= clock s;
  fk_log : Forall (fun e => 0 <= ev_waited e /\
                            0 <= ev_timestamp e <= clock s - start_time s) (log s);
  fk_prod : StronglySorted Z.le (stamps Producer (log s));
  fk_cons : StronglySorted Z.le (stamps Consumer (log s));
  fk_p : forall i p, producers s !! i = Some p -> fb_p_stamped s p /\ fb_p_timed (clock s) p;
  fk_c : forall j c, consumers s !! j = Some c -> fb_c_stamped s c /\ fb_c_timed (clock s) c;
  fk_totals : 0 <= total_produce_time s /\ 0 <= total_consume_time s
}.

Lemma fb_p_stamped_weaken s s' p :
  fb_p_stamped s p ->
  clock s - start_time s <= clock s' - start_time s' ->
  (log s' = log s \/ exists e, log s' = log s ++ [e] /\ ev_role e = Consumer) ->
  fb_p_stamped s' p.
Proof.
  unfold fb_p_stamped. destruct (p_pc p); try done. intros [Hall Hb] Hclk Hlog.
  split; [|lia]. destruct Hlog as [->|(e & -> & He)]; [done|].
  apply Forall_app. split; [done|]. constructor; [|constructor]. congruence.
Qed.

Lemma fb_c_stamped_weaken s s' c :
  fb_c_stamped s c ->
  clock s - start_time s <= clock s' - start_time s' ->
  (log s' = log s \/ exists e, log s' = log s ++ [e] /\ ev_role e = Producer) ->
  fb_c_stamped s' c.
Proof.
  unfold fb_c_stamped. destruct (c_pc c); try done. intros [Hall Hb] Hclk Hlog.
  split; [|lia]. destruct Hlog as [->|(e & -> & He)]; [done|].
  apply Forall_app. split; [done|]. constructor; [|constructor]. congruence.
Qed.

Lemma fb_p_timed_mono clk d p : 0 <= d -> fb_p_timed clk p -> fb_p_timed (clk + d) p.
Proof. unfold fb_p_timed. destruct (p_pc p); lia. Qed.

Lemma fb_c_timed_mono clk d c : 0 <= d -> fb_c_timed clk c -> fb_c_timed (clk + d) c.
Proof. unfold fb_c_timed. destruct (c_pc c); lia. Qed.

Ltac fb_lookup_cases Hl i :=
  match type of Hl with
  | <[i := _]> _ !! ?i' = Some _ =>
      destruct (decide (i' = i)) as [->|];
      [ rewrite list_lookup_insert_eq in Hl by (by eapply lookup_lt_Some);
        inversion Hl; subst; clear Hl
      | rewrite list_lookup_insert_ne in Hl by done ]
  end.

Lemma fb_stamps_ok size np nc s :
  Z.of_nat np <= Int32.modulus -> reachable size np nc s -> FbStampsOK s.
Proof.
  intros Hn. induction 1 as [|s a s' Hr IH Hstep].
  - split; simpl.
    + done.
    + constructor.
    + constructor.
    + constructor.
    + intros i p Hp. apply lookup_replicate in Hp as [-> _]. done.
    + intros j c Hc. apply lookup_replicate in Hc as [-> _]. done.
    + done.
  - destruct IH as [Hst Hlog HsP HsC HP HC [HtP HtC]].
    pose proof (fb_lock_ok _ _ _ _ Hn Hr) as [HL _]. unfold LockOK in HL.
    destruct (fb_mutex_ok _ _ _ _ Hr) as [HM _ _].
    destruct a as [d|i item|j].
    + fb_step_cases Hstep. split; simpl; try done; try lia.
      * eapply Forall_impl; [exact Hlog|]. simpl. intros e. lia.
      * intros i0 p0 Hp0. destruct (HP _ _ Hp0) as [H1 H2]. split.
        -- eapply fb_p_stamped_weaken; [exact H1|simpl; lia|by left].
        -- by apply fb_p_timed_mono.
      * intros j0 c0 Hc0. destruct (HC _ _ Hc0) as [H1 H2]. split.
        -- eapply fb_c_stamped_weaken; [exact H1|simpl; lia|by left].
        -- by apply fb_c_timed_mono.
    + fb_step_cases Hstep.
      all: destruct (HP _ _ Hp) as [HpS HpT]; unfold fb_p_stamped, fb_p_timed in HpS, HpT;
        rewrite Hpc in HpS, HpT.
      all: split; simpl; try done.
      all: try (intros i0 p0 Hl; fb_lookup_cases Hl i;
        [ unfold fb_p_stamped, fb_p_timed; simpl; split; try done; try lia
        | destruct (HP _ _ Hl) as [H1 H2]; split; [|done];
          first [ eapply fb_p_stamped_weaken; [exact H1|simpl; lia|by left]
                | unfold fb_p_stamped in *; simpl; destruct (p_pc p0) eqn:E; try done;
                  exfalso; match goal with Hne : _ <> _ |- _ => apply Hne end;
                  apply (TicketLock.LockInv_exclusive _ _ i0 i HL);
                  rewrite list_lookup_fmap; [rewrite Hl|rewrite Hp]; simpl; unfold pphase;
                  [by rewrite E|by rewrite Hpc] ] ]).
      * split; [|lia]. eapply Forall_impl; [exact Hlog|]. simpl. intros e ? _. lia.
      * apply Forall_app. split; [done|]. constructor; [|constructor]. simpl.
        destruct HpS as [_ ?]. lia.
      * rewrite stamps_snoc. simpl. apply StronglySorted_snoc; [done|].
        apply stamps_bound, HpS.
      * rewrite stamps_snoc. simpl. by rewrite app_nil_r.
      * intros j c Hc. destruct (HC _ _ Hc) as [H1 H2]. split; [|done].
        eapply fb_c_stamped_weaken; [exact H1|simpl; lia|].
        right. eexists. split; [reflexivity|done].
      * lia.
    + fb_step_cases Hstep.
      all: destruct (HC _ _ Hc) as [HcS HcT]; unfold fb_c_stamped, fb_c_timed in HcS, HcT;
        rewrite Hpc in HcS, HcT.
      all: split; simpl; try done.
      all: try (intros j0 c0 Hl; fb_lookup_cases Hl j;
        [ unfold fb_c_stamped, fb_c_timed; simpl; split; try done; try lia
        | destruct (HC _ _ Hl) as [H1 H2]; split; [|done];
          first [ eapply fb_c_stamped_weaken; [exact H1|simpl; lia|by left]
                | unfold fb_c_stamped in *; simpl; destruct (c_pc c0) eqn:E; try done;
                  exfalso; match goal with Hne : _ <> _ |- _ => apply Hne end;
                  pose proof (proj1 (HM _ _ Hl)) as M1; pose proof (proj1 (HM _ _ Hc)) as M2;
                  rewrite E in M1; rewrite Hpc in M2;
                  specialize (M1 eq_refl); specialize (M2 eq_refl); congruence ] ]).
      * split; [|lia]. eapply Forall_impl; [exact Hlog|]. simpl. intros e ? _. lia.
      * apply Forall_app. split; [done|]. constructor; [|constructor]. simpl.
        destruct HcS as [_ ?]. lia.
      * rewrite stamps_snoc. simpl. by rewrite app_nil_r.
      * rewrite stamps_snoc. simpl. apply StronglySorted_snoc; [done|].
        apply stamps_bound, HcS.
      * intros i p Hp. destruct (HP _ _ Hp) as [H1 H2]. split; [|done].
        eapply fb_p_stamped_weaken; [exact H1|simpl; lia|].
        right. eexists. split; [reflexivity|done].
      * lia.
Qed.

(** In the log of the bounded buffer the events of the producers come in
    the order of their instants, and so do the events of the consumers.  No
    instant and no wait is negative, no instant is in the future, and the
    two totals are never negative. *)
Theorem bounded_log_in_time_order size np nc s :
  Z.of_nat np <= Int32.modulus -> reachable size np nc s ->
  StronglySorted Z.le (stamps Producer (log s)) /\
  StronglySorted Z.le (stamps Consumer (log s)) /\
  Forall (fun e => 0 <= ev_waited e /\ 0 <= ev_timestamp e <= clock s - start_time s) (log s) /\
  0 <= total_produce_time s /\ 0 <= total_consume_time s.
Proof.
  intros Hn Hr. destruct (fb_stamps_ok _ _ _ _ Hn Hr) as [_ Hlog HsP HsC _ _ [HtP HtC]].
  by repeat (split; [done|]).
Qed.

Lemma bounded_log_in_time_order_witness :
  (fun e => (ev_role e, ev_timestamp e, ev_waited e)) <$>
    log (run_to fb_timed_calls (init_sized 2 1 1)) = [(Producer, 9, 3); (Consumer, 9, 9)] /\
  StronglySorted Z.le (stamps Consumer (log (run_to fb_timed_calls (init_sized 2 1 1)))).
Proof.
  split; [reflexivity|].
  refine (proj1 (proj2
    (bounded_log_in_time_order 2 1 1 (run_to fb_timed_calls (init_sized 2 1 1)) _ _))).
  - done.
  - apply fb_run_to_reachable, reach_init.
Defined.

End instants_of_the_bounded_buffer.

(** ** The threads of [main] ([InfiniteBuffer.cpp]: [producer], [consumer], [main]) *)

Module Driver.

Import InfiniteBuffer.
Local Open Scope Z_scope.

Definition NUM_PRODUCERS : nat := 5.
Definition NUM_CONSUMERS : nat := 3.
Definition ITEMS_PER_PRODUCER : nat := 30.
Definition ITEMS_PER_CONSUMER : nat := 50.

(** The buffer and, for each thread, the variable [i] of its loop.  Thread
    [k] of either kind is the one started [k]-th, by
    [threads.emplace_back(producer, k + 1)]; an event names its thread by
    [k], the line of the log shows [thread_id k]. *)
Record state := mkDriver {
  buffer : InfiniteBuffer.state;
  p_i : list nat;
  c_i : list nat
}.

Definition thread_id (k : nat) : Z := Z.of_nat k + 1.

(** [int item = id * 1000 + i;] *)
Definition item_of (id : Z) (i : nat) : Z := id * 1000 + Z.of_nat i.

(** [LinkedListBuffer buffer;] and the threads of [main], none started. *)
Definition init : state :=
  mkDriver (InfiniteBuffer.init NUM_PRODUCERS NUM_CONSUMERS)
           (replicate NUM_PRODUCERS 0%nat) (replicate NUM_CONSUMERS 0%nat).

(** The scheduler lets time pass (which is all [sleep_for] does), or picks
    a thread, which executes its next statement: a statement of the call it
    is in, the last of which is followed by [++i]; or, between two calls,
    the test [i < ITEMS_PER_...] and the call of [produce(id * 1000 + i, id)]
    or [consume(id)].  A thread whose loop has ended executes nothing. *)
Inductive action :=
| Pass (d : Z)
| RunProducer (k : nat) (a : nat)
| RunConsumer (j : nat).

Definition step (act : action) (s : state) : outcome state :=
  match act with
  | Pass d =>
      match InfiniteBuffer.step (Tick d) (buffer s) with
      | Next b => Next (mkDriver b (p_i s) (c_i s))
      | Blocked => Blocked
      | Fault => Fault
      end
  | RunProducer k a =>
      match producers (buffer s) !! k, p_i s !! k with
      | Some p, Some i =>
          if decide (p_pc p = PIdle /\ (ITEMS_PER_PRODUCER <= i)%nat) then Blocked
          else
            match InfiniteBuffer.step (Prod k (item_of (thread_id k) i) a) (buffer s) with
            | Next b =>
                Next (mkDriver b
                        (if decide (p_pc p = PStats) then <[k := S i]> (p_i s) else p_i s)
                        (c_i s))
            | Blocked => Blocked
            | Fault => Fault
            end
      | _, _ => Blocked
      end
  | RunConsumer j =>
      match consumers (buffer s) !! j, c_i s !! j with
      | Some c, Some i =>
          if decide (c_pc c = CIdle /\ (ITEMS_PER_CONSUMER <= i)%nat) then Blocked
          else
            match InfiniteBuffer.step (Cons j) (buffer s) with
            | Next b =>
                Next (mkDriver b (p_i s)
                        (if decide (c_pc c = CStats) then <[j := S i]> (c_i s) else c_i s))
            | Blocked => Blocked
            | Fault => Fault
            end
      | _, _ => Blocked
      end
  end.

Fixpoint run (acts : list action) (s : state) : outcome state :=
  match acts with
  | [] => Next s
  | a :: acts' =>
      match step a s with
      | Next s' => run acts' s'
      | Blocked => Blocked
      | Fault => Fault
      end
  end.

Definition run_to (acts : list action) (s : state) : state :=
  match run acts s with Next s' => s' | _ => s end.

Inductive reachable : state -> Prop :=
| reach_init : reachable init
| reach_step s a s' : reachable s -> step a s = Next s' -> reachable s'.

(** All the [join]s of [main] have returned. *)
Definition finished (s : state) : Prop :=
  quiescent (buffer s) /\
  Forall (fun i => i = ITEMS_PER_PRODUCER) (p_i s) /\
  Forall (fun i => i = ITEMS_PER_CONSUMER) (c_i s).

(** The values of the events of producer [k], in the order of the log. *)
Definition produced_by (k : nat) (l : list Event) : list Z :=
  ev_value <$> filter (fun e => ev_role e = Producer /\ ev_id e = k) l.

(** The items of the whole run: those of thread 0, then those of thread 1,
    and so on. *)
Definition all_items : list Z :=
  k ← seq 0 NUM_PRODUCERS; item_of (thread_id k) <$> seq 0 ITEMS_PER_PRODUCER.

(** A schedule that ends the run: each producer in turn runs its thirty
    calls, then each consumer its fifty. *)
Definition calls_of_producer (k : nat) : list action :=
  i ← seq 0 ITEMS_PER_PRODUCER; replicate 15 (RunProducer k (2 + k * ITEMS_PER_PRODUCER + i)).

Definition whole_run : list action :=
  (k ← seq 0 NUM_PRODUCERS; calls_of_producer k) ++
  (j ← seq 0 NUM_CONSUMERS; replicate (14 * ITEMS_PER_CONSUMER) (RunConsumer j)).

Record DriverOK (s : state) : Prop := {
  d_buffer : InfiniteBuffer.reachable NUM_PRODUCERS NUM_CONSUMERS (buffer s);
  d_plen : length (p_i s) = NUM_PRODUCERS;
  d_clen : length (c_i s) = NUM_CONSUMERS;
  d_prod : forall k p i, producers (buffer s) !! k = Some p -> p_i s !! k = Some i ->
    (i <= ITEMS_PER_PRODUCER)%nat /\
    (p_pc p <> PIdle -> (i < ITEMS_PER_PRODUCER)%nat /\ p_item p = item_of (thread_id k) i) /\
    produced_by k (log (buffer s)) =
      item_of (thread_id k) <$> seq 0 (i + if p_logged (p_pc p) then 1 else 0);
  d_cons : forall j c i, consumers (buffer s) !! j = Some c -> c_i s !! j = Some i ->
    (i <= ITEMS_PER_CONSUMER)%nat /\
    (c_pc c <> CIdle -> (i < ITEMS_PER_CONSUMER)%nat) /\
    length (consumed_by j (log (buffer s))) = (i + if c_logged (c_pc c) then 1 else 0)%nat;
  d_ids : Forall (fun e => ev_role e = Producer -> (ev_id e < NUM_PRODUCERS)%nat)
                 (log (buffer s));
  d_nodup : NoDup (values_of Producer (log (buffer s)))
}.

Lemma item_of_inj k k' i i' :
  (i < 1000)%nat -> (i' < 1000)%nat ->
  item_of (thread_id k) i = item_of (thread_id k') i' -> k = k' /\ i = i'.
Proof. unfold item_of, thread_id. lia. Qed.

Lemma produced_by_snoc k l e :
  produced_by k (l ++ [e]) =
  produced_by k l ++ (if decide (ev_role e = Producer /\ ev_id e = k) then [ev_value e] else []).
Proof.
  unfold produced_by. rewrite filter_app, fmap_app. f_equal.
  rewrite filter_cons, filter_nil. by case_decide.
Qed.

Lemma produced_by_elem k l v :
  v ∈ values_of Producer l ->
  exists k', v ∈ produced_by k' l /\
    (Forall (fun e => ev_role e = Producer -> (ev_id e < k)%nat) l -> (k' < k)%nat).
Proof.
  unfold values_of, produced_by. intros Hv.
  apply list_elem_of_fmap in Hv as (e & -> & He). apply list_elem_of_filter in He as [Hrole He].
  exists (ev_id e). split.
  - apply list_elem_of_fmap. exists e. split; [done|]. by apply list_elem_of_filter.
  - intros Hall. rewrite Forall_forall in Hall. by apply Hall.
Qed.

Lemma produced_by_other k l e :
  (ev_role e = Producer -> ev_id e <> k) -> produced_by k (l ++ [e]) = produced_by k l.
Proof.
  intros H. rewrite produced_by_snoc, decide_False, app_nil_r; [done|]. intros [? ?]. by apply H.
Qed.

Lemma consumed_by_other j l e :
  (ev_role e = Consumer -> ev_id e <> j) -> consumed_by j (l ++ [e]) = consumed_by j l.
Proof.
  intros H. rewrite consumed_by_snoc, decide_False, app_nil_r; [done|]. intros [? ?]. by apply H.
Qed.

Lemma driver_ok s : reachable s -> DriverOK s.
Proof.
  induction 1 as [|s a s' Hr IH Hstep].
  - split; cbn [init buffer p_i c_i producers consumers log InfiniteBuffer.init].
    + apply InfiniteBuffer.reach_init.
    + apply length_replicate.
    + apply length_replicate.
    + intros k p i Hp Hi. apply lookup_replicate in Hp as [-> _].
      apply lookup_replicate in Hi as [-> _]. simpl. unfold ITEMS_PER_PRODUCER. split; [lia|done].
    + intros j c i Hc Hi. apply lookup_replicate in Hc as [-> _].
      apply lookup_replicate in Hi as [-> _]. simpl. unfold ITEMS_PER_CONSUMER. split; [lia|done].
    + constructor.
    + constructor.
  - destruct IH as [Hb Hpl Hcl HP HC Hids Hnd].
    destruct a as [d|k a|j]; unfold step in Hstep.
    + destruct (InfiniteBuffer.step (Tick d) (buffer s)) as [b| |] eqn:Hbs; try done.
      inversion Hstep; subst; clear Hstep.
      assert (InfiniteBuffer.reachable NUM_PRODUCERS NUM_CONSUMERS b) as Hb'
        by (eapply InfiniteBuffer.reach_step; eauto).
      ib_step_cases Hbs. by split.
    + destruct (producers (buffer s) !! k) as [p|] eqn:Hp; [|done].
      destruct (p_i s !! k) as [i|] eqn:Hi; [|done].
      destruct (decide (p_pc p = PIdle /\ (ITEMS_PER_PRODUCER <= i)%nat)) as [|Hgo]; [done|].
      destruct (InfiniteBuffer.step _ (buffer s)) as [b| |] eqn:Hbs; try done.
      inversion Hstep; subst; clear Hstep.
      assert (InfiniteBuffer.reachable NUM_PRODUCERS NUM_CONSUMERS b) as Hb'
        by (eapply InfiniteBuffer.reach_step; eauto).
      destruct (HP _ _ _ Hp Hi) as (Hle & Hin & Hby).
      assert (k < NUM_PRODUCERS)%nat as Hk by (rewrite <- Hpl; by eapply lookup_lt_Some).
      unfold InfiniteBuffer.step in Hbs. rewrite Hp in Hbs. unfold produce_step in Hbs.
      destruct (p_pc p) eqn:Hpc; simpl in Hbs; repeat case_match; simplify_eq; simpl in *.
      all: split; simpl; rewrite ?length_insert; try done.
      all: rewrite ?Hpc in Hin, Hby; simpl in Hby; rewrite ?Nat.add_0_r, ?Nat.add_1_r in Hby.
      all: try (assert ((i < ITEMS_PER_PRODUCER)%nat /\ p_item p = item_of (thread_id k) i)
                  as [Hlt Hitem] by (by apply Hin)).
      all: try (intros k0 p0 i0 Hl Hi0; destruct (decide (k0 = k)) as [->|Hne];
        [ rewrite list_lookup_insert_eq in Hl by (by eapply lookup_lt_Some);
          inversion Hl; subst; clear Hl;
          rewrite ?list_lookup_insert_eq in Hi0 by (by eapply lookup_lt_Some);
          rewrite ?Hi in Hi0; inversion Hi0; subst; clear Hi0; simpl;
          rewrite ?Nat.add_0_r, ?Nat.add_1_r;
          try (split; [lia|split; [intros _; split; [lia|done]|]]; try done)
        | rewrite list_lookup_insert_ne in Hl by done;
          rewrite ?list_lookup_insert_ne in Hi0 by done;
          destruct (HP _ _ _ Hl Hi0) as (? & ? & Hby0); split; [done|split; [done|]];
          first [done|rewrite produced_by_other; [done|simpl; intros _; congruence]] ]).
      * assert (~ (ITEMS_PER_PRODUCER <= i0)%nat) by (intros ?; by apply Hgo).
        split; [lia|]. split; [intros _; split; [lia|done]|done].
      * rewrite produced_by_snoc, decide_True by done.
        rewrite Hby, seq_S, fmap_app. simpl. by rewrite Hitem.
      * intros j c i1 Hc Hi1. destruct (HC _ _ _ Hc Hi1) as (? & ? & ?).
        split; [done|]. split; [done|]. rewrite consumed_by_other; done.
      * apply Forall_app. split; [done|]. constructor; [|constructor]. done.
      * rewrite values_of_snoc. simpl. apply NoDup_app. split; [done|].
        split; [|apply NoDup_singleton].
        intros v Hv Hv'. apply list_elem_of_singleton in Hv'. subst v.
        destruct (produced_by_elem NUM_PRODUCERS _ _ Hv) as (k' & Hk' & Hlt').
        specialize (Hlt' Hids).
        destruct (lookup_lt_is_Some_2 (producers (buffer s)) k') as [p' Hp'].
        { assert (Z.of_nat NUM_PRODUCERS <= Int32.modulus) as Hn by done.
          destruct (ib_lock_ok _ _ _ Hn Hb) as [_ ->]. done. }
        destruct (lookup_lt_is_Some_2 (p_i s) k') as [i' Hi']; [by rewrite Hpl|].
        destruct (HP _ _ _ Hp' Hi') as (Hle' & _ & Hby').
        rewrite Hby', Hitem in Hk'. apply list_elem_of_fmap in Hk' as (x & Hx & Hin').
        apply elem_of_seq in Hin'.
        assert (i < 1000)%nat as B1 by (unfold ITEMS_PER_PRODUCER in *; lia).
        assert (x < 1000)%nat as B2
          by (destruct (p_logged (p_pc p')); unfold ITEMS_PER_PRODUCER in *; lia).
        destruct (item_of_inj _ _ _ _ B1 B2 Hx) as [<- <-].
        rewrite Hp in Hp'. inversion Hp'; subst p'. rewrite Hpc in Hin'. simpl in Hin'.
        rewrite Hi in Hi'. inversion Hi'; subst i'. lia.
      * split; [lia|]. split; [done|]. exact Hby.
    + destruct (consumers (buffer s) !! j) as [c|] eqn:Hc; [|done].
      destruct (c_i s !! j) as [i|] eqn:Hi; [|done].
      destruct (decide (c_pc c = CIdle /\ (ITEMS_PER_CONSUMER <= i)%nat)) as [|Hgo]; [done|].
      destruct (InfiniteBuffer.step _ (buffer s)) as [b| |] eqn:Hbs; try done.
      inversion Hstep; subst; clear Hstep.
      assert (InfiniteBuffer.reachable NUM_PRODUCERS NUM_CONSUMERS b) as Hb'
        by (eapply InfiniteBuffer.reach_step; eauto).
      destruct (HC _ _ _ Hc Hi) as (Hle & Hin & Hby).
      unfold InfiniteBuffer.step in Hbs. rewrite Hc in Hbs. unfold consume_step in Hbs.
      destruct (c_pc c) eqn:Hpc; simpl in Hbs; repeat case_match; simplify_eq; simpl in *.
      all: split; simpl; rewrite ?length_insert; try done.
      all: rewrite ?Nat.add_0_r, ?Nat.add_1_r in Hby.
      all: try (assert (i < ITEMS_PER_CONSUMER)%nat as Hlt by (by apply Hin)).
      all: try (intros j0 c0 i0 Hl Hi0; destruct (decide (j0 = j)) as [->|Hne];
        [ rewrite list_lookup_insert_eq in Hl by (by eapply lookup_lt_Some);
          inversion Hl; subst; clear Hl;
          rewrite ?list_lookup_insert_eq in Hi0 by (by eapply lookup_lt_Some);
          rewrite ?Hi in Hi0; inversion Hi0; subst; clear Hi0; simpl;
          rewrite ?Nat.add_0_r, ?Nat.add_1_r;
          try (split; [lia|split; [intros _; lia|]]; try done)
        | rewrite list_lookup_insert_ne in Hl by done;
          rewrite ?list_lookup_insert_ne in Hi0 by done;
          destruct (HC _ _ _ Hl Hi0) as (? & ? & Hby0); split; [done|split; [done|]];
          first [done|rewrite consumed_by_other; [done|simpl; intros _; congruence]] ]).
      * assert (~ (ITEMS_PER_CONSUMER <= length (consumed_by j (log (buffer s))))%nat)
          by (intros ?; by apply Hgo).
        split; [lia|]. split; [intros _; lia|done].
      * intros k p i0 Hp Hi0. destruct (HP _ _ _ Hp Hi0) as (? & ? & ?).
        split; [done|]. split; [done|]. rewrite produced_by_other; done.
      * rewrite consumed_by_snoc, decide_True by done. rewrite length_app. simpl. lia.
      * apply Forall_app. split; [done|]. constructor; [|constructor]. done.
      * rewrite values_of_snoc. simpl. by rewrite app_nil_r.
      * split; [lia|]. split; [done|]. lia.
Qed.

Lemma driver_run_reachable acts s s' : reachable s -> run acts s = Next s' -> reachable s'.
Proof.
  revert s. induction acts as [|a acts IH]; simpl; intros s Hs Hr.
  - by inversion Hr; subst.
  - destruct (step a s) as [s1| |] eqn:E; try done.
    eapply IH; [|exact Hr]. eapply reach_step; eauto.
Qed.

Lemma driver_run_to_reachable acts s : reachable s -> reachable (run_to acts s).
Proof.
  intros Hr. unfold run_to. destruct (run acts s) as [s'| |] eqn:E; try done.
  by eapply driver_run_reachable.
Qed.

Lemma sum_indicator n x :
  sum_list_with (fun k => if decide (x = k) then 1%nat else 0%nat) (seq 0 n) =
  if decide (x < n)%nat then 1%nat else 0%nat.
Proof.
  induction n as [|n IH]; [done|].
  rewrite seq_S, sum_list_with_app, IH. simpl.
  repeat case_decide; lia.
Qed.

(** The events that satisfy [P], counted key by key. *)
Lemma length_filter_by_key {A} (P : A -> Prop) `{forall x, Decision (P x)}
    (key : A -> nat) n (l : list A) :
  Forall (fun x => P x -> (key x < n)%nat) l ->
  length (filter P l) =
  sum_list_with (fun k => length (filter (fun x => P x /\ key x = k) l)) (seq 0 n).
Proof.
  induction 1 as [|x l Hx Hl IH].
  - simpl. induction (seq 0 n) as [|k ks IHk]; simpl; [done|]. by rewrite <- IHk.
  - rewrite filter_cons.
    assert (sum_list_with (fun k => length (filter (fun y => P y /\ key y = k) (x :: l))) (seq 0 n) =
            (sum_list_with (fun k => if decide (key x = k) then 1 else 0) (seq 0 n) *
               (if decide (P x) then 1 else 0) +
             sum_list_with (fun k => length (filter (fun y => P y /\ key y = k) l)) (seq 0 n))%nat)
      as ->.
    { generalize (seq 0 n). intros ks. induction ks as [|k ks IHk]; simpl; [done|].
      rewrite IHk, filter_cons.
      destruct (decide (P x)), (decide (key x = k)); simpl.
      - rewrite decide_True by done. simpl. lia.
      - rewrite decide_False by tauto. lia.
      - rewrite decide_False by tauto. lia.
      - rewrite decide_False by tauto. lia. }
    rewrite sum_indicator, <- IH.
    destruct (decide (P x)) as [HP|]; simpl; [|lia].
    rewrite decide_True by auto. lia.
Qed.

Lemma length_by_key {A} (key : A -> nat) n (l : list A) :
  Forall (fun x => (key x < n)%nat) l ->
  length l = sum_list_with (fun k => length (filter (fun x => key x = k) l)) (seq 0 n).
Proof.
  induction 1 as [|x l Hx Hl IH].
  - simpl. induction (seq 0 n) as [|k ks IHk]; simpl; [done|]. by rewrite <- IHk.
  - assert (sum_list_with (fun k => length (filter (fun y => key y = k) (x :: l))) (seq 0 n) =
            (sum_list_with (fun k => if decide (key x = k) then 1 else 0) (seq 0 n) +
             sum_list_with (fun k => length (filter (fun y => key y = k) l)) (seq 0 n))%nat)
      as ->.
    { generalize (seq 0 n). intros ks. induction ks as [|k ks IHk]; simpl; [done|].
      rewrite IHk, filter_cons. destruct (decide (key x = k)); simpl; lia. }
    rewrite sum_indicator, <- IH, decide_True by done. simpl. lia.
Qed.

Lemma all_items_nodup : NoDup all_items.
Proof. apply (bool_decide_unpack (NoDup all_items)). by vm_compute. Qed.

Lemma produced_by_sub k l v : v ∈ produced_by k l -> v ∈ values_of Producer l.
Proof.
  unfold produced_by, values_of. intros Hv.
  apply list_elem_of_fmap in Hv as (e & -> & He). apply list_elem_of_filter in He as [[? ?] He].
  apply list_elem_of_fmap. exists e. split; [done|]. by apply list_elem_of_filter.
Qed.

Lemma all_items_elem v :
  v ∈ all_items <->
  exists k i, (k < NUM_PRODUCERS)%nat /\ (i < ITEMS_PER_PRODUCER)%nat /\ v = item_of (thread_id k) i.
Proof.
  unfold all_items. rewrite list_elem_of_bind. split.
  - intros (k & Hv & Hk). apply elem_of_seq in Hk.
    apply list_elem_of_fmap in Hv as (i & -> & Hi). apply elem_of_seq in Hi.
    exists k, i. split; [lia|]. split; [lia|done].
  - intros (k & i & Hk & Hi & ->). exists k. split.
    + apply list_elem_of_fmap. exists i. split; [done|]. apply elem_of_seq. lia.
    + apply elem_of_seq. lia.
Qed.

(** The threads of [main] in the middle of the run.  No two items are
    equal; the items of each producer enter the buffer in the order of its
    loop; every value in the log is [id * 1000 + i] for a producer [id] and
    an [i] below [ITEMS_PER_PRODUCER], a number that an [int] holds; the
    values taken out are the first of the values put in; and no thread
    makes more calls than its loop allows. *)
Theorem items_of_the_run s :
  reachable s ->
  NoDup (values_of Producer (log (buffer s))) /\
  (forall k, (k < NUM_PRODUCERS)%nat ->
     produced_by k (log (buffer s)) `prefix_of`
     item_of (thread_id k) <$> seq 0 ITEMS_PER_PRODUCER) /\
  (forall v, v ∈ values_of Producer (log (buffer s)) -> v ∈ all_items /\ Int32.in_range v) /\
  values_of Consumer (log (buffer s)) `prefix_of` produced (buffer s) /\
  (forall j, (j < NUM_CONSUMERS)%nat ->
     (length (returned_to j (buffer s)) <= ITEMS_PER_CONSUMER)%nat).
Proof.
  intros Hr. destruct (driver_ok s Hr) as [Hb Hpl Hcl HP HC Hids Hnd].
  assert (Z.of_nat NUM_PRODUCERS <= Int32.modulus) as Hn by done.
  destruct (ib_lock_ok _ _ _ Hn Hb) as [_ Hlen].
  assert (forall k, (k < NUM_PRODUCERS)%nat ->
     exists n, (n <= ITEMS_PER_PRODUCER)%nat /\
       produced_by k (log (buffer s)) = item_of (thread_id k) <$> seq 0 n) as Hby.
  { intros k Hk.
    destruct (lookup_lt_is_Some_2 (producers (buffer s)) k) as [p Hp]; [by rewrite Hlen|].
    destruct (lookup_lt_is_Some_2 (p_i s) k) as [i Hi]; [by rewrite Hpl|].
    destruct (HP _ _ _ Hp Hi) as (Hle & Hin & E). eexists. split; [|exact E].
    destruct (p_logged (p_pc p)) eqn:Hl; [|lia].
    assert (p_pc p <> PIdle) as Hne by (intros E'; rewrite E' in Hl; done).
    apply Hin in Hne. lia. }
  split; [done|]. split; [|split; [|split]].
  - intros k Hk. destruct (Hby k Hk) as (n & Hle & ->).
    exists (item_of (thread_id k) <$> seq n (ITEMS_PER_PRODUCER - n)).
    rewrite <- fmap_app. f_equal.
    replace ITEMS_PER_PRODUCER with (n + (ITEMS_PER_PRODUCER - n))%nat at 1 by lia.
    apply seq_app.
  - intros v Hv. destruct (produced_by_elem NUM_PRODUCERS _ _ Hv) as (k & Hk & Hlt).
    specialize (Hlt Hids). destruct (Hby k Hlt) as (n & Hle & E). rewrite E in Hk.
    apply list_elem_of_fmap in Hk as (i & -> & Hi). apply elem_of_seq in Hi.
    split.
    + apply all_items_elem. exists k, i. split; [done|]. split; [lia|done].
    + unfold Int32.in_range, Int32.min_int, Int32.max_int, item_of, thread_id,
        NUM_PRODUCERS, ITEMS_PER_PRODUCER in *. lia.
  - destruct (ib_returns_fifo _ _ _ Hn Hb) as (H1 & _). done.
  - intros j Hj.
    destruct (ib_return_ok _ _ _ Hb) as [Hclen Hth _ _].
    destruct (lookup_lt_is_Some_2 (consumers (buffer s)) j) as [c Hc]; [by rewrite Hclen|].
    destruct (lookup_lt_is_Some_2 (c_i s) j) as [i Hi]; [by rewrite Hcl|].
    destruct (HC _ _ _ Hc Hi) as (Hle & Hin & E).
    rewrite (Hth _ _ Hc), length_app in E.
    destruct (c_logged (c_pc c)) eqn:Hl; simpl in E; lia.
Qed.

Lemma items_of_the_run_witness :
  take 3 (values_of Producer (log (buffer (run_to (calls_of_producer 2) init)))) =
    [3000; 3001; 3002] /\
  NoDup (values_of Producer (log (buffer (run_to (calls_of_producer 2) init)))).
Proof.
  split; [reflexivity|].
  refine (proj1 (items_of_the_run (run_to (calls_of_producer 2) init) _)).
  apply driver_run_to_reachable, reach_init.
Defined.

(** The log when all the threads have ended. *)
Lemma finished_log s :
  reachable s -> finished s ->
  (forall k, (k < NUM_PRODUCERS)%nat ->
     produced_by k (log (buffer s)) = item_of (thread_id k) <$> seq 0 ITEMS_PER_PRODUCER) /\
  (forall j, (j < NUM_CONSUMERS)%nat ->
     length (consumed_by j (log (buffer s))) = ITEMS_PER_CONSUMER /\
     returned_to j (buffer s) = consumed_by j (log (buffer s))) /\
  values_of Producer (log (buffer s)) ≡ₚ all_items /\
  length (values_of Consumer (log (buffer s))) = 150%nat /\
  values_of Consumer (log (buffer s)) = values_of Producer (log (buffer s)).
Proof.
  intros Hr (Hq & HfP & HfC). destruct (driver_ok s Hr) as [Hb Hpl Hcl HP HC Hids Hnd].
  assert (Z.of_nat NUM_PRODUCERS <= Int32.modulus) as Hn by done.
  destruct (ib_lock_ok _ _ _ Hn Hb) as [_ Hlen].
  destruct (ib_return_ok _ _ _ Hb) as [Hclen Hth Hcids Hrids].
  destruct Hq as [HqP HqC].
  assert (forall k, (k < NUM_PRODUCERS)%nat ->
     produced_by k (log (buffer s)) = item_of (thread_id k) <$> seq 0 ITEMS_PER_PRODUCER) as Hby.
  { intros k Hk.
    destruct (lookup_lt_is_Some_2 (producers (buffer s)) k) as [p Hp]; [by rewrite Hlen|].
    destruct (lookup_lt_is_Some_2 (p_i s) k) as [i Hi]; [by rewrite Hpl|].
    destruct (HP _ _ _ Hp Hi) as (_ & _ & E). rewrite E.
    rewrite Forall_lookup in HqP. rewrite Forall_lookup in HfP. rewrite (HqP _ _ Hp), (HfP _ _ Hi).
    cbn [p_logged]. by rewrite Nat.add_0_r. }
  assert (forall j, (j < NUM_CONSUMERS)%nat ->
     length (consumed_by j (log (buffer s))) = ITEMS_PER_CONSUMER /\
     returned_to j (buffer s) = consumed_by j (log (buffer s))) as Hcby.
  { intros j Hj.
    destruct (lookup_lt_is_Some_2 (consumers (buffer s)) j) as [c Hc]; [by rewrite Hclen|].
    destruct (lookup_lt_is_Some_2 (c_i s) j) as [i Hi]; [by rewrite Hcl|].
    destruct (HC _ _ _ Hc Hi) as (_ & _ & E).
    rewrite Forall_lookup in HqC. rewrite Forall_lookup in HfC. rewrite (HqC _ _ Hc), (HfC _ _ Hi) in E. cbn [c_logged] in E.
    split; [lia|]. rewrite (Hth _ _ Hc), (HqC _ _ Hc). simpl. by rewrite app_nil_r. }
  assert (values_of Producer (log (buffer s)) ≡ₚ all_items) as Hperm.
  { apply NoDup_Permutation; [done|apply all_items_nodup|]. intros v. split.
    - intros Hv. destruct (produced_by_elem NUM_PRODUCERS _ _ Hv) as (k & Hk & Hlt).
      specialize (Hlt Hids). rewrite (Hby k Hlt) in Hk.
      apply list_elem_of_fmap in Hk as (i & -> & Hi). apply elem_of_seq in Hi.
      apply all_items_elem. exists k, i. split; [done|]. split; [lia|done].
    - intros Hv. apply all_items_elem in Hv as (k & i & Hk & Hi & ->).
      apply (produced_by_sub k). rewrite (Hby k Hk).
      apply list_elem_of_fmap. exists i. split; [done|]. apply elem_of_seq. lia. }
  assert (length (values_of Producer (log (buffer s))) = 150%nat) as HlenP
    by (by rewrite Hperm).
  assert (length (values_of Consumer (log (buffer s))) = 150%nat) as HlenC.
  { unfold values_of. rewrite length_fmap.
    rewrite (length_filter_by_key _ ev_id NUM_CONSUMERS) by done.
    unfold NUM_CONSUMERS. simpl.
    pose proof (Hcby 0%nat ltac:(unfold NUM_CONSUMERS; lia)) as [E0 _].
    pose proof (Hcby 1%nat ltac:(unfold NUM_CONSUMERS; lia)) as [E1 _].
    pose proof (Hcby 2%nat ltac:(unfold NUM_CONSUMERS; lia)) as [E2 _].
    unfold consumed_by in E0, E1, E2. rewrite length_fmap in E0, E1, E2.
    rewrite E0, E1, E2. done. }
  split; [done|]. split; [done|]. split; [done|]. split; [done|].
  destruct (ib_returns_fifo _ _ _ Hn Hb) as (Hpre & _). unfold produced in Hpre.
  rewrite (proj1 (quiescent_views _ (conj HqP HqC))) in Hpre. simpl in Hpre.
  rewrite app_nil_r in Hpre. apply prefix_length_eq; [done|lia].
Qed.

(** When all the threads of [main] have ended: the log holds one Producer
    event for each of the 150 items, the Consumer events carry the same
    values in the same order, each consumer has returned 50 of them, and the
    buffer is back to a single unfilled node, at [head] and [tail]. *)
Theorem end_of_the_run s :
  reachable s -> finished s ->
  values_of Producer (log (buffer s)) ≡ₚ all_items /\
  values_of Consumer (log (buffer s)) = values_of Producer (log (buffer s)) /\
  length (values_of Producer (log (buffer s))) = 150%nat /\
  (forall j, (j < NUM_CONSUMERS)%nat ->
     length (returned_to j (buffer s)) = ITEMS_PER_CONSUMER /\
     returned_to j (buffer s) = consumed_by j (log (buffer s))) /\
  length (returned (buffer s)) = 150%nat /\
  size (heap (buffer s)) = 1%nat /\ tail (buffer s) = head (buffer s) /\
  (exists n, heap (buffer s) !! head (buffer s) = Some n /\ filled n = false).
Proof.
  intros Hr Hf. destruct (finished_log s Hr Hf) as (Hby & Hcby & Hperm & HlenC & Heq).
  destruct Hf as (Hq & HfP & HfC).
  destruct (driver_ok s Hr) as [Hb Hpl Hcl HP HC Hids Hnd].
  assert (Z.of_nat NUM_PRODUCERS <= Int32.modulus) as Hn by done.
  destruct (ib_return_ok _ _ _ Hb) as [Hclen Hth Hcids Hrids].
  split; [done|]. split; [done|]. split; [by rewrite Hperm|]. split; [|split].
  - intros j Hj. destruct (Hcby j Hj) as [E1 E2]. split; [|done]. by rewrite E2.
  - rewrite (length_by_key fst NUM_CONSUMERS (returned (buffer s))) by done.
    unfold NUM_CONSUMERS. simpl.
    pose proof (Hcby 0%nat ltac:(unfold NUM_CONSUMERS; lia)) as [F0 E0].
    pose proof (Hcby 1%nat ltac:(unfold NUM_CONSUMERS; lia)) as [F1 E1].
    pose proof (Hcby 2%nat ltac:(unfold NUM_CONSUMERS; lia)) as [F2 E2].
    apply (f_equal length) in E0, E1, E2. rewrite F0 in E0. rewrite F1 in E1. rewrite F2 in E2.
    unfold returned_to in E0, E1, E2. rewrite length_fmap in E0, E1, E2.
    rewrite E0, E1, E2. done.
  - pose proof (ib_rest_size _ _ _ Hn Hb Hq) as Hsize.
    destruct (ib_at_rest _ _ _ Hn Hb Hq) as (ch & _ & Htl & _ & _ & Hhd & Hfifo).
    assert (length (values_of Producer (log (buffer s))) = 150%nat) as HlenP
      by (by rewrite Hperm).
    split; [lia|]. split.
    + rewrite Heq in Hfifo. apply (f_equal length) in Hfifo.
      rewrite length_app, length_fmap in Hfifo. destruct ch; [done|simpl in Hfifo; lia].
    + destruct Hhd as (n & ? & ? & _). eauto.
Qed.

Lemma end_of_the_run_witness :
  p_i (run_to whole_run init) = [30; 30; 30; 30; 30]%nat /\
  c_i (run_to whole_run init) = [50; 50; 50]%nat /\
  size (heap (buffer (run_to whole_run init))) = 1%nat.
Proof.
  split; [reflexivity|]. split; [reflexivity|].
  refine (proj1 (proj2 (proj2 (proj2 (proj2 (proj2
    (end_of_the_run (run_to whole_run init) _ _))))))).
  - apply driver_run_to_reachable, reach_init.
  - split; [split|split]; vm_compute; repeat constructor.
Defined.

End Driver.

(** ** The threads of [main] ([FiniteBuffer.cpp]: [producer], [consumer], [main]) *)

Module BoundedDriver.

Import FiniteBuffer.
Local Open Scope Z_scope.

(** [FiniteBuffer.cpp] declares the constants of [InfiniteBuffer.cpp] with
    the same values, and its [producer], [consumer] and the start of its
    [main] are the same statements: [Driver.NUM_PRODUCERS],
    [Driver.item_of] and the like stand for both files. *)
Record state := mkBounded {
  buffer : FiniteBuffer.state;
  p_i : list nat;
  c_i : list nat
}.

(** [LinkedListBuffer buffer;] and the threads of [main], none started. *)
Definition init : state :=
  mkBounded (FiniteBuffer.init Driver.NUM_PRODUCERS Driver.NUM_CONSUMERS)
            (replicate Driver.NUM_PRODUCERS 0%nat) (replicate Driver.NUM_CONSUMERS 0%nat).

Inductive action :=
| Pass (d : Z)
| RunProducer (k : nat)
| RunConsumer (j : nat).

(** As [Driver.step], on the bounded buffer. *)
Definition step (act : action) (s : state) : outcome state :=
  match act with
  | Pass d =>
      match FiniteBuffer.step (Tick d) (buffer s) with
      | Next b => Next (mkBounded b (p_i s) (c_i s))
      | Blocked => Blocked
      | Fault => Fault
      end
  | RunProducer k =>
      match producers (buffer s) !! k, p_i s !! k with
      | Some p, Some i =>
          if decide (p_pc p = PIdle /\ (Driver.ITEMS_PER_PRODUCER <= i)%nat) then Blocked
          else
            match FiniteBuffer.step
                    (Prod k (Driver.item_of (Driver.thread_id k) i)) (buffer s) with
            | Next b =>
                Next (mkBounded b
                        (if decide (p_pc p = PStats) then <[k := S i]> (p_i s) else p_i s)
                        (c_i s))
            | Blocked => Blocked
            | Fault => Fault
            end
      | _, _ => Blocked
      end
  | RunConsumer j =>
      match consumers (buffer s) !! j, c_i s !! j with
      | Some c, Some i =>
          if decide (c_pc c = CIdle /\ (Driver.ITEMS_PER_CONSUMER <= i)%nat) then Blocked
          else
            match FiniteBuffer.step (Cons j) (buffer s) with
            | Next b =>
                Next (mkBounded b (p_i s)
                        (if decide (c_pc c = CStats) then <[j := S i]> (c_i s) else c_i s))
            | Blocked => Blocked
            | Fault => Fault
            end
      | _, _ => Blocked
      end
  end.

Fixpoint run (acts : list action) (s : state) : outcome state :=
  match acts with
  | [] => Next s
  | a :: acts' =>
      match step a s with
      | Next s' => run acts' s'
      | Blocked => Blocked
      | Fault => Fault
      end
  end.

Definition run_to (acts : list action) (s : state) : state :=
  match run acts s with Next s' => s' | _ => s end.

Inductive reachable : state -> Prop :=
| reach_init : reachable init
| reach_step s a s' : reachable s -> step a s = Next s' -> reachable s'.

(** All the [join]s of [main] have returned. *)
Definition finished (s : state) : Prop :=
  quiescent (buffer s) /\
  Forall (fun i => i = Driver.ITEMS_PER_PRODUCER) (p_i s) /\
  Forall (fun i => i = Driver.ITEMS_PER_CONSUMER) (c_i s).

(** The event of the call in progress is logged, the call has not returned. *)
Definition p_logged (pc : ppc) : bool :=
  match pc with
  | PUnlockM | PNotify | PUnlock | PEnd | PStats => true
  | _ => false
  end.

(** A schedule that ends the run: in turn, a producer makes one call and a
    consumer makes one call, 150 times. *)
Definition whole_run : list action :=
  t ← seq 0 150;
  replicate 17 (RunProducer (t / Driver.ITEMS_PER_PRODUCER)) ++
  replicate 14 (RunConsumer (t / Driver.ITEMS_PER_CONSUMER)).

(** A schedule that leaves the producers waiting: producer 0 makes ten
    calls, and producer 1 goes as far as it can in one more. *)
Definition ring_filled : list action :=
  replicate 170 (RunProducer 0) ++ replicate 5 (RunProducer 1).

Record DriverOK (s : state) : Prop := {
  d_buffer : FiniteBuffer.reachable BUFFER_SIZE Driver.NUM_PRODUCERS Driver.NUM_CONSUMERS
               (buffer s);
  d_plen : length (p_i s) = Driver.NUM_PRODUCERS;
  d_clen : length (c_i s) = Driver.NUM_CONSUMERS;
  d_prod : forall k p i, producers (buffer s) !! k = Some p -> p_i s !! k = Some i ->
    (i <= Driver.ITEMS_PER_PRODUCER)%nat /\
    (p_pc p <> PIdle ->
       (i < Driver.ITEMS_PER_PRODUCER)%nat /\
       p_item p = Driver.item_of (Driver.thread_id k) i) /\
    Driver.produced_by k (log (buffer s)) =
      Driver.item_of (Driver.thread_id k) <$> seq 0 (i + if p_logged (p_pc p) then 1 else 0);
  d_cons : forall j c i, consumers (buffer s) !! j = Some c -> c_i s !! j = Some i ->
    (i <= Driver.ITEMS_PER_CONSUMER)%nat /\
    (c_pc c <> CIdle -> (i < Driver.ITEMS_PER_CONSUMER)%nat) /\
    length (consumed_by j (log (buffer s))) = (i + if c_logged (c_pc c) then 1 else 0)%nat;
  d_ids : Forall (fun e => ev_role e = Producer -> (ev_id e < Driver.NUM_PRODUCERS)%nat)
                 (log (buffer s));
  d_nodup : NoDup (values_of Producer (log (buffer s)))
}.

Lemma fb_consumed_by_other j l e :
  (ev_role e = Consumer -> ev_id e <> j) -> consumed_by j (l ++ [e]) = consumed_by j l.
Proof.
  intros H. rewrite fb_consumed_by_snoc, decide_False, app_nil_r; [done|]. intros [? ?]. by apply H.
Qed.

Lemma bounded_driver_ok s : reachable s -> DriverOK s.
Proof.
  induction 1 as [|s a s' Hr IH Hstep].
  - split; cbn [init buffer p_i c_i producers consumers log FiniteBuffer.init init_sized].
    + apply FiniteBuffer.reach_init.
    + apply length_replicate.
    + apply length_replicate.
    + intros k p i Hp Hi. apply lookup_replicate in Hp as [-> _].
      apply lookup_replicate in Hi as [-> _]. simpl. unfold Driver.ITEMS_PER_PRODUCER.
      split; [lia|done].
    + intros j c i Hc Hi. apply lookup_replicate in Hc as [-> _].
      apply lookup_replicate in Hi as [-> _]. simpl. unfold Driver.ITEMS_PER_CONSUMER.
      split; [lia|done].
    + constructor.
    + constructor.
  - destruct IH as [Hb Hpl Hcl HP HC Hids Hnd].
    destruct a as [d|k|j]; unfold step in Hstep.
    + destruct (FiniteBuffer.step (Tick d) (buffer s)) as [b| |] eqn:Hbs; try done.
      inversion Hstep; subst; clear Hstep.
      assert (FiniteBuffer.reachable BUFFER_SIZE Driver.NUM_PRODUCERS Driver.NUM_CONSUMERS b)
        as Hb' by (eapply FiniteBuffer.reach_step; eauto).
      fb_step_cases Hbs. by split.
    + destruct (producers (buffer s) !! k) as [p|] eqn:Hp; [|done].
      destruct (p_i s !! k) as [i|] eqn:Hi; [|done].
      destruct (decide (p_pc p = PIdle /\ (Driver.ITEMS_PER_PRODUCER <= i)%nat)) as [|Hgo];
        [done|].
      destruct (FiniteBuffer.step _ (buffer s)) as [b| |] eqn:Hbs; try done.
      inversion Hstep; subst; clear Hstep.
      assert (FiniteBuffer.reachable BUFFER_SIZE Driver.NUM_PRODUCERS Driver.NUM_CONSUMERS b)
        as Hb' by (eapply FiniteBuffer.reach_step; eauto).
      destruct (HP _ _ _ Hp Hi) as (Hle & Hin & Hby).
      assert (k < Driver.NUM_PRODUCERS)%nat as Hk by (rewrite <- Hpl; by eapply lookup_lt_Some).
      unfold FiniteBuffer.step in Hbs. rewrite Hp in Hbs. unfold produce_step in Hbs.
      destruct (p_pc p) eqn:Hpc; simpl in Hbs; repeat case_match; simplify_eq; simpl in *.
      all: split; simpl; rewrite ?length_insert; try done.
      all: rewrite ?Hpc in Hin, Hby; simpl in Hby; rewrite ?Nat.add_0_r, ?Nat.add_1_r in Hby.
      all: try (assert ((i < Driver.ITEMS_PER_PRODUCER)%nat /\
                        p_item p = Driver.item_of (Driver.thread_id k) i)
                  as [Hlt Hitem] by (by apply Hin)).
      all: try (intros k0 p0 i0 Hl Hi0; destruct (decide (k0 = k)) as [->|Hne];
        [ rewrite list_lookup_insert_eq in Hl by (by eapply lookup_lt_Some);
          inversion Hl; subst; clear Hl;
          rewrite ?list_lookup_insert_eq in Hi0 by (by eapply lookup_lt_Some);
          rewrite ?Hi in Hi0; inversion Hi0; subst; clear Hi0; simpl;
          rewrite ?Nat.add_0_r, ?Nat.add_1_r;
          try (split; [lia|split; [intros _; split; [lia|done]|]]; try done)
        | rewrite list_lookup_insert_ne in Hl by done;
          rewrite ?list_lookup_insert_ne in Hi0 by done;
          destruct (HP _ _ _ Hl Hi0) as (? & ? & Hby0); split; [done|split; [done|]];
          first [done|rewrite Driver.produced_by_other; [done|simpl; intros _; congruence]] ]).
      all: try (intros j c i1 Hc Hi1; destruct (HC _ _ _ Hc Hi1) as (? & ? & ?);
        split; [done|]; split; [done|]; rewrite fb_consumed_by_other; done).
      all: try (apply Forall_app; split; [done|]; constructor; [|constructor]; done).
      * assert (~ (Driver.ITEMS_PER_PRODUCER <= i0)%nat) by (intros ?; by apply Hgo).
        split; [lia|]. split; [intros _; split; [lia|done]|done].
      * rewrite Driver.produced_by_snoc, decide_True by done.
        rewrite Hby, seq_S, fmap_app. simpl. by rewrite Hitem.
      * rewrite values_of_snoc. simpl. apply NoDup_app. split; [done|].
        split; [|apply NoDup_singleton].
        intros v Hv Hv'. apply list_elem_of_singleton in Hv'. subst v.
        destruct (Driver.produced_by_elem Driver.NUM_PRODUCERS _ _ Hv) as (k' & Hk' & Hlt').
        specialize (Hlt' Hids).
        destruct (lookup_lt_is_Some_2 (producers (buffer s)) k') as [p' Hp'].
        { assert (Z.of_nat Driver.NUM_PRODUCERS <= Int32.modulus) as Hn by done.
          destruct (fb_lock_ok _ _ _ _ Hn Hb) as [_ ->]. done. }
        destruct (lookup_lt_is_Some_2 (p_i s) k') as [i' Hi']; [by rewrite Hpl|].
        destruct (HP _ _ _ Hp' Hi') as (Hle' & _ & Hby').
        rewrite Hby', Hitem in Hk'. apply list_elem_of_fmap in Hk' as (x & Hx & Hin').
        apply elem_of_seq in Hin'.
        assert (i < 1000)%nat as B1 by (unfold Driver.ITEMS_PER_PRODUCER in *; lia).
        assert (x < 1000)%nat as B2
          by (destruct (p_logged (p_pc p')); unfold Driver.ITEMS_PER_PRODUCER in *; lia).
        destruct (Driver.item_of_inj _ _ _ _ B1 B2 Hx) as [<- <-].
        rewrite Hp in Hp'. inversion Hp'; subst p'. rewrite Hpc in Hin'. simpl in Hin'.
        rewrite Hi in Hi'. inversion Hi'; subst i'. lia.
      * split; [lia|]. split; [done|]. exact Hby.
    + destruct (consumers (buffer s) !! j) as [c|] eqn:Hc; [|done].
      destruct (c_i s !! j) as [i|] eqn:Hi; [|done].
      destruct (decide (c_pc c = CIdle /\ (Driver.ITEMS_PER_CONSUMER <= i)%nat)) as [|Hgo];
        [done|].
      destruct (FiniteBuffer.step _ (buffer s)) as [b| |] eqn:Hbs; try done.
      inversion Hstep; subst; clear Hstep.
      assert (FiniteBuffer.reachable BUFFER_SIZE Driver.NUM_PRODUCERS Driver.NUM_CONSUMERS b)
        as Hb' by (eapply FiniteBuffer.reach_step; eauto).
      destruct (HC _ _ _ Hc Hi) as (Hle & Hin & Hby).
      unfold FiniteBuffer.step in Hbs. rewrite Hc in Hbs. unfold consume_step in Hbs.
      destruct (c_pc c) eqn:Hpc; simpl in Hbs; repeat case_match; simplify_eq; simpl in *.
      all: split; simpl; rewrite ?length_insert; try done.
      all: rewrite ?Nat.add_0_r, ?Nat.add_1_r in Hby.
      all: try (assert (i < Driver.ITEMS_PER_CONSUMER)%nat as Hlt by (by apply Hin)).
      all: try (intros j0 c0 i0 Hl Hi0; destruct (decide (j0 = j)) as [->|Hne];
        [ rewrite list_lookup_insert_eq in Hl by (by eapply lookup_lt_Some);
          inversion Hl; subst; clear Hl;
          rewrite ?list_lookup_insert_eq in Hi0 by (by eapply lookup_lt_Some);
          rewrite ?Hi in Hi0; inversion Hi0; subst; clear Hi0; simpl;
          rewrite ?Nat.add_0_r, ?Nat.add_1_r;
          try (split; [lia|split; [intros _; lia|]]; try done)
        | rewrite list_lookup_insert_ne in Hl by done;
          rewrite ?list_lookup_insert_ne in Hi0 by done;
          destruct (HC _ _ _ Hl Hi0) as (? & ? & Hby0); split; [done|split; [done|]];
          first [done|rewrite fb_consumed_by_other; [done|simpl; intros _; congruence]] ]).
      all: try (intros k p i0 Hp Hi0; destruct (HP _ _ _ Hp Hi0) as (? & ? & ?);
        split; [done|]; split; [done|]; rewrite Driver.produced_by_other; done).
      all: try (apply Forall_app; split; [done|]; constructor; [|constructor]; done).
      all: try (rewrite values_of_snoc; simpl; by rewrite app_nil_r).
      * assert (~ (Driver.ITEMS_PER_CONSUMER <= length (consumed_by j (log (buffer s))))%nat)
          by (intros ?; by apply Hgo).
        split; [lia|]. split; [intros _; lia|done].
      * rewrite fb_consumed_by_snoc, decide_True by done. rewrite length_app. simpl. lia.
      * split; [lia|]. split; [done|]. lia.
Qed.

Lemma bounded_run_reachable acts s s' : reachable s -> run acts s = Next s' -> reachable s'.
Proof.
  revert s. induction acts as [|a acts IH]; intros s Hr Hrun; simpl in Hrun.
  - by inversion Hrun; subst.
  - destruct (step a s) as [s1| |] eqn:Hs; try done.
    eapply IH; [|exact Hrun]. by eapply reach_step.
Qed.

Lemma bounded_run_to_reachable acts s : reachable s -> reachable (run_to acts s).
Proof.
  intros Hr. unfold run_to. destruct (run acts s) as [s'| |] eqn:E; try done.
  by eapply bounded_run_reachable.
Qed.

(** The log when all the threads have ended. *)
Lemma bounded_finished_log s :
  reachable s -> finished s ->
  (forall k, (k < Driver.NUM_PRODUCERS)%nat ->
     Driver.produced_by k (log (buffer s)) =
     Driver.item_of (Driver.thread_id k) <$> seq 0 Driver.ITEMS_PER_PRODUCER) /\
  (forall j, (j < Driver.NUM_CONSUMERS)%nat ->
     length (consumed_by j (log (buffer s))) = Driver.ITEMS_PER_CONSUMER /\
     returned_to j (buffer s) = consumed_by j (log (buffer s))) /\
  values_of Producer (log (buffer s)) ≡ₚ Driver.all_items /\
  length (values_of Consumer (log (buffer s))) = 150%nat /\
  values_of Consumer (log (buffer s)) = values_of Producer (log (buffer s)).
Proof.
  intros Hr (Hq & HfP & HfC).
  destruct (bounded_driver_ok s Hr) as [Hb Hpl Hcl HP HC Hids Hnd].
  assert (Z.of_nat Driver.NUM_PRODUCERS <= Int32.modulus) as Hn by done.
  destruct (fb_lock_ok _ _ _ _ Hn Hb) as [_ Hlen].
  destruct (fb_return_ok _ _ _ _ Hb) as [Hclen Hth Hcids Hrids].
  pose proof Hq as [HqP HqC].
  assert (forall k, (k < Driver.NUM_PRODUCERS)%nat ->
     Driver.produced_by k (log (buffer s)) =
     Driver.item_of (Driver.thread_id k) <$> seq 0 Driver.ITEMS_PER_PRODUCER) as Hby.
  { intros k Hk.
    destruct (lookup_lt_is_Some_2 (producers (buffer s)) k) as [p Hp]; [by rewrite Hlen|].
    destruct (lookup_lt_is_Some_2 (p_i s) k) as [i Hi]; [by rewrite Hpl|].
    destruct (HP _ _ _ Hp Hi) as (_ & _ & E). rewrite E.
    rewrite Forall_lookup in HqP. rewrite Forall_lookup in HfP.
    rewrite (HqP _ _ Hp), (HfP _ _ Hi). cbn [p_logged]. by rewrite Nat.add_0_r. }
  assert (forall j, (j < Driver.NUM_CONSUMERS)%nat ->
     length (consumed_by j (log (buffer s))) = Driver.ITEMS_PER_CONSUMER /\
     returned_to j (buffer s) = consumed_by j (log (buffer s))) as Hcby.
  { intros j Hj.
    destruct (lookup_lt_is_Some_2 (consumers (buffer s)) j) as [c Hc]; [by rewrite Hclen|].
    destruct (lookup_lt_is_Some_2 (c_i s) j) as [i Hi]; [by rewrite Hcl|].
    destruct (HC _ _ _ Hc Hi) as (_ & _ & E).
    rewrite Forall_lookup in HqC. rewrite Forall_lookup in HfC.
    rewrite (HqC _ _ Hc), (HfC _ _ Hi) in E. cbn [c_logged] in E.
    split; [lia|]. rewrite (Hth _ _ Hc), (HqC _ _ Hc). simpl. by rewrite app_nil_r. }
  assert (values_of Producer (log (buffer s)) ≡ₚ Driver.all_items) as Hperm.
  { apply NoDup_Permutation; [done|apply Driver.all_items_nodup|]. intros v. split.
    - intros Hv.
      destruct (Driver.produced_by_elem Driver.NUM_PRODUCERS _ _ Hv) as (k & Hk & Hlt).
      specialize (Hlt Hids). rewrite (Hby k Hlt) in Hk.
      apply list_elem_of_fmap in Hk as (i & -> & Hi). apply elem_of_seq in Hi.
      apply Driver.all_items_elem. exists k, i. split; [done|]. split; [lia|done].
    - intros Hv. apply Driver.all_items_elem in Hv as (k & i & Hk & Hi & ->).
      apply (Driver.produced_by_sub k). rewrite (Hby k Hk).
      apply list_elem_of_fmap. exists i. split; [done|]. apply elem_of_seq. lia. }
  assert (length (values_of Producer (log (buffer s))) = 150%nat) as HlenP
    by (by rewrite Hperm).
  assert (length (values_of Consumer (log (buffer s))) = 150%nat) as HlenC.
  { unfold values_of. rewrite length_fmap.
    rewrite (Driver.length_filter_by_key _ ev_id Driver.NUM_CONSUMERS) by done.
    unfold Driver.NUM_CONSUMERS. simpl.
    pose proof (Hcby 0%nat ltac:(unfold Driver.NUM_CONSUMERS; lia)) as [E0 _].
    pose proof (Hcby 1%nat ltac:(unfold Driver.NUM_CONSUMERS; lia)) as [E1 _].
    pose proof (Hcby 2%nat ltac:(unfold Driver.NUM_CONSUMERS; lia)) as [E2 _].
    unfold consumed_by in E0, E1, E2. rewrite length_fmap in E0, E1, E2.
    rewrite E0, E1, E2. done. }
  split; [done|]. split; [done|]. split; [done|]. split; [done|].
  destruct (fb_returns_fifo _ _ _ _ Hn Hb) as (Hpre & _). unfold put in Hpre.
  rewrite (proj1 (fb_quiescent_views _ Hq)) in Hpre. simpl in Hpre.
  rewrite app_nil_r in Hpre. apply prefix_length_eq; [done|lia].
Qed.

(** The threads of [main] of [FiniteBuffer.cpp] in the middle of the run.
    No two items are equal; the items of each producer enter the buffer in
    the order of its loop; every value in the log is [id * 1000 + i] for a
    producer [id] and an [i] below [ITEMS_PER_PRODUCER], a number that an
    [int] holds; the values taken out are the first of the values put in;
    no more than [BUFFER_SIZE] items are in the buffer; and no consumer
    returns from more calls than its loop makes. *)
Theorem bounded_items_of_the_run s :
  reachable s ->
  NoDup (values_of Producer (log (buffer s))) /\
  (forall k, (k < Driver.NUM_PRODUCERS)%nat ->
     Driver.produced_by k (log (buffer s)) `prefix_of`
     Driver.item_of (Driver.thread_id k) <$> seq 0 Driver.ITEMS_PER_PRODUCER) /\
  (forall v, v ∈ values_of Producer (log (buffer s)) ->
     v ∈ Driver.all_items /\ Int32.in_range v) /\
  values_of Consumer (log (buffer s)) `prefix_of` put (buffer s) /\
  (stored (buffer s) <= BUFFER_SIZE)%nat /\
  (forall j, (j < Driver.NUM_CONSUMERS)%nat ->
     (length (returned_to j (buffer s)) <= Driver.ITEMS_PER_CONSUMER)%nat).
Proof.
  intros Hr. destruct (bounded_driver_ok s Hr) as [Hb Hpl Hcl HP HC Hids Hnd].
  assert (Z.of_nat Driver.NUM_PRODUCERS <= Int32.modulus) as Hn by done.
  destruct (fb_lock_ok _ _ _ _ Hn Hb) as [_ Hlen].
  assert (forall k, (k < Driver.NUM_PRODUCERS)%nat ->
     exists n, (n <= Driver.ITEMS_PER_PRODUCER)%nat /\
       Driver.produced_by k (log (buffer s)) =
       Driver.item_of (Driver.thread_id k) <$> seq 0 n) as Hby.
  { intros k Hk.
    destruct (lookup_lt_is_Some_2 (producers (buffer s)) k) as [p Hp]; [by rewrite Hlen|].
    destruct (lookup_lt_is_Some_2 (p_i s) k) as [i Hi]; [by rewrite Hpl|].
    destruct (HP _ _ _ Hp Hi) as (Hle & Hin & E). eexists. split; [|exact E].
    destruct (p_logged (p_pc p)) eqn:Hl; [|lia].
    assert (p_pc p <> PIdle) as Hne by (intros E'; rewrite E' in Hl; done).
    apply Hin in Hne. lia. }
  split; [done|]. split; [|split; [|split; [|split]]].
  - intros k Hk. destruct (Hby k Hk) as (n & Hle & ->).
    exists (Driver.item_of (Driver.thread_id k) <$> seq n (Driver.ITEMS_PER_PRODUCER - n)).
    rewrite <- fmap_app. f_equal.
    replace Driver.ITEMS_PER_PRODUCER with (n + (Driver.ITEMS_PER_PRODUCER - n))%nat at 1 by lia.
    apply seq_app.
  - intros v Hv.
    destruct (Driver.produced_by_elem Driver.NUM_PRODUCERS _ _ Hv) as (k & Hk & Hlt).
    specialize (Hlt Hids). destruct (Hby k Hlt) as (n & Hle & E). rewrite E in Hk.
    apply list_elem_of_fmap in Hk as (i & -> & Hi). apply elem_of_seq in Hi.
    split.
    + apply Driver.all_items_elem. exists k, i. split; [done|]. split; [lia|done].
    + unfold Int32.in_range, Int32.min_int, Int32.max_int, Driver.item_of, Driver.thread_id,
        Driver.NUM_PRODUCERS, Driver.ITEMS_PER_PRODUCER in *. lia.
  - destruct (fb_returns_fifo _ _ _ _ Hn Hb) as (H1 & _). done.
  - destruct (fb_fifo _ _ _ _ Hn Hb) as (_ & H2 & _). exact H2.
  - intros j Hj.
    destruct (fb_return_ok _ _ _ _ Hb) as [Hclen Hth _ _].
    destruct (lookup_lt_is_Some_2 (consumers (buffer s)) j) as [c Hc]; [by rewrite Hclen|].
    destruct (lookup_lt_is_Some_2 (c_i s) j) as [i Hi]; [by rewrite Hcl|].
    destruct (HC _ _ _ Hc Hi) as (Hle & Hin & E).
    rewrite (Hth _ _ Hc), length_app in E.
    destruct (c_logged (c_pc c)) eqn:Hl; simpl in E; lia.
Qed.

Lemma bounded_items_of_the_run_witness :
  stored (buffer (run_to ring_filled init)) = 10%nat /\
  (p_pc <$> producers (buffer (run_to ring_filled init))) !! 1%nat = Some PSleep /\
  NoDup (values_of Producer (log (buffer (run_to ring_filled init)))).
Proof.
  split; [reflexivity|]. split; [reflexivity|].
  refine (proj1 (bounded_items_of_the_run (run_to ring_filled init) _)).
  apply bounded_run_to_reachable, reach_init.
Defined.

(** When all the threads of [main] of [FiniteBuffer.cpp] have ended: the
    log holds one Producer event for each of the 150 items, the Consumer
    events carry the same values in the same order, each consumer has
    returned 50 of them, every node of the ring is unfilled, and [head] and
    [tail] are back at the first node (150 is a multiple of [BUFFER_SIZE]). *)
Theorem bounded_end_of_the_run s :
  reachable s -> finished s ->
  values_of Producer (log (buffer s)) ≡ₚ Driver.all_items /\
  values_of Consumer (log (buffer s)) = values_of Producer (log (buffer s)) /\
  length (values_of Producer (log (buffer s))) = 150%nat /\
  (forall j, (j < Driver.NUM_CONSUMERS)%nat ->
     length (returned_to j (buffer s)) = Driver.ITEMS_PER_CONSUMER /\
     returned_to j (buffer s) = consumed_by j (log (buffer s))) /\
  length (returned (buffer s)) = 150%nat /\
  head (buffer s) = 1%nat /\ tail (buffer s) = 1%nat /\
  (forall a n, heap (buffer s) !! a = Some n -> filled n = false).
Proof.
  intros Hr Hf.
  destruct (bounded_finished_log s Hr Hf) as (Hby & Hcby & Hperm & HlenC & Heq).
  destruct Hf as (Hq & HfP & HfC).
  destruct (bounded_driver_ok s Hr) as [Hb Hpl Hcl HP HC Hids Hnd].
  assert (Z.of_nat Driver.NUM_PRODUCERS <= Int32.modulus) as Hn by done.
  destruct (fb_return_ok _ _ _ _ Hb) as [Hclen Hth Hcids Hrids].
  assert (length (values_of Producer (log (buffer s))) = 150%nat) as HlenP
    by (by rewrite Hperm).
  split; [done|]. split; [done|]. split; [done|]. split; [|split].
  - intros j Hj. destruct (Hcby j Hj) as [E1 E2]. split; [|done]. by rewrite E2.
  - rewrite (Driver.length_by_key fst Driver.NUM_CONSUMERS (returned (buffer s))) by done.
    unfold Driver.NUM_CONSUMERS. simpl.
    pose proof (Hcby 0%nat ltac:(unfold Driver.NUM_CONSUMERS; lia)) as [F0 E0].
    pose proof (Hcby 1%nat ltac:(unfold Driver.NUM_CONSUMERS; lia)) as [F1 E1].
    pose proof (Hcby 2%nat ltac:(unfold Driver.NUM_CONSUMERS; lia)) as [F2 E2].
    apply (f_equal length) in E0, E1, E2. rewrite F0 in E0. rewrite F1 in E1. rewrite F2 in E2.
    unfold returned_to in E0, E1, E2. rewrite length_fmap in E0, E1, E2.
    rewrite E0, E1, E2. done.
  - pose proof (fb_ring_ok _ _ _ _ Hn Hb) as HR. unfold RingOK in HR.
    destruct (fb_quiescent_views _ Hq) as [Hpv Hcv]. rewrite Hpv, Hcv in HR.
    cbn [in_flight_fill in_flight_take] in HR. rewrite !app_nil_r in HR.
    destruct HR as [_ Hdom _ _ _ _ Hempty Hhd Htl _ _].
    rewrite HlenP in Hhd, Hempty. rewrite HlenC in Htl, Hempty.
    split; [rewrite Hhd; reflexivity|]. split; [rewrite Htl; reflexivity|].
    intros a n Ha.
    assert (1 <= a <= 10)%nat as Hrange by (apply Hdom; by eexists).
    destruct (Hempty (149 + a)%nat) as (n' & Hn' & Hfree); [unfold BUFFER_SIZE; simpl; lia|].
    assert (addr (Nat.max 1 BUFFER_SIZE) (149 + a) = a) as Haddr.
    { unfold addr, BUFFER_SIZE. simpl Nat.max.
      replace (149 + a)%nat with ((a - 1) + 15 * 10)%nat by lia.
      rewrite Nat.Div0.mod_add, Nat.mod_small; lia. }
    rewrite Haddr, Ha in Hn'. by inversion Hn'; subst.
Qed.

Lemma bounded_end_of_the_run_witness :
  p_i (run_to whole_run init) = [30; 30; 30; 30; 30]%nat /\
  c_i (run_to whole_run init) = [50; 50; 50]%nat /\
  length (returned (buffer (run_to whole_run init))) = 150%nat.
Proof.
  split; [reflexivity|]. split; [reflexivity|].
  refine (proj1 (proj2 (proj2 (proj2 (proj2
    (bounded_end_of_the_run (run_to whole_run init) _ _)))))).
  - apply bounded_run_to_reachable, reach_init.
  - split; [split|split]; vm_compute; repeat constructor.
Defined.

End BoundedDriver.

(** ** The lines of the log file and their reading ([logEvent], [parseLogs]) *)

Module LogText.

Import Stdlib.Strings.Ascii Stdlib.Strings.String.
Import stdpp.base stdpp.list.
Local Open Scope Z_scope.

(** A [std::string], as the list of its characters. *)
Definition text := list ascii.

Definition str (s : string) : text := list_ascii_of_string s.

(** The result of code that can throw. *)
Inductive result (A : Type) :=
| Ok (a : A)
| Throw.
Global Arguments Ok {A} a.
Global Arguments Throw {A}.

(** [s] begins with [pat]. *)
Fixpoint starts_with (pat s : text) : bool :=
  match pat, s with
  | [], _ => true
  | c :: pat', d :: s' => if decide (c = d) then starts_with pat' s' else false
  | _ :: _, [] => false
  end.

(** [s.find(pat)]: the first position at which [pat] occurs in [s];
    [None] is [string::npos]. *)
Fixpoint find (pat s : text) : option nat :=
  match s with
  | [] => if starts_with pat [] then Some 0%nat else None
  | _ :: s' => if starts_with pat s then Some 0%nat else S <$> find pat s'
  end.

(** [size_t] arithmetic: [a - b] wraps around. *)
Definition size_t_sub (a b : Z) : Z := (a - b) mod 2 ^ 64.

(** [s.substr(pos, len)], for [pos <= s.size()]: at most [len] characters
    from position [pos]. *)
Definition substr (pos : nat) (len : Z) (s : text) : text :=
  take (Z.to_nat (Z.min len (Z.of_nat (length s - pos)))) (drop pos s).

Definition is_digit (c : ascii) : bool :=
  (48 <=? nat_of_ascii c)%nat && (nat_of_ascii c <=? 57)%nat.

Definition digit_value (c : ascii) : Z := Z.of_nat (nat_of_ascii c) - 48.

Definition digit_char (d : Z) : ascii := ascii_of_nat (Z.to_nat (48 + d)).

(** [isspace] in the C locale. *)
Definition is_space (c : ascii) : bool :=
  let n := nat_of_ascii c in
  (n =? 32)%nat || ((9 <=? n)%nat && (n <=? 13)%nat).

Fixpoint skip_space (s : text) : text :=
  match s with
  | c :: s' => if is_space c then skip_space s' else s
  | [] => []
  end.

(** The digits at the beginning of [s], read in base ten onto [acc], and
    what follows them. *)
Fixpoint read_digits (s : text) (acc : Z) : Z * text :=
  match s with
  | c :: s' => if is_digit c then read_digits s' (acc * 10 + digit_value c) else (acc, s)
  | [] => (acc, [])
  end.

(** What [strtoll] and the conversions of [scanf] take for a decimal
    integer: white space, an optional sign, one digit or more.  The result
    is the number and the rest of the text; [None] when there is no digit. *)
Definition scan_integer (s : text) : option (Z * text) :=
  let s1 := skip_space s in
  let '(neg, s2) :=
    match s1 with
    | c :: s' =>
        if decide (c = "-"%char) then (true, s')
        else if decide (c = "+"%char) then (false, s') else (false, s1)
    | [] => (false, s1)
    end in
  match s2 with
  | c :: _ =>
      if is_digit c then
        let '(n, rest) := read_digits s2 0 in Some (if neg then - n else n, rest)
      else None
  | [] => None
  end.

Definition in_long_long (z : Z) : Prop := - 2 ^ 63 <= z <= 2 ^ 63 - 1.

(** [stoll(s)]: throws [invalid_argument] when [s] holds no number at its
    beginning, [out_of_range] when the number is no [long long]. *)
Definition stoll (s : text) : result Z :=
  match scan_integer s with
  | Some (z, _) => if decide (in_long_long z) then Ok z else Throw
  | None => Throw
  end.

(** The digits of [n], at most [fuel] of them. *)
Fixpoint digits (fuel : nat) (n : Z) : text :=
  match fuel with
  | O => []
  | S fuel' =>
      if n <? 10 then [digit_char n]
      else digits fuel' (n / 10) ++ [digit_char (n mod 10)]
  end.

(** [to_string(z)] for an integer of at most 64 bits: a minus sign when
    negative, and the digits, none for nothing. *)
Definition to_string (z : Z) : text :=
  if z <? 0 then "-"%char :: digits 20 (- z) else digits 20 z.

(** One piece of a format of [scanf]. *)
Inductive directive :=
| Lit (c : ascii)    (* a character to be found as it is *)
| White              (* white space: any amount of it, or none *)
| SkipInt            (* an integer read and not stored *)
| Int.               (* %d *)

(** The formats used here: [%d], [%*lld], white space, and characters. *)
Fixpoint directives (fmt : text) : list directive :=
  match fmt with
  | [] => []
  | "%"%char :: "*"%char :: "l"%char :: "l"%char :: "d"%char :: fmt' =>
      SkipInt :: directives fmt'
  | "%"%char :: "d"%char :: fmt' => Int :: directives fmt'
  | c :: fmt' => (if is_space c then White else Lit c) :: directives fmt'
  end.

(** [sscanf(s, fmt, ...)]: the values stored, in order; the reading stops
    at the first piece of the format that the input does not fit.  ([%d]
    of a number that is no [int] has no defined result: the reading stops
    there as well.) *)
Fixpoint sscanf (fmt : list directive) (s : text) : list Z :=
  match fmt with
  | [] => []
  | Lit c :: fmt' =>
      match s with
      | d :: s' => if decide (c = d) then sscanf fmt' s' else []
      | [] => []
      end
  | White :: fmt' => sscanf fmt' (skip_space s)
  | SkipInt :: fmt' =>
      match scan_integer s with
      | Some (_, rest) => sscanf fmt' rest
      | None => []
      end
  | Int :: fmt' =>
      match scan_integer s with
      | Some (z, rest) => if decide (Int32.in_range z) then z :: sscanf fmt' rest else []
      | None => []
      end
  end.

(** [struct LogEvent]; [None] in [le_id] or [le_value] is a field that
    [LogEvent e;] left without a value and nothing has written since. *)
Record LogEvent := mkLogEvent {
  le_timestamp : Z;
  le_type : text;
  le_id : option Z;
  le_value : option Z
}.

(** *** [InfiniteBuffer.cpp] *)

(** The line [produce] hands to [logEvent]; [waited] is
    [to_string(waited_ms)], the text of a [double]. *)
Definition produce_line (timestamp producer_id item : Z) (waited : text) : text :=
  str "[" ++ to_string timestamp ++ str "us] Producer " ++ to_string producer_id ++
  str " produced: " ++ to_string item ++ str " | Waited: " ++ waited ++ str "ms".

Definition consume_line (timestamp consumer_id item : Z) (waited : text) : text :=
  str "[" ++ to_string timestamp ++ str "us] Consumer " ++ to_string consumer_id ++
  str " consumed: " ++ to_string item ++ str " | Waited: " ++ waited ++ str "ms".

(** The body of the loop of [Visualizer::parseLogs]: [Ok None] is
    [continue], [Ok (Some e)] is [events.push_back(e)]. *)
Definition parse_line (line : text) : result (option LogEvent) :=
  match find (str "[") line, find (str "us]") line with
  | Some ts_start, Some ts_end =>
      let ts_str :=
        substr (ts_start + 1)
               (size_t_sub (size_t_sub (Z.of_nat ts_end) (Z.of_nat ts_start)) 1) line in
      match stoll ts_str with
      | Throw => Throw
      | Ok timestamp =>
          if find (str "$") line is Some _ then Ok None
          else if find (str "Producer") line is Some _ then
            let got := sscanf (directives (str "[%*lldus] Producer %d produced: %d")) line in
            Ok (Some (mkLogEvent timestamp (str "Producer") (got !! 0%nat) (got !! 1%nat)))
          else if find (str "Consumer") line is Some _ then
            let got := sscanf (directives (str "[%*lldus] Consumer %d consumed: %d")) line in
            Ok (Some (mkLogEvent timestamp (str "Consumer") (got !! 0%nat) (got !! 1%nat)))
          else Ok (Some (mkLogEvent timestamp [] None None))
      end
  | _, _ => Ok None
  end.

(** [Visualizer::parseLogs] on the lines of the file. *)
Fixpoint parseLogs (lines : list text) (events : list LogEvent) : result (list LogEvent) :=
  match lines with
  | [] => Ok events
  | line :: lines' =>
      match parse_line line with
      | Throw => Throw
      | Ok None => parseLogs lines' events
      | Ok (Some e) => parseLogs lines' (events ++ [e])
      end
  end.

(** The circles of [Visualizer::run]: the fill colour and the text. *)
Inductive colour := Blue | Red.

Definition node : Type := colour * text.

(** The loop over [nodes] for a Consumer event: the first node whose text
    is [t] turns red and loses its text. *)
Fixpoint mark (t : text) (nodes : list node) : list node :=
  match nodes with
  | [] => []
  | (c, x) :: nodes' =>
      if decide (x = t) then (Red, []) :: nodes' else (c, x) :: mark t nodes'
  end.

(** What [run] does with one event; [None] when it reads a [value] that
    was never written.  A Producer event reads its value for the text of
    the new circle.  A Consumer event reads it in the loop over [nodes],
    where it is compared with the text of a circle: not at all when there
    is no circle. *)
Definition replay_event (nodes : list node) (e : LogEvent) : option (list node) :=
  if decide (le_type e = str "Producer") then
    match le_value e with
    | Some v => Some (nodes ++ [(Blue, to_string v)])
    | None => None
    end
  else if decide (le_type e = str "Consumer") then
    match nodes with
    | [] => Some []
    | _ :: _ =>
        match le_value e with
        | Some v => Some (mark (to_string v) nodes)
        | None => None
        end
    end
  else Some nodes.

Fixpoint replay (events : list LogEvent) (nodes : list node) : option (list node) :=
  match events with
  | [] => Some nodes
  | e :: events' =>
      match replay_event nodes e with
      | Some nodes' => replay events' nodes'
      | None => None
      end
  end.

(** *** [FiniteBuffer.cpp] *)

Definition fb_produce_line (timestamp producer_id item : Z) (waited : text) : text :=
  str "[" ++ to_string timestamp ++ str "us] Producer " ++ to_string producer_id ++
  str " waited for " ++ waited ++ str "ms and produced: " ++ to_string item.

Definition fb_consume_line (timestamp consumer_id item : Z) (waited : text) : text :=
  str "[" ++ to_string timestamp ++ str "us] Consumer " ++ to_string consumer_id ++
  str " waited for " ++ waited ++ str "ms and consumed: " ++ to_string item.

Definition fb_parse_line (line : text) : result (option LogEvent) :=
  match find (str "[") line, find (str "us]") line with
  | Some ts_start, Some ts_end =>
      let ts_str :=
        substr (ts_start + 1)
               (size_t_sub (size_t_sub (Z.of_nat ts_end) (Z.of_nat ts_start)) 1) line in
      match stoll ts_str with
      | Throw => Throw
      | Ok timestamp =>
          if find (str "Producer") line is Some _ then
            let got := sscanf (directives (str "[%*lldus] Producer %d produced: %d")) line in
            Ok (Some (mkLogEvent timestamp (str "Producer") (got !! 0%nat) (got !! 1%nat)))
          else if find (str "Consumer") line is Some _ then
            let got := sscanf (directives (str "[%*lldus] Consumer %d consumed: %d")) line in
            Ok (Some (mkLogEvent timestamp (str "Consumer") (got !! 0%nat) (got !! 1%nat)))
          else Ok (Some (mkLogEvent timestamp [] None None))
      end
  | _, _ => Ok None
  end.

Fixpoint fb_parseLogs (lines : list text) (events : list LogEvent) : result (list LogEvent) :=
  match lines with
  | [] => Ok events
  | line :: lines' =>
      match fb_parse_line line with
      | Throw => Throw
      | Ok None => fb_parseLogs lines' events
      | Ok (Some e) => fb_parseLogs lines' (events ++ [e])
      end
  end.

(** The characters of [to_string] of a [double]: those of a number written
    with [%f], or of [inf] and [nan]. *)
Definition double_char (c : ascii) : bool :=
  is_digit c || bool_decide (c ∈ str ".-infa").

(** *** From the log of the model to the file and back *)

Definition who (r : role) : text :=
  match r with Producer => str "Producer" | Consumer => str "Consumer" end.

(** The line that [produce] or [consume] of [InfiniteBuffer.cpp] writes
    for an event of the log; [waited] is the text of its [waited_ms]. *)
Definition line_of (e : Event) (waited : text) : text :=
  match ev_role e with
  | Producer => produce_line (ev_timestamp e) (Z.of_nat (ev_id e)) (ev_value e) waited
  | Consumer => consume_line (ev_timestamp e) (Z.of_nat (ev_id e)) (ev_value e) waited
  end.

(** The same for [FiniteBuffer.cpp]. *)
Definition fb_line_of (e : Event) (waited : text) : text :=
  match ev_role e with
  | Producer => fb_produce_line (ev_timestamp e) (Z.of_nat (ev_id e)) (ev_value e) waited
  | Consumer => fb_consume_line (ev_timestamp e) (Z.of_nat (ev_id e)) (ev_value e) waited
  end.

(** An event whose numbers fit the types the code gives them. *)
Definition fits (e : Event) : Prop :=
  in_long_long (ev_timestamp e) /\ Int32.in_range (Z.of_nat (ev_id e)) /\
  Int32.in_range (ev_value e).

(** The event with all its fields read. *)
Definition read_of (e : Event) : LogEvent :=
  mkLogEvent (ev_timestamp e) (who (ev_role e)) (Some (Z.of_nat (ev_id e))) (Some (ev_value e)).

(** The event as [FiniteBuffer.cpp] reads it. *)
Definition fb_read_of (e : Event) : LogEvent :=
  mkLogEvent (ev_timestamp e) (who (ev_role e)) (Some (Z.of_nat (ev_id e))) None.

(** One circle for each Producer event, in the order of the log: red and
    without text when a Consumer event of the same value follows, blue with
    the value otherwise. *)
Fixpoint view (l : list Event) : list node :=
  match l with
  | [] => []
  | e :: l' =>
      match ev_role e with
      | Producer =>
          (if decide (ev_value e ∈ values_of Consumer l') then (Red, [])
           else (Blue, to_string (ev_value e))) :: view l'
      | Consumer => view l'
      end
  end.

(** The characters of [to_string] of an integer. *)
Definition num_char (c : ascii) : bool := is_digit c || bool_decide (c = "-"%char).

(** [rest] does not go on with a digit. *)
Definition no_digit_ahead (rest : text) : Prop :=
  match rest with c :: _ => is_digit c = false | [] => True end.

(** *** The analysis of the log in [main] *)

(** [s.substr(pos)]: throws [out_of_range] when [pos > s.size()]. *)
Definition substr_from (pos : nat) (s : text) : result text :=
  if decide (pos <= length s)%nat then Ok (drop pos s) else Throw.

(** [stoi(s)]: as [stoll], for an [int]. *)
Definition stoi (s : text) : result Z :=
  match scan_integer s with
  | Some (z, _) => if decide (Int32.in_range z) then Ok z else Throw
  | None => Throw
  end.

(** [struct LogEntry].  [wait_time_ms] is a [double]: [None] is the [0.0]
    that [wait_ms] starts with, [Some t] the number that
    [stringstream ss(t); ss >> wait_ms;] reads from [t]. *)
Record LogEntry := mkLogEntry {
  timestamp : Z;
  is_produce : bool;
  wait_time_ms : option text
}.

(** The variables of [main] of [InfiniteBuffer.cpp] that hold whole
    numbers, and [entries].  (The sums and the maxima of the waits are
    floating-point numbers computed from the [wait_time_ms] of the
    entries.) *)
Record analysis := mkAnalysis {
  entries : list LogEntry;
  total_produced : Z;
  total_consumed : Z;
  producer_wait_count : gmap Z Z
}.

(** How a piece of [main] ends: with a value, with an exception that
    nothing catches, or in an overflow of an [int]. *)
Inductive ran (A : Type) :=
| Done (a : A)
| Thrown
| Overflow.
Global Arguments Done {A} a.
Global Arguments Thrown {A}.
Global Arguments Overflow {A}.

Definition ran_bind {A B} (x : ran A) (f : A -> ran B) : ran B :=
  match x with
  | Done a => f a
  | Thrown => Thrown
  | Overflow => Overflow
  end.

Notation "x ←← e1 ; e2" := (ran_bind e1 (fun x => e2))
  (at level 100, e1 at next level, right associativity).

Definition thrown {A} (x : result A) : ran A :=
  match x with Ok a => Done a | Throw => Thrown end.

(** [n++] on an [int]. *)
Definition incr (n : Z) : ran Z :=
  if decide (n < Int32.max_int) then Done (n + 1) else Overflow.

(** The body of the loop [while (getline(log, line))] of [main] of
    [InfiniteBuffer.cpp]. *)
Definition analyse_line (line : text) (r : analysis) : ran analysis :=
  match find (str "[") line, find (str "us]") line with
  | Some ts_start, Some ts_end =>
      timestamp ←← thrown (stoll
        (substr (ts_start + 1)
           (size_t_sub (size_t_sub (Z.of_nat ts_end) (Z.of_nat ts_start)) 1) line));
      let is_produce := bool_decide (is_Some (find (str "produced") line)) in
      wait_ms ←← match find (str "Waited:") line with
                 | Some wait_pos => t ←← thrown (substr_from (wait_pos + 8) line); Done (Some t)
                 | None => Done None
                 end;
      let entries' := entries r ++ [mkLogEntry timestamp is_produce wait_ms] in
      if is_produce then
        produced ←← incr (total_produced r);
        match find (str "Producer ") line with
        | Some pid_pos =>
            t ←← thrown (substr_from (pid_pos + 9) line);
            pid ←← thrown (stoi t);
            count ←← incr (default 0 (producer_wait_count r !! pid));
            Done (mkAnalysis entries' produced (total_consumed r)
                    (<[pid := count]> (producer_wait_count r)))
        | None =>
            Done (mkAnalysis entries' produced (total_consumed r) (producer_wait_count r))
        end
      else
        consumed ←← incr (total_consumed r);
        Done (mkAnalysis entries' (total_produced r) consumed (producer_wait_count r))
  | _, _ => Done r
  end.

Fixpoint analyse (lines : list text) (r : analysis) : ran analysis :=
  match lines with
  | [] => Done r
  | line :: lines' => r' ←← analyse_line line r; analyse lines' r'
  end.

(** The variables as [main] declares them. *)
Definition analysis_start : analysis := mkAnalysis [] 0 0 ∅.

(** What [sort] with the comparison [a.timestamp < b.timestamp] can leave
    in [entries]: the same entries, none before one of a smaller timestamp. *)
Definition sorted_by_timestamp (es es' : list LogEntry) : Prop :=
  es' ≡ₚ es /\ StronglySorted (fun a b => timestamp a <= timestamp b) es'.

(** [a + b] on [int]s. *)
Definition add_int (a b : Z) : ran Z :=
  if decide (Int32.in_range (a + b)) then Done (a + b) else Overflow.

(** The loop that computes [peak_buffer] ([InfiniteBuffer.cpp]). *)
Fixpoint peak_loop (es : list LogEntry) (buffer_count peak_buffer : Z) : ran Z :=
  match es with
  | [] => Done peak_buffer
  | e :: es' =>
      buffer_count' ←← add_int buffer_count (if is_produce e then 1 else -1);
      peak_loop es' buffer_count'
        (if decide (buffer_count' > peak_buffer) then buffer_count' else peak_buffer)
  end.

(** The entry of an event, with the text of its wait. *)
Definition entry_of (e : Event) (w : text) : LogEntry :=
  mkLogEntry (ev_timestamp e) (bool_decide (ev_role e = Producer)) (Some (w ++ str "ms")).

(** The Producer events of the thread whose id is [pid]. *)
Definition events_of_producer (pid : Z) (l : list Event) : list Event :=
  filter (fun e => ev_role e = Producer /\ Z.of_nat (ev_id e) = pid) l.

(** [producer_wait_count] after the events [l]. *)
Definition count_of (l : list Event) (pid : Z) : option Z :=
  match events_of_producer pid l with
  | [] => None
  | es => Some (Z.of_nat (length es))
  end.

(** What the body of the loop does with a line of each kind. *)
Definition count_produced (id : Z) (entry : LogEntry) (r : analysis) : ran analysis :=
  produced ←← incr (total_produced r);
  count ←← incr (default 0 (producer_wait_count r !! id));
  Done (mkAnalysis (entries r ++ [entry]) produced (total_consumed r)
          (<[id := count]> (producer_wait_count r))).

Definition count_consumed (entry : LogEntry) (r : analysis) : ran analysis :=
  consumed ←← incr (total_consumed r);
  Done (mkAnalysis (entries r ++ [entry]) (total_produced r) consumed
          (producer_wait_count r)).

(** No counter of the analysis is above [b]. *)
Definition counters_below (b : Z) (r : analysis) : Prop :=
  total_produced r <= b /\ total_consumed r <= b /\
  forall pid c, producer_wait_count r !! pid = Some c -> c <= b.

(** *** Numbers written and read back *)

Lemma digit_char_spec n :
  0 <= n < 10 -> is_digit (digit_char n) = true /\ digit_value (digit_char n) = n.
Proof.
  intros Hn. rewrite <- (Z2Nat.id n) by lia.
  assert (Z.to_nat n < 10)%nat as Hk by lia.
  revert Hk. generalize (Z.to_nat n). intros k Hk.
  do 10 (destruct k as [|k]; [by vm_compute|]). lia.
Qed.

Lemma read_digits_app d rest acc :
  Forall (fun c => is_digit c = true) d ->
  read_digits (d ++ rest) acc =
  read_digits rest (fold_left (fun a c => a * 10 + digit_value c) d acc).
Proof.
  intros H. revert acc. induction H as [|c d Hc Hd IH]; intros acc; simpl; [done|].
  by rewrite Hc, IH.
Qed.

Lemma read_digits_stop rest acc : no_digit_ahead rest -> read_digits rest acc = (acc, rest).
Proof. destruct rest as [|c rest]; simpl; [done|]. by intros ->. Qed.

Lemma digits_spec fuel : forall n acc,
  0 <= n < 10 ^ Z.of_nat (S fuel) ->
  Forall (fun c => is_digit c = true) (digits (S fuel) n) /\
  digits (S fuel) n <> [] /\
  fold_left (fun a c => a * 10 + digit_value c) (digits (S fuel) n) acc =
    acc * 10 ^ Z.of_nat (length (digits (S fuel) n)) + n.
Proof.
  assert (forall n acc, 0 <= n < 10 ->
    Forall (fun c => is_digit c = true) [digit_char n] /\
    [digit_char n] <> [] /\
    fold_left (fun a c => a * 10 + digit_value c) [digit_char n] acc =
      acc * 10 ^ Z.of_nat (length [digit_char n]) + n) as Hone.
  { intros n acc Hn. destruct (digit_char_spec n Hn) as [Hd Hv].
    split; [by repeat constructor|]. split; [done|]. simpl. rewrite Hv. lia. }
  induction fuel as [|fuel IH]; intros n acc Hn.
  - change (digits 1 n) with (if n <? 10 then [digit_char n] else [] ++ [digit_char (n mod 10)]).
    destruct (Z.ltb_spec n 10) as [Hlt|Hge]; [|simpl in Hn; lia]. apply Hone. lia.
  - change (digits (S (S fuel)) n)
      with (if n <? 10 then [digit_char n]
            else digits (S fuel) (n / 10) ++ [digit_char (n mod 10)]).
    destruct (Z.ltb_spec n 10) as [Hlt|Hge]; [apply Hone; lia|].
    assert (0 <= n / 10 < 10 ^ Z.of_nat (S fuel)) as Hq.
    { rewrite (Nat2Z.inj_succ (S fuel)), Z.pow_succ_r in Hn by lia.
      split; [apply Z.div_pos; lia|]. apply Z.div_lt_upper_bound; lia. }
    destruct (IH (n / 10) acc Hq) as (Hall & Hne & Hval).
    destruct (digit_char_spec (n mod 10)) as [Hd Hv]; [apply Z.mod_pos_bound; lia|].
    split; [apply Forall_app; split; [done|by repeat constructor]|].
    split; [by destruct (digits (S fuel) (n / 10))|].
    rewrite fold_left_app, Hval. simpl fold_left. rewrite Hv, length_app. simpl length.
    rewrite Nat2Z.inj_add, Z.pow_add_r by lia.
    pose proof (Z.div_mod n 10 ltac:(lia)). lia.
Qed.

Lemma is_digit_not_space c : is_digit c = true -> is_space c = false.
Proof.
  unfold is_digit, is_space. intros H. apply andb_prop in H as [H1 H2].
  apply Nat.leb_le in H1. apply orb_false_intro.
  - apply Nat.eqb_neq. lia.
  - apply andb_false_intro2. apply Nat.leb_gt. lia.
Qed.

Lemma is_digit_not_sign c : is_digit c = true -> c <> "-"%char /\ c <> "+"%char.
Proof. split; intros ->; done. Qed.

Lemma to_string_chars z :
  - 10 ^ 20 < z < 10 ^ 20 ->
  Forall (fun c => num_char c = true) (to_string z) /\ to_string z <> [].
Proof.
  intros Hz. unfold to_string. destruct (Z.ltb_spec z 0).
  - destruct (digits_spec 19 (- z) 0) as (Hall & Hne & _); [lia|].
    split; [|done]. constructor; [done|].
    eapply Forall_impl; [exact Hall|]. intros c Hc. cbv beta in *. unfold num_char. by rewrite Hc.
  - destruct (digits_spec 19 z 0) as (Hall & Hne & _); [lia|].
    split; [|done].
    eapply Forall_impl; [exact Hall|]. intros c Hc. cbv beta in *. unfold num_char. by rewrite Hc.
Qed.

Lemma scan_integer_digits d rest :
  Forall (fun c => is_digit c = true) d -> d <> [] -> no_digit_ahead rest ->
  scan_integer (d ++ rest) =
  Some (fold_left (fun a c => a * 10 + digit_value c) d 0, rest).
Proof.
  intros Hall Hne Hrest. destruct d as [|c d]; [done|].
  pose proof Hall as Hall'. apply Forall_cons in Hall' as [Hc _].
  unfold scan_integer. cbn [app skip_space].
  rewrite (is_digit_not_space c Hc).
  destruct (is_digit_not_sign c Hc) as [N1 N2].
  rewrite (decide_False (P := c = "-"%char)), (decide_False (P := c = "+"%char)) by done.
  rewrite Hc.
  change (c :: d ++ rest) with ((c :: d) ++ rest).
  by rewrite read_digits_app, read_digits_stop.
Qed.

Lemma scan_integer_minus d rest :
  Forall (fun c => is_digit c = true) d -> d <> [] -> no_digit_ahead rest ->
  scan_integer ("-"%char :: d ++ rest) =
  Some (- fold_left (fun a c => a * 10 + digit_value c) d 0, rest).
Proof.
  intros Hall Hne Hrest. destruct d as [|c d]; [done|].
  pose proof Hall as Hall'. apply Forall_cons in Hall' as [Hc _].
  unfold scan_integer. cbn [app skip_space].
  change (is_space "-") with false. cbv iota.
  rewrite (decide_True (P := "-"%char = "-"%char)) by done.
  rewrite Hc.
  change (c :: d ++ rest) with ((c :: d) ++ rest).
  by rewrite read_digits_app, read_digits_stop.
Qed.

(** A number written by [to_string] is read back as it was, whatever
    follows it that is not a digit. *)
Lemma scan_integer_to_string z rest :
  - 10 ^ 20 < z < 10 ^ 20 -> no_digit_ahead rest ->
  scan_integer (to_string z ++ rest) = Some (z, rest).
Proof.
  intros Hz Hrest. unfold to_string. destruct (Z.ltb_spec z 0).
  - destruct (digits_spec 19 (- z) 0) as (Hall & Hne & Hval); [lia|].
    change (("-"%char :: digits 20 (- z)) ++ rest) with ("-"%char :: digits 20 (- z) ++ rest).
    rewrite scan_integer_minus, Hval by done. do 2 f_equal. lia.
  - destruct (digits_spec 19 z 0) as (Hall & Hne & Hval); [lia|].
    rewrite scan_integer_digits, Hval by done. do 2 f_equal.
Qed.

Lemma stoll_to_string z : in_long_long z -> stoll (to_string z) = Ok z.
Proof.
  intros Hz. unfold stoll.
  rewrite <- (app_nil_r (to_string z)), scan_integer_to_string; [|unfold in_long_long in Hz; lia|done].
  by rewrite decide_True.
Qed.

(** *** Finding a piece of text *)

Lemma starts_with_app pat s : starts_with pat (pat ++ s) = true.
Proof. induction pat as [|c pat IH]; simpl; [done|]. by rewrite decide_True. Qed.

Lemma find_here pat s : starts_with pat s = true -> find pat s = Some 0%nat.
Proof. destruct s; simpl; by intros ->. Qed.

Lemma find_skip c0 p a s :
  Forall (fun c => c <> c0) a ->
  find (c0 :: p) (a ++ s) = (fun n => (length a + n)%nat) <$> find (c0 :: p) s.
Proof.
  induction 1 as [|c a Hc Ha IH]; simpl.
  - by destruct (find (c0 :: p) s).
  - rewrite decide_False by done. rewrite IH. by destruct (find (c0 :: p) s).
Qed.

Lemma find_none c0 p s : Forall (fun c => c <> c0) s -> find (c0 :: p) s = None.
Proof.
  intros H. rewrite <- (app_nil_r s), find_skip by done. done.
Qed.

Lemma find_some pat a b : is_Some (find pat (a ++ pat ++ b)).
Proof.
  induction a as [|c a IH]; simpl.
  - rewrite find_here by apply starts_with_app. by eexists.
  - destruct (starts_with pat (c :: a ++ pat ++ b)); [by eexists|].
    destruct IH as [n ->]. by eexists.
Qed.

Lemma substr_middle a d r :
  substr (length a) (Z.of_nat (length d)) (a ++ d ++ r) = d.
Proof.
  unfold substr. rewrite drop_app_length, !length_app.
  rewrite Z.min_l by lia. rewrite Nat2Z.id. by rewrite take_app_length.
Qed.

Lemma length_digits fuel : forall n, (length (digits fuel n) <= fuel)%nat.
Proof.
  induction fuel as [|fuel IH]; intros n; simpl; [done|].
  destruct (n <? 10); simpl; [lia|].
  rewrite length_app. simpl. pose proof (IH (n / 10)). lia.
Qed.

Lemma length_to_string z : (length (to_string z) <= 21)%nat.
Proof.
  unfold to_string. destruct (z <? 0); cbn [length].
  - pose proof (length_digits 20 (- z)). lia.
  - pose proof (length_digits 20 z). lia.
Qed.

Lemma long_long_written z : in_long_long z -> - 10 ^ 20 < z < 10 ^ 20.
Proof. unfold in_long_long. lia. Qed.

Lemma int_written z : Int32.in_range z -> - 10 ^ 20 < z < 10 ^ 20.
Proof. unfold Int32.in_range, Int32.min_int, Int32.max_int. lia. Qed.

Lemma to_string_inj x y :
  - 10 ^ 20 < x < 10 ^ 20 -> - 10 ^ 20 < y < 10 ^ 20 -> to_string x = to_string y -> x = y.
Proof.
  intros Hx Hy E.
  pose proof (scan_integer_to_string x [] Hx I) as H1.
  pose proof (scan_integer_to_string y [] Hy I) as H2.
  rewrite E in H1. congruence.
Qed.

Lemma num_char_other c c0 : num_char c = true -> num_char c0 = false -> c <> c0.
Proof. intros H1 H2 ->. congruence. Qed.

Lemma double_char_other c c0 : double_char c = true -> double_char c0 = false -> c <> c0.
Proof. intros H1 H2 ->. congruence. Qed.

Lemma to_string_without c0 z :
  - 10 ^ 20 < z < 10 ^ 20 -> num_char c0 = false -> Forall (fun c => c <> c0) (to_string z).
Proof.
  intros Hz Hc. eapply Forall_impl; [apply (to_string_chars z Hz)|].
  intros c H. by apply num_char_other.
Qed.

Lemma double_without c0 w :
  Forall (fun c => double_char c = true) w -> double_char c0 = false ->
  Forall (fun c => c <> c0) w.
Proof.
  intros Hw Hc. eapply Forall_impl; [exact Hw|].
  intros c H. by apply double_char_other.
Qed.

Lemma no_digit_ahead_app a rest : a <> [] -> no_digit_ahead a -> no_digit_ahead (a ++ rest).
Proof. by destruct a. Qed.

Lemma skip_space_to_string z rest :
  - 10 ^ 20 < z < 10 ^ 20 -> skip_space (to_string z ++ rest) = to_string z ++ rest.
Proof.
  intros Hz. destruct (to_string_chars z Hz) as [Hall Hne].
  destruct (to_string z) as [|c d]; [done|].
  apply Forall_cons in Hall as [Hc _]. simpl.
  assert (is_space c = false) as ->; [|done].
  unfold num_char in Hc. apply orb_prop in Hc as [Hc|Hc].
  - by apply is_digit_not_space.
  - apply bool_decide_eq_true in Hc as ->. done.
Qed.

Lemma find_some_app pat a s : is_Some (find pat s) -> is_Some (find pat (a ++ s)).
Proof.
  intros H. induction a as [|c a IH]; simpl; [done|].
  destruct (starts_with pat (c :: a ++ s)); [by eexists|].
  destruct IH as [n ->]. by eexists.
Qed.

(** *** The pieces of [sscanf] *)

Lemma sscanf_lit c fmt s : sscanf (Lit c :: fmt) (c :: s) = sscanf fmt s.
Proof. simpl. by rewrite decide_True. Qed.

Lemma sscanf_lit_other c d fmt s : c <> d -> sscanf (Lit c :: fmt) (d :: s) = [].
Proof. intros H. simpl. by rewrite decide_False. Qed.

Lemma sscanf_white fmt s : sscanf (White :: fmt) s = sscanf fmt (skip_space s).
Proof. done. Qed.

Lemma sscanf_skip_int z rest fmt :
  - 10 ^ 20 < z < 10 ^ 20 -> no_digit_ahead rest ->
  sscanf (SkipInt :: fmt) (to_string z ++ rest) = sscanf fmt rest.
Proof. intros Hz Hr. cbn [sscanf]. by rewrite scan_integer_to_string. Qed.

Lemma sscanf_int z rest fmt :
  Int32.in_range z -> no_digit_ahead rest ->
  sscanf (Int :: fmt) (to_string z ++ rest) = z :: sscanf fmt rest.
Proof.
  intros Hz Hr. cbn [sscanf].
  rewrite scan_integer_to_string by (by try apply int_written).
  by rewrite decide_True.
Qed.

(** *** The timestamp of a line *)

Lemma timestamp_found ts rest :
  in_long_long ts ->
  let line := str "[" ++ to_string ts ++ str "us]" ++ rest in
  find (str "[") line = Some 0%nat /\
  find (str "us]") line = Some (S (length (to_string ts))) /\
  substr (0 + 1)
    (size_t_sub (size_t_sub (Z.of_nat (S (length (to_string ts)))) (Z.of_nat 0)) 1) line =
  to_string ts.
Proof.
  intros Hts line. split; [done|]. split.
  - change line with ((str "[" ++ to_string ts) ++ str "us]" ++ rest).
    change (str "us]") with ("u"%char :: str "s]") at 1.
    rewrite find_skip.
    + rewrite find_here by done. simpl. f_equal. lia.
    + constructor; [done|]. apply to_string_without; [by apply long_long_written|done].
  - pose proof (length_to_string ts) as Hlen.
    unfold size_t_sub. rewrite Z.sub_0_r.
    rewrite (Z.mod_small (Z.of_nat (S _))) by lia.
    rewrite Z.mod_small by lia.
    replace (Z.of_nat (S (length (to_string ts))) - 1) with (Z.of_nat (length (to_string ts))) by lia.
    apply (substr_middle (str "[") (to_string ts) (str "us]" ++ rest)).
Qed.

Lemma skip_space_sp s : skip_space (" "%char :: s) = skip_space s.
Proof. done. Qed.

Lemma skip_space_cons c s : is_space c = false -> skip_space (c :: s) = c :: s.
Proof. simpl. by intros ->. Qed.

Lemma directives_producer :
  directives (str "[%*lldus] Producer %d produced: %d") =
  Lit "["%char :: SkipInt :: (Lit <$> str "us]") ++ White :: (Lit <$> str "Producer") ++
  White :: Int :: White :: (Lit <$> str "produced:") ++ White :: [Int].
Proof. reflexivity. Qed.

Lemma directives_consumer :
  directives (str "[%*lldus] Consumer %d consumed: %d") =
  Lit "["%char :: SkipInt :: (Lit <$> str "us]") ++ White :: (Lit <$> str "Consumer") ++
  White :: Int :: White :: (Lit <$> str "consumed:") ++ White :: [Int].
Proof. reflexivity. Qed.

Ltac text_cbn := cbn [str list_ascii_of_string app fmap list_fmap] in *.

Ltac scan_step :=
  first
    [ rewrite sscanf_lit
    | rewrite sscanf_white
    | rewrite skip_space_sp
    | rewrite skip_space_cons by done
    | rewrite skip_space_to_string by (by apply int_written)
    | rewrite sscanf_skip_int by (by try apply long_long_written)
    | rewrite sscanf_int by done
    | rewrite sscanf_lit_other by done ].

Ltac chars_step :=
  first
    [ apply Forall_nil_2
    | apply Forall_cons; split; [done|]
    | apply to_string_without; [first [by apply long_long_written|by apply int_written]|done]
    | apply Forall_app; split;
      [ first [ apply to_string_without; [first [by apply long_long_written|by apply int_written]|done]
              | apply double_without; [done|done] ] |] ].

Ltac line_start H :=
  let H1 := fresh in let H2 := fresh in let H3 := fresh in
  destruct H as (H1 & H2 & H3);
  rewrite ?directives_producer, ?directives_consumer; text_cbn;
  rewrite H1, H2, H3, stoll_to_string by done; clear H1 H2 H3.

Lemma produce_line_parsed ts id item w :
  in_long_long ts -> Int32.in_range id -> Int32.in_range item ->
  Forall (fun c => double_char c = true) w ->
  parse_line (produce_line ts id item w) =
  Ok (Some (mkLogEvent ts (str "Producer") (Some id) (Some item))).
Proof.
  intros Hts Hid Hitem Hw.
  pose proof (timestamp_found ts
    (str " Producer " ++ to_string id ++ str " produced: " ++ to_string item ++
     str " | Waited: " ++ w ++ str "ms") Hts) as H.
  assert (is_Some (find (str "Producer")
    (str "[" ++ to_string ts ++ str "us] " ++ str "Producer " ++ to_string id ++
     str " produced: " ++ to_string item ++ str " | Waited: " ++ w ++ str "ms"))) as [n Hn].
  { apply (find_some_app _ (str "[")), find_some_app, (find_some_app _ (str "us] ")).
    by eexists. }
  unfold parse_line, produce_line. line_start H.
  rewrite (find_none "$"%char) by (repeat chars_step).
  rewrite Hn. cbv beta iota. by repeat scan_step.
Qed.

Lemma consume_line_parsed ts id item w :
  in_long_long ts -> Int32.in_range id -> Int32.in_range item ->
  Forall (fun c => double_char c = true) w ->
  parse_line (consume_line ts id item w) =
  Ok (Some (mkLogEvent ts (str "Consumer") (Some id) (Some item))).
Proof.
  intros Hts Hid Hitem Hw.
  pose proof (timestamp_found ts
    (str " Consumer " ++ to_string id ++ str " consumed: " ++ to_string item ++
     str " | Waited: " ++ w ++ str "ms") Hts) as H.
  assert (is_Some (find (str "Consumer")
    (str "[" ++ to_string ts ++ str "us] " ++ str "Consumer " ++ to_string id ++
     str " consumed: " ++ to_string item ++ str " | Waited: " ++ w ++ str "ms"))) as [n Hn].
  { apply (find_some_app _ (str "[")), find_some_app, (find_some_app _ (str "us] ")).
    by eexists. }
  unfold parse_line, consume_line. line_start H.
  rewrite (find_none "$"%char) by (repeat chars_step).
  rewrite (find_none "P"%char) by (repeat chars_step).
  rewrite Hn. cbv beta iota. by repeat scan_step.
Qed.

Lemma fb_produce_line_parsed ts id item w :
  in_long_long ts -> Int32.in_range id -> Int32.in_range item ->
  Forall (fun c => double_char c = true) w ->
  fb_parse_line (fb_produce_line ts id item w) =
  Ok (Some (mkLogEvent ts (str "Producer") (Some id) None)).
Proof.
  intros Hts Hid Hitem Hw.
  pose proof (timestamp_found ts
    (str " Producer " ++ to_string id ++ str " waited for " ++ w ++
     str "ms and produced: " ++ to_string item) Hts) as H.
  assert (is_Some (find (str "Producer")
    (str "[" ++ to_string ts ++ str "us] " ++ str "Producer " ++ to_string id ++
     str " waited for " ++ w ++ str "ms and produced: " ++ to_string item))) as [n Hn].
  { apply (find_some_app _ (str "[")), find_some_app, (find_some_app _ (str "us] ")).
    by eexists. }
  unfold fb_parse_line, fb_produce_line. line_start H.
  rewrite Hn. cbv beta iota. by repeat scan_step.
Qed.

Lemma fb_consume_line_parsed ts id item w :
  in_long_long ts -> Int32.in_range id -> Int32.in_range item ->
  Forall (fun c => double_char c = true) w ->
  fb_parse_line (fb_consume_line ts id item w) =
  Ok (Some (mkLogEvent ts (str "Consumer") (Some id) None)).
Proof.
  intros Hts Hid Hitem Hw.
  pose proof (timestamp_found ts
    (str " Consumer " ++ to_string id ++ str " waited for " ++ w ++
     str "ms and consumed: " ++ to_string item) Hts) as H.
  assert (is_Some (find (str "Consumer")
    (str "[" ++ to_string ts ++ str "us] " ++ str "Consumer " ++ to_string id ++
     str " waited for " ++ w ++ str "ms and consumed: " ++ to_string item))) as [n Hn].
  { apply (find_some_app _ (str "[")), find_some_app, (find_some_app _ (str "us] ")).
    by eexists. }
  unfold fb_parse_line, fb_consume_line. line_start H.
  rewrite (find_none "P"%char) by (repeat chars_step).
  rewrite Hn. cbv beta iota. by repeat scan_step.
Qed.

(** *** The whole file *)

Lemma line_of_parsed e w :
  fits e -> Forall (fun c => double_char c = true) w ->
  parse_line (line_of e w) = Ok (Some (read_of e)).
Proof.
  intros (Hts & Hid & Hv) Hw. unfold line_of, read_of.
  destruct (ev_role e); [by apply produce_line_parsed|by apply consume_line_parsed].
Qed.

Lemma fb_line_of_parsed e w :
  fits e -> Forall (fun c => double_char c = true) w ->
  fb_parse_line (fb_line_of e w) = Ok (Some (fb_read_of e)).
Proof.
  intros (Hts & Hid & Hv) Hw. unfold fb_line_of, fb_read_of.
  destruct (ev_role e); [by apply fb_produce_line_parsed|by apply fb_consume_line_parsed].
Qed.

Lemma parseLogs_lines l : forall ws events,
  Forall fits l -> length ws = length l ->
  Forall (Forall (fun c => double_char c = true)) ws ->
  parseLogs (zip_with line_of l ws) events = Ok (events ++ (read_of <$> l)).
Proof.
  induction l as [|e l IH]; intros ws events Hl Hlen Hws.
  - simpl. by rewrite app_nil_r.
  - destruct ws as [|w ws]; [done|].
    apply Forall_cons in Hl as [He Hl]. apply Forall_cons in Hws as [Hw Hws].
    cbn [zip_with parseLogs]. rewrite line_of_parsed by done.
    rewrite IH by (by try (simpl in Hlen; lia)).
    by rewrite <- app_assoc.
Qed.

Lemma fb_parseLogs_lines l : forall ws events,
  Forall fits l -> length ws = length l ->
  Forall (Forall (fun c => double_char c = true)) ws ->
  fb_parseLogs (zip_with fb_line_of l ws) events = Ok (events ++ (fb_read_of <$> l)).
Proof.
  induction l as [|e l IH]; intros ws events Hl Hlen Hws.
  - simpl. by rewrite app_nil_r.
  - destruct ws as [|w ws]; [done|].
    apply Forall_cons in Hl as [He Hl]. apply Forall_cons in Hws as [Hw Hws].
    cbn [zip_with fb_parseLogs]. rewrite fb_line_of_parsed by done.
    rewrite IH by (by try (simpl in Hlen; lia)).
    by rewrite <- app_assoc.
Qed.

(** *** The circles *)

Lemma values_of_cons r e l :
  values_of r (e :: l) = (if decide (ev_role e = r) then [ev_value e] else []) ++ values_of r l.
Proof.
  unfold values_of. rewrite filter_cons. by destruct (decide (ev_role e = r)).
Qed.

Lemma replay_snoc events e nodes :
  replay (events ++ [e]) nodes =
  match replay events nodes with Some nodes' => replay_event nodes' e | None => None end.
Proof.
  revert nodes. induction events as [|e0 events IH]; intros nodes; simpl.
  - by destruct (replay_event nodes e).
  - destruct (replay_event nodes e0); [apply IH|done].
Qed.

Lemma view_snoc_producer l e :
  ev_role e = Producer -> view (l ++ [e]) = view l ++ [(Blue, to_string (ev_value e))].
Proof.
  intros He. induction l as [|e0 l IH]; simpl.
  - by rewrite He.
  - rewrite IH. rewrite values_of_snoc, He, (decide_False (P := Producer = Consumer)), app_nil_r by done.
    by destruct (ev_role e0).
Qed.

Lemma view_snoc_absent l e :
  ev_role e = Consumer -> ev_value e ∉ values_of Producer l -> view (l ++ [e]) = view l.
Proof.
  intros He. induction l as [|e0 l IH]; simpl; intros Hv.
  - by rewrite He.
  - rewrite values_of_cons in Hv. rewrite values_of_snoc, He, (decide_True (P := Consumer = Consumer)) by done.
    destruct (ev_role e0) eqn:E0.
    + rewrite (decide_True (P := Producer = Producer)) in Hv by done. rewrite IH by set_solver.
      destruct (decide (ev_value e0 ∈ values_of Consumer l)).
      * rewrite decide_True by set_solver. done.
      * rewrite decide_False by set_solver. done.
    + rewrite (decide_False (P := Consumer = Producer)) in Hv by done. apply IH. set_solver.
Qed.

Lemma view_snoc_consumer l e :
  ev_role e = Consumer -> Forall fits l -> fits e -> NoDup (values_of Producer l) ->
  view (l ++ [e]) = mark (to_string (ev_value e)) (view l).
Proof.
  intros He Hl (_ & _ & Hv). apply int_written in Hv.
  destruct (to_string_chars _ Hv) as [_ Hne].
  induction l as [|e0 l IH]; simpl; intros Hnd.
  - by rewrite He.
  - apply Forall_cons in Hl as [(_ & _ & Hv0) Hl]. apply int_written in Hv0.
    rewrite values_of_cons in Hnd. rewrite values_of_snoc, He, (decide_True (P := Consumer = Consumer)) by done.
    destruct (ev_role e0) eqn:E0.
    + rewrite (decide_True (P := Producer = Producer)) in Hnd by done. apply NoDup_cons in Hnd as [Hnot Hnd].
      destruct (decide (ev_value e0 ∈ values_of Consumer l)) as [Hin|Hin].
      * rewrite decide_True by set_solver. simpl.
        rewrite decide_False by done. by rewrite IH.
      * destruct (decide (ev_value e0 = ev_value e)) as [Heq|Hneq].
        -- rewrite decide_True by set_solver. simpl.
           rewrite Heq, decide_True by done.
           rewrite view_snoc_absent; [done|done|by rewrite <- Heq].
        -- rewrite decide_False by set_solver. simpl.
           rewrite decide_False by (intros Hs; by apply to_string_inj in Hs).
           by rewrite IH.
    + rewrite (decide_False (P := Consumer = Producer)) in Hnd by done. by apply IH.
Qed.

(** The lines that [produce] and [consume] of [InfiniteBuffer.cpp] write,
    read by [Visualizer::parseLogs], give back the events of the log, in
    order: every line is taken, none makes [stoll] throw, and each event
    has its timestamp, its type, the id of its thread and its value, as
    long as the numbers fit their types. *)
Theorem log_file_read_back (l : list Event) (ws : list text) :
  Forall fits l -> length ws = length l ->
  Forall (Forall (fun c => double_char c = true)) ws ->
  parseLogs (zip_with line_of l ws) [] = Ok (read_of <$> l).
Proof. intros Hl Hlen Hws. by rewrite parseLogs_lines. Qed.

Lemma log_file_read_back_witness :
  parseLogs
    [str "[12us] Producer 1 produced: 1000 | Waited: 0.000000ms";
     str "[15us] Consumer 2 consumed: 1000 | Waited: 0.003000ms"] [] =
  Ok [mkLogEvent 12 (str "Producer") (Some 1) (Some 1000);
      mkLogEvent 15 (str "Consumer") (Some 2) (Some 1000)].
Proof.
  refine (log_file_read_back
    [mkEvent 12 Producer 1 1000 0; mkEvent 15 Consumer 2 1000 3]
    [str "0.000000"; str "0.003000"] _ _ _).
  - repeat constructor; by vm_compute.
  - reflexivity.
  - repeat constructor; by vm_compute.
Defined.

(** The circles that the event loop of [Visualizer::run] has drawn after
    the events of a log whose produced values are all different: one for
    each Producer event, in the order of the log; red and without text when
    a Consumer event of the same value comes later in the log, blue with
    the value otherwise (so also when the Consumer event came first). *)
Theorem circles_of_the_log (l : list Event) :
  Forall fits l -> NoDup (values_of Producer l) ->
  replay (read_of <$> l) [] = Some (view l).
Proof.
  induction l as [|e l IH] using rev_ind; intros Hl Hnd; [done|].
  apply Forall_app in Hl as [Hl He]. apply Forall_cons in He as [He _].
  rewrite values_of_snoc in Hnd.
  rewrite fmap_app. change (read_of <$> [e]) with [read_of e]. rewrite replay_snoc.
  rewrite IH; [|done|by apply NoDup_app in Hnd as [? _]].
  unfold replay_event, read_of. cbn [le_type le_value].
  destruct (ev_role e) eqn:Er.
  - rewrite decide_True by done. by rewrite view_snoc_producer.
  - rewrite decide_False by done. rewrite decide_True by done.
    rewrite app_nil_r in Hnd. rewrite view_snoc_consumer by done.
    by destruct (view l).
Qed.

Lemma circles_of_the_log_witness :
  replay (read_of <$>
    [mkEvent 12 Producer 1 1000 0; mkEvent 13 Consumer 1 2000 0;
     mkEvent 14 Producer 2 2000 0; mkEvent 15 Consumer 2 1000 3]) [] =
  Some [(Red, []); (Blue, str "2000")].
Proof.
  refine (circles_of_the_log
    [mkEvent 12 Producer 1 1000 0; mkEvent 13 Consumer 1 2000 0;
     mkEvent 14 Producer 2 2000 0; mkEvent 15 Consumer 2 1000 3] _ _).
  - repeat constructor; by vm_compute.
  - apply (bool_decide_unpack _). by vm_compute.
Defined.

Lemma fb_replay_log (l : list Event) :
  replay (fb_read_of <$> l) [] =
  match values_of Producer l with [] => Some [] | _ :: _ => None end.
Proof.
  induction l as [|e l IH]; [done|].
  rewrite values_of_cons. cbn [fmap list_fmap replay] in *.
  unfold replay_event. cbn [fb_read_of le_type le_value].
  destruct (ev_role e).
  - by rewrite !decide_True by done.
  - rewrite decide_False by done. rewrite decide_True by done.
    rewrite IH. by rewrite (decide_False (P := Consumer = Producer)) by done.
Qed.

(** The lines that [produce] and [consume] of [FiniteBuffer.cpp] write do
    not fit the format its [parseLogs] reads them with: the id is read, the
    value never is.  Every event is left with a [value] that nothing has
    written.  The event loop of [run] reads it at the first Producer event
    of the log; the Consumer events before that one find no circle to
    compare a value with, so a log without Producer events is replayed to
    the end and leaves no circle. *)
Theorem bounded_log_values_unread (l : list Event) (ws : list text) :
  Forall fits l -> length ws = length l ->
  Forall (Forall (fun c => double_char c = true)) ws ->
  fb_parseLogs (zip_with fb_line_of l ws) [] = Ok (fb_read_of <$> l) /\
  Forall (fun e => le_value e = None) (fb_read_of <$> l) /\
  (values_of Producer l <> [] -> replay (fb_read_of <$> l) [] = None) /\
  (values_of Producer l = [] -> replay (fb_read_of <$> l) [] = Some []).
Proof.
  intros Hl Hlen Hws. split; [by rewrite fb_parseLogs_lines|]. split.
  - apply Forall_fmap, Forall_true. done.
  - rewrite fb_replay_log. by destruct (values_of Producer l).
Qed.

Lemma bounded_log_values_unread_witness :
  fb_parseLogs
    [str "[12us] Consumer 2 waited for 0.003000ms and consumed: 1000";
     str "[15us] Producer 1 waited for 0.000000ms and produced: 1000"] [] =
  Ok [mkLogEvent 12 (str "Consumer") (Some 2) None;
      mkLogEvent 15 (str "Producer") (Some 1) None] /\
  replay [mkLogEvent 12 (str "Consumer") (Some 2) None;
          mkLogEvent 15 (str "Producer") (Some 1) None] [] = None.
Proof.
  destruct (bounded_log_values_unread
    [mkEvent 12 Consumer 2 1000 3; mkEvent 15 Producer 1 1000 0]
    [str "0.003000"; str "0.000000"]) as (H1 & _ & H3 & _).
  - repeat constructor; by vm_compute.
  - reflexivity.
  - repeat constructor; by vm_compute.
  - split; [exact H1|]. apply H3. by vm_compute.
Defined.

(** *** The lines under the analysis of [main] *)

Lemma stoi_to_string z rest :
  Int32.in_range z -> no_digit_ahead rest -> stoi (to_string z ++ rest) = Ok z.
Proof.
  intros Hz Hr. unfold stoi.
  rewrite scan_integer_to_string by (by try apply int_written).
  by rewrite decide_True.
Qed.

(** A piece of text found at its first place in a line, and what follows
    it [k] characters on. *)
Lemma cut_found c0 p x a t line k :
  line = a ++ (c0 :: p) ++ x ++ t -> Forall (fun c => c <> c0) a ->
  k = length (c0 :: p ++ x) ->
  find (c0 :: p) line = Some (length a) /\ substr_from (length a + k) line = Ok t.
Proof.
  intros -> Ha ->. split.
  - rewrite find_skip by done.
    rewrite find_here by apply (starts_with_app (c0 :: p)). simpl. f_equal. lia.
  - unfold substr_from. rewrite decide_True.
    + f_equal. rewrite (app_assoc (c0 :: p)), app_assoc.
      apply drop_app_length'. rewrite length_app. done.
    + rewrite !length_app. simpl. rewrite length_app. lia.
Qed.

Ltac line_eq := rewrite <- ?app_assoc; reflexivity.

Ltac no_char := text_cbn; repeat chars_step.

Ltac found_in_line :=
  repeat first [ by eexists | apply find_some_app | apply (find_some_app _ (_ :: _)) ].

Lemma produce_line_facts ts id item w :
  in_long_long ts -> Int32.in_range id -> Int32.in_range item ->
  Forall (fun c => double_char c = true) w ->
  let line := produce_line ts id item w in
  find (str "[") line = Some 0%nat /\
  find (str "us]") line = Some (S (length (to_string ts))) /\
  substr (0 + 1)
    (size_t_sub (size_t_sub (Z.of_nat (S (length (to_string ts)))) (Z.of_nat 0)) 1) line =
    to_string ts /\
  find (str "$") line = None /\
  is_Some (find (str "produced") line) /\
  is_Some (find (str "Producer") line) /\
  (exists n, find (str "Waited:") line = Some n /\
     substr_from (n + 8) line = Ok (w ++ str "ms")) /\
  (exists n, find (str "Producer ") line = Some n /\
     substr_from (n + 9) line =
     Ok (to_string id ++ str " produced: " ++ to_string item ++
         str " | Waited: " ++ w ++ str "ms")).
Proof.
  intros Hts Hid Hitem Hw line.
  destruct (timestamp_found ts
    (str " Producer " ++ to_string id ++ str " produced: " ++ to_string item ++
     str " | Waited: " ++ w ++ str "ms") Hts) as (H1 & H2 & H3).
  split; [exact H1|]. split; [exact H2|]. split; [exact H3|].
  split; [apply (find_none "$"%char); unfold line, produce_line; no_char|].
  split.
  { change line with (str "[" ++ to_string ts ++ str "us] Producer " ++ to_string id ++
      str " " ++ str "produced: " ++ to_string item ++ str " | Waited: " ++ w ++ str "ms").
    found_in_line. }
  split.
  { change line with (str "[" ++ to_string ts ++ str "us] " ++ str "Producer " ++
      to_string id ++ str " produced: " ++ to_string item ++ str " | Waited: " ++ w ++ str "ms").
    found_in_line. }
  split.
  - eexists. apply (cut_found "W"%char (str "aited:") (str " ")
      (str "[" ++ to_string ts ++ str "us] Producer " ++ to_string id ++
       str " produced: " ++ to_string item ++ str " | ")); [line_eq|no_char|done].
  - eexists. apply (cut_found "P"%char (str "roducer ") []
      (str "[" ++ to_string ts ++ str "us] ")); [line_eq|no_char|done].
Qed.

Lemma consume_line_facts ts id item w :
  in_long_long ts -> Int32.in_range id -> Int32.in_range item ->
  Forall (fun c => double_char c = true) w ->
  let line := consume_line ts id item w in
  find (str "[") line = Some 0%nat /\
  find (str "us]") line = Some (S (length (to_string ts))) /\
  substr (0 + 1)
    (size_t_sub (size_t_sub (Z.of_nat (S (length (to_string ts)))) (Z.of_nat 0)) 1) line =
    to_string ts /\
  find (str "produced") line = None /\
  (exists n, find (str "Waited:") line = Some n /\
     substr_from (n + 8) line = Ok (w ++ str "ms")).
Proof.
  intros Hts Hid Hitem Hw line.
  destruct (timestamp_found ts
    (str " Consumer " ++ to_string id ++ str " consumed: " ++ to_string item ++
     str " | Waited: " ++ w ++ str "ms") Hts) as (H1 & H2 & H3).
  split; [exact H1|]. split; [exact H2|]. split; [exact H3|].
  split; [apply (find_none "p"%char); unfold line, consume_line; no_char|].
  eexists. apply (cut_found "W"%char (str "aited:") (str " ")
    (str "[" ++ to_string ts ++ str "us] Consumer " ++ to_string id ++
     str " consumed: " ++ to_string item ++ str " | ")); [line_eq|no_char|done].
Qed.

Lemma fb_produce_line_facts ts id item w :
  in_long_long ts -> Int32.in_range id -> Int32.in_range item ->
  Forall (fun c => double_char c = true) w ->
  let line := fb_produce_line ts id item w in
  find (str "[") line = Some 0%nat /\
  find (str "us]") line = Some (S (length (to_string ts))) /\
  substr (0 + 1)
    (size_t_sub (size_t_sub (Z.of_nat (S (length (to_string ts)))) (Z.of_nat 0)) 1) line =
    to_string ts /\
  is_Some (find (str "produced") line) /\
  find (str "Waited:") line = None /\
  (exists n, find (str "Producer ") line = Some n /\
     substr_from (n + 9) line =
     Ok (to_string id ++ str " waited for " ++ w ++ str "ms and produced: " ++
         to_string item)).
Proof.
  intros Hts Hid Hitem Hw line.
  destruct (timestamp_found ts
    (str " Producer " ++ to_string id ++ str " waited for " ++ w ++
     str "ms and produced: " ++ to_string item) Hts) as (H1 & H2 & H3).
  split; [exact H1|]. split; [exact H2|]. split; [exact H3|].
  split.
  { change line with (str "[" ++ to_string ts ++ str "us] Producer " ++ to_string id ++
      str " waited for " ++ w ++ str "ms and " ++ str "produced: " ++ to_string item).
    found_in_line. }
  split; [apply (find_none "W"%char); unfold line, fb_produce_line; no_char|].
  eexists. apply (cut_found "P"%char (str "roducer ") []
    (str "[" ++ to_string ts ++ str "us] ")); [line_eq|no_char|done].
Qed.

Lemma fb_consume_line_facts ts id item w :
  in_long_long ts -> Int32.in_range id -> Int32.in_range item ->
  Forall (fun c => double_char c = true) w ->
  let line := fb_consume_line ts id item w in
  find (str "[") line = Some 0%nat /\
  find (str "us]") line = Some (S (length (to_string ts))) /\
  substr (0 + 1)
    (size_t_sub (size_t_sub (Z.of_nat (S (length (to_string ts)))) (Z.of_nat 0)) 1) line =
    to_string ts /\
  find (str "produced") line = None /\
  find (str "Waited:") line = None.
Proof.
  intros Hts Hid Hitem Hw line.
  destruct (timestamp_found ts
    (str " Consumer " ++ to_string id ++ str " waited for " ++ w ++
     str "ms and consumed: " ++ to_string item) Hts) as (H1 & H2 & H3).
  split; [exact H1|]. split; [exact H2|]. split; [exact H3|].
  split; [apply (find_none "p"%char); unfold line, fb_consume_line; no_char|].
  apply (find_none "W"%char); unfold line, fb_consume_line; no_char.
Qed.

Lemma produce_line_analysed ts id item w r :
  in_long_long ts -> Int32.in_range id -> Int32.in_range item ->
  Forall (fun c => double_char c = true) w ->
  analyse_line (produce_line ts id item w) r =
  count_produced id (mkLogEntry ts true (Some (w ++ str "ms"))) r.
Proof.
  intros Hts Hid Hitem Hw.
  destruct (produce_line_facts ts id item w Hts Hid Hitem Hw)
    as (H1 & H2 & H3 & _ & [? H4] & _ & (nw & H5 & H6) & (np & H7 & H8)).
  unfold analyse_line, count_produced.
  rewrite H1, H2, H3, stoll_to_string, H4, H5, H6, H7, H8 by done.
  cbn [thrown ran_bind]. rewrite bool_decide_true by by eexists.
  rewrite stoi_to_string by done. done.
Qed.

Lemma consume_line_analysed ts id item w r :
  in_long_long ts -> Int32.in_range id -> Int32.in_range item ->
  Forall (fun c => double_char c = true) w ->
  analyse_line (consume_line ts id item w) r =
  count_consumed (mkLogEntry ts false (Some (w ++ str "ms"))) r.
Proof.
  intros Hts Hid Hitem Hw.
  destruct (consume_line_facts ts id item w Hts Hid Hitem Hw)
    as (H1 & H2 & H3 & H4 & (nw & H5 & H6)).
  unfold analyse_line, count_consumed.
  rewrite H1, H2, H3, stoll_to_string, H4, H5, H6 by done.
  cbn [thrown ran_bind]. rewrite bool_decide_false by by intros [? ?]. done.
Qed.

Lemma events_of_producer_cons pid e l :
  events_of_producer pid (e :: l) =
  (if decide (ev_role e = Producer /\ Z.of_nat (ev_id e) = pid) then [e] else []) ++
  events_of_producer pid l.
Proof.
  unfold events_of_producer. rewrite filter_cons.
  by destruct (decide (ev_role e = Producer /\ Z.of_nat (ev_id e) = pid)).
Qed.

Section analysis_of_a_log.

(** The line and the entry of an event. *)
Variable line : Event -> text -> text.
Variable entry : Event -> text -> LogEntry.

Hypothesis line_analysed : forall e w r,
  fits e -> Forall (fun c => double_char c = true) w ->
  analyse_line (line e w) r =
  match ev_role e with
  | Producer => count_produced (Z.of_nat (ev_id e)) (entry e w) r
  | Consumer => count_consumed (entry e w) r
  end.

Lemma analyse_events l : forall ws r b,
  Forall fits l -> length ws = length l ->
  Forall (Forall (fun c => double_char c = true)) ws ->
  counters_below b r -> 0 <= b -> b + Z.of_nat (length l) <= Int32.max_int ->
  exists r',
    analyse (zip_with line l ws) r = Done r' /\
    entries r' = entries r ++ zip_with entry l ws /\
    total_produced r' = total_produced r + Z.of_nat (length (values_of Producer l)) /\
    total_consumed r' = total_consumed r + Z.of_nat (length (values_of Consumer l)) /\
    forall pid,
      producer_wait_count r' !! pid =
      match events_of_producer pid l with
      | [] => producer_wait_count r !! pid
      | es => Some (default 0 (producer_wait_count r !! pid) + Z.of_nat (length es))
      end.
Proof.
  induction l as [|e l IH]; intros ws r b Hl Hlen Hws (Hp & Hc & Hm) Hb Hmax.
  - exists r. simpl. rewrite app_nil_r. repeat split; try done; lia.
  - destruct ws as [|w ws]; [done|].
    apply Forall_cons in Hl as [He Hl]. apply Forall_cons in Hws as [Hw Hws].
    simpl in Hlen. cbn [zip_with analyse]. rewrite line_analysed by done.
    rewrite !values_of_cons.
    assert (default 0 (producer_wait_count r !! Z.of_nat (ev_id e)) <= b) as Hd.
    { destruct (producer_wait_count r !! Z.of_nat (ev_id e)) as [c|] eqn:E; [by eapply Hm|done]. }
    cbn [length] in Hmax.
    destruct (ev_role e) eqn:Er.
    + unfold count_produced, incr.
      rewrite !decide_True by lia. cbn [ran_bind].
      match goal with |- context [analyse _ ?r1] =>
        destruct (IH ws r1 (b + 1)) as (r' & H1 & H2 & H3 & H4 & H5);
          [done|lia|done| |lia|lia|]
      end.
      { split; [cbn; lia|]. split; [cbn; lia|]. cbn. intros pid c.
        destruct (decide (pid = Z.of_nat (ev_id e))) as [->|Hne].
        - rewrite lookup_insert_eq. intros [= <-]. lia.
        - rewrite lookup_insert_ne by done. intros Hc'. apply Hm in Hc'. lia. }
      exists r'. split; [done|]. cbn in H2, H3, H4, H5.
      split; [by rewrite H2, <- app_assoc|].
      rewrite (decide_True (P := Producer = Producer)), (decide_False (P := Producer = Consumer)) by done.
      split; [rewrite H3, length_app; simpl; lia|].
      split; [rewrite H4, length_app; simpl; lia|].
      intros pid. rewrite H5, events_of_producer_cons, Er.
      destruct (decide (pid = Z.of_nat (ev_id e))) as [->|Hne].
      * rewrite decide_True by done. rewrite lookup_insert_eq. cbn [app default from_option id].
        destruct (events_of_producer (Z.of_nat (ev_id e)) l) as [|e1 es]; cbn [length]; f_equal; lia.
      * rewrite decide_False by (intros [_ ?]; done).
        rewrite lookup_insert_ne by done. done.
    + unfold count_consumed, incr.
      rewrite !decide_True by lia. cbn [ran_bind].
      match goal with |- context [analyse _ ?r1] =>
        destruct (IH ws r1 (b + 1)) as (r' & H1 & H2 & H3 & H4 & H5);
          [done|lia|done| |lia|lia|]
      end.
      { split; [cbn; lia|]. split; [cbn; lia|]. cbn. intros pid c Hc'.
        apply Hm in Hc'. lia. }
      exists r'. split; [done|]. cbn in H2, H3, H4, H5.
      split; [by rewrite H2, <- app_assoc|].
      rewrite (decide_False (P := Consumer = Producer)), (decide_True (P := Consumer = Consumer)) by done.
      split; [rewrite H3, length_app; simpl; lia|].
      split; [rewrite H4, length_app; simpl; lia|].
      intros pid. rewrite H5, events_of_producer_cons, Er.
      rewrite decide_False by (intros [? _]; done). done.
Qed.

End analysis_of_a_log.

Lemma peak_loop_bounds es : forall buffer_count peak_buffer,
  let final := buffer_count + sumZ (fun e => if is_produce e then 1 else -1) es in
  let most := buffer_count + sumZ (fun e => if is_produce e then 1 else 0) es in
  Z.abs buffer_count + Z.of_nat (length es) <= Int32.max_int ->
  exists peak,
    peak_loop es buffer_count peak_buffer = Done peak /\
    peak_buffer <= peak /\
    (buffer_count <= peak_buffer -> final <= peak) /\
    peak <= Z.max peak_buffer most.
Proof.
  induction es as [|e es IH]; intros bc pk; cbn zeta; intros Hmax.
  - exists pk. simpl. split; [done|]. lia.
  - cbn [peak_loop sumZ foldr length] in *.
    fold (sumZ (fun e => if is_produce e then 1 else -1) es).
    fold (sumZ (fun e => if is_produce e then 1 else 0) es).
    set (bc' := bc + (if is_produce e then 1 else -1)).
    assert (Z.abs bc' <= Z.abs bc + 1) as Habs by (unfold bc'; destruct (is_produce e); lia).
    unfold add_int. fold bc'. rewrite decide_True
      by (unfold Int32.in_range, Int32.min_int, Int32.max_int in *; lia).
    cbn [ran_bind].
    set (pk' := if decide (bc' > pk) then bc' else pk).
    destruct (IH bc' pk') as (peak & H0 & H1 & H3 & H4); [lia|]. cbn zeta in *.
    exists peak. split; [done|].
    assert (bc' <= pk' /\ pk <= pk') as [Hbp Hpp].
    { unfold pk'. destruct (decide (bc' > pk)); lia. }
    assert (pk' <= Z.max pk bc') as Hpm.
    { unfold pk'. destruct (decide (bc' > pk)); lia. }
    specialize (H3 Hbp).
    assert (0 <= sumZ (fun e => if is_produce e then 1 else 0) es) as Hnn.
    { clear. induction es as [|e es IH]; simpl; [done|]. destruct (is_produce e); lia. }
    unfold bc' in *. destruct (is_produce e); lia.
Qed.

Lemma sumZ_perm {A} (f : A -> Z) l1 l2 : l1 ≡ₚ l2 -> sumZ f l1 = sumZ f l2.
Proof. induction 1; simpl in *; lia. Qed.

Lemma events_counted (entry : Event -> text -> LogEntry) l : forall ws,
  (forall e w, is_produce (entry e w) = bool_decide (ev_role e = Producer)) ->
  length ws = length l ->
  sumZ (fun e => if is_produce e then 1 else -1) (zip_with entry l ws) = log_balance l /\
  sumZ (fun e => if is_produce e then 1 else 0) (zip_with entry l ws) =
    Z.of_nat (length (values_of Producer l)).
Proof.
  intros ws Hentry. revert ws. unfold log_balance.
  induction l as [|e l IH]; intros ws Hlen; [done|].
  destruct ws as [|w ws]; [done|]. simpl in Hlen.
  destruct (IH ws ltac:(lia)) as [IH1 IH2].
  cbn [zip_with sumZ foldr]. fold (sumZ (fun e => if is_produce e then 1 else -1) (zip_with entry l ws)).
  fold (sumZ (fun e => if is_produce e then 1 else 0) (zip_with entry l ws)).
  rewrite IH1, IH2, Hentry, !values_of_cons, !length_app.
  destruct (ev_role e); simpl; lia.
Qed.

Lemma counters_start : counters_below 0 analysis_start.
Proof.
  split; [done|]. split; [done|]. intros pid c.
  cbn [analysis_start producer_wait_count]. by rewrite lookup_empty.
Qed.

Lemma count_of_start l pid :
  match events_of_producer pid l with
  | [] => producer_wait_count analysis_start !! pid
  | es => Some (default 0 (producer_wait_count analysis_start !! pid) + Z.of_nat (length es))
  end = count_of l pid.
Proof.
  unfold count_of. cbn [analysis_start producer_wait_count]. rewrite lookup_empty.
  by destruct (events_of_producer pid l).
Qed.

Lemma analyse_lines (l : list Event) (ws : list text) :
  Forall fits l -> length ws = length l ->
  Forall (Forall (fun c => double_char c = true)) ws ->
  Z.of_nat (length l) <= Int32.max_int ->
  exists r,
    analyse (zip_with line_of l ws) analysis_start = Done r /\
    entries r = zip_with entry_of l ws /\
    total_produced r = Z.of_nat (length (values_of Producer l)) /\
    total_consumed r = Z.of_nat (length (values_of Consumer l)) /\
    (forall pid, producer_wait_count r !! pid = count_of l pid).
Proof.
  intros Hl Hlen Hws Hmax.
  destruct (analyse_events line_of entry_of) with (l := l) (ws := ws)
    (r := analysis_start) (b := 0) as (r & H1 & H2 & H3 & H4 & H5);
    [|done|done|done|apply counters_start|done|lia|].
  { intros e w r0 (Hts & Hid & Hv) Hw. unfold line_of, entry_of.
    destruct (ev_role e).
    - by apply produce_line_analysed.
    - by apply consume_line_analysed. }
  cbn [analysis_start entries total_produced total_consumed app] in H2, H3, H4.
  exists r. split; [done|]. split; [done|]. split; [done|]. split; [done|].
  intros pid; rewrite H5; apply count_of_start.
Qed.

Lemma peak_of_entries (l : list Event) (ws : list text) es :
  length ws = length l -> es ≡ₚ zip_with entry_of l ws ->
  Z.of_nat (length l) <= Int32.max_int ->
  exists peak,
    peak_loop es 0 0 = Done peak /\
    0 <= peak /\ log_balance l <= peak <= Z.of_nat (length (values_of Producer l)).
Proof.
  intros Hlen Hperm Hmax.
  destruct (events_counted entry_of l ws) as [Hbal Hmost]; [done|done|].
  destruct (peak_loop_bounds es 0 0) as (peak & Hp0 & Hp1 & Hp2 & Hp3).
  { rewrite Hperm, length_zip_with. simpl. lia. }
  cbn zeta in *.
  rewrite (sumZ_perm _ _ _ Hperm), Hbal in Hp2.
  rewrite (sumZ_perm _ _ _ Hperm), Hmost in Hp3.
  exists peak. split; [done|]. lia.
Qed.

(** The analysis of the log in [main] of [InfiniteBuffer.cpp], run on the
    lines that [produce] and [consume] wrote: no exception and no overflow,
    as long as the numbers fit their types and the lines are fewer than
    2^31.  There is one entry for each event, with its timestamp and the
    text of its wait; [total_produced] and [total_consumed] count the
    Producer and the Consumer events; [producer_wait_count] has for each
    producer id the number of its events; and, however [sort] leaves the
    entries, the loop for [peak_buffer] ends without overflow, with a
    number that is not negative, not less than the final size and not more
    than [total_produced]. *)
Theorem report_of_the_log (l : list Event) (ws : list text) :
  Forall fits l -> length ws = length l ->
  Forall (Forall (fun c => double_char c = true)) ws ->
  Z.of_nat (length l) <= Int32.max_int ->
  exists r,
    analyse (zip_with line_of l ws) analysis_start = Done r /\
    entries r = zip_with entry_of l ws /\
    total_produced r = Z.of_nat (length (values_of Producer l)) /\
    total_consumed r = Z.of_nat (length (values_of Consumer l)) /\
    total_produced r - total_consumed r = log_balance l /\
    (forall pid, producer_wait_count r !! pid = count_of l pid) /\
    (forall es, sorted_by_timestamp (entries r) es ->
       exists peak, peak_loop es 0 0 = Done peak /\
         0 <= peak /\ log_balance l <= peak <= total_produced r).
Proof.
  intros Hl Hlen Hws Hmax.
  destruct (analyse_lines l ws Hl Hlen Hws Hmax) as (r & H1 & H2 & H3 & H4 & H5).
  exists r. split; [done|]. split; [done|]. split; [done|]. split; [done|].
  split; [unfold log_balance; lia|]. split; [done|].
  intros es [Hperm _]. rewrite H2 in Hperm. rewrite H3.
  by apply (peak_of_entries l ws).
Qed.

Lemma report_of_the_log_witness :
  exists r,
    analyse
      [str "[12us] Producer 1 produced: 1000 | Waited: 0.000000ms";
       str "[15us] Consumer 2 consumed: 1000 | Waited: 0.003000ms";
       str "[16us] Producer 1 produced: 1001 | Waited: 0.000100ms"] analysis_start = Done r /\
    total_produced r = 2 /\ total_consumed r = 1 /\
    producer_wait_count r !! 1 = Some 2.
Proof.
  destruct (report_of_the_log
    [mkEvent 12 Producer 1 1000 0; mkEvent 15 Consumer 2 1000 3;
     mkEvent 16 Producer 1 1001 0]
    [str "0.000000"; str "0.003000"; str "0.000100"])
    as (r & H1 & _ & H3 & H4 & _ & H6 & _).
  - repeat constructor; by vm_compute.
  - reflexivity.
  - repeat constructor; by vm_compute.
  - by vm_compute.
  - exists r. split; [exact H1|]. split; [exact H3|]. split; [exact H4|]. exact (H6 1).
Defined.

(** *** The analysis of the log in [main] of [FiniteBuffer.cpp]

    The loop of this [main] has no [entries.push_back]: [entries] stays
    empty, and the wait of a line goes only to the sums and the maxima,
    which are [double]s.  The type is kept abstract here, with the
    operations that the loop uses on it. *)

Section analysis_of_the_bounded_log.

(** [double], [0.0], [a + b], [a < b], and the number that
    [stringstream ss(t); ss >> wait_ms;] reads from [t]. *)
Variable double : Type.
Variable zero : double.
Variable add : double -> double -> double.
Variable less : double -> double -> bool.
Variable extract : text -> double.

(** [0.0 + 0.0] is [0.0]. *)
Hypothesis add_zero : add zero zero = zero.

(** The variables of [main] that the loop writes. *)
Record fb_analysis := mkFbAnalysis {
  fb_total_produced : Z;
  fb_total_consumed : Z;
  fb_total_producer_wait : double;
  fb_total_consumer_wait : double;
  fb_max_producer_wait : double;
  fb_max_consumer_wait : double;
  fb_producer_wait_sum : gmap Z double;
  fb_producer_wait_count : gmap Z Z;
  fb_producer_wait_max : gmap Z double
}.

(** [std::max(a, b)], which is [(a < b) ? b : a]. *)
Definition std_max (a b : double) : double := if less a b then b else a.

(** The body of the loop [while (getline(log, line))].  For
    [if (wait_ms > m) m = wait_ms;] the comparison is [m < wait_ms];
    [operator[]] of a map gives [0.0], or [0], for a key that is not in
    it. *)
Definition fb_analyse_line (line : text) (r : fb_analysis) : ran fb_analysis :=
  match find (str "[") line, find (str "us]") line with
  | Some ts_start, Some ts_end =>
      timestamp ←← thrown (stoll
        (substr (ts_start + 1)
           (size_t_sub (size_t_sub (Z.of_nat ts_end) (Z.of_nat ts_start)) 1) line));
      let is_produce := bool_decide (is_Some (find (str "produced") line)) in
      wait_ms ←← match find (str "Waited:") line with
                 | Some wait_pos =>
                     t ←← thrown (substr_from (wait_pos + 8) line); Done (extract t)
                 | None => Done zero
                 end;
      if is_produce then
        produced ←← incr (fb_total_produced r);
        let total := add (fb_total_producer_wait r) wait_ms in
        let most :=
          if less (fb_max_producer_wait r) wait_ms then wait_ms
          else fb_max_producer_wait r in
        match find (str "Producer ") line with
        | Some pid_pos =>
            t ←← thrown (substr_from (pid_pos + 9) line);
            pid ←← thrown (stoi t);
            count ←← incr (default 0 (fb_producer_wait_count r !! pid));
            Done (mkFbAnalysis produced (fb_total_consumed r)
                    total (fb_total_consumer_wait r) most (fb_max_consumer_wait r)
                    (<[pid := add (default zero (fb_producer_wait_sum r !! pid)) wait_ms]>
                       (fb_producer_wait_sum r))
                    (<[pid := count]> (fb_producer_wait_count r))
                    (<[pid := std_max (default zero (fb_producer_wait_max r !! pid)) wait_ms]>
                       (fb_producer_wait_max r)))
        | None =>
            Done (mkFbAnalysis produced (fb_total_consumed r)
                    total (fb_total_consumer_wait r) most (fb_max_consumer_wait r)
                    (fb_producer_wait_sum r) (fb_producer_wait_count r)
                    (fb_producer_wait_max r))
        end
      else
        consumed ←← incr (fb_total_consumed r);
        Done (mkFbAnalysis (fb_total_produced r) consumed
                (fb_total_producer_wait r) (add (fb_total_consumer_wait r) wait_ms)
                (fb_max_producer_wait r)
                (if less (fb_max_consumer_wait r) wait_ms then wait_ms
                 else fb_max_consumer_wait r)
                (fb_producer_wait_sum r) (fb_producer_wait_count r)
                (fb_producer_wait_max r))
  | _, _ => Done r
  end.

Fixpoint fb_analyse (lines : list text) (r : fb_analysis) : ran fb_analysis :=
  match lines with
  | [] => Done r
  | line :: lines' => r' ←← fb_analyse_line line r; fb_analyse lines' r'
  end.

(** The variables as [main] declares them. *)
Definition fb_analysis_start : fb_analysis :=
  mkFbAnalysis 0 0 zero zero zero zero ∅ ∅ ∅.

(** What the body of the loop does with a line that holds no wait, of a
    producer whose id it reads, and of a consumer. *)
Definition fb_count_produced (pid : Z) (r : fb_analysis) : ran fb_analysis :=
  produced ←← incr (fb_total_produced r);
  count ←← incr (default 0 (fb_producer_wait_count r !! pid));
  Done (mkFbAnalysis produced (fb_total_consumed r)
          (add (fb_total_producer_wait r) zero) (fb_total_consumer_wait r)
          (if less (fb_max_producer_wait r) zero then zero else fb_max_producer_wait r)
          (fb_max_consumer_wait r)
          (<[pid := add (default zero (fb_producer_wait_sum r !! pid)) zero]>
             (fb_producer_wait_sum r))
          (<[pid := count]> (fb_producer_wait_count r))
          (<[pid := std_max (default zero (fb_producer_wait_max r !! pid)) zero]>
             (fb_producer_wait_max r))).

Definition fb_count_consumed (r : fb_analysis) : ran fb_analysis :=
  consumed ←← incr (fb_total_consumed r);
  Done (mkFbAnalysis (fb_total_produced r) consumed
          (fb_total_producer_wait r) (add (fb_total_consumer_wait r) zero)
          (fb_max_producer_wait r)
          (if less (fb_max_consumer_wait r) zero then zero else fb_max_consumer_wait r)
          (fb_producer_wait_sum r) (fb_producer_wait_count r)
          (fb_producer_wait_max r)).

(** No counter of the analysis is above [b]. *)
Definition fb_counters_below (b : Z) (r : fb_analysis) : Prop :=
  fb_total_produced r <= b /\ fb_total_consumed r <= b /\
  forall pid c, fb_producer_wait_count r !! pid = Some c -> c <= b.

(** Every sum and every maximum of the waits is [0.0], and the maps of the
    waits have the keys of [producer_wait_count]. *)
Definition waits_zero (r : fb_analysis) : Prop :=
  fb_total_producer_wait r = zero /\ fb_total_consumer_wait r = zero /\
  fb_max_producer_wait r = zero /\ fb_max_consumer_wait r = zero /\
  (forall pid, fb_producer_wait_sum r !! pid =
               (fun _ => zero) <$> fb_producer_wait_count r !! pid) /\
  (forall pid, fb_producer_wait_max r !! pid =
               (fun _ => zero) <$> fb_producer_wait_count r !! pid).

Lemma fb_produce_line_analysed ts id item w r :
  in_long_long ts -> Int32.in_range id -> Int32.in_range item ->
  Forall (fun c => double_char c = true) w ->
  fb_analyse_line (fb_produce_line ts id item w) r = fb_count_produced id r.
Proof.
  intros Hts Hid Hitem Hw.
  destruct (fb_produce_line_facts ts id item w Hts Hid Hitem Hw)
    as (H1 & H2 & H3 & [? H4] & H5 & (np & H7 & H8)).
  unfold fb_analyse_line, fb_count_produced.
  rewrite H1, H2, H3, stoll_to_string, H4, H5, H7, H8 by done.
  cbn [thrown ran_bind]. rewrite bool_decide_true by by eexists.
  rewrite stoi_to_string by done. done.
Qed.

Lemma fb_consume_line_analysed ts id item w r :
  in_long_long ts -> Int32.in_range id -> Int32.in_range item ->
  Forall (fun c => double_char c = true) w ->
  fb_analyse_line (fb_consume_line ts id item w) r = fb_count_consumed r.
Proof.
  intros Hts Hid Hitem Hw.
  destruct (fb_consume_line_facts ts id item w Hts Hid Hitem Hw)
    as (H1 & H2 & H3 & H4 & H5).
  unfold fb_analyse_line, fb_count_consumed.
  rewrite H1, H2, H3, stoll_to_string, H4, H5 by done.
  cbn [thrown ran_bind]. rewrite bool_decide_false by by intros [? ?]. done.
Qed.

Lemma greater_of_zeros : (if less zero zero then zero else zero) = zero.
Proof. by destruct (less zero zero). Qed.

Lemma waits_zero_default r pid :
  waits_zero r ->
  default zero (fb_producer_wait_sum r !! pid) = zero /\
  default zero (fb_producer_wait_max r !! pid) = zero.
Proof.
  intros (_ & _ & _ & _ & Hs & Hm). rewrite Hs, Hm.
  by destruct (fb_producer_wait_count r !! pid).
Qed.

Lemma fb_analyse_events l : forall ws r b,
  Forall fits l -> length ws = length l ->
  Forall (Forall (fun c => double_char c = true)) ws ->
  fb_counters_below b r -> waits_zero r ->
  0 <= b -> b + Z.of_nat (length l) <= Int32.max_int ->
  exists r',
    fb_analyse (zip_with fb_line_of l ws) r = Done r' /\
    waits_zero r' /\
    fb_total_produced r' = fb_total_produced r + Z.of_nat (length (values_of Producer l)) /\
    fb_total_consumed r' = fb_total_consumed r + Z.of_nat (length (values_of Consumer l)) /\
    forall pid,
      fb_producer_wait_count r' !! pid =
      match events_of_producer pid l with
      | [] => fb_producer_wait_count r !! pid
      | es => Some (default 0 (fb_producer_wait_count r !! pid) + Z.of_nat (length es))
      end.
Proof.
  induction l as [|e l IH]; intros ws r b Hl Hlen Hws (Hp & Hc & Hm) Hz Hb Hmax.
  - exists r. simpl. repeat split; try done; try lia; apply Hz.
  - destruct ws as [|w ws]; [done|].
    apply Forall_cons in Hl as [(Hts & Hid & Hv) Hl]. apply Forall_cons in Hws as [Hw Hws].
    simpl in Hlen. cbn [zip_with fb_analyse]. rewrite !values_of_cons.
    assert (default 0 (fb_producer_wait_count r !! Z.of_nat (ev_id e)) <= b) as Hd.
    { destruct (fb_producer_wait_count r !! Z.of_nat (ev_id e)) as [c|] eqn:E;
        [by eapply Hm|done]. }
    destruct (waits_zero_default r (Z.of_nat (ev_id e)) Hz) as [Ds Dm].
    destruct Hz as (Z1 & Z2 & Z3 & Z4 & Z5 & Z6).
    cbn [length] in Hmax. unfold fb_line_of.
    destruct (ev_role e) eqn:Er.
    + rewrite fb_produce_line_analysed by done.
      unfold fb_count_produced, incr.
      rewrite !decide_True by lia. cbn [ran_bind].
      rewrite Ds, Dm, Z1, Z3. unfold std_max. rewrite greater_of_zeros, add_zero.
      match goal with |- context [fb_analyse _ ?r1] =>
        destruct (IH ws r1 (b + 1)) as (r' & H1 & H2 & H3 & H4 & H5);
          [done|lia|done| | |lia|lia|]
      end.
      { split; [cbn; lia|]. split; [cbn; lia|]. cbn. intros pid c.
        destruct (decide (pid = Z.of_nat (ev_id e))) as [->|Hne].
        - rewrite lookup_insert_eq. intros [= <-]. lia.
        - rewrite lookup_insert_ne by done. intros Hc'. apply Hm in Hc'. lia. }
      { repeat split; try done; cbn; intros pid;
          (destruct (decide (pid = Z.of_nat (ev_id e))) as [->|Hne];
           [by rewrite !lookup_insert_eq|by rewrite !lookup_insert_ne]). }
      exists r'. split; [done|]. split; [done|]. cbn in H3, H4, H5.
      rewrite (decide_True (P := Producer = Producer)),
        (decide_False (P := Producer = Consumer)) by done.
      split; [rewrite H3, length_app; simpl; lia|].
      split; [rewrite H4, length_app; simpl; lia|].
      intros pid. rewrite H5, events_of_producer_cons, Er.
      destruct (decide (pid = Z.of_nat (ev_id e))) as [->|Hne].
      * rewrite decide_True by done. rewrite lookup_insert_eq. cbn [app default from_option id].
        destruct (events_of_producer (Z.of_nat (ev_id e)) l) as [|e1 es]; cbn [length];
          f_equal; lia.
      * rewrite decide_False by (intros [_ ?]; done).
        rewrite lookup_insert_ne by done. done.
    + rewrite fb_consume_line_analysed by done.
      unfold fb_count_consumed, incr.
      rewrite !decide_True by lia. cbn [ran_bind].
      rewrite Z2, Z4, greater_of_zeros, add_zero.
      match goal with |- context [fb_analyse _ ?r1] =>
        destruct (IH ws r1 (b + 1)) as (r' & H1 & H2 & H3 & H4 & H5);
          [done|lia|done| | |lia|lia|]
      end.
      { split; [cbn; lia|]. split; [cbn; lia|]. cbn. intros pid c Hc'.
        apply Hm in Hc'. lia. }
      { by repeat split. }
      exists r'. split; [done|]. split; [done|]. cbn in H3, H4, H5.
      rewrite (decide_False (P := Consumer = Producer)),
        (decide_True (P := Consumer = Consumer)) by done.
      split; [rewrite H3, length_app; simpl; lia|].
      split; [rewrite H4, length_app; simpl; lia|].
      intros pid. rewrite H5, events_of_producer_cons, Er.
      rewrite decide_False by (intros [? _]; done). done.
Qed.

Lemma fb_analyse_lines (l : list Event) (ws : list text) :
  Forall fits l -> length ws = length l ->
  Forall (Forall (fun c => double_char c = true)) ws ->
  Z.of_nat (length l) <= Int32.max_int ->
  exists r,
    fb_analyse (zip_with fb_line_of l ws) fb_analysis_start = Done r /\
    waits_zero r /\
    fb_total_produced r = Z.of_nat (length (values_of Producer l)) /\
    fb_total_consumed r = Z.of_nat (length (values_of Consumer l)) /\
    (forall pid, fb_producer_wait_count r !! pid = count_of l pid).
Proof.
  intros Hl Hlen Hws Hmax.
  destruct (fb_analyse_events l ws fb_analysis_start 0)
    as (r & H1 & H2 & H3 & H4 & H5); [done|done|done| | |done|lia|].
  { split; [done|]. split; [done|]. intros pid c. cbn. by rewrite lookup_empty. }
  { repeat split; try done; intros pid; cbn; by rewrite !lookup_empty. }
  cbn [fb_analysis_start fb_total_produced fb_total_consumed fb_producer_wait_count]
    in H3, H4, H5.
  exists r. split; [done|]. split; [done|]. split; [done|]. split; [done|].
  intros pid. rewrite H5. unfold count_of. rewrite lookup_empty.
  by destruct (events_of_producer pid l).
Qed.

(** The analysis of the log in [main] of [FiniteBuffer.cpp], run on the
    lines that its [produce] and [consume] wrote: no exception and no
    overflow, as long as the numbers fit their types and the lines are
    fewer than 2^31.  [total_produced] and [total_consumed] count the
    Producer and the Consumer events, and [producer_wait_count] has for
    each producer id the number of its events.  No line holds the text
    [Waited:], so the wait of every line is the [0.0] that [wait_ms]
    starts with: the two sums and the two maxima of the waits end at
    [0.0], and so do the sum and the maximum of every producer that has a
    line. *)
Theorem bounded_report_of_the_log (l : list Event) (ws : list text) :
  Forall fits l -> length ws = length l ->
  Forall (Forall (fun c => double_char c = true)) ws ->
  Z.of_nat (length l) <= Int32.max_int ->
  exists r,
    fb_analyse (zip_with fb_line_of l ws) fb_analysis_start = Done r /\
    fb_total_produced r = Z.of_nat (length (values_of Producer l)) /\
    fb_total_consumed r = Z.of_nat (length (values_of Consumer l)) /\
    (forall pid, fb_producer_wait_count r !! pid = count_of l pid) /\
    fb_total_producer_wait r = zero /\ fb_total_consumer_wait r = zero /\
    fb_max_producer_wait r = zero /\ fb_max_consumer_wait r = zero /\
    (forall pid, fb_producer_wait_sum r !! pid = (fun _ => zero) <$> count_of l pid) /\
    (forall pid, fb_producer_wait_max r !! pid = (fun _ => zero) <$> count_of l pid).
Proof.
  intros Hl Hlen Hws Hmax.
  destruct (fb_analyse_lines l ws Hl Hlen Hws Hmax)
    as (r & H1 & (Z1 & Z2 & Z3 & Z4 & Z5 & Z6) & H3 & H4 & H5).
  exists r. do 8 (split; [done|]).
  split; intros pid; [rewrite Z5|rewrite Z6]; by rewrite H5.
Qed.

End analysis_of_the_bounded_log.

Global Arguments fb_total_produced {double} _.
Global Arguments fb_total_consumed {double} _.
Global Arguments fb_total_producer_wait {double} _.
Global Arguments fb_total_consumer_wait {double} _.
Global Arguments fb_max_producer_wait {double} _.
Global Arguments fb_max_consumer_wait {double} _.
Global Arguments fb_producer_wait_sum {double} _.
Global Arguments fb_producer_wait_count {double} _.
Global Arguments fb_producer_wait_max {double} _.

Lemma bounded_report_of_the_log_witness :
  exists r,
    fb_analyse Z 0 Z.add Z.ltb (fun _ => 0)
      [str "[12us] Producer 1 waited for 0.000000ms and produced: 1000";
       str "[15us] Consumer 2 waited for 0.003000ms and consumed: 1000"]
      (fb_analysis_start Z 0) = Done r /\
    fb_total_produced r = 1 /\ fb_total_consumed r = 1 /\
    fb_total_producer_wait r = 0 /\ fb_total_consumer_wait r = 0 /\
    fb_producer_wait_sum r !! 1 = Some 0.
Proof.
  destruct (bounded_report_of_the_log Z 0 Z.add Z.ltb (fun _ => 0) eq_refl
    [mkEvent 12 Producer 1 1000 0; mkEvent 15 Consumer 2 1000 3]
    [str "0.000000"; str "0.003000"])
    as (r & H1 & H2 & H3 & _ & H5 & H6 & _ & _ & H9 & _).
  - repeat constructor; by vm_compute.
  - reflexivity.
  - repeat constructor; by vm_compute.
  - by vm_compute.
  - exists r. split; [exact H1|]. split; [exact H2|]. split; [exact H3|].
    split; [exact H5|]. split; [exact H6|]. exact (H9 1).
Defined.

End LogText.

(** ** The report of [main] at the end of the run *)

Section report_of_the_run.
Import Stdlib.Strings.String.
Import stdpp.base stdpp.list.
Import LogText.
Local Open Scope Z_scope.

(** The event as its line shows it: the thread started [k]-th has the id
    [k + 1]. *)
Definition shown (e : Event) : Event :=
  mkEvent (ev_timestamp e) (ev_role e) (S (ev_id e)) (ev_value e) (ev_waited e).

Lemma filter_fmap {A B} (f : A -> B) (P : B -> Prop) `{forall x, Decision (P x)} (l : list A) :
  filter P (f <$> l) = f <$> filter (fun a => P (f a)) l.
Proof.
  induction l as [|a l IH]; [done|]. cbn [fmap list_fmap] in *. rewrite !filter_cons, IH.
  by destruct (decide (P (f a))).
Qed.

Lemma values_of_shown r l : values_of r (shown <$> l) = values_of r l.
Proof.
  unfold values_of. rewrite filter_fmap, <- list_fmap_compose.
  done.
Qed.

Lemma events_of_producer_shown k l :
  length (events_of_producer (Z.of_nat (S k)) (shown <$> l)) =
  length (Driver.produced_by k l).
Proof.
  unfold events_of_producer, Driver.produced_by.
  rewrite filter_fmap, !length_fmap. f_equal.
  apply list_filter_iff. intros e. simpl. split; intros [? ?]; split; try done; lia.
Qed.

Lemma events_of_producer_other pid l :
  Forall (fun e => ev_role e = Producer -> (ev_id e < Driver.NUM_PRODUCERS)%nat) l ->
  ~ 1 <= pid <= 5 -> events_of_producer pid (shown <$> l) = [].
Proof.
  intros Hl Hpid. unfold events_of_producer. rewrite filter_fmap.
  rewrite filter_none; [done|].
  eapply Forall_impl; [exact Hl|]. intros e He [Hr Hid]. simpl in *.
  specialize (He Hr). unfold Driver.NUM_PRODUCERS in He. lia.
Qed.

Lemma item_in_range v : v ∈ Driver.all_items -> Int32.in_range v.
Proof.
  intros Hv. apply Driver.all_items_elem in Hv as (k & i & Hk & Hi & ->).
  unfold Int32.in_range, Int32.min_int, Int32.max_int, Driver.item_of, Driver.thread_id,
    Driver.NUM_PRODUCERS, Driver.ITEMS_PER_PRODUCER in *. lia.
Qed.

(** The log of either program when its threads have ended. *)
Record EndLog (l : list Event) : Prop := {
  el_ids_p : Forall (fun e => ev_role e = Producer -> (ev_id e < Driver.NUM_PRODUCERS)%nat) l;
  el_ids_c : Forall (fun e => ev_role e = Consumer -> (ev_id e < Driver.NUM_CONSUMERS)%nat) l;
  el_by : forall k, (k < Driver.NUM_PRODUCERS)%nat ->
    Driver.produced_by k l =
    Driver.item_of (Driver.thread_id k) <$> seq 0 Driver.ITEMS_PER_PRODUCER;
  el_items : values_of Producer l ≡ₚ Driver.all_items;
  el_consumed : length (values_of Consumer l) = 150%nat;
  el_same : values_of Consumer l = values_of Producer l
}.

Lemma end_log_unbounded s :
  Driver.reachable s -> Driver.finished s -> EndLog (InfiniteBuffer.log (Driver.buffer s)).
Proof.
  intros Hr Hf. destruct (Driver.finished_log s Hr Hf) as (Hby & _ & Hperm & HlenC & Heq).
  destruct (Driver.driver_ok s Hr) as [Hb _ _ _ _ Hids _].
  destruct (InfiniteBuffer.ib_return_ok _ _ _ Hb) as [_ _ Hcids _].
  by split.
Qed.

Lemma end_log_bounded s :
  BoundedDriver.reachable s -> BoundedDriver.finished s ->
  EndLog (FiniteBuffer.log (BoundedDriver.buffer s)).
Proof.
  intros Hr Hf.
  destruct (BoundedDriver.bounded_finished_log s Hr Hf) as (Hby & _ & Hperm & HlenC & Heq).
  destruct (BoundedDriver.bounded_driver_ok s Hr) as [Hb _ _ _ _ Hids _].
  destruct (FiniteBuffer.fb_return_ok _ _ _ _ Hb) as [_ _ Hcids _].
  by split.
Qed.

Lemma end_log_fits l bound :
  EndLog l -> Forall (fun e => 0 <= ev_waited e /\ 0 <= ev_timestamp e <= bound) l ->
  bound <= 2 ^ 63 - 1 -> Forall fits (shown <$> l).
Proof.
  intros [Hids Hcids _ Hperm _ Heq] Hlog Hbound.
  apply Forall_fmap, Forall_forall. intros e He.
  rewrite Forall_forall in Hids, Hcids, Hlog.
  specialize (Hids e He). specialize (Hcids e He). destruct (Hlog e He) as [_ Hts].
  assert (ev_value e ∈ values_of (ev_role e) l) as Hv.
  { unfold values_of. apply list_elem_of_fmap. exists e. split; [done|].
    by apply list_elem_of_filter. }
  assert (ev_value e ∈ Driver.all_items) as Hitem.
  { rewrite <- Hperm. destruct (ev_role e); [done|]. by rewrite <- Heq. }
  split; [|split]; simpl.
  - unfold in_long_long. lia.
  - unfold Int32.in_range, Int32.min_int, Int32.max_int, Driver.NUM_PRODUCERS,
      Driver.NUM_CONSUMERS in *.
    destruct (ev_role e); [specialize (Hids eq_refl)|specialize (Hcids eq_refl)]; lia.
  - by apply item_in_range.
Qed.

Lemma end_log_length l : EndLog l -> length l = 300%nat.
Proof.
  intros [_ _ _ Hperm HlenC _].
  assert (length (values_of Producer l) = 150%nat) as HlenP by (by rewrite Hperm).
  rewrite (Driver.length_by_key
             (fun e => match ev_role e with Producer => 0 | Consumer => 1 end)%nat 2 l).
  - unfold values_of in HlenP, HlenC. rewrite length_fmap in HlenP, HlenC. simpl.
    rewrite (list_filter_iff _ (fun e => ev_role e = Producer)),
      (list_filter_iff (fun e => _ = 1%nat) (fun e => ev_role e = Consumer)).
    + rewrite HlenP, HlenC. done.
    + intros e. by destruct (ev_role e).
    + intros e. by destruct (ev_role e).
  - apply Forall_forall. intros e _. destruct (ev_role e); lia.
Qed.

Lemma end_log_counts l pid :
  EndLog l -> count_of (shown <$> l) pid = if decide (1 <= pid <= 5) then Some 30 else None.
Proof.
  intros [Hids _ Hby _ _ _]. unfold count_of.
  destruct (decide (1 <= pid <= 5)) as [Hpid|Hpid].
  - pose proof (events_of_producer_shown (Z.to_nat (pid - 1)) l) as E.
    replace (Z.of_nat (S (Z.to_nat (pid - 1)))) with pid in E by lia.
    assert (length (Driver.produced_by (Z.to_nat (pid - 1)) l) = 30%nat) as E'.
    { rewrite Hby by (unfold Driver.NUM_PRODUCERS; lia). by rewrite length_fmap, length_seq. }
    rewrite E' in E.
    destruct (events_of_producer pid (shown <$> l)); [done|].
    by rewrite E.
  - by rewrite events_of_producer_other.
Qed.

(** What [main] of [InfiniteBuffer.cpp] finds in the log when all its
    threads have ended, if the run took less than 2^63 microseconds: 300
    entries, 150 items produced and 150 consumed, a final buffer size of 0,
    30 items for each of the producers 1 to 5 and no other producer, and a
    peak buffer size between 0 and 150. *)
Theorem report_at_the_end_of_the_run (s : Driver.state) (ws : list text) :
  Driver.reachable s -> Driver.finished s ->
  InfiniteBuffer.clock (Driver.buffer s) - InfiniteBuffer.start_time (Driver.buffer s)
    <= 2 ^ 63 - 1 ->
  length ws = length (InfiniteBuffer.log (Driver.buffer s)) ->
  Forall (Forall (fun c => double_char c = true)) ws ->
  exists r,
    analyse (zip_with line_of (shown <$> InfiniteBuffer.log (Driver.buffer s)) ws)
      analysis_start = Done r /\
    length (entries r) = 300%nat /\
    total_produced r = 150 /\ total_consumed r = 150 /\
    total_produced r - total_consumed r = 0 /\
    (forall pid,
       producer_wait_count r !! pid = if decide (1 <= pid <= 5) then Some 30 else None) /\
    (forall es, sorted_by_timestamp (entries r) es ->
       exists peak, peak_loop es 0 0 = Done peak /\ 0 <= peak <= 150).
Proof.
  intros Hr Hf Hclock Hlen Hws.
  pose proof (end_log_unbounded s Hr Hf) as Hend.
  destruct (Driver.driver_ok s Hr) as [Hb _ _ _ _ _ _].
  assert (Z.of_nat Driver.NUM_PRODUCERS <= Int32.modulus) as Hn by done.
  destruct (ib_stamps_ok _ _ _ Hn Hb) as [_ Hlog _ _ _ _ _].
  pose proof (end_log_fits _ _ Hend Hlog Hclock) as Hfits.
  pose proof (end_log_length _ Hend) as Hl.
  destruct Hend as [? ? ? Hperm HlenC ?] eqn:Hend'. clear Hend'.
  assert (length (values_of Producer (InfiniteBuffer.log (Driver.buffer s))) = 150%nat)
    as HlenP by (by rewrite Hperm).
  destruct (analyse_lines (shown <$> InfiniteBuffer.log (Driver.buffer s)) ws)
    as (r & H1 & H2 & H3 & H4 & H5);
    [done|by rewrite length_fmap|done|rewrite length_fmap, Hl; done|].
  rewrite values_of_shown in H3, H4. rewrite HlenP in H3. rewrite HlenC in H4.
  exists r. split; [done|].
  split; [rewrite H2, length_zip_with, length_fmap; lia|].
  split; [done|]. split; [done|]. split; [lia|]. split.
  - intros pid. rewrite H5. by apply end_log_counts.
  - intros es [Hperm' _]. rewrite H2 in Hperm'.
    destruct (peak_of_entries (shown <$> InfiniteBuffer.log (Driver.buffer s)) ws es)
      as (peak & P0 & P1 & P2 & P3);
      [by rewrite length_fmap|done|rewrite length_fmap, Hl; done|].
    rewrite values_of_shown, HlenP in P3. exists peak. split; [done|]. lia.
Qed.

Lemma report_at_the_end_of_the_run_witness :
  exists r,
    analyse
      (zip_with line_of
         (shown <$> InfiniteBuffer.log (Driver.buffer (Driver.run_to Driver.whole_run Driver.init)))
         (replicate 300 (str "0.000000"%string))) analysis_start = Done r /\
    total_produced r = 150 /\ total_consumed r = 150.
Proof.
  destruct (report_at_the_end_of_the_run (Driver.run_to Driver.whole_run Driver.init)
              (replicate 300 (str "0.000000"%string)))
    as (r & H1 & _ & H3 & H4 & _).
  - apply Driver.driver_run_to_reachable, Driver.reach_init.
  - split; [split|split]; vm_compute; repeat constructor.
  - by vm_compute.
  - by vm_compute.
  - apply Forall_replicate. repeat constructor.
  - exists r. split; [exact H1|]. split; [exact H3|exact H4].
Defined.

(** What [main] of [FiniteBuffer.cpp] finds in the log when all its threads
    have ended, if the run took less than 2^63 microseconds: 150 items
    produced and 150 consumed; 30 items for each of the producers 1 to 5
    and no other producer; and, as no line holds the text [Waited:], a
    total and a maximum wait of [0.0] for the producers, for the consumers
    and for each of the producers 1 to 5.  ([double] is any type with a
    [0.0] and a sum for which [0.0 + 0.0] is [0.0].) *)
Theorem bounded_report_at_the_end_of_the_run
    (double : Type) (zero : double) (add : double -> double -> double)
    (less : double -> double -> bool) (extract : text -> double)
    (s : BoundedDriver.state) (ws : list text) :
  add zero zero = zero ->
  BoundedDriver.reachable s -> BoundedDriver.finished s ->
  FiniteBuffer.clock (BoundedDriver.buffer s) -
    FiniteBuffer.start_time (BoundedDriver.buffer s) <= 2 ^ 63 - 1 ->
  length ws = length (FiniteBuffer.log (BoundedDriver.buffer s)) ->
  Forall (Forall (fun c => double_char c = true)) ws ->
  exists r,
    fb_analyse double zero add less extract
      (zip_with fb_line_of (shown <$> FiniteBuffer.log (BoundedDriver.buffer s)) ws)
      (fb_analysis_start double zero) = Done r /\
    fb_total_produced r = 150 /\ fb_total_consumed r = 150 /\
    (forall pid,
       fb_producer_wait_count r !! pid =
       if decide (1 <= pid <= 5) then Some 30 else None) /\
    fb_total_producer_wait r = zero /\ fb_total_consumer_wait r = zero /\
    fb_max_producer_wait r = zero /\ fb_max_consumer_wait r = zero /\
    (forall pid,
       fb_producer_wait_sum r !! pid =
       if decide (1 <= pid <= 5) then Some zero else None) /\
    (forall pid,
       fb_producer_wait_max r !! pid =
       if decide (1 <= pid <= 5) then Some zero else None).
Proof.
  intros Hadd Hr Hf Hclock Hlen Hws.
  pose proof (end_log_bounded s Hr Hf) as Hend.
  destruct (BoundedDriver.bounded_driver_ok s Hr) as [Hb _ _ _ _ _ _].
  assert (Z.of_nat Driver.NUM_PRODUCERS <= Int32.modulus) as Hn by done.
  destruct (fb_stamps_ok _ _ _ _ Hn Hb) as [_ Hlog _ _ _ _ _].
  pose proof (end_log_fits _ _ Hend Hlog Hclock) as Hfits.
  pose proof (end_log_length _ Hend) as Hl.
  pose proof (fun pid => end_log_counts _ pid Hend) as Hcounts.
  destruct Hend as [? ? ? Hperm HlenC ?] eqn:Hend'. clear Hend'.
  assert (length (values_of Producer (FiniteBuffer.log (BoundedDriver.buffer s))) = 150%nat)
    as HlenP by (by rewrite Hperm).
  destruct (fb_analyse_lines double zero add less extract Hadd
              (shown <$> FiniteBuffer.log (BoundedDriver.buffer s)) ws)
    as (r & H1 & (Z1 & Z2 & Z3 & Z4 & Z5 & Z6) & H3 & H4 & H5);
    [done|by rewrite length_fmap|done|rewrite length_fmap, Hl; done|].
  rewrite values_of_shown in H3, H4. rewrite HlenP in H3. rewrite HlenC in H4.
  exists r. split; [done|]. split; [done|]. split; [done|].
  split; [intros pid; by rewrite H5|]. do 4 (split; [done|]).
  split; intros pid; [rewrite Z5|rewrite Z6]; rewrite H5, Hcounts;
    by destruct (decide (1 <= pid <= 5)).
Qed.

Lemma bounded_report_at_the_end_of_the_run_witness :
  exists r,
    fb_analyse Z 0 Z.add Z.ltb (fun _ => 0)
      (zip_with fb_line_of
         (shown <$> FiniteBuffer.log
            (BoundedDriver.buffer (BoundedDriver.run_to BoundedDriver.whole_run BoundedDriver.init)))
         (replicate 300 (str "0.000000"%string))) (fb_analysis_start Z 0) = Done r /\
    fb_total_produced r = 150 /\ fb_total_consumed r = 150 /\
    fb_total_producer_wait r = 0 /\ fb_producer_wait_sum r !! 3 = Some 0.
Proof.
  destruct (bounded_report_at_the_end_of_the_run Z 0 Z.add Z.ltb (fun _ => 0)
              (BoundedDriver.run_to BoundedDriver.whole_run BoundedDriver.init)
              (replicate 300 (str "0.000000"%string)))
    as (r & H1 & H2 & H3 & _ & H5 & _ & _ & _ & H9 & _).
  - reflexivity.
  - apply BoundedDriver.bounded_run_to_reachable, BoundedDriver.reach_init.
  - split; [split|split]; vm_compute; repeat constructor.
  - by vm_compute.
  - by vm_compute.
  - apply Forall_replicate. repeat constructor.
  - exists r. split; [exact H1|]. split; [exact H2|]. split; [exact H3|].
    split; [exact H5|]. exact (H9 3).
Defined.

End report_of_the_run.
